(** * IncNavierStokes: time advancement, sub-stepping and stability control

    A shallow embedding of the temporal orchestration implemented in
    [solvers/HomogeneousBloodFlowSolver/EquationSystems/IncNavierStokes.cpp].

    Conventions.
    - [NekDouble] is idealised as an exact rational [Q], compared with
      [==]: the value of an arithmetic expression is its exact value, and
      rounding error is outside the model.  The square root of the maths
      library, which has no exact counterpart on [Q], is one of the
      external collaborators.
    - Where this file turns a [NekDouble] into a discrete outcome through
      arithmetic of its own, the arithmetic is that of IEEE 754 binary64
      on the type [double]: the conversion [(int)(m_timestep/dt)] that
      counts the sub-steps, and the comparison
      [fabs(L2-previousL2) < ncoeffs*m_steadyStateTol] of the steady-state
      check with the sums that lead to it.  There every operation rounds
      its exact result to the nearest [double], ties to even, with
      gradual underflow and overflow to an infinity.  A zero carries no
      sign: no outcome of this file depends on it.  The stable step of
      the estimator is a [double] as well, since a velocity at rest makes
      it infinite.
    - [int] is an unbounded [Z] (or [nat] for counts and indices that the
      code only ever uses non-negatively), except in the conversion from
      [double] and the increment that follows it, where the 32-bit range
      decides between a value and undefined behaviour.
    - [Array<OneD, T>] is a [list T]; an access outside the array is
      undefined behaviour in the source and is kept visible as the
      [Undefined] outcome of [result].
    - [ASSERTL0] aborts the run: the [Fatal] outcome of [result], carrying the
      message. *)

From Stdlib Require Import ZArith QArith Qround Qabs Qpower Lia Lqa Bool String Ascii.
From stdpp Require Import base option list gmap.

Set Default Proof Using "Type".

(** ** Outcomes of fallible code *)

Inductive result (A : Type) : Type :=
| Ok (a : A)
| Fatal (msg : string)
| Undefined.
Arguments Ok {A} a.
Arguments Fatal {A} msg.
Arguments Undefined {A}.

#[global] Instance result_ret : MRet result := @Ok.
#[global] Instance result_bind : MBind result := λ A B k r,
  match r with
  | Ok a => k a
  | Fatal msg => Fatal msg
  | Undefined => Undefined
  end.

(** [a[i]]: reading an array element; outside the array the behaviour is
    undefined. *)
Definition rd {A} (a : list A) (i : nat) : result A :=
  match a !! i with
  | Some x => Ok x
  | None => Undefined
  end.

(** [a[i] = x]: writing an array element. *)
Definition wr {A} (a : list A) (i : nat) (x : A) : result (list A) :=
  if decide (i < length a)%nat then Ok (<[i:=x]> a) else Undefined.

(** ** Scalars *)

(** [x < y] on [NekDouble]. *)
Definition Qltb (x y : Q) : bool := negb (Qle_bool y x).

(** ** IEEE 754 double precision *)

(** [floor (log2 x)] for a positive [x]. *)
Definition binade (x : Q) : Z :=
  let e := (Z.log2 (Qnum x) - Z.log2 (Zpos (Qden x)))%Z in
  if Qle_bool (2 ^ e) x then e else (e - 1)%Z.

(** The integer nearest to [m], the even one of two that are as near. *)
Definition round_even (m : Q) : Z :=
  let f := Qfloor m in
  match (m - inject_Z f ?= 1 # 2)%Q with
  | Lt => f
  | Gt => (f + 1)%Z
  | Eq => if Z.even f then f else (f + 1)%Z
  end.

(** The exponent of the spacing of the doubles around [x]: 53 significant
    bits, and from the exponent -1022 down the fixed spacing [2^-1074]
    (gradual underflow). *)
Definition ulp_exp (x : Q) : Z := (Z.max (binade (Qabs x)) (-1022) - 52)%Z.

(** Rounding to nearest, ties to even, as every IEEE operation does to
    its exact result; upwards the exponent is not bounded here, see
    [fl].  The result is in lowest terms. *)
Definition RN (x : Q) : Q :=
  let x := Qred x in
  if Qeq_bool x 0 then 0%Q else
  let s := ulp_exp x in
  Qred (inject_Z (round_even (x / 2 ^ s)) * 2 ^ s).

(** A [double]: a finite value, an infinity or a NaN. *)
Inductive double : Type := Val (q : Q) | PInf | NInf | NaN.

(** The [double] an exact result [x] is delivered as: a rounded value from
    [2^1024] on is an infinity. *)
Definition fl (x : Q) : double :=
  let y := RN x in
  if Qle_bool (2 ^ 1024) (Qabs y) then (if Qle_bool 0 y then PInf else NInf)
  else Val y.

(** [-a], [a + b], [a - b], [a * b], [a / b], [fabs(a)] and [a < b] on
    [double]. *)
Definition dneg (a : double) : double :=
  match a with
  | Val x => Val (- x)
  | PInf => NInf
  | NInf => PInf
  | NaN => NaN
  end.

Definition dadd (a b : double) : double :=
  match a, b with
  | NaN, _ | _, NaN => NaN
  | PInf, NInf | NInf, PInf => NaN
  | PInf, _ | _, PInf => PInf
  | NInf, _ | _, NInf => NInf
  | Val x, Val y => fl (x + y)
  end.

Definition dsub (a b : double) : double := dadd a (dneg b).

Definition dmul (a b : double) : double :=
  match a, b with
  | NaN, _ | _, NaN => NaN
  | Val x, Val y => fl (x * y)
  | Val x, PInf | PInf, Val x =>
      match (x ?= 0)%Q with Eq => NaN | Gt => PInf | Lt => NInf end
  | Val x, NInf | NInf, Val x =>
      match (x ?= 0)%Q with Eq => NaN | Gt => NInf | Lt => PInf end
  | PInf, PInf | NInf, NInf => PInf
  | PInf, NInf | NInf, PInf => NInf
  end.

(** A zero divisor is taken as [+0]; where this file divides by a zero of
    either sign, the quotient goes to [(int)], which is undefined for both
    infinities. *)
Definition ddiv (a b : double) : double :=
  match a, b with
  | NaN, _ | _, NaN => NaN
  | Val x, Val y =>
      if Qeq_bool y 0 then
        match (x ?= 0)%Q with Eq => NaN | Gt => PInf | Lt => NInf end
      else fl (x / y)
  | Val _, (PInf | NInf) => Val 0
  | PInf, Val y => if Qle_bool 0 y then PInf else NInf
  | NInf, Val y => if Qle_bool 0 y then NInf else PInf
  | (PInf | NInf), (PInf | NInf) => NaN
  end.

Definition dabs (a : double) : double :=
  match a with
  | Val x => Val (Qabs x)
  | PInf | NInf => PInf
  | NaN => NaN
  end.

Definition dltb (a b : double) : bool :=
  match a, b with
  | NaN, _ | _, NaN => false
  | Val x, Val y => Qltb x y
  | _, NInf => false
  | PInf, _ => false
  | NInf, _ => true
  | Val _, PInf => true
  end.

(** ** [int] *)

(** The values of a 32-bit [int]. *)
Definition fits_int (z : Z) : bool :=
  (-2147483648 <=? z)%Z && (z <=? 2147483647)%Z.

(** The C++ conversion [(int) x]: truncation toward zero; the behaviour is
    undefined when the truncated value is not an [int], so for an
    infinity and for a NaN. *)
Definition int_cast (x : double) : result Z :=
  match x with
  | Val q =>
      let z := Z.quot (Qnum q) (Zpos (Qden q)) in
      if fits_int z then Ok z else Undefined
  | _ => Undefined
  end.

(** [a + b] on [int]; a signed overflow is undefined behaviour. *)
Definition int_add (a b : Z) : result Z :=
  if fits_int (a + b) then Ok (a + b)%Z else Undefined.

(** ** Sub-step count ([SubStepAdvance], lines 741-747) *)

(** [nsubsteps = (m_timestep > dt)? ((int)(m_timestep/dt)+1):1;
     nsubsteps = max(minsubsteps, nsubsteps);] *)
Definition nsubsteps (m_timestep : Q) (dt : double) (minsubsteps : Z)
    : result Z :=
  n ← (if dltb dt (Val m_timestep)
       then c ← int_cast (ddiv (Val m_timestep) dt); int_add c 1
       else Ok 1%Z);
  Ok (Z.max minsubsteps n).

(** [dt = m_timestep/nsubsteps;]  (With [nsubsteps = 0] the source has an
    infinity or a NaN here, and runs no sub-step with it.) *)
Definition dt_sub (m_timestep : Q) (nsubsteps : Z) : Q :=
  m_timestep / inject_Z nsubsteps.

(** The count as the specification words it, with a ceiling. *)
Definition nsubsteps_ceil (outerDt dtInner : Q) (minimum : Z) : Z :=
  let n := if Qltb dtInner outerDt then Qceiling (outerDt / dtInner)
           else 1%Z in
  Z.max n minimum.

(** ** Loops *)

(** [for (i = ...; ...; ...) body]: the loop body run at each index of [ix]
    in turn, threading the mutable state [s]; the first undefined access or
    fatal assertion ends the run. *)
Fixpoint for_each {S : Type} (ix : list nat) (body : nat -> S -> result S)
    (s : S) : result S :=
  match ix with
  | [] => Ok s
  | i :: ix' => s' ← body i s; for_each ix' body s'
  end.

(** Indices of [for (i = a; i < b; ++i)]. *)
Definition upto (a b : nat) : list nat := seq a (b - a).

(** Indices of [for (i = b; i > a; --i)]. *)
Definition downto (b a : nat) : list nat := rev (seq (S a) (b - a)).

(** ** Vmath and BLAS kernels on [Array<OneD, NekDouble>] *)

(** Every kernel touches the first [n] entries of its arguments; an argument
    shorter than [n] is an out-of-bounds access. *)
Definition fits {A} (n : nat) (x : list A) : bool := bool_decide (n ≤ length x).

(** [Vmath::Vcopy(n, x, 1, y, 1)]: [y[k] = x[k]] for [k < n]. *)
Definition Vcopy (n : nat) (x y : list Q) : result (list Q) :=
  if fits n x && fits n y then Ok (take n x ++ drop n y) else Undefined.

(** [Vmath::Smul(n, a, x, 1, y, 1)]: [y[k] = a * x[k]] for [k < n]. *)
Definition Smul (n : nat) (a : Q) (x y : list Q) : result (list Q) :=
  if fits n x && fits n y
  then Ok ((Qmult a <$> take n x) ++ drop n y) else Undefined.

(** [Blas::Daxpy(n, a, x, 1, y, 1)]: [y[k] = a * x[k] + y[k]] for [k < n]. *)
Definition Daxpy (n : nat) (a : Q) (x y : list Q) : result (list Q) :=
  if fits n x && fits n y
  then Ok (zip_with (λ xk yk, a * xk + yk)%Q (take n x) (take n y) ++ drop n y)
  else Undefined.

(** [Vmath::Vadd(n, x, 1, y, 1, z, 1)]: [z[k] = x[k] + y[k]] for [k < n]. *)
Definition Vadd (n : nat) (x y z : list Q) : result (list Q) :=
  if fits n x && fits n y && fits n z
  then Ok (zip_with Qplus (take n x) (take n y) ++ drop n z) else Undefined.

(** [Vmath::Dot(n, x, 1, y, 1)]: the sum of [x[k] * y[k]] for [k < n],
    accumulated from [k = 0] on in a [double], one product and one sum
    at a time. *)
Definition Dot (n : nat) (x y : list Q) : result double :=
  if fits n x && fits n y
  then Ok (foldl (λ sum wx, dadd sum (dmul (Val wx.1) (Val wx.2))) (Val 0)
             (zip (take n x) (take n y)))
  else Undefined.

(** ** Fields *)

(** Modelled from the spec: the expansion list class behind [m_fields[i]]
    is library code outside this file.  Per the data model a Field owns a
    physical-space array, a coefficient-space array and a validity flag for
    the physical representation ([SetPhysState]); the homogeneous
    expansions add the wave-space flag ([SetWaveSpace]). *)
Record Field : Type := mkField {
  m_phys : list Q;
  m_coeffs : list Q;
  m_physState : bool;
  m_WaveSpace : bool;
}.

Definition GetTotPoints (f : Field) : nat := length (m_phys f).
Definition GetNcoeffs (f : Field) : nat := length (m_coeffs f).

Definition SetPhysState (b : bool) (f : Field) : Field :=
  mkField (m_phys f) (m_coeffs f) b (m_WaveSpace f).
Definition SetWaveSpace (b : bool) (f : Field) : Field :=
  mkField (m_phys f) (m_coeffs f) (m_physState f) b.
Definition UpdatePhys (p : list Q) (f : Field) : Field :=
  mkField p (m_coeffs f) (m_physState f) (m_WaveSpace f).
Definition UpdateCoeffs (c : list Q) (f : Field) : Field :=
  mkField (m_phys f) c (m_physState f) (m_WaveSpace f).

(** Modelled from the spec: [SetPhys(inarray)] updates the physical values
    of the Field from [inarray] (one value per quadrature point). *)
Definition SetPhys (inarray : list Q) (f : Field) : result Field :=
  p ← Vcopy (GetTotPoints f) inarray (m_phys f); Ok (UpdatePhys p f).

(** ** External collaborators *)

Inductive FieldGroup : Type := gVelocity | gViscoElasticStress | gAggregateSize.

(** The operations this file requires from the discretisation, the
    time-integration schemes, the output sinks and the maths library.  Each
    transform takes the input array and the array it overwrites. *)
Class Collaborators : Type := {
  (** [ExpList::BwdTrans(coeffs, phys)], depending on the wave-space flag *)
  BwdTrans : bool -> list Q -> list Q -> list Q;
  (** [ExpList::FwdTrans_IterPerExp(phys, coeffs)] *)
  FwdTrans_IterPerExp : bool -> list Q -> list Q -> list Q;
  (** [ExpList::HomogeneousFwdTrans(in, out)] *)
  HomogeneousFwdTrans : list Q -> list Q -> list Q;
  (** [sqrt] of the maths library *)
  sqrt : Q -> Q;
  (** multistep solution handles ([TimeIntegrationSolutionSharedPtr]) *)
  Soln : Type;
  (** [m_integrationScheme[k]->InitializeScheme(dt, y0, t, ops)] *)
  InitializeScheme : FieldGroup -> nat -> Q -> list (list Q) -> Q -> Soln;
  (** [m_integrationScheme[k]->TimeIntegrate(dt, soln, ops)]: the operator
      callbacks may update every Field *)
  TimeIntegrate : FieldGroup -> nat -> Q -> Soln -> list Field ->
                  list (list Q) * Soln * list Field;
  (** [soln->UpdateSolutionVector()[m]] and [soln->SetSolVector(m, y)] *)
  UpdateSolutionVector : Soln -> nat -> list (list Q);
  SetSolVector : Soln -> nat -> list (list Q) -> Soln;
  (** one step [m_subStepIntegrationScheme->TimeIntegrate(dt, ...)] of the
      sub-cycle started at time [t], on the arrays of one history slot *)
  SubStepTimeIntegrate : Q -> Q -> list (list Q) -> list (list Q);
  (** [m_fields[i]->HomogeneousEnergy()], the modal energies of one Field *)
  HomogeneousEnergy : Field -> list Q;
  (** the column communicator [m_comm->GetColumnComm()]: [GetRank()],
      [GetSize()], and what [Recv(i, energy)] leaves in the buffer [energy] *)
  ColumnComm_GetRank : nat;
  ColumnComm_GetSize : nat;
  ColumnComm_Recv : nat -> list Q -> list Q;
  (** [L2Error(i, true)] *)
  L2Error : list Field -> nat -> Q;
}.

(** ** Configuration and solver state *)

Inductive EquationType : Type :=
| eNoEquationType | eSteadyStokes | eSteadyOseen | eSteadyLinearisedNS
| eUnsteadyStokes | eUnsteadyLinearisedNS | eUnsteadyNavierStokes
| eSteadyNavierStokes | eUnsteadyViscoElastic.

(** Only [eHomogeneousBloodModel] is named in this file; the other
    constitutive models behave alike here. *)
Inductive ViscoElasticType : Type := eOtherViscoElasticType | eHomogeneousBloodModel.

Inductive HomogeneousType : Type :=
| eHomogeneous1D | eHomogeneous2D | eHomogeneous3D | eNotHomogeneous.

Inductive GeomType : Type := eRegular | eDeformed.

#[global] Instance EquationType_eq_dec : EqDecision EquationType.
Proof. solve_decision. Defined.
#[global] Instance ViscoElasticType_eq_dec : EqDecision ViscoElasticType.
Proof. solve_decision. Defined.
#[global] Instance HomogeneousType_eq_dec : EqDecision HomogeneousType.
Proof. solve_decision. Defined.
#[global] Instance GeomType_eq_dec : EqDecision GeomType.
Proof. solve_decision. Defined.

(** One local expansion [m_fields[0]->GetExp(el)]: its number of quadrature
    points and the geometric factors of its geometry ([GetGtype], [GetGmat],
    a table with one row per factor and one column per point, or a single
    column for a regular element). *)
Record Element : Type := mkElement {
  el_TotPoints : nat;
  el_Gtype : GeomType;
  el_Gmat : list (list Q);
}.

(** Everything that is fixed once the solver is set up. *)
Record Config : Type := mkConfig {
  m_timestep : Q;
  m_intSteps : nat;
  m_spacedim : nat;
  m_expdim : nat;
  m_velocity : list nat;
  m_nConvectiveFields : nat;
  m_nViscoElasticStressFields : nat;
  m_equationType : EquationType;
  m_viscoelasticType : ViscoElasticType;
  m_HomogeneousType : HomogeneousType;
  m_subSteppingScheme : bool;
  m_energysteps : Z;
  m_checksteps : Z;
  m_steadyStateSteps : Z;
  m_steadyStateTol : Q;
  m_cflSafetyFactor : Q;
  MinSubSteps : Z;
  m_filters : nat;
  m_exp : list Element;
  NumExpModesPerExp : list Z;
  m_npointsZ : nat;
}.

(** The function-scope [static] variables of this file, with the values
    their initialisers give them when the process starts. *)
Record Statics : Type := mkStatics {
  nchk : nat;          (* AdvanceInTime *)
  ncalls : nat;        (* SubStepAdvance *)
  previousL2 : double; (* CalcSteadyState *)
}.

Definition statics_init : Statics := mkStatics 0 1 (Val 0).

(** The mutable members of the solver object.  [m_previousVelFields] is an
    array of array handles: assigning one entry to another shares the
    storage, so the handles are kept apart from the storage [m_store] they
    refer to. *)
Record Solver `{!Collaborators} : Type := mkSolver {
  m_fields : list Field;
  m_time : Q;
  m_numstep : nat;
  m_previousVelFields : list nat;
  m_store : gmap nat (list Q);
  m_integrationSoln : Soln;
  m_integrationSoln_viscoelasticstress : Soln;
  m_integrationSoln_aggregatesize : Soln;
}.

Definition set_fields `{!Collaborators} (fs : list Field) (s : Solver) : Solver :=
  mkSolver _ fs (m_time s) (m_numstep s) (m_previousVelFields s) (m_store s)
    (m_integrationSoln s) (m_integrationSoln_viscoelasticstress s)
    (m_integrationSoln_aggregatesize s).
Definition set_time `{!Collaborators} (t : Q) (s : Solver) : Solver :=
  mkSolver _ (m_fields s) t (m_numstep s) (m_previousVelFields s) (m_store s)
    (m_integrationSoln s) (m_integrationSoln_viscoelasticstress s)
    (m_integrationSoln_aggregatesize s).
Definition set_numstep `{!Collaborators} (n : nat) (s : Solver) : Solver :=
  mkSolver _ (m_fields s) (m_time s) n (m_previousVelFields s) (m_store s)
    (m_integrationSoln s) (m_integrationSoln_viscoelasticstress s)
    (m_integrationSoln_aggregatesize s).
Definition set_previousVelFields `{!Collaborators} (p : list nat) (s : Solver) : Solver :=
  mkSolver _ (m_fields s) (m_time s) (m_numstep s) p (m_store s)
    (m_integrationSoln s) (m_integrationSoln_viscoelasticstress s)
    (m_integrationSoln_aggregatesize s).
Definition set_store `{!Collaborators} (h : gmap nat (list Q)) (s : Solver) : Solver :=
  mkSolver _ (m_fields s) (m_time s) (m_numstep s) (m_previousVelFields s) h
    (m_integrationSoln s) (m_integrationSoln_viscoelasticstress s)
    (m_integrationSoln_aggregatesize s).
Definition set_integrationSoln `{!Collaborators} (x : Soln) (s : Solver) : Solver :=
  mkSolver _ (m_fields s) (m_time s) (m_numstep s) (m_previousVelFields s)
    (m_store s) x (m_integrationSoln_viscoelasticstress s)
    (m_integrationSoln_aggregatesize s).
Definition set_integrationSoln_viscoelasticstress `{!Collaborators} (x : Soln)
    (s : Solver) : Solver :=
  mkSolver _ (m_fields s) (m_time s) (m_numstep s) (m_previousVelFields s)
    (m_store s) (m_integrationSoln s) x (m_integrationSoln_aggregatesize s).
Definition set_integrationSoln_aggregatesize `{!Collaborators} (x : Soln)
    (s : Solver) : Solver :=
  mkSolver _ (m_fields s) (m_time s) (m_numstep s) (m_previousVelFields s)
    (m_store s) (m_integrationSoln s) (m_integrationSoln_viscoelasticstress s) x.

(** The array a handle refers to. *)
Definition deref (store : gmap nat (list Q)) (h : nat) : result (list Q) :=
  match store !! h with
  | Some a => Ok a
  | None => Undefined
  end.

(** [m_fields[i]->BwdTrans(m_fields[i]->GetCoeffs(), m_fields[i]->UpdatePhys())] *)
Definition Field_BwdTrans `{!Collaborators} (f : Field) : Field :=
  UpdatePhys (BwdTrans (m_WaveSpace f) (m_coeffs f) (m_phys f)) f.

(** ** Velocity history ([SubStepSaveFields], lines 676-722) *)

(** Lines 686-696, "rotate fields": for each velocity component the handle
    of the oldest block is kept aside, every other handle moves one block
    up, and the kept handle becomes block 0.  With no block at all the
    first index, [(nblocks-1)*nvel+n], is negative. *)
Definition rotate_fields (nvel nblocks : nat) (prev : list nat)
    : result (list nat) :=
  for_each (upto 0 nvel) (λ n prev,
    if decide (nblocks = 0) then Undefined else
    save ← rd prev ((nblocks - 1) * nvel + n);
    prev ← for_each (downto (nblocks - 1) 0) (λ i prev,
              x ← rd prev ((i - 1) * nvel + n);
              wr prev (i * nvel + n) x) prev;
    wr prev n save) prev.

(** [Vmath::Vcopy(npts, m_fields[v]->GetPhys(), 1, m_previousVelFields[k], 1)] *)
Definition copy_to_block (npts : nat) (phys : list Q) (prev : list nat)
    (k : nat) (store : gmap nat (list Q)) : result (gmap nat (list Q)) :=
  h ← rd prev k;
  old ← deref store h;
  new ← Vcopy npts phys old;
  Ok (<[h := new]> store).

(** Lines 699-705, "Put previous field": each velocity field is transformed
    to physical space and copied into block 0. *)
Definition put_previous_field `{!Collaborators} (velocity : list nat)
    (npts : nat) (prev : list nat)
    (st : list Field * gmap nat (list Q))
    : result (list Field * gmap nat (list Q)) :=
  for_each (upto 0 (length velocity)) (λ i '(fields, store),
    v ← rd velocity i;
    f ← rd fields v;
    let f := Field_BwdTrans f in
    fields ← wr fields v f;
    store ← copy_to_block npts (m_phys f) prev i store;
    Ok (fields, store)) st.

(** Lines 707-718, "initialise all levels with first field". *)
Definition initialise_all_levels (velocity : list nat) (npts nblocks : nat)
    (prev : list nat) (fields : list Field) (store : gmap nat (list Q))
    : result (gmap nat (list Q)) :=
  let nvel := length velocity in
  for_each (upto 0 nvel) (λ n store,
    for_each (upto 1 nblocks) (λ i store,
      v ← rd velocity n;
      f ← rd fields v;
      copy_to_block npts (m_phys f) prev (i * nvel + n) store) store) store.

Definition SubStepSaveFields `{!Collaborators} (cfg : Config) (nstep : nat)
    (s : Solver) : result Solver :=
  let nvel := length (m_velocity cfg) in
  f0 ← rd (m_fields s) 0;
  let npts := GetTotPoints f0 in
  (* an integer division by zero is undefined *)
  if decide (nvel = 0) then Undefined else
  let nblocks := length (m_previousVelFields s) / nvel in
  prev ← rotate_fields nvel nblocks (m_previousVelFields s);
  '(fields, store) ← put_previous_field (m_velocity cfg) npts prev
                        (m_fields s, m_store s);
  store ← (if decide (nstep = 0)
           then initialise_all_levels (m_velocity cfg) npts nblocks prev
                  fields store
           else Ok store);
  Ok (set_store store (set_fields fields (set_previousVelFields prev s))).

(** The history as [SubStepSaveFields] expects it: [nblocks] blocks of
    [nvel] handles, no two of them sharing storage, each referring to an
    array of [npts] values. *)
Definition blocks_valid (npts : nat) (prev : list nat)
    (store : gmap nat (list Q)) : Prop :=
  ∀ h, h ∈ prev → ∃ b, store !! h = Some b ∧ length b = npts.

Definition history_wf (nvel nblocks npts : nat) (prev : list nat)
    (store : gmap nat (list Q)) : Prop :=
  length prev = nblocks * nvel ∧ NoDup prev ∧ blocks_valid npts prev store.

(** The block whose handle one rotation moves into slot [i]. *)
Definition rotated (nblocks i : nat) : nat :=
  match i with
  | O => nblocks - 1
  | S i' => i'
  end.

(** The velocity Fields as [SubStepSaveFields] expects them: distinct
    Fields of [npts] points, like the first Field. *)
Definition velocity_wf (cfg : Config) (npts : nat) (fields : list Field) : Prop :=
  (∃ f0, fields !! 0 = Some f0 ∧ GetTotPoints f0 = npts) ∧
  NoDup (m_velocity cfg) ∧
  ∀ v, v ∈ m_velocity cfg → ∃ f, fields !! v = Some f ∧ GetTotPoints f = npts.

(** The snapshot a save takes of velocity component [n]: the physical
    values of its Field after the backward transform. *)
Definition snapshot `{!Collaborators} (cfg : Config) (fields : list Field)
    (n : nat) : list Q :=
  match m_velocity cfg !! n with
  | Some v => from_option (λ f, m_phys (Field_BwdTrans f)) [] (fields !! v)
  | None => []
  end.

(** A sequence of saves, the first one with step index [nstep]; between
    two saves the rest of the solver may have changed every Field, so each
    save finds the Fields of its entry in [states]. *)
Fixpoint save_sequence `{!Collaborators} (cfg : Config) (nstep : nat)
    (states : list (list Field)) (s : Solver) : result Solver :=
  match states with
  | [] => Ok s
  | fields :: states' =>
      s ← SubStepSaveFields cfg nstep (set_fields fields s);
      save_sequence cfg (S nstep) states' s
  end.

(** ** Extrapolation ([SubStepExtrapoloteField], lines 986-1020) *)

(** Lines 991-1008: the Lagrange interpolants, in a 4-entry array. *)
Definition lagrange_interpolants (ord : nat) (m_timestep toff : Q)
    : result (list Q) :=
  let l := replicate 4 1%Q in
  for_each (upto 0 (S ord)) (λ i l,
    for_each (upto 0 (S ord)) (λ j l,
      if decide (i ≠ j) then
        li ← rd l i;
        l ← wr l i (li * (inject_Z (Z.of_nat j) * m_timestep + toff))%Q;
        li ← rd l i;
        wr l i (li / (inject_Z (Z.of_nat j) * m_timestep
                      - inject_Z (Z.of_nat i) * m_timestep))%Q
      else Ok l) l) l.

(** The block a slot of [m_previousVelFields] refers to. *)
Definition history_block (prev : list nat) (store : gmap nat (list Q)) (k : nat)
    : result (list Q) :=
  h ← rd prev k; deref store h.

(** Lines 1010-1019: the weighted sum of the history blocks, one velocity
    component at a time. *)
Definition extrapolate_sum (npts nvel ord : nat) (l : list Q)
    (prev : list nat) (store : gmap nat (list Q)) (ExtVel : list (list Q))
    : result (list (list Q)) :=
  for_each (upto 0 nvel) (λ i ExtVel,
    l0 ← rd l 0;
    x ← history_block prev store i;
    y ← rd ExtVel i;
    y ← Smul npts l0 x y;
    ExtVel ← wr ExtVel i y;
    for_each (upto 1 (S ord)) (λ j ExtVel,
      lj ← rd l j;
      x ← history_block prev store (j * nvel + i);
      y ← rd ExtVel i;
      y ← Daxpy npts lj x y;
      wr ExtVel i y) ExtVel) ExtVel.

Definition SubStepExtrapoloteField `{!Collaborators} (cfg : Config)
    (s : Solver) (toff : Q) (ExtVel : list (list Q))
    : result (list (list Q)) :=
  f0 ← rd (m_fields s) 0;
  let npts := GetTotPoints f0 in
  let nvel := length (m_velocity cfg) in
  let ord := m_intSteps cfg in
  l ← lagrange_interpolants ord (m_timestep cfg) toff;
  extrapolate_sum npts nvel ord l (m_previousVelFields s) (m_store s) ExtVel.

(** The weight as the specification writes it: the product over the nodes
    [j ≠ i] of [(j·outerDt + τ) / (j·outerDt − i·outerDt)]. *)
Definition lagrange_weight (nodes : list nat) (outerDt tau : Q) (i : nat) : Q :=
  foldr (λ j acc,
           if decide (j ≠ i)
           then ((inject_Z (Z.of_nat j) * outerDt + tau)
                 / (inject_Z (Z.of_nat j) * outerDt
                    - inject_Z (Z.of_nat i) * outerDt) * acc)%Q
           else acc) 1%Q nodes.

(** A polynomial in time, by its coefficients in increasing degree. *)
Definition eval_poly (c : list Q) (t : Q) : Q :=
  foldr (λ ck acc, ck + t * acc)%Q 0%Q c.

(** The value [SubStepExtrapoloteField] leaves at one quadrature point: the
    [Smul] with weight 0 followed by the [Daxpy] with weights 1 to [m]. *)
Fixpoint ext (l x : nat -> Q) (m : nat) : Q :=
  match m with
  | O => (l O * x O)%Q
  | S m' => (l m * x m + ext l x m')%Q
  end.

(** ** Stable-step estimator ([GetStdVelocity], [GetSubstepTimeStep]) *)

(** [a[i][j]] and [a[i][j] = x]. *)
Definition rd2 {A} (a : list (list A)) (i j : nat) : result A :=
  row ← rd a i; rd row j.
Definition wr2 {A} (a : list (list A)) (i j : nat) (x : A)
    : result (list (list A)) :=
  row ← rd a i; row ← wr row j x; wr a i row.

(** Lines 1243-1262: the velocity at point [i] mapped to the standard
    element, two components.  [gi] is [i] for a deformed element and 0 for
    a regular one. *)
Definition std_velocity_2D (gmat inarray : list (list Q)) (gi i : nat)
    (stdVelocity : list (list Q)) : result (list (list Q)) :=
  g0 ← rd2 gmat 0 gi; u0 ← rd2 inarray 0 i;
  g2 ← rd2 gmat 2 gi; u1 ← rd2 inarray 1 i;
  stdVelocity ← wr2 stdVelocity 0 i (g0 * u0 + g2 * u1)%Q;
  g1 ← rd2 gmat 1 gi; g3 ← rd2 gmat 3 gi;
  wr2 stdVelocity 1 i (g1 * u0 + g3 * u1)%Q.

(** Lines 1292-1327: the same with three components. *)
Definition std_velocity_3D (gmat inarray : list (list Q)) (gi i : nat)
    (stdVelocity : list (list Q)) : result (list (list Q)) :=
  g0 ← rd2 gmat 0 gi; u0 ← rd2 inarray 0 i;
  g3 ← rd2 gmat 3 gi; u1 ← rd2 inarray 1 i;
  g6 ← rd2 gmat 6 gi; u2 ← rd2 inarray 2 i;
  stdVelocity ← wr2 stdVelocity 0 i (g0 * u0 + g3 * u1 + g6 * u2)%Q;
  g1 ← rd2 gmat 1 gi; g4 ← rd2 gmat 4 gi; g7 ← rd2 gmat 7 gi;
  stdVelocity ← wr2 stdVelocity 1 i (g1 * u0 + g4 * u1 + g7 * u2)%Q;
  g2 ← rd2 gmat 2 gi; g5 ← rd2 gmat 5 gi; g8 ← rd2 gmat 8 gi;
  wr2 stdVelocity 2 i (g2 * u0 + g5 * u1 + g8 * u2)%Q.

(** [if (pntVelocity > stdV[el]) stdV[el] = pntVelocity;] *)
Definition keep_max (el : nat) (pntVelocity : Q) (stdV : list Q)
    : result (list Q) :=
  cur ← rd stdV el;
  if Qltb cur pntVelocity then wr stdV el pntVelocity else Ok stdV.

(** One pass of the element loop, lines 1230-1275 ([nvel == 2]) and lines
    1279-1341 (otherwise).  The velocity arrays are read at the local
    point index [i], exactly as the source does. *)
Definition std_velocity_element `{!Collaborators} (nvel : nat)
    (elements : list Element) (inarray : list (list Q)) (el : nat)
    (st : list (list Q) * list Q) : result (list (list Q) * list Q) :=
  let '(stdVelocity, stdV) := st in
  e ← rd elements el;
  let n_points := el_TotPoints e in
  let gmat := el_Gmat e in
  let deformed := bool_decide (el_Gtype e = eDeformed) in
  stdVelocity ← for_each (upto 0 n_points) (λ i stdVelocity,
      let gi := if deformed then i else 0 in
      if decide (nvel = 2)
      then std_velocity_2D gmat inarray gi i stdVelocity
      else std_velocity_3D gmat inarray gi i stdVelocity) stdVelocity;
  stdV ← for_each (upto 0 n_points) (λ i stdV,
      s0 ← rd2 stdVelocity 0 i;
      s1 ← rd2 stdVelocity 1 i;
      if decide (nvel = 2)
      then keep_max el (sqrt (s0 * s0 + s1 * s1)%Q) stdV
      else s2 ← rd2 stdVelocity 2 i;
           keep_max el (sqrt (s0 * s0 + s1 * s1 + s2 * s2)%Q) stdV) stdV;
  Ok (stdVelocity, stdV).

Definition GetStdVelocity `{!Collaborators} (cfg : Config)
    (fields : list Field) (inarray : list (list Q)) : result (list Q) :=
  if bool_decide (2 ≤ m_expdim cfg) then
    f0 ← rd fields 0;
    let nTotQuadPoints := GetTotPoints f0 in
    let n_element := length (m_exp cfg) in
    let nvel := length inarray in
    let stdVelocity := replicate nvel (replicate nTotQuadPoints 0%Q) in
    let stdV := replicate n_element 0%Q in
    '(_, stdV) ← for_each (upto 0 n_element)
                   (std_velocity_element nvel (m_exp cfg) inarray)
                   (stdVelocity, stdV);
    Ok stdV
  else Fatal "Method not implemented for 1D".

(** Modelled from the spec: [Vmath::Vmin(n, x, 1)], the minimum of the
    first [n] entries ("global stable step = minimum over all elements"):
    the running minimum from [x[0]] on, replaced by each entry that
    compares below it. *)
Definition Vmin (n : nat) (x : list double) : result double :=
  x0 ← rd x 0;
  for_each (upto 0 n) (λ i xmin,
    xi ← rd x i; Ok (if dltb xi xmin then xi else xmin)) x0.

(** "Spencer book pag. 317" *)
Definition cLambda : Q := 2 # 10.

(** Lines 1197-1199, the quotient for a denominator other than zero. *)
Definition element_tstep (cfl stdVelocity : Q) (ExpOrder : Z) : Q :=
  (cfl / (stdVelocity * cLambda * inject_Z (ExpOrder - 1)
          * inject_Z (ExpOrder - 1)))%Q.

(** Lines 1197-1199.  The denominator is zero for an element at rest and
    for an element of order 1; the quotient is then an infinity with the
    sign of the safety factor, or a NaN when that is zero too.  (The zero
    is a negative one only when the speed is negative, which
    [GetStdVelocity] never returns.) *)
Definition element_step (cfl stdVelocity : Q) (ExpOrder : Z) : double :=
  let denominator :=
    (stdVelocity * cLambda * inject_Z (ExpOrder - 1)
     * inject_Z (ExpOrder - 1))%Q in
  if Qeq_bool denominator 0 then
    match (cfl ?= 0)%Q with
    | Eq => NaN
    | Gt => if Qltb stdVelocity 0 then NInf else PInf
    | Lt => if Qltb stdVelocity 0 then PInf else NInf
    end
  else Val (element_tstep cfl stdVelocity ExpOrder).

Definition GetSubstepTimeStep `{!Collaborators} (cfg : Config)
    (fields : list Field) : result double :=
  let n_element := length (m_exp cfg) in
  let ExpOrder := NumExpModesPerExp cfg in
  let nvel := length (m_velocity cfg) in
  velfields ← for_each (upto 0 nvel) (λ i velfields,
      v ← rd (m_velocity cfg) i;
      f ← rd fields v;
      wr velfields i (m_phys f)) (replicate nvel []);
  stdVelocity ← GetStdVelocity cfg fields velfields;
  tstep ← for_each (upto 0 n_element) (λ el tstep,
      sv ← rd stdVelocity el;
      p ← rd ExpOrder el;
      wr tstep el (element_step (m_cflSafetyFactor cfg) sv p))
    (replicate n_element (Val 0));
  Vmin n_element tstep.

(** The estimator as the specification describes it: the reference-space
    speed of element [el] is taken over the points of that element, which
    start at [offset] in the global arrays. *)
Definition spec_std_speed `{!Collaborators} (e : Element)
    (inarray : list (list Q)) (offset i : nat) : result Q :=
  let gi := if bool_decide (el_Gtype e = eDeformed) then i else 0 in
  g0 ← rd2 (el_Gmat e) 0 gi; u0 ← rd2 inarray 0 (offset + i);
  g2 ← rd2 (el_Gmat e) 2 gi; u1 ← rd2 inarray 1 (offset + i);
  g1 ← rd2 (el_Gmat e) 1 gi; g3 ← rd2 (el_Gmat e) 3 gi;
  let s0 := (g0 * u0 + g2 * u1)%Q in
  let s1 := (g1 * u0 + g3 * u1)%Q in
  Ok (sqrt (s0 * s0 + s1 * s1)%Q).

Fixpoint spec_stdVelocity_2D `{!Collaborators} (elements : list Element)
    (inarray : list (list Q)) (offset : nat) : result (list Q) :=
  match elements with
  | [] => Ok []
  | e :: rest =>
      m ← for_each (upto 0 (el_TotPoints e)) (λ i m,
            v ← spec_std_speed e inarray offset i;
            Ok (if Qltb m v then v else m)) 0%Q;
      ms ← spec_stdVelocity_2D rest inarray (offset + el_TotPoints e);
      Ok (m :: ms)
  end.

Definition spec_stable_step_2D `{!Collaborators} (cfg : Config)
    (inarray : list (list Q)) : result double :=
  stdVelocity ← spec_stdVelocity_2D (m_exp cfg) inarray 0;
  let tstep := zip_with (element_step (m_cflSafetyFactor cfg)) stdVelocity
                 (NumExpModesPerExp cfg) in
  Vmin (length (m_exp cfg)) tstep.

(** Code that asserts nothing cannot end in a fatal assertion. *)
Definition not_fatal {A} (r : result A) : Prop := ∀ msg, r ≠ Fatal msg.

(** The number of velocity components the element loop works with: two in
    the [nvel == 2] branch, three in the other. *)
Definition std_dim (nvel : nat) : nat := if decide (nvel = 2) then 2 else 3.

(** A scratch table of [n] rows of [m] entries. *)
Definition table_shape {A} (n m : nat) (a : list (list A)) : Prop :=
  length a = n ∧ Forall (λ row, length row = m) a.

(** An element the estimator can process: its points fit the scratch and
    velocity arrays, and its table of geometric factors has a row per
    factor, with a column per point when the element is deformed. *)
Definition element_wf (nvel nTotQuadPoints : nat) (inarray : list (list Q))
    (e : Element) : Prop :=
  el_TotPoints e ≤ nTotQuadPoints ∧
  (∀ c row, c < std_dim nvel → inarray !! c = Some row →
     el_TotPoints e ≤ length row) ∧
  (∀ r, r < std_dim nvel * std_dim nvel →
     ∃ row, el_Gmat e !! r = Some row ∧ 1 ≤ length row ∧
       (el_Gtype e = eDeformed → el_TotPoints e ≤ length row)).

Definition estimator_wf (cfg : Config) (fields : list Field)
    (inarray : list (list Q)) : Prop :=
  ∃ f0, fields !! 0 = Some f0 ∧
    (length inarray = 2 ∨ 3 ≤ length inarray) ∧
    Forall (element_wf (length inarray) (GetTotPoints f0) inarray) (m_exp cfg).

(** ** Steady-state monitor ([CalcSteadyState], lines 1144-1167) *)

(** Lines 1149-1157: the discrete L2 sum, accumulated in a [double]. *)
Definition L2_sum (fields : list Field) : result double :=
  f0 ← rd fields 0;
  let ncoeffs := GetNcoeffs f0 in
  for_each (upto 0 (length fields)) (λ i L2,
    f ← rd fields i;
    d ← Dot ncoeffs (m_coeffs f) (m_coeffs f);
    Ok (dadd L2 d)) (Val 0).

(** Line 1159: [fabs(L2-previousL2) < ncoeffs*m_steadyStateTol]. *)
Definition steady_verdict (ncoeffs : nat) (m_steadyStateTol : Q)
    (L2 previousL2 : double) : bool :=
  dltb (dabs (dsub L2 previousL2))
       (dmul (Val (inject_Z (Z.of_nat ncoeffs))) (Val m_steadyStateTol)).

Definition CalcSteadyState (cfg : Config) (fields : list Field)
    (st : Statics) : result (bool * Statics) :=
  f0 ← rd fields 0;
  let ncoeffs := GetNcoeffs f0 in
  L2 ← L2_sum fields;
  let returnval :=
    steady_verdict ncoeffs (m_steadyStateTol cfg) L2 (previousL2 st) in
  (* previousL2 = L2; *)
  Ok (returnval, mkStatics (nchk st) (ncalls st) L2).

(** A sequence of checks, each on the fields as they are at that call. *)
Fixpoint steady_checks (cfg : Config) (calls : list (list Field))
    (st : Statics) : result (list bool * Statics) :=
  match calls with
  | [] => Ok ([], st)
  | fields :: calls' =>
      '(b, st) ← CalcSteadyState cfg fields st;
      '(bs, st) ← steady_checks cfg calls' st;
      Ok (b :: bs, st)
  end.

(** The self dot-product of one coefficient vector, and the metric as the
    specification writes it: the sum over all fields. *)
Definition self_dot (c : list Q) : Q := foldl Qplus 0%Q (zip_with Qmult c c).
Definition spec_L2 (fields : list Field) : Q :=
  foldl (λ acc f, acc + self_dot (m_coeffs f))%Q 0%Q fields.

(** [numCoefficients], the coefficient count of the first Field. *)
Definition numCoefficients (fields : list Field) : nat :=
  from_option GetNcoeffs 0 (fields !! 0).

(** The verdicts of a sequence of checks as the specification words them:
    [converged = |L2 − previousL2| < numCoefficients · tolerance], then
    [previousL2 ← L2]. *)
Fixpoint spec_checks (tolerance : Q) (calls : list (list Field))
    (previous : Q) : list bool :=
  match calls with
  | [] => []
  | fields :: calls' =>
      Qltb (Qabs (spec_L2 fields - previous))
           (inject_Z (Z.of_nat (numCoefficients fields)) * tolerance)%Q
      :: spec_checks tolerance calls' (spec_L2 fields)
  end.

(** There is a first Field, and no Field has fewer coefficients than it:
    the dot products stay inside the coefficient arrays. *)
Definition coeffs_in_bounds (fields : list Field) : Prop :=
  fields ≠ [] ∧ Forall (λ f, numCoefficients fields ≤ GetNcoeffs f) fields.

(** A sum of squares is an infinity or a value that is not negative. *)
Definition not_negative (a : double) : Prop :=
  a = PInf \/ exists l, a = Val l /\ (0 <= l)%Q.

(** What the code sums: for each Field the squares of its first
    [numCoefficients] coefficients, every product and every sum rounded
    to a [double]. *)
Definition double_dot (c : list Q) : double :=
  foldl (λ sum x, dadd sum (dmul (Val x) (Val x))) (Val 0) c.
Definition double_L2 (fields : list Field) : double :=
  foldl (λ L2 f,
           dadd L2 (double_dot (take (numCoefficients fields) (m_coeffs f))))
        (Val 0) fields.

(** The verdicts of a sequence of checks on such sums, each compared with
    the sum of the check before it. *)
Fixpoint double_checks (tolerance : Q) (calls : list (list Field))
    (previous : double) : list bool :=
  match calls with
  | [] => []
  | fields :: calls' =>
      steady_verdict (numCoefficients fields) tolerance (double_L2 fields)
        previous
      :: double_checks tolerance calls' (double_L2 fields)
  end.

(** ** Sub-cycling ([SubStepAdvance], lines 724-778) *)

(** Lines 764-773: the sub-cycle on one history slot, [nsubsteps] steps of
    size [dt]. *)
Definition sub_cycle `{!Collaborators} (nsubsteps : Z) (dt time : Q)
    (fields : list (list Q)) : result (list (list Q)) :=
  for_each (upto 0 (Z.to_nat nsubsteps)) (λ n fields,
    Ok (SubStepTimeIntegrate dt time fields)) fields.

(** Returns the new statics and solver, and what the information line
    reports: [nint] and [nsubsteps]. *)
Definition SubStepAdvance `{!Collaborators} (cfg : Config) (nstep : nat)
    (st : Statics) (s : Solver) : result (Statics * Solver * (nat * Z)) :=
  let time := m_time s in
  (* static int ncalls = 1; int nint = min(ncalls++, m_intSteps); *)
  let nint := Nat.min (ncalls st) (m_intSteps cfg) in
  let st := mkStatics (nchk st) (S (ncalls st)) (previousL2 st) in
  dt ← GetSubstepTimeStep cfg (m_fields s);
  nsub ← nsubsteps (m_timestep cfg) dt (MinSubSteps cfg);
  let dt := dt_sub (m_timestep cfg) nsub in
  soln ← for_each (upto 0 nint) (λ m soln,
      let fields := UpdateSolutionVector soln m in
      fields ← sub_cycle nsub dt time fields;
      Ok (SetSolVector soln m fields)) (m_integrationSoln s);
  Ok (st, set_integrationSoln soln s, (nint, nsub)).

(** ** The outer loop ([AdvanceInTime], lines 292-674) *)

(** What one call of [CalcSteadyState] decides: its return value, the L2
    sum it leaves in [previousL2] and the coefficient count of the
    tolerance. *)
Record SteadyLog : Type := mkSteadyLog {
  steady_converged : bool;
  steady_L2 : double;
  steady_ncoeffs : nat;
}.

(** What one outer step emits. *)
Record StepLog : Type := mkStepLog {
  log_substeps : option (nat * Z);             (* SubStepAdvance: nint, nsubsteps *)
  log_track_pressure : Q;                      (* fp7 *)
  log_energy : option (list Q);                (* WriteModalEnergy *)
  log_checkpoint : option (nat * list Field);  (* Checkpoint_Output(nchk) *)
  log_steady : option SteadyLog;               (* CalcSteadyState() *)
  log_filters : option (nat * Q);              (* filter updates and fp8, unless the loop broke *)
}.

Definition converged (log : StepLog) : bool :=
  match log_steady log with
  | Some r => steady_converged r
  | None => false
  end.

(** [x % y] and the truth value of an [int]. *)
Definition truthy (x : Z) : bool := negb (x =? 0)%Z.
Definition due (interval : Z) (n : nat) : bool :=
  (Z.rem (Z.of_nat n + 1) interval =? 0)%Z.

(** The three periodic triggers of the loop, lines 445, 452 and 487. *)
Definition energy_due (cfg : Config) (n : nat) : bool :=
  truthy (m_energysteps cfg) && due (m_energysteps cfg) n.
Definition checkpoint_due (cfg : Config) (n : nat) : bool :=
  truthy (m_checksteps cfg) && bool_decide (n ≠ 0) && due (m_checksteps cfg) n.
Definition steady_due (cfg : Config) (n : nat) : bool :=
  truthy (m_steadyStateSteps cfg) && bool_decide (n ≠ 0)
  && due (m_steadyStateSteps cfg) n.

(** [min(n, m_intSteps-1)], an index into [m_integrationScheme]. *)
Definition scheme_index (cfg : Config) (n : nat) : result nat :=
  if decide (m_intSteps cfg = 0) then Undefined
  else Ok (Nat.min n (m_intSteps cfg - 1)).

(** Lines 411-418: the integrated stress components go back into their
    Fields. *)
Definition store_viscoelastic `{!Collaborators} (cfg : Config)
    (fields_viscoelasticstress : list (list Q)) (fields : list Field)
    : result (list Field) :=
  for_each (upto 0 (m_nViscoElasticStressFields cfg)) (λ i fields,
    y ← rd fields_viscoelasticstress i;
    f ← rd fields (i + m_spacedim cfg);
    f ← SetPhys y f;
    let f := UpdateCoeffs (FwdTrans_IterPerExp (m_WaveSpace f) y (m_coeffs f)) f in
    let f := SetPhysState true f in
    wr fields (i + m_spacedim cfg) f) fields.

(** Lines 403-406: the aggregate-size field of the blood model. *)
Definition advance_aggregatesize `{!Collaborators} (cfg : Config) (k : nat)
    (s : Solver) : Solver :=
  if decide (m_viscoelasticType cfg = eHomogeneousBloodModel) then
    let '(_, soln, fields) :=
      TimeIntegrate gAggregateSize k (m_timestep cfg)
        (m_integrationSoln_aggregatesize s) (m_fields s) in
    set_fields fields (set_integrationSoln_aggregatesize soln s)
  else s.

(** Lines 400-419, "Advance viscoelastic fields". *)
Definition advance_viscoelastic `{!Collaborators} (cfg : Config) (n : nat)
    (s : Solver) : result Solver :=
  if decide (m_equationType cfg = eUnsteadyViscoElastic) then
    k ← scheme_index cfg n;
    let s := advance_aggregatesize cfg k s in
    let '(fields_viscoelasticstress, soln, fields) :=
      TimeIntegrate gViscoElasticStress k (m_timestep cfg)
        (m_integrationSoln_viscoelasticstress s) (m_fields s) in
    fields ← store_viscoelastic cfg fields_viscoelasticstress fields;
    Ok (set_fields fields (set_integrationSoln_viscoelasticstress soln s))
  else Ok s.

(** Lines 1071-1075 of [WriteModalEnergy]: the modal energies of the
    convective Fields, added up in the first [locsize] entries. *)
Definition modal_energy `{!Collaborators} (cfg : Config) (locsize : nat)
    (fields : list Field) : result (list Q) :=
  for_each (upto 0 (m_nConvectiveFields cfg)) (λ i energy,
    f ← rd fields i;
    let energy_tmp := HomogeneousEnergy f in
    Vadd locsize energy_tmp energy energy) (replicate locsize 0%Q).

(** Lines 1077-1104: rank 0 writes its own energies and then, for each
    other rank in turn, what it receives from it into the same buffer;
    every other rank sends and writes nothing. *)
Definition gather_energy `{!Collaborators} (nproc : nat) (energy : list Q)
    : result (list Q) :=
  if decide (ColumnComm_GetRank = 0) then
    '(_, written) ← for_each (upto 1 nproc) (λ i '(energy, written),
        let received := ColumnComm_Recv i energy in
        lines ← for_each (upto 0 (length energy)) (λ j lines,
            e ← rd received j; Ok (lines ++ [e])) [];
        Ok (lines, written ++ lines)) (energy, energy);
    Ok written
  else Ok [].

(** [WriteModalEnergy], lines 1055-1122: the energies written, and the
    Fields with their flags as the norm evaluation leaves them. *)
Definition WriteModalEnergy `{!Collaborators} (cfg : Config)
    (fields : list Field) : result (list Field * list Q) :=
  if decide (m_HomogeneousType cfg ≠ eNotHomogeneous) then
    if decide (m_HomogeneousType cfg = eHomogeneous1D) then
      let nproc := ColumnComm_GetSize in
      (* int locsize = m_npointsZ/nproc/2; *)
      if decide (nproc = 0) then Undefined else
      let locsize := m_npointsZ cfg / nproc / 2 in
      energy ← modal_energy cfg locsize fields;
      written ← gather_energy nproc energy;
      Ok (fields, written)
    else Fatal "3D Homogeneous 2D energy dumping not implemented yet"
  else
    '(fields, energy) ←
      for_each (upto 0 (m_nConvectiveFields cfg)) (λ i '(fields, energy),
        f ← rd fields i;
        fields ← wr fields i (SetPhysState true f);
        let norm := L2Error fields i in
        Ok (fields, energy + norm * norm)%Q) (fields, 0%Q);
    Ok (fields, [(1 # 2) * energy]%Q).

(** Lines 457-464 and 583-588: every Field to physical space. *)
Definition to_physical `{!Collaborators} (f : Field) : Field :=
  SetPhysState true (Field_BwdTrans (SetWaveSpace false f)).

(** Lines 311-316: every Field to wave space, as the run starts. *)
Definition initial_wave_space `{!Collaborators} (f : Field) : Field :=
  let f := UpdatePhys (HomogeneousFwdTrans (m_phys f) (m_phys f)) f in
  SetPhysState false (SetWaveSpace true f).

(** Lines 467-472: every Field back to wave space. *)
Definition to_wave_space `{!Collaborators} (f : Field) : Field :=
  let f := SetWaveSpace true f in
  SetPhysState false (UpdatePhys (HomogeneousFwdTrans (m_phys f) (m_phys f)) f).

(** Lines 476-480 and 593-597: the integrated velocity goes into its
    Fields. *)
Definition store_convective (cfg : Config) (fields : list (list Q))
    (m_fields : list Field) : result (list Field) :=
  for_each (upto 0 (m_nConvectiveFields cfg)) (λ i m_fields,
    y ← rd fields i;
    f ← rd m_fields i;
    f ← SetPhys y f;
    wr m_fields i (SetPhysState true f)) m_fields.


(** Lines 452-484, "dump data in m_fields->m_coeffs to file". *)
Definition write_checkpoint `{!Collaborators} (cfg : Config) (n : nat)
    (fields : list (list Q)) (st : Statics) (s : Solver)
    : result (Statics * Solver * option (nat * list Field)) :=
  if checkpoint_due cfg n then
    if decide (m_HomogeneousType cfg = eHomogeneous1D) then
      let dumped := to_physical <$> m_fields s in
      let st := mkStatics (S (nchk st)) (ncalls st) (previousL2 st) in
      Ok (st, set_fields (to_wave_space <$> dumped) s, Some (nchk st, dumped))
    else
      dumped ← store_convective cfg fields (m_fields s);
      let st := mkStatics (S (nchk st)) (ncalls st) (previousL2 st) in
      Ok (st, set_fields dumped s, Some (nchk st, dumped))
  else Ok (st, s, None).

(** Lines 499-515: the filters see the velocity in coefficient space. *)
Definition update_filters `{!Collaborators} (cfg : Config)
    (fields : list (list Q)) (m_fields : list Field) : result (list Field) :=
  if bool_decide (0 < m_filters cfg) then
    for_each (upto 0 (m_nConvectiveFields cfg)) (λ i m_fields,
      y ← rd fields i;
      f ← rd m_fields i;
      let f := UpdateCoeffs (FwdTrans_IterPerExp (m_WaveSpace f) y (m_coeffs f)) f in
      wr m_fields i (SetPhysState false f)) m_fields
  else Ok m_fields.

(** Lines 487-497: the steady-state check and what it decided. *)
Definition check_steady (cfg : Config) (n : nat) (fields : list Field)
    (st : Statics) : result (Statics * option SteadyLog) :=
  if steady_due cfg n then
    f0 ← rd fields 0;
    '(b, st) ← CalcSteadyState cfg fields st;
    Ok (st, Some (mkSteadyLog b (previousL2 st) (GetNcoeffs f0)))
  else Ok (st, None).

(** Lines 393-397: save the velocity and sub-cycle. *)
Definition sub_step `{!Collaborators} (cfg : Config) (n : nat) (st : Statics)
    (s : Solver) : result (Statics * Solver * option (nat * Z)) :=
  if m_subSteppingScheme cfg then
    s ← SubStepSaveFields cfg n s;
    '(st, s, info) ← SubStepAdvance cfg n st s;
    Ok (st, s, Some info)
  else Ok (st, s, None).

(** Lines 444-448: the modal energy. *)
Definition write_energy `{!Collaborators} (cfg : Config) (n : nat) (s : Solver)
    : result (Solver * option (list Q)) :=
  if energy_due cfg n then
    '(m_fields', e) ← WriteModalEnergy cfg (m_fields s);
    Ok (set_fields m_fields' s, Some e)
  else Ok (s, None).

(** [m_fields[k]->GetPhys()[100]], the tracked point of [fp7] and [fp8]. *)
Definition track_point (m_fields : list Field) (k : nat) : result Q :=
  f ← rd m_fields k; rd (m_phys f) 100.

(** One pass of the time loop, lines 388-578.  The Boolean tells whether
    the pass left the loop through [break]. *)
Definition outer_step `{!Collaborators} (cfg : Config) (n : nat)
    (x : Statics * Solver * list (list Q))
    : result (Statics * Solver * list (list Q) * StepLog * bool) :=
  let '(st, s, fields) := x in
  let s := set_numstep n s in
  '(st, s, sub) ← sub_step cfg n st s;
  s ← advance_viscoelastic cfg n s;
  k ← scheme_index cfg n;
  let '(fields, soln, m_fields') :=
    TimeIntegrate gVelocity k (m_timestep cfg) (m_integrationSoln s)
      (m_fields s) in
  let s := set_fields m_fields' (set_integrationSoln soln s) in
  let s := set_time (m_time s + m_timestep cfg)%Q s in
  fp7 ← track_point (m_fields s)
          (m_spacedim cfg + m_nViscoElasticStressFields cfg);
  '(s, energy) ← write_energy cfg n s;
  '(st, s, chk) ← write_checkpoint cfg n fields st s;
  '(st, steady) ← check_steady cfg n (m_fields s) st;
  if from_option steady_converged false steady then
    Ok (st, s, fields, mkStepLog sub fp7 energy chk steady None, true)
  else
    m_fields' ← update_filters cfg fields (m_fields s);
    let s := set_fields m_fields' s in
    fp8 ← (if decide (m_spacedim cfg = 0) then Undefined
           else track_point (m_fields s) (m_spacedim cfg - 1));
    Ok (st, s, fields,
        mkStepLog sub fp7 energy chk steady (Some (m_filters cfg, fp8)), false).

(** [for(n = 0; n < nsteps; ++n)] with its [break]: [k] passes are left,
    the next one has index [n]. *)
Fixpoint time_loop `{!Collaborators} (cfg : Config) (k n : nat)
    (x : Statics * Solver * list (list Q))
    : result (Statics * Solver * list (list Q) * list StepLog) :=
  match k with
  | O => Ok (x, [])
  | S k' =>
      '(st, s, fields, log, stop) ← outer_step cfg n x;
      if stop : bool then Ok (st, s, fields, [log])
      else
        '(x', logs) ← time_loop cfg k' (S n) (st, s, fields);
        Ok (x', log :: logs)
  end.

(** Lines 319-372: the wrappers around the field storage and the multistep
    solutions. *)
Definition initialise_schemes `{!Collaborators} (cfg : Config) (s : Solver)
    : result (Solver * list (list Q)) :=
  fields ← for_each (upto 0 (m_nConvectiveFields cfg)) (λ i fields,
      f ← rd (m_fields s) i; wr fields i (m_phys f))
    (replicate (m_nConvectiveFields cfg) []);
  k ← scheme_index cfg (m_intSteps cfg - 1);
  let s := set_integrationSoln
             (InitializeScheme gVelocity k (m_timestep cfg) fields (m_time s)) s in
  if decide (m_equationType cfg = eUnsteadyViscoElastic) then
    s ← (if decide (m_viscoelasticType cfg = eHomogeneousBloodModel) then
           f ← rd (m_fields s)
                 (m_nViscoElasticStressFields cfg + m_spacedim cfg);
           Ok (set_integrationSoln_aggregatesize
                 (InitializeScheme gAggregateSize k (m_timestep cfg)
                    [m_phys f] (m_time s)) s)
         else Ok s);
    ve ← for_each (upto 0 (m_nViscoElasticStressFields cfg)) (λ i ve,
        f ← rd (m_fields s) (i + m_spacedim cfg); wr ve i (m_phys f))
      (replicate (m_nViscoElasticStressFields cfg) []);
    Ok (set_integrationSoln_viscoelasticstress
          (InitializeScheme gViscoElasticStress k (m_timestep cfg) ve (m_time s)) s,
        fields)
  else Ok (s, fields).

(** One invocation of [AdvanceInTime(nsteps)]: it receives the statics as
    the previous invocation left them and hands them on. *)
Definition AdvanceInTime `{!Collaborators} (cfg : Config) (nsteps : nat)
    (st : Statics) (s : Solver)
    : result (Statics * Solver * list StepLog) :=
  _ ← rd (m_fields s) 0;
  let s := set_time (m_timestep cfg) s in
  let s :=
    if decide (m_HomogeneousType cfg = eHomogeneous1D)
    then set_fields (initial_wave_space <$> m_fields s) s else s in
  '(s, fields) ← initialise_schemes cfg s;
  '(st, s, fields, logs) ← time_loop cfg nsteps 0 (st, s, fields);
  m_fields' ←
    (if decide (m_HomogeneousType cfg = eHomogeneous1D)
     then Ok (to_physical <$> m_fields s)
     else store_convective cfg fields (m_fields s));
  Ok (st, set_fields m_fields' s, logs).

(** ** What a run emits *)

(** The sequence numbers passed to [Checkpoint_Output], the [nint] of the
    successive calls of [SubStepAdvance], and the steady-state checks, in
    the order of the run. *)
Definition checkpoint_numbers (logs : list StepLog) : list nat :=
  omap (λ log, fst <$> log_checkpoint log) logs.
Definition substep_nints (logs : list StepLog) : list nat :=
  omap (λ log, fst <$> log_substeps log) logs.
Definition steady_logs (logs : list StepLog) : list SteadyLog :=
  omap log_steady logs.

(** Each check compares its L2 sum against the one its predecessor stored,
    the first one against [previous]. *)
Fixpoint steady_chain (tolerance : Q) (previous : double)
    (checks : list SteadyLog) : Prop :=
  match checks with
  | [] => True
  | r :: checks' =>
      steady_converged r =
        steady_verdict (steady_ncoeffs r) tolerance (steady_L2 r) previous
      ∧ steady_chain tolerance (steady_L2 r) checks'
  end.

(** The value of [previousL2] after a sequence of checks. *)
Definition last_L2 (previous : double) (checks : list SteadyLog) : double :=
  foldl (λ _ r, steady_L2 r) previous checks.

(** ** A concrete set of collaborators, for closed examples *)

(** A square root on [Q] that is exact on the squares of rationals. *)
Definition Qsqrt (x : Q) : Q :=
  Qmake (Z.sqrt (Qnum (Qred x))) (Pos.sqrt (Qden (Qred x))).

(** A nodal discretisation (the coefficients are the point values, so each
    transform copies its input over its output), multistep schemes whose
    solution is the list of arrays they were started on and whose steps
    leave it as it is. *)
Definition copy_over (x out : list Q) : list Q :=
  take (length out) x ++ drop (length x) out.

Definition nodal_collaborators : Collaborators := {|
  BwdTrans := λ _ x out, copy_over x out;
  FwdTrans_IterPerExp := λ _ x out, copy_over x out;
  HomogeneousFwdTrans := λ x out, copy_over x out;
  sqrt := Qsqrt;
  Soln := list (list Q);
  InitializeScheme := λ _ _ _ y0 _, y0;
  TimeIntegrate := λ _ _ _ soln fields, (soln, soln, fields);
  UpdateSolutionVector := λ soln _, soln;
  SetSolVector := λ _ _ y, y;
  SubStepTimeIntegrate := λ _ _ y, y;
  HomogeneousEnergy := λ f, m_coeffs f;
  ColumnComm_GetRank := 0;
  ColumnComm_GetSize := 1;
  ColumnComm_Recv := λ _ energy, energy;
  L2Error := λ fields i, 0%Q;
|}.

(** What [store_viscoelastic] leaves in a stress Field that receives the
    integrated array [y]. *)
Definition stored_stress `{!Collaborators} (y : list Q) (f : Field) : Field :=
  mkField y (FwdTrans_IterPerExp (m_WaveSpace f) y (m_coeffs f)) true
    (m_WaveSpace f).

(** *** Example data *)

(** A viscoelastic set-up with two velocity components and one stress
    component on a single quadrature point. *)
Definition stress_config : Config :=
  mkConfig 1 1 2 2 [0; 1]%nat 2 1 eUnsteadyViscoElastic eOtherViscoElasticType
    eNotHomogeneous false 0 0 0 (1 # 1000000) 1 0 0 [] [] 0.

Definition stress_solver : @Solver nodal_collaborators :=
  @mkSolver nodal_collaborators
    [mkField [1] [1] false false; mkField [2] [2] false false;
     mkField [3] [3] false false]%Q
    0 0 [] ∅ [] [[7]]%Q [].

(** Two consecutive steady-state checks on the same two Fields. *)
Definition steady_config : Config :=
  mkConfig 1 1 2 2 [0; 1]%nat 2 0 eUnsteadyNavierStokes eOtherViscoElasticType
    eNotHomogeneous false 0 0 1 (1 # 1000000) 1 0 0 [] [] 0.

(** The same with another tolerance, and two Fields of one and of two
    coefficients. *)
Definition tolerance_config (tol : Q) : Config :=
  mkConfig 1 1 2 2 [0; 1]%nat 2 0 eUnsteadyNavierStokes eOtherViscoElasticType
    eNotHomogeneous false 0 0 1 tol 1 0 0 [] [] 0.

Definition uneven_fields : list Field :=
  [mkField [0] [1] false false; mkField [0; 0] [1; 2] false false]%Q.

Definition steady_fields : list Field :=
  [mkField [0; 0] [1; 2] false false; mkField [0; 0] [0; 3] false false]%Q.

Definition steady_calls : list (list Field) := [steady_fields; steady_fields].

(** One velocity component on two quadrature points, a second-order
    scheme with unit step, and a history whose three blocks sample
    [1 + t²] (first point) and [1 + t] (second point) at [t = 0, −1, −2]. *)
Definition history_config : Config :=
  mkConfig 1 2 1 2 [0]%nat 1 0 eUnsteadyNavierStokes eOtherViscoElasticType
    eNotHomogeneous true 0 0 0 (1 # 1000000) 1 0 0 [] [] 0.

Definition history_solver : @Solver nodal_collaborators :=
  @mkSolver nodal_collaborators [mkField [0; 0] [0; 0] true false]%Q 0 0
    [10; 11; 12]%nat
    (<[10%nat := [1; 1]%Q]> (<[11%nat := [2; 0]%Q]> (<[12%nat := [5; -1]%Q]> ∅)))
    [] [] [].

Definition history_polynomials (i k : nat) : list Q :=
  match k with
  | O => [1; 0; 1]%Q
  | _ => [1; 1]%Q
  end.

(** Four saves on the history above; the velocity Field holds [k; k] at the
    [k]-th save. *)
Definition constant_field (c : Q) : Field := mkField [0; 0]%Q [c; c] true false.

Definition history_states : list (list Field) :=
  [[constant_field 1]; [constant_field 2]; [constant_field 3];
   [constant_field 4]].

(** Two regular elements of one quadrature point each, with the identity
    as geometric factors and 3 modes; the velocity is [(1, 0)] on the first
    element and [(2, 0)] on the second. *)
Definition unit_element : Element :=
  mkElement 1 eRegular [[1]; [0]; [0]; [1]]%Q.

Definition cfl_config (expdim : nat) : Config :=
  mkConfig 1 1 2 expdim [0; 1]%nat 2 0 eUnsteadyNavierStokes
    eOtherViscoElasticType eNotHomogeneous true 0 0 0 (1 # 1000000) 1 0 0
    [unit_element; unit_element] [3; 3]%Z 0.

Definition cfl_fields : list Field :=
  [mkField [1; 2] [1; 2] true false; mkField [0; 0] [0; 0] true false]%Q.

Definition cfl_velocity : list (list Q) := [[1; 2]; [0; 0]]%Q.

(** A two-dimensional Navier-Stokes set-up on one regular element of 101
    quadrature points with [u = 1], [v = 0] and [p = 0] everywhere, a
    second-order scheme and a velocity history of three blocks. *)
Definition wide_element : Element :=
  mkElement 101 eRegular [[1]; [0]; [0]; [1]]%Q.

Definition run_config (sub : bool) (check steady : Z) : Config :=
  mkConfig 1 2 2 2 [0; 1]%nat 2 0 eUnsteadyNavierStokes eOtherViscoElasticType
    eNotHomogeneous sub 0 check steady (1 # 1000000) 1 0 0 [wide_element] [3%Z] 0.

Definition flat_field (c : Q) : Field :=
  mkField (replicate 101 c) (replicate 101 c) true false.

Definition run_solver : @Solver nodal_collaborators :=
  @mkSolver nodal_collaborators [flat_field 1; flat_field 0; flat_field 0] 0 0
    [0; 1; 2; 3; 4; 5]%nat
    (list_to_map ((λ h : nat, (h, replicate 101 0%Q)) <$> [0; 1; 2; 3; 4; 5]%nat))
    [] [] [].



(** ** Notions used by further properties *)

(** Whether a computation ran to its end. *)
Definition is_ok {A} (r : result A) : bool :=
  match r with
  | Ok _ => true
  | _ => false
  end.

(** The value at point [k] of history block [j] of velocity component [i]
    (0 where the history has no such entry). *)
Definition history_value (prev : list nat) (store : gmap nat (list Q))
    (nvel i j k : nat) : Q :=
  match history_block prev store (j * nvel + i) with
  | Ok b => default 0%Q (b !! k)
  | _ => 0%Q
  end.

(** Lines 1245-1249 (deformed) or 1256-1260 (regular) and 1267-1268: the
    speed [pntVelocity] that the pass of element [e] computes at its point
    [i], from the entries [inarray[0][i]] and [inarray[1][i]]. *)
Definition pnt_velocity_2D `{!Collaborators} (e : Element)
    (inarray : list (list Q)) (i : nat) : result Q :=
  let gi := if bool_decide (el_Gtype e = eDeformed) then i else 0%nat in
  g0 ← rd2 (el_Gmat e) 0 gi; u0 ← rd2 inarray 0 i;
  g2 ← rd2 (el_Gmat e) 2 gi; u1 ← rd2 inarray 1 i;
  g1 ← rd2 (el_Gmat e) 1 gi; g3 ← rd2 (el_Gmat e) 3 gi;
  let s0 := (g0 * u0 + g2 * u1)%Q in
  let s1 := (g1 * u0 + g3 * u1)%Q in
  Ok (sqrt (s0 * s0 + s1 * s1)%Q).

(** What the pass of element [e] leaves in [stdV[el]] when it finds [m0]
    there: the largest of [m0] and the speeds at the points of [e]. *)
Definition kept_max `{!Collaborators} (e : Element) (inarray : list (list Q))
    (npoints : nat) (m0 m : Q) : Prop :=
  (m0 <= m)%Q
  ∧ (∀ i, (i < npoints)%nat →
       ∃ v, pnt_velocity_2D e inarray i = Ok v ∧ (v <= m)%Q)
  ∧ (m = m0 ∨ ∃ i, (i < npoints)%nat ∧ pnt_velocity_2D e inarray i = Ok m).


(** ** Assertions *)

(** [ASSERTL0(cond, msg)] aborts with [msg] when [cond] is false. *)
Definition ASSERTL0 (cond : bool) (msg : string) : result unit :=
  if cond then Ok () else Fatal msg.

(** Modelled from the spec: [ASSERTL1(cond, msg)], the check of "mismatched
    array dimensions between flux/velocity buffers", which is fatal; the
    macro is compiled in debug builds only, [debug] tells whether this is
    one. *)
Definition ASSERTL1 (debug cond : bool) (msg : string) : result unit :=
  if debug && negb cond then Fatal msg else Ok ().

(** ** More kernels *)

(** [Vmath::Vmul(n, x, 1, y, 1, z, 1)]: [z[k] = x[k] * y[k]] for [k < n]. *)
Definition Vmul (n : nat) (x y z : list Q) : result (list Q) :=
  if fits n x && fits n y && fits n z
  then Ok (zip_with Qmult (take n x) (take n y) ++ drop n z) else Undefined.

(** ** Callbacks of the sub-step integrator and of the advection operator *)

(** [SubStepProjection], lines 974-982; [time] is not used. *)
Definition SubStepProjection (debug : bool) (inarray outarray : list (list Q))
    (time : Q) : result (list (list Q)) :=
  _ ← ASSERTL1 debug (bool_decide (length inarray = length outarray))
        "Inarray and outarray of different sizes ";
  for_each (upto 0 (length inarray)) (λ i outarray,
    x ← rd inarray i;
    y ← rd outarray i;
    y ← Vcopy (length x) x y;
    wr outarray i y) outarray.

(** [v_GetFluxVector], lines 861-871.  [GetNpoints] is the value of the
    accessor of that name of the base class. *)
Definition v_GetFluxVector (debug : bool) (cfg : Config) (m_fields : list Field)
    (GetNpoints : nat) (i : nat) (physfield flux : list (list Q))
    : result (list (list Q)) :=
  _ ← ASSERTL1 debug (bool_decide (length flux = length (m_velocity cfg)))
        "Dimension of flux array and velocity array do not match";
  for_each (upto 0 (length flux)) (λ j flux,
    p ← rd physfield i;
    v ← rd (m_velocity cfg) j;
    f ← rd m_fields v;
    y ← rd flux j;
    y ← Vmul GetNpoints p (m_phys f) y;
    wr flux j y) flux.

(** [EvaluateAdvectionTerms], lines 1023-1053.  [DoAdvection] is the
    operator of [m_advObject]; it receives the Fields, the number of
    convective fields, the velocity indices, the input and output arrays,
    the time and the workspace, and returns the output arrays and the
    workspace as it leaves them.  [alloc n] is the content of a newly
    allocated array of [n] entries, which the source does not initialise.
    The function returns [outarray] and [wk] as they are afterwards: a
    workspace supplied by the caller is the one the operator works in. *)
Definition EvaluateAdvectionTerms
    (DoAdvection : list Field -> nat -> list nat -> list (list Q) ->
                   list (list Q) -> Q -> list Q -> list (list Q) * list Q)
    (alloc : nat -> list Q) (cfg : Config) (m_fields : list Field) (m_time : Q)
    (inarray outarray : list (list Q)) (wk : list Q)
    : result (list (list Q) * list Q) :=
  f0 ← rd m_fields 0;
  let nqtot := GetTotPoints f0 in
  let VelDim := length (m_velocity cfg) in
  velocity ← for_each (upto 0 VelDim) (λ i velocity,
      v ← rd (m_velocity cfg) i;
      x ← rd inarray v;
      wr velocity i x) (replicate VelDim []);
  if bool_decide (length wk ≠ 0) then
    _ ← ASSERTL0 (bool_decide (nqtot * VelDim ≤ length wk))
          "Workspace is not sufficient";
    Ok (DoAdvection m_fields (m_nConvectiveFields cfg) (m_velocity cfg)
          inarray outarray m_time wk)
  else
    let Deriv := alloc (nqtot * VelDim) in
    let '(outarray, _) :=
      DoAdvection m_fields (m_nConvectiveFields cfg) (m_velocity cfg)
        inarray outarray m_time Deriv in
    Ok (outarray, wk).

(** ** Boundary conditions ([SetBoundaryConditions], lines 1125-1139) *)

(** [SpatialDomains::BndUserDefinedType]; only three of its values are
    named in this file, the others behave alike here. *)
Inductive BndUserDefinedType : Type :=
| eNoUserDefined | eTimeDependent | eI | eOtherUserDefined.

#[global] Instance BndUserDefinedType_eq_dec : EqDecision BndUserDefinedType.
Proof. solve_decision. Defined.

(** [bnd] holds, for every Field, the user-defined types of its boundary
    conditions ([m_fields[i]->GetBndConditions()[n]->GetUserDefined()]).
    The function returns the calls
    [m_fields[i]->EvaluateBoundaryConditions(time)] it makes, in order. *)
Definition SetBoundaryConditions (bnd : list (list BndUserDefinedType))
    (time : Q) : result (list (nat * Q)) :=
  for_each (upto 0 (length bnd)) (λ i calls,
    conds ← rd bnd i;
    for_each (upto 0 (length conds)) (λ n calls,
      c ← rd conds n;
      Ok (if decide (c = eTimeDependent) then calls ++ [(i, time)] else calls))
      calls) [].

(** The number of time-dependent conditions of a Field. *)
Definition time_dependent (conds : list BndUserDefinedType) : nat :=
  length (filter (λ c, c = eTimeDependent) conds).

(** ** Set-up ([v_InitObject], lines 72-286) *)

(** Modelled from the name and the use of the library function:
    [NoCaseStringCompare(s1, s2)] is 0 exactly when the two strings agree up
    to the case of their letters. *)
Definition to_upper (c : ascii) : ascii :=
  let n := nat_of_ascii c in
  if (97 <=? n)%nat && (n <=? 122)%nat then ascii_of_nat (n - 32) else c.

Fixpoint uppercase (s : string) : string :=
  match s with
  | EmptyString => EmptyString
  | String c s' => String (to_upper c) (uppercase s')
  end.

Definition NoCaseStringCompare_is_0 (s1 s2 : string) : bool :=
  String.eqb (uppercase s1) (uppercase s2).

(** [std::string velids[] = {"u","v","w"};] *)
Definition velids : list string := ["u"; "v"; "w"]%string.

(** Lines 84-98: the search for the variable named [velid] among the first
    [numfields] variables, from index [j] of [js] on.  The result is what
    [m_velocity[i]] holds afterwards: the index found, or [entry], what it
    held before.  The test [j == numfields] sits inside the loop. *)
Fixpoint search_variable (velid : string) (numfields : nat)
    (variables : list string) (js : list nat) (entry : option nat)
    : result (option nat) :=
  match js with
  | [] => Ok entry
  | j :: js' =>
      var ← rd variables j;
      if NoCaseStringCompare_is_0 velid var then Ok (Some j)
      else if decide (j = numfields)
      then Fatal (String.append "Failed to find field: " var)
      else search_variable velid numfields variables js' entry
  end.

(** Lines 80-99.  [Array<OneD,int>(m_spacedim)] is not initialised: an
    entry that was never written is [None]. *)
Definition velocity_indices (m_spacedim numfields : nat)
    (variables : list string) : result (list (option nat)) :=
  for_each (upto 0 m_spacedim) (λ i m_velocity,
    velid ← rd velids i;
    e ← search_variable velid numfields variables (upto 0 numfields) None;
    wr m_velocity i e) (replicate m_spacedim None).

(** [for(i = 0; i < n; ++i) { ...; if(match) { ...; break; } }]: the value
    of [i] after the loop. *)
Fixpoint first_match (test : nat -> result bool) (ix : list nat) (n : nat)
    : result nat :=
  match ix with
  | [] => Ok n
  | i :: ix' => b ← test i; if b : bool then Ok i else first_match test ix' n
  end.

(** [IncNavierStokes.h] is not among the sources: the sizes of its two
    enumerations, the conversions [(EquationType)i] and
    [(ViscoElasticType)i] and its two tables of names are parameters. *)
Record Header : Type := mkHeader {
  eEquationTypeSize : nat;
  kEquationTypeStr : list string;
  EquationType_of_int : nat -> EquationType;
  eEquationViscoElasticTypeSize : nat;
  kEquationViscoElasticTypeStr : list string;
  ViscoElasticType_of_int : nat -> ViscoElasticType;
}.

(** What the session answers: the variables of the boundary conditions,
    [MatchSolverInfo(name, trueval, match, false)], [LoadParameter] with a
    default (the value, if the session holds one) and without one (the
    value, or the way the library fails), [DefinesTag]/[GetTag], the
    session name and the rank of this process. *)
Record Session : Type := mkSession {
  GetVariable : list string;
  MatchSolverInfo : string -> string -> bool;
  parameter_int : string -> option Z;
  parameter : string -> option Q;
  required_parameter : string -> result Q;
  GetTag : string -> option string;
  GetSessionName : string;
  GetRank : nat;
}.

(** The members that [v_InitObject] writes. *)
Record IOSetup : Type := mkIOSetup {
  io_infosteps : Z;
  io_energysteps : Z;
  io_steadyStateSteps : Z;
  io_steadyStateTol : Q;
  io_mdlFile : option string;   (* the file that [m_mdlFile] has open *)
}.

Record Coefficients : Type := mkCoefficients {
  m_kinvis : Q; m_Re : Q; m_Rmu : Q; m_We : Q;
  m_ReC : Q; m_ReM1 : Q; m_ReM2 : Q; m_ReM3 : Q; m_ReM4 : Q; m_Rep : Q;
}.

Record Members : Type := mkMembers {
  mb_velocity : list (option nat);
  mb_equationType : EquationType;
  mb_viscoelasticType : ViscoElasticType;
  mb_io : IOSetup;
  mb_blood : Q * Q * Q;              (* m_WeInf, m_etaN, m_etaInf *)
  mb_coefficients : Coefficients;
  mb_advObject : option string;      (* the key [m_advObject] was created with *)
}.

(** Lines 144-159: the user-defined boundary conditions of the first Field
    are checked. *)
Definition check_user_defined (bnd : list (list BndUserDefinedType))
    : result unit :=
  conds ← rd bnd 0;
  for_each (upto 0 (length conds)) (λ n _,
    c ← rd conds n;
    if decide (c ≠ eNoUserDefined) then
      if decide (c ≠ eTimeDependent) then
        if decide (c ≠ eI)
        then Fatal "Unknown USERDEFINEDTYPE boundary condition"
        else Ok ()
      else Ok ()
    else Ok ()) ().

(** Lines 115-165, the [switch]. *)
Definition equation_specific_setup (ses : Session)
    (bnd : list (list BndUserDefinedType)) (eq : EquationType) (io : IOSetup)
    : result IOSetup :=
  match eq with
  | eSteadyStokes | eSteadyOseen | eSteadyNavierStokes | eSteadyLinearisedNS =>
      Ok io
  | eUnsteadyNavierStokes | eUnsteadyStokes | eUnsteadyViscoElastic =>
      let infosteps := default 0%Z (parameter_int ses "IO_InfoSteps") in
      let energysteps := default 0%Z (parameter_int ses "IO_EnergySteps") in
      let steadyStateSteps := default 0%Z (parameter_int ses "SteadyStateSteps") in
      let steadyStateTol := default (1 # 1000000) (parameter ses "SteadyStateTol") in
      let mdlname := String.append (GetSessionName ses) ".mdl" in
      let mdlFile :=
        if truthy energysteps && bool_decide (GetRank ses = 0%nat)
        then Some mdlname else io_mdlFile io in
      _ ← check_user_defined bnd;
      Ok (mkIOSetup infosteps energysteps steadyStateSteps steadyStateTol mdlFile)
  | eNoEquationType | eUnsteadyLinearisedNS =>
      Fatal "Unknown or undefined equation type"
  end.

(** Lines 250-275: the advection operator. *)
Definition advection_object (ses : Session) (eq : EquationType)
    (advObject : option string) : option string :=
  let a :=
    if bool_decide (eq = eUnsteadyNavierStokes ∨ eq = eSteadyNavierStokes
                    ∨ eq = eUnsteadyViscoElastic)
    then Some (default "Convective"%string (GetTag ses "AdvectiveType"))
    else advObject in
  let a :=
    if bool_decide (eq = eUnsteadyLinearisedNS)
    then Some (default "Linearised"%string (GetTag ses "AdvectiveType"))
    else a in
  if bool_decide (eq = eUnsteadyStokes) then Some "NoAdvection"%string else a.

(** [v_InitObject].  [m] holds the members as the constructors left them. *)
Definition v_InitObject (h : Header) (ses : Session) (m_spacedim numfields : nat)
    (bnd : list (list BndUserDefinedType)) (m : Members) : result Members :=
  velocity ← velocity_indices m_spacedim numfields (GetVariable ses);
  i ← first_match (λ i,
         name ← rd (kEquationTypeStr h) i;
         Ok (MatchSolverInfo ses "EQTYPE" name))
       (upto 0 (eEquationTypeSize h)) (eEquationTypeSize h);
  _ ← ASSERTL0 (bool_decide (i ≠ eEquationTypeSize h))
        "EQTYPE not found in SOLVERINFO section";
  let eq := EquationType_of_int h i in
  io ← equation_specific_setup ses bnd eq (mb_io m);
  '(i, ve) ←
    (if decide (eq = eUnsteadyViscoElastic) then
       i ← first_match (λ i,
              name ← rd (kEquationViscoElasticTypeStr h) i;
              Ok (MatchSolverInfo ses "VISELTYPE" name))
            (upto 0 (eEquationViscoElasticTypeSize h))
            (eEquationViscoElasticTypeSize h);
       Ok (i, if decide (i = eEquationViscoElasticTypeSize h)
              then mb_viscoelasticType m else ViscoElasticType_of_int h i)
     else Ok (i, mb_viscoelasticType m));
  _ ← ASSERTL0 (bool_decide (i ≠ eEquationViscoElasticTypeSize h))
        "VISELTYPE not found in SOLVERINFO section";
  kinvis ← required_parameter ses "Kinvis";
  Re ← required_parameter ses "Reynolds";
  Rmu ← required_parameter ses "Rmu";
  We ← required_parameter ses "Weissenberg";
  blood ←
    (if decide (ve = eHomogeneousBloodModel) then
       WeInf ← required_parameter ses "WeissenbergInf";
       etaN ← required_parameter ses "etaN";
       etaInf ← required_parameter ses "etaInf";
       Ok (WeInf, etaN, etaInf)
     else Ok (mb_blood m));
  let coefficients :=
    mkCoefficients kinvis Re Rmu We 1 1 (Rmu / Re) (1 / Re) (1 - Rmu) (1 / Re) in
  Ok (mkMembers velocity eq ve io blood coefficients
        (advection_object ses eq (mb_advObject m))).

(** The first index below [n] at which [test] holds. *)
Definition first_index (test : nat -> bool) (n : nat) : option nat :=
  snd <$> list_find (λ i, test i = true) (seq 0 n).

(** *** More example data *)

(** The solver state on the two one-point elements of [cfl_config]. *)
Definition cfl_solver : @Solver nodal_collaborators :=
  @mkSolver nodal_collaborators cfl_fields 0 0 [] ∅ [[1; 2]; [0; 0]]%Q [] [].

(** The set-up of [run_config] without sub-stepping, checkpoints or
    steady-state checks, writing the energy every [energy] passes. *)
Definition energy_config (energy : Z) : Config :=
  mkConfig 1 2 2 2 [0; 1]%nat 2 0 eUnsteadyNavierStokes eOtherViscoElasticType
    eNotHomogeneous false energy 0 0 (1 # 1000000) 1 0 0 [wide_element] [3%Z] 0.

(** The same with one homogeneous direction of [npointsZ] planes, and
    velocity Fields with the modal energies (here their coefficients)
    [1; 2; 9] and [3; 4]. *)
Definition modal_config (npointsZ : nat) : Config :=
  mkConfig 1 2 2 2 [0; 1]%nat 2 0 eUnsteadyNavierStokes eOtherViscoElasticType
    eHomogeneous1D false 1 0 0 (1 # 1000000) 1 0 0 [wide_element] [3%Z]
    npointsZ.

Definition modal_fields : list Field :=
  [mkField [0] [1; 2; 9] true true; mkField [0] [3; 4] true true;
   mkField [0] [] true true]%Q.

(** Velocity and pressure on two quadrature points only. *)
Definition narrow_solver : @Solver nodal_collaborators :=
  @mkSolver nodal_collaborators
    [mkField [1; 1] [1; 1] true false; mkField [0; 0] [0; 0] true false;
     mkField [0; 0] [0; 0] true false]%Q
    0 0 [] ∅ [] [] [].

(** A header with the equation types in the order of the enumeration of
    this development and two constitutive models, a session for an
    unsteady Navier-Stokes problem in the variables u, v and p, and the
    members before the set-up. *)
Definition example_header : Header :=
  mkHeader 9
    ["NoType"; "SteadyStokes"; "SteadyOseen"; "SteadyLinearisedNS";
     "UnsteadyStokes"; "UnsteadyLinearisedNS"; "UnsteadyNavierStokes";
     "SteadyNavierStokes"; "UnsteadyViscoElastic"]%string
    (λ i, nth i [eNoEquationType; eSteadyStokes; eSteadyOseen;
                 eSteadyLinearisedNS; eUnsteadyStokes; eUnsteadyLinearisedNS;
                 eUnsteadyNavierStokes; eSteadyNavierStokes;
                 eUnsteadyViscoElastic] eNoEquationType)
    2 ["OldroydB"; "HomogeneousBloodModel"]%string
    (λ i, if decide (i = 1%nat) then eHomogeneousBloodModel
          else eOtherViscoElasticType).

Definition example_session (eqtype : string) : Session :=
  mkSession ["u"; "v"; "p"]%string
    (λ name trueval,
       String.eqb name "EQTYPE" && NoCaseStringCompare_is_0 eqtype trueval)
    (λ name, if String.eqb name "IO_EnergySteps" then Some 10%Z else None)
    (λ _, None)
    (λ name, if String.eqb name "Reynolds" then Ok (100 : Q) else Ok (1 : Q))
    (λ name, if String.eqb name "AdvectiveType" then Some "WeakDG"%string
             else None)
    "channel"%string 0.

Definition example_members : Members :=
  mkMembers [] eNoEquationType eOtherViscoElasticType
    (mkIOSetup 0 0 0 0 None) (0, 0, 0)%Q
    (mkCoefficients 0 0 0 0 0 0 0 0 0 0) None.

(* ================================================================== *)
(** * Properties *)
(* ================================================================== *)

(** ** The result monad, array accesses and loops *)

Lemma bind_Ok {A B} (r : result A) (k : A -> result B) (b : B) :
  (r ≫= k) = Ok b <-> exists a, r = Ok a /\ k a = Ok b.
Proof.
  destruct r as [a| |]; simpl; split.
  - intros H. exists a. split; [reflexivity | exact H].
  - intros (a' & [= ->] & H). exact H.
  - discriminate.
  - intros (a' & [=] & _).
  - discriminate.
  - intros (a' & [=] & _).
Qed.

Lemma rd_Ok {A} (a : list A) (i : nat) (x : A) : rd a i = Ok x <-> a !! i = Some x.
Proof.
  unfold rd. destruct (a !! i); split; intros H; try discriminate; congruence.
Qed.

Lemma rd_lt {A} (a : list A) (i : nat) :
  (i < length a)%nat -> exists x, rd a i = Ok x /\ a !! i = Some x.
Proof.
  intros H. destruct (lookup_lt_is_Some_2 a i H) as [x Hx].
  exists x. split; [apply rd_Ok|]; exact Hx.
Qed.

Lemma rd_ge {A} (a : list A) (i : nat) : (length a <= i)%nat -> rd a i = Undefined.
Proof.
  intros H. unfold rd. rewrite (lookup_ge_None_2 a i H). reflexivity.
Qed.

Lemma wr_lt {A} (a : list A) (i : nat) (x : A) :
  (i < length a)%nat -> wr a i x = Ok (<[i:=x]> a).
Proof. intros H. unfold wr. rewrite decide_True by exact H. reflexivity. Qed.

Lemma wr_ge {A} (a : list A) (i : nat) (x : A) :
  (length a <= i)%nat -> wr a i x = Undefined.
Proof. intros H. unfold wr. rewrite decide_False by lia. reflexivity. Qed.

Lemma for_each_app {S} (a b : list nat) (body : nat -> S -> result S) (s : S) :
  for_each (a ++ b) body s = (for_each a body s ≫= for_each b body).
Proof.
  revert s. induction a as [|i a IH]; intros s; simpl; [reflexivity|].
  destruct (body i s); simpl; [apply IH | reflexivity | reflexivity].
Qed.

Lemma upto_S (a b : nat) : (a <= b)%nat -> upto a (S b) = upto a b ++ [b].
Proof.
  intros H. unfold upto. replace (S b - a)%nat with (S (b - a)) by lia.
  rewrite seq_S. do 2 f_equal. lia.
Qed.

Lemma upto_cons (a b : nat) : (a < b)%nat -> upto a b = a :: upto (S a) b.
Proof.
  intros H. unfold upto. replace (b - a)%nat with (S (b - S a)) by lia.
  reflexivity.
Qed.

Lemma upto_nil (a b : nat) : (b <= a)%nat -> upto a b = [].
Proof. intros H. unfold upto. replace (b - a)%nat with 0%nat by lia. reflexivity. Qed.

(** The counting-loop rule: an invariant [P i s] that every iteration
    re-establishes at [i+1] holds at the upper bound, and the loop runs to
    its end. *)
Lemma for_each_upto {S} (P : nat -> S -> Prop) (a b : nat)
    (body : nat -> S -> result S) (s : S) :
  (a <= b)%nat -> P a s ->
  (forall i s, (a <= i < b)%nat -> P i s -> exists s', body i s = Ok s' /\ P (Datatypes.S i) s') ->
  exists s', for_each (upto a b) body s = Ok s' /\ P b s'.
Proof.
  intros Hab. induction Hab as [|b Hab IH]; intros Hs Hbody.
  - exists s. rewrite upto_nil by lia. split; [reflexivity | exact Hs].
  - destruct IH as (s1 & Hrun & Hs1); [exact Hs | intros; apply Hbody; [lia | assumption] |].
    destruct (Hbody b s1) as (s2 & Hb & Hs2); [lia | exact Hs1 |].
    exists s2. split; [|exact Hs2].
    rewrite upto_S, for_each_app, Hrun by exact Hab. simpl. rewrite Hb. reflexivity.
Qed.

(** A loop that ran to its end kept every invariant that its passes keep. *)
Lemma for_each_upto_inv {St} (P : nat -> St -> Prop) (a b : nat)
    (body : nat -> St -> result St) (s s' : St) :
  (a <= b)%nat -> P a s ->
  (forall i s s', (a <= i < b)%nat -> P i s -> body i s = Ok s' -> P (S i) s') ->
  for_each (upto a b) body s = Ok s' -> P b s'.
Proof.
  intros Hab Hs Hbody. revert s'.
  induction Hab as [|b Hab IH]; intros s' Hrun.
  - rewrite upto_nil in Hrun by lia. injection Hrun as <-. exact Hs.
  - rewrite upto_S, for_each_app in Hrun by exact Hab.
    apply bind_Ok in Hrun as (s1 & Hrun & Hlast).
    simpl in Hlast. apply bind_Ok in Hlast as (s2 & Hb & Hlast).
    injection Hlast as <-.
    apply (Hbody b s1 s2); [lia | | exact Hb].
    apply IH; [|exact Hrun]. intros i t t' Hi. apply Hbody. lia.
Qed.

(** ** Kernels *)

Lemma fits_true {A} (n : nat) (x : list A) : fits n x = true <-> (n <= length x)%nat.
Proof. unfold fits. apply bool_decide_eq_true. Qed.

Lemma fits_false {A} (n : nat) (x : list A) : fits n x = false <-> (length x < n)%nat.
Proof. unfold fits. rewrite bool_decide_eq_false. lia. Qed.

Lemma Smul_Ok (n : nat) (a : Q) (x y : list Q) :
  (n <= length x)%nat -> (n <= length y)%nat ->
  exists y', Smul n a x y = Ok y' /\ length y' = length y /\
    forall k xk, (k < n)%nat -> x !! k = Some xk -> y' !! k = Some (a * xk)%Q.
Proof.
  intros Hx Hy. unfold Smul.
  rewrite (proj2 (fits_true n x) Hx), (proj2 (fits_true n y) Hy). simpl.
  eexists. split; [reflexivity|]. split.
  - rewrite length_app, length_fmap, length_take, length_drop. lia.
  - intros k xk Hk Hxk.
    rewrite lookup_app_l by (rewrite length_fmap, length_take; lia).
    rewrite list_lookup_fmap, lookup_take_lt, Hxk by exact Hk. reflexivity.
Qed.

Lemma Daxpy_Ok (n : nat) (a : Q) (x y : list Q) :
  (n <= length x)%nat -> (n <= length y)%nat ->
  exists y', Daxpy n a x y = Ok y' /\ length y' = length y /\
    forall k xk yk, (k < n)%nat -> x !! k = Some xk -> y !! k = Some yk ->
      y' !! k = Some (a * xk + yk)%Q.
Proof.
  intros Hx Hy. unfold Daxpy.
  rewrite (proj2 (fits_true n x) Hx), (proj2 (fits_true n y) Hy). simpl.
  eexists. split; [reflexivity|]. split.
  - rewrite length_app, length_zip_with, !length_take, length_drop. lia.
  - intros k xk yk Hk Hxk Hyk.
    rewrite lookup_app_l by (rewrite length_zip_with, !length_take; lia).
    rewrite lookup_zip_with, !lookup_take_lt, Hxk, Hyk by exact Hk. reflexivity.
Qed.

Lemma Vcopy_Ok (n : nat) (x y : list Q) :
  (n <= length x)%nat -> (n <= length y)%nat ->
  Vcopy n x y = Ok (take n x ++ drop n y).
Proof.
  intros Hx Hy. unfold Vcopy.
  rewrite (proj2 (fits_true n x) Hx), (proj2 (fits_true n y) Hy). reflexivity.
Qed.

Lemma Vcopy_whole (x y : list Q) :
  length x = length y -> Vcopy (length x) x y = Ok x.
Proof.
  intros H. rewrite Vcopy_Ok by lia.
  rewrite take_ge, drop_ge, app_nil_r by lia. reflexivity.
Qed.

Lemma ext_proper (l l' x x' : nat -> Q) (m : nat) :
  (forall j, (j <= m)%nat -> l j == l' j) ->
  (forall j, (j <= m)%nat -> x j == x' j) ->
  ext l x m == ext l' x' m.
Proof.
  induction m as [|m IH]; intros Hl Hx; simpl.
  - rewrite (Hl 0%nat), (Hx 0%nat) by lia. reflexivity.
  - rewrite (Hl (S m)), (Hx (S m)), IH by (try intros; try apply Hl; try apply Hx; lia).
    reflexivity.
Qed.


(** ** Scalars *)

Lemma Qltb_lt (x y : Q) : Qltb x y = true <-> (x < y)%Q.
Proof.
  unfold Qltb. rewrite negb_true_iff, <- not_true_iff_false, Qle_bool_iff.
  split; [apply Qnot_le_lt | apply Qlt_not_le].
Qed.

Lemma Qltb_ge (x y : Q) : Qltb x y = false <-> (y <= x)%Q.
Proof.
  unfold Qltb. rewrite negb_false_iff. apply Qle_bool_iff.
Qed.

(** ** Rounding to the nearest double *)

Lemma pow2_pos (e : Z) : (0 < 2 ^ e)%Q.
Proof. apply Qpower_0_lt. reflexivity. Qed.

Lemma pow2_plus (a b : Z) : (2 ^ (a + b) == 2 ^ a * 2 ^ b)%Q.
Proof. apply Qpower_plus. discriminate. Qed.

Lemma pow2_nonneg_Z (c : Z) : (0 <= c)%Z -> (2 ^ c == inject_Z (2 ^ c))%Q.
Proof.
  intros Hc. change 2%Q with (inject_Z 2). symmetry. apply Zpower_Qpower. exact Hc.
Qed.

Lemma pow2_le (a b : Z) : (a <= b)%Z -> (2 ^ a <= 2 ^ b)%Q.
Proof. intros Hab. apply Qpower_le_compat_l; [exact Hab | discriminate]. Qed.

Lemma pow2_lt_inv (a b : Z) : (2 ^ a < 2 ^ b)%Q -> (a < b)%Z.
Proof. intros H. apply (Qpower_lt_compat_l_inv 2); [exact H | reflexivity]. Qed.

Lemma binade_le (x : Q) : (0 < x)%Q -> (2 ^ binade x <= x)%Q.
Proof.
  intros Hx. unfold binade.
  destruct (Qle_bool _ x) eqn:E; [apply Qle_bool_iff, E|].
  destruct x as [n d]. cbn [Qnum Qden].
  assert (Hn : (0 < n)%Z) by (unfold Qlt in Hx; simpl in Hx; lia).
  pose proof (Z.log2_spec n Hn) as [Hn1 Hn2].
  pose proof (Z.log2_spec (Zpos d) ltac:(lia)) as [Hd1 Hd2].
  pose proof (Z.log2_nonneg n) as Ha. pose proof (Z.log2_nonneg (Zpos d)) as Hb.
  set (a := Z.log2 n) in *. set (b := Z.log2 (Zpos d)) in *.
  replace (a - b - 1)%Z with (a + - (b + 1))%Z by lia.
  rewrite pow2_plus, Qpower_opp.
  rewrite (pow2_nonneg_Z a Ha), (pow2_nonneg_Z (b + 1) ltac:(lia)).
  rewrite (Qmake_Qdiv n d).
  replace (Z.succ b) with (b + 1)%Z in Hd2 by lia.
  assert (H1 : (inject_Z (2 ^ a) <= inject_Z n)%Q) by (rewrite <- Zle_Qle; exact Hn1).
  assert (H2 : (inject_Z (Zpos d) < inject_Z (2 ^ (b + 1)))%Q)
    by (rewrite <- Zlt_Qlt; exact Hd2).
  assert (H3 : (0 < inject_Z (Zpos d))%Q) by reflexivity.
  assert (H4 : (0 < inject_Z (2 ^ a))%Q).
  { change 0%Q with (inject_Z 0). rewrite <- Zlt_Qlt. apply Z.pow_pos_nonneg; lia. }
  set (A := inject_Z (2 ^ a)) in *. set (N := inject_Z n) in *.
  set (D := inject_Z (Zpos d)) in *. set (B := inject_Z (2 ^ (b + 1))) in *.
  assert (HB : (0 < B)%Q) by Lqa.lra.
  apply Qle_shift_div_l; [exact H3|].
  assert (HX : (0 < / B)%Q) by (apply Qinv_lt_0_compat, HB).
  assert (HXB : (/ B * B == 1)%Q) by (rewrite Qmult_comm; apply Qmult_inv_r; Lqa.lra).
  set (X := (/ B)%Q) in *.
  assert (HAX : (0 <= A * X)%Q) by (apply Qmult_le_0_compat; Lqa.lra).
  assert (Hp : (0 <= A * X * (B - D))%Q) by (apply Qmult_le_0_compat; Lqa.lra).
  Lqa.nra.
Qed.

Lemma round_even_floor (m : Q) : (Qfloor m <= round_even m)%Z.
Proof.
  unfold round_even. destruct (_ ?= _)%Q; [destruct (Z.even _)|..]; lia.
Qed.

Lemma round_even_ceiling (m : Q) : (round_even m <= Qceiling m)%Z.
Proof.
  unfold round_even.
  destruct (Qeq_dec m (inject_Z (Qfloor m))) as [Hint|Hfrac].
  - assert (E : (m - inject_Z (Qfloor m) ?= 1 # 2)%Q = Lt).
    { rewrite <- Qlt_alt. Lqa.lra. }
    rewrite E. pose proof (Qle_ceiling m).
    rewrite Zle_Qle. Lqa.lra.
  - assert (Hlt : (inject_Z (Qfloor m) < m)%Q).
    { pose proof (Qfloor_le m). Lqa.lra. }
    assert (Hc' : (Qfloor m + 1 <= Qceiling m)%Z).
    { pose proof (Qle_ceiling m) as Hm.
      assert (inject_Z (Qfloor m) < inject_Z (Qceiling m))%Q by Lqa.lra.
      rewrite <- Zlt_Qlt in H. lia. }
    destruct (_ ?= _)%Q; [destruct (Z.even _)|..]; lia.
Qed.

Lemma binade_lt (x : Q) : (0 < x)%Q -> (x < 2 ^ (binade x + 1))%Q.
Proof.
  intros Hx. unfold binade.
  destruct (Qle_bool _ x) eqn:E.
  - destruct x as [n d]. cbn [Qnum Qden].
    assert (Hn : (0 < n)%Z) by (unfold Qlt in Hx; simpl in Hx; lia).
    pose proof (Z.log2_spec n Hn) as [Hn1 Hn2].
    pose proof (Z.log2_spec (Zpos d) ltac:(lia)) as [Hd1 Hd2].
    pose proof (Z.log2_nonneg n) as Ha. pose proof (Z.log2_nonneg (Zpos d)) as Hb.
    set (a := Z.log2 n) in *. set (b := Z.log2 (Zpos d)) in *.
    replace (a - b + 1)%Z with ((a + 1) + - b)%Z by lia.
    rewrite pow2_plus, Qpower_opp.
    rewrite (pow2_nonneg_Z (a + 1) ltac:(lia)), (pow2_nonneg_Z b Hb).
    rewrite (Qmake_Qdiv n d).
    replace (Z.succ a) with (a + 1)%Z in Hn2 by lia.
    assert (H1 : (inject_Z n < inject_Z (2 ^ (a + 1)))%Q)
      by (rewrite <- Zlt_Qlt; exact Hn2).
    assert (H2 : (inject_Z (2 ^ b) <= inject_Z (Zpos d))%Q)
      by (rewrite <- Zle_Qle; exact Hd1).
    assert (H3 : (0 < inject_Z (Zpos d))%Q) by reflexivity.
    assert (H4 : (0 < inject_Z (2 ^ b))%Q).
    { change 0%Q with (inject_Z 0). rewrite <- Zlt_Qlt. apply Z.pow_pos_nonneg; lia. }
    assert (H5 : (0 < inject_Z n)%Q).
    { change 0%Q with (inject_Z 0). rewrite <- Zlt_Qlt. exact Hn. }
    set (A := inject_Z (2 ^ (a + 1))) in *. set (N := inject_Z n) in *.
    set (D := inject_Z (Zpos d)) in *. set (B := inject_Z (2 ^ b)) in *.
    apply Qlt_shift_div_r; [exact H3|].
    assert (HX : (0 < / B)%Q) by (apply Qinv_lt_0_compat, H4).
    assert (HXB : (/ B * B == 1)%Q)
      by (rewrite Qmult_comm; apply Qmult_inv_r; Lqa.lra).
    set (X := (/ B)%Q) in *.
    assert (HAX : (0 <= A * X)%Q) by (apply Qmult_le_0_compat; Lqa.lra).
    assert (Hp : (0 <= A * X * (D - B))%Q) by (apply Qmult_le_0_compat; Lqa.lra).
    Lqa.nra.
  - replace (_ - 1 + 1)%Z with (Z.log2 (Qnum x) - Z.log2 (QDen x))%Z by lia.
    apply Qnot_le_lt. intros Hle. apply Qle_bool_iff in Hle. congruence.
Qed.

Lemma binade_unique (x : Q) (e : Z) :
  (2 ^ e <= x)%Q -> (x < 2 ^ (e + 1))%Q -> binade x = e.
Proof.
  intros H1 H2.
  assert (Hx : (0 < x)%Q) by (pose proof (pow2_pos e); Lqa.lra).
  pose proof (binade_le x Hx) as B1. pose proof (binade_lt x Hx) as B2.
  assert (binade x < e + 1)%Z by (apply pow2_lt_inv; Lqa.lra).
  assert (e < binade x + 1)%Z by (apply pow2_lt_inv; Lqa.lra).
  lia.
Qed.

Lemma binade_comp (x y : Q) : (0 < x)%Q -> (x == y)%Q -> binade x = binade y.
Proof.
  intros Hx E. symmetry. apply binade_unique; rewrite <- E.
  - apply binade_le, Hx.
  - apply binade_lt, Hx.
Qed.

Lemma binade_mono (x y : Q) : (0 < x)%Q -> (x <= y)%Q -> (binade x <= binade y)%Z.
Proof.
  intros Hx Hxy.
  pose proof (binade_le x Hx). pose proof (binade_lt y ltac:(Lqa.lra)).
  assert (binade x < binade y + 1)%Z by (apply pow2_lt_inv; Lqa.lra). lia.
Qed.

Lemma RN_zero (x : Q) : (x == 0)%Q -> RN x = 0%Q.
Proof.
  intros E. unfold RN. rewrite (Qred_complete x 0 E). reflexivity.
Qed.

Lemma RN_nonzero (x : Q) :
  ~ (x == 0)%Q ->
  RN x = Qred (inject_Z (round_even (Qred x / 2 ^ ulp_exp (Qred x)))
               * 2 ^ ulp_exp (Qred x)).
Proof.
  intros Hx. unfold RN, ulp_exp.
  destruct (Qeq_bool (Qred x) 0) eqn:E; [|reflexivity].
  apply Qeq_bool_iff in E. rewrite Qred_correct in E. contradiction.
Qed.

Lemma round_even_comp (m m' : Q) : (m == m')%Q -> round_even m = round_even m'.
Proof.
  intros E. unfold round_even. rewrite (Qfloor_comp m m' E).
  assert (E' : (m - inject_Z (Qfloor m') == m' - inject_Z (Qfloor m'))%Q)
    by (rewrite E; reflexivity).
  rewrite (Qcompare_comp _ _ E' (1 # 2) (1 # 2) (Qeq_refl _)). reflexivity.
Qed.

Lemma Qabs_pos_nonzero (x : Q) : ~ (x == 0)%Q -> (0 < Qabs x)%Q.
Proof.
  intros Hx. apply Qabs_case; intros; destruct (Qeq_dec x 0); try contradiction; Lqa.lra.
Qed.

Lemma ulp_exp_comp (x y : Q) : ~ (x == 0)%Q -> (x == y)%Q -> ulp_exp x = ulp_exp y.
Proof.
  intros Hx E. unfold ulp_exp. f_equal. f_equal.
  apply binade_comp; [|rewrite E; reflexivity].
  apply Qabs_pos_nonzero, Hx.
Qed.

(** [RN x], up to [==]: the multiple of the spacing around [x] nearest
    to it. *)
Lemma RN_eq (x : Q) :
  ~ (x == 0)%Q ->
  (RN x == inject_Z (round_even (x / 2 ^ ulp_exp x)) * 2 ^ ulp_exp x)%Q.
Proof.
  intros Hx. rewrite (RN_nonzero x Hx), Qred_correct.
  assert (Hr : ~ (Qred x == 0)%Q) by (rewrite Qred_correct; exact Hx).
  rewrite (ulp_exp_comp (Qred x) x Hr (Qred_correct x)).
  rewrite (round_even_comp (Qred x / 2 ^ ulp_exp x) (x / 2 ^ ulp_exp x)).
  - reflexivity.
  - rewrite Qred_correct. reflexivity.
Qed.

Lemma RN_comp (x y : Q) : (x == y)%Q -> RN x = RN y.
Proof. intros E. unfold RN. rewrite (Qred_complete x y E). reflexivity. Qed.

(** A multiple [g] of the spacing around [x] that is below (above) [x]
    is below (above) [RN x]: rounding does not step over it. *)
Lemma RN_ge_multiple (x : Q) (K : Z) :
  ~ (x == 0)%Q ->
  (inject_Z K * 2 ^ ulp_exp x <= x)%Q ->
  (inject_Z K * 2 ^ ulp_exp x <= RN x)%Q.
Proof.
  intros Hx HK. rewrite (RN_eq x Hx).
  pose proof (pow2_pos (ulp_exp x)) as Hp. set (P := (2 ^ ulp_exp x)%Q) in *.
  assert (Hm : (inject_Z K <= x / P)%Q) by (apply Qle_shift_div_l; assumption).
  pose proof (Qfloor_resp_le _ _ Hm) as Hf. rewrite Qfloor_Z in Hf.
  pose proof (round_even_floor (x / P)) as Hr.
  assert (Hz : (inject_Z K <= inject_Z (round_even (x / P)))%Q)
    by (rewrite <- Zle_Qle; lia).
  Lqa.nra.
Qed.

Lemma RN_le_multiple (x : Q) (K : Z) :
  ~ (x == 0)%Q ->
  (x <= inject_Z K * 2 ^ ulp_exp x)%Q ->
  (RN x <= inject_Z K * 2 ^ ulp_exp x)%Q.
Proof.
  intros Hx HK. rewrite (RN_eq x Hx).
  pose proof (pow2_pos (ulp_exp x)) as Hp. set (P := (2 ^ ulp_exp x)%Q) in *.
  assert (Hm : (x / P <= inject_Z K)%Q) by (apply Qle_shift_div_r; assumption).
  pose proof (Qceiling_resp_le _ _ Hm) as Hf. rewrite Qceiling_Z in Hf.
  pose proof (round_even_ceiling (x / P)) as Hr.
  assert (Hz : (inject_Z (round_even (x / P)) <= inject_Z K)%Q)
    by (rewrite <- Zle_Qle; lia).
  Lqa.nra.
Qed.

(** Every multiple of [2 ^ a] is a multiple of [2 ^ b] when [b <= a]. *)
Lemma pow2_multiple (K a b : Z) :
  (b <= a)%Z -> (inject_Z K * 2 ^ a == inject_Z (K * 2 ^ (a - b)) * 2 ^ b)%Q.
Proof.
  intros Hab. rewrite inject_Z_mult, <- (pow2_nonneg_Z (a - b)) by lia.
  rewrite <- Qmult_assoc, <- pow2_plus. replace (a - b + b)%Z with a by lia.
  reflexivity.
Qed.

Lemma ulp_exp_le_0 (x : Q) : (Qabs x < 2 ^ 53)%Q -> ~ (x == 0)%Q -> (ulp_exp x <= 0)%Z.
Proof.
  intros Hb Hx. unfold ulp_exp.
  pose proof (binade_le (Qabs x) (Qabs_pos_nonzero x Hx)) as Hl.
  assert (binade (Qabs x) < 53)%Z by (apply pow2_lt_inv; Lqa.lra). lia.
Qed.

(** Below [2 ^ 53] every integer is a [double]: rounding does not step
    over an integer. *)
Lemma RN_ge_int (x : Q) (k : Z) :
  (Qabs x < 2 ^ 53)%Q -> (inject_Z k <= x)%Q -> (inject_Z k <= RN x)%Q.
Proof.
  intros Hb Hk. destruct (Qeq_dec x 0) as [E|Hx].
  - rewrite (RN_zero x E). Lqa.lra.
  - pose proof (ulp_exp_le_0 x Hb Hx) as Hs.
    pose proof (pow2_multiple k 0 (ulp_exp x) Hs) as Hm.
    change (2 ^ 0)%Q with 1%Q in Hm. rewrite Qmult_1_r in Hm.
    rewrite Hm in *. apply RN_ge_multiple; assumption.
Qed.

Lemma RN_le_int (x : Q) (k : Z) :
  (Qabs x < 2 ^ 53)%Q -> (x <= inject_Z k)%Q -> (RN x <= inject_Z k)%Q.
Proof.
  intros Hb Hk. destruct (Qeq_dec x 0) as [E|Hx].
  - rewrite (RN_zero x E). Lqa.lra.
  - pose proof (ulp_exp_le_0 x Hb Hx) as Hs.
    pose proof (pow2_multiple k 0 (ulp_exp x) Hs) as Hm.
    change (2 ^ 0)%Q with 1%Q in Hm. rewrite Qmult_1_r in Hm.
    rewrite Hm in *. apply RN_le_multiple; assumption.
Qed.

Lemma Qred_inject_Z (k : Z) : Qred (inject_Z k) = inject_Z k.
Proof.
  unfold Qred, inject_Z.
  pose proof (Z.ggcd_gcd k 1) as Hg. pose proof (Z.ggcd_correct_divisors k 1) as Hd.
  destruct (Z.ggcd k 1) as [g [aa bb]]. simpl in *. rewrite Z.gcd_1_r in Hg. subst g.
  destruct Hd as [Ha Hb]. replace bb with 1%Z by lia. replace aa with k by lia.
  reflexivity.
Qed.

Lemma RN_Qred (x : Q) : Qred (RN x) = RN x.
Proof.
  unfold RN. destruct (Qeq_bool _ _); [reflexivity|].
  apply Qred_complete, Qred_correct.
Qed.

Lemma RN_int (k : Z) : (Z.abs k < 2 ^ 53)%Z -> RN (inject_Z k) = inject_Z k.
Proof.
  intros Hk.
  assert (Hb : (Qabs (inject_Z k) < 2 ^ 53)%Q).
  { apply Qabs_case; intros _.
    - change (2 ^ 53)%Q with (inject_Z (2 ^ 53)). rewrite <- Zlt_Qlt. lia.
    - rewrite <- inject_Z_opp.
      change (2 ^ 53)%Q with (inject_Z (2 ^ 53)). rewrite <- Zlt_Qlt. lia. }
  pose proof (RN_ge_int _ k Hb ltac:(apply Qle_refl)).
  pose proof (RN_le_int _ k Hb ltac:(apply Qle_refl)).
  assert (E : (RN (inject_Z k) == inject_Z k)%Q) by Lqa.lra.
  rewrite <- RN_Qred, (Qred_complete _ _ E). apply Qred_inject_Z.
Qed.

Lemma RN_nonneg (x : Q) : (0 <= x)%Q -> (0 <= RN x)%Q.
Proof.
  intros Hx. destruct (Qeq_dec x 0) as [E|Hnz].
  - rewrite (RN_zero x E). apply Qle_refl.
  - pose proof (RN_ge_multiple x 0 Hnz) as H.
    assert (E0 : (inject_Z 0 * 2 ^ ulp_exp x == 0)%Q) by ring.
    rewrite E0 in H.
    apply H, Hx.
Qed.

Lemma RN_nonpos (x : Q) : (x <= 0)%Q -> (RN x <= 0)%Q.
Proof.
  intros Hx. destruct (Qeq_dec x 0) as [E|Hnz].
  - rewrite (RN_zero x E). apply Qle_refl.
  - pose proof (RN_le_multiple x 0 Hnz) as H.
    assert (E0 : (inject_Z 0 * 2 ^ ulp_exp x == 0)%Q) by ring.
    rewrite E0 in H.
    apply H, Hx.
Qed.

(** Nothing at or above the smallest positive [double] rounds to zero. *)
Lemma RN_pos (x : Q) : (2 ^ (-1074) <= x)%Q -> (0 < RN x)%Q.
Proof.
  intros Hx. pose proof (pow2_pos (-1074)) as H0.
  assert (Hnz : ~ (x == 0)%Q) by (intros E; rewrite E in Hx; Lqa.lra).
  pose proof (RN_ge_multiple x 1 Hnz) as H.
  pose proof (pow2_pos (ulp_exp x)) as Hp.
  assert (E1 : (inject_Z 1 * 2 ^ ulp_exp x == 2 ^ ulp_exp x)%Q) by ring.
  rewrite E1 in H.
  apply (Qlt_le_trans _ _ _ Hp), H.
  assert (Habs : (Qabs x == x)%Q) by (apply Qabs_pos; Lqa.lra).
  unfold ulp_exp. rewrite (binade_comp (Qabs x) x) by (rewrite ?Habs; Lqa.lra || exact Habs).
  pose proof (binade_le x ltac:(Lqa.lra)) as Hb.
  destruct (Z_le_gt_dec (binade x) (-1022)) as [Hsub|Hnorm].
  - rewrite Z.max_r by lia. exact Hx.
  - rewrite Z.max_l by lia.
    pose proof (pow2_le (binade x - 52) (binade x) ltac:(lia)). Lqa.lra.
Qed.

Lemma Qfloor_unique (x : Q) (z : Z) :
  (inject_Z z <= x)%Q -> (x < inject_Z (z + 1))%Q -> Qfloor x = z.
Proof.
  intros H1 H2.
  pose proof (Qfloor_resp_le _ _ H1) as Hl. rewrite Qfloor_Z in Hl.
  pose proof (Qfloor_le x) as Hf.
  assert (Hlt : (inject_Z (Qfloor x) < inject_Z (z + 1))%Q) by Lqa.lra.
  rewrite <- Zlt_Qlt in Hlt. lia.
Qed.

Lemma round_even_opp (m : Q) : round_even (- m) = (- round_even m)%Z.
Proof.
  pose proof (Qfloor_le m) as Hf. pose proof (Qlt_floor m) as Hf'.
  rewrite inject_Z_plus in Hf'. change (inject_Z 1) with 1%Q in Hf'.
  destruct (Qeq_dec m (inject_Z (Qfloor m))) as [Hint|Hfrac].
  - assert (E : Qfloor (- m) = (- Qfloor m)%Z).
    { apply Qfloor_unique; rewrite ?inject_Z_plus, inject_Z_opp;
        change (inject_Z 1) with 1%Q; Lqa.lra. }
    unfold round_even. rewrite E.
    assert (E1 : (m - inject_Z (Qfloor m) ?= 1 # 2)%Q = Lt)
      by (rewrite <- Qlt_alt; Lqa.lra).
    assert (E2 : (- m - inject_Z (- Qfloor m) ?= 1 # 2)%Q = Lt)
      by (rewrite <- Qlt_alt, inject_Z_opp; Lqa.lra).
    rewrite E1, E2. reflexivity.
  - assert (E : Qfloor (- m) = (- Qfloor m - 1)%Z).
    { apply Qfloor_unique.
      - unfold Z.sub. rewrite inject_Z_plus, !inject_Z_opp.
        change (inject_Z 1) with 1%Q. Lqa.lra.
      - replace (- Qfloor m - 1 + 1)%Z with (- Qfloor m)%Z by lia.
        rewrite inject_Z_opp. Lqa.lra. }
    unfold round_even. rewrite E.
    set (f := Qfloor m) in *.
    assert (Ei : (inject_Z (- f - 1) == - inject_Z f - 1)%Q).
    { unfold Z.sub. rewrite inject_Z_plus, !inject_Z_opp. reflexivity. }
    destruct (m - inject_Z f ?= 1 # 2)%Q eqn:C.
    + apply Qeq_alt in C.
      assert (C' : (- m - inject_Z (- f - 1) ?= 1 # 2)%Q = Eq)
        by (rewrite <- Qeq_alt, Ei; Lqa.lra).
      rewrite C'. replace (- f - 1)%Z with (- (f + 1))%Z by lia.
      rewrite Z.even_opp, Z.even_add. simpl.
      destruct (Z.even f); simpl; lia.
    + apply Qlt_alt in C.
      assert (C' : (- m - inject_Z (- f - 1) ?= 1 # 2)%Q = Gt)
        by (rewrite <- Qgt_alt, Ei; Lqa.lra).
      rewrite C'. lia.
    + apply Qgt_alt in C.
      assert (C' : (- m - inject_Z (- f - 1) ?= 1 # 2)%Q = Lt)
        by (rewrite <- Qlt_alt, Ei; Lqa.lra).
      rewrite C'. lia.
Qed.

Lemma round_even_mono (m m' : Q) : (m <= m')%Q -> (round_even m <= round_even m')%Z.
Proof.
  intros Hm. pose proof (Qfloor_resp_le _ _ Hm) as Hf.
  destruct (Z.eq_dec (Qfloor m) (Qfloor m')) as [E|Hne].
  - unfold round_even. rewrite <- E. set (f := Qfloor m) in *.
    destruct (m - inject_Z f ?= 1 # 2)%Q eqn:C;
      destruct (m' - inject_Z f ?= 1 # 2)%Q eqn:C';
      repeat match goal with
             | H : (_ ?= _)%Q = Eq |- _ => apply Qeq_alt in H
             | H : (_ ?= _)%Q = Lt |- _ => apply Qlt_alt in H
             | H : (_ ?= _)%Q = Gt |- _ => apply Qgt_alt in H
             end;
      try (exfalso; Lqa.lra); try destruct (Z.even f); lia.
  - pose proof (round_even_floor m').
    assert (round_even m <= Qfloor m + 1)%Z.
    { unfold round_even. destruct (_ ?= _)%Q; [destruct (Z.even _)|..]; lia. }
    lia.
Qed.

Lemma ulp_exp_opp (x : Q) : ~ (x == 0)%Q -> ulp_exp (- x) = ulp_exp x.
Proof.
  intros Hx. unfold ulp_exp. f_equal. f_equal. apply binade_comp.
  - apply Qabs_pos_nonzero. intros E. apply Hx. Lqa.lra.
  - apply Qabs_opp.
Qed.

Lemma RN_opp (x : Q) : RN (- x) = (- RN x)%Q.
Proof.
  destruct (Qeq_dec x 0) as [E|Hx].
  - rewrite (RN_zero x E), (RN_zero (- x)) by (rewrite E; reflexivity). reflexivity.
  - assert (Hx' : ~ (- x == 0)%Q) by (intros E; apply Hx; Lqa.lra).
    assert (E : (RN (- x) == - RN x)%Q).
    { rewrite (RN_eq (- x) Hx'), (RN_eq x Hx), (ulp_exp_opp x Hx).
      rewrite (round_even_comp (- x / 2 ^ ulp_exp x) (- (x / 2 ^ ulp_exp x)))
        by (unfold Qdiv; ring).
      rewrite round_even_opp, inject_Z_opp. ring. }
    rewrite <- (RN_Qred (- x)), (Qred_complete _ _ E), Qred_opp, RN_Qred.
    reflexivity.
Qed.

Lemma ulp_exp_mono (x y : Q) : (0 < x)%Q -> (x <= y)%Q -> (ulp_exp x <= ulp_exp y)%Z.
Proof.
  intros Hx Hxy. unfold ulp_exp.
  assert (Hax : (Qabs x == x)%Q) by (apply Qabs_pos; Lqa.lra).
  assert (Hay : (Qabs y == y)%Q) by (apply Qabs_pos; Lqa.lra).
  rewrite (binade_comp (Qabs x) x), (binade_comp (Qabs y) y);
    try assumption; try (rewrite ?Hax, ?Hay; Lqa.lra).
  pose proof (binade_mono x y Hx Hxy). lia.
Qed.

Lemma RN_mono_pos (x y : Q) : (0 < x)%Q -> (x <= y)%Q -> (RN x <= RN y)%Q.
Proof.
  intros Hx Hxy.
  assert (Hnx : ~ (x == 0)%Q) by (intros E; Lqa.lra).
  assert (Hny : ~ (y == 0)%Q) by (intros E; Lqa.lra).
  pose proof (ulp_exp_mono x y Hx Hxy) as Hs.
  destruct (Z.eq_dec (ulp_exp x) (ulp_exp y)) as [E|Hne].
  - rewrite (RN_eq x Hnx), (RN_eq y Hny), <- E.
    pose proof (pow2_pos (ulp_exp x)) as Hp. set (P := (2 ^ ulp_exp x)%Q) in *.
    assert (Hm : (x / P <= y / P)%Q).
    { apply Qle_shift_div_l; [exact Hp|].
      unfold Qdiv. rewrite <- Qmult_assoc, (Qmult_comm (/ P)), Qmult_inv_r by Lqa.lra.
      Lqa.lra. }
    pose proof (round_even_mono _ _ Hm) as Hr. rewrite Zle_Qle in Hr. Lqa.nra.
  - assert (Hax : (Qabs x == x)%Q) by (apply Qabs_pos; Lqa.lra).
    assert (Hay : (Qabs y == y)%Q) by (apply Qabs_pos; Lqa.lra).
    assert (Ex : ulp_exp x = (Z.max (binade x) (-1022) - 52)%Z).
    { unfold ulp_exp. rewrite (binade_comp (Qabs x) x); [reflexivity| |assumption].
      rewrite Hax. exact Hx. }
    assert (Ey : ulp_exp y = (Z.max (binade y) (-1022) - 52)%Z).
    { unfold ulp_exp. rewrite (binade_comp (Qabs y) y); [reflexivity| |assumption].
      rewrite Hay. Lqa.lra. }
    pose proof (binade_lt x Hx) as Hbx.
    pose proof (binade_le y ltac:(Lqa.lra)) as Hby.
    assert (Hb : (binade x + 1 <= binade y)%Z) by lia.
    pose proof (pow2_le _ _ Hb) as Hpw.
    set (G := (2 ^ binade y)%Q) in *.
    assert (Gx : (G == inject_Z (1 * 2 ^ (binade y - ulp_exp x)) * 2 ^ ulp_exp x)%Q).
    { rewrite <- (pow2_multiple 1 (binade y) (ulp_exp x)) by lia. unfold G. ring. }
    assert (Gy : (G == inject_Z (1 * 2 ^ (binade y - ulp_exp y)) * 2 ^ ulp_exp y)%Q).
    { rewrite <- (pow2_multiple 1 (binade y) (ulp_exp y)) by lia. unfold G. ring. }
    apply (Qle_trans _ G).
    + rewrite Gx. apply RN_le_multiple; [exact Hnx|]. rewrite <- Gx. Lqa.lra.
    + rewrite Gy. apply RN_ge_multiple; [exact Hny|]. rewrite <- Gy. Lqa.lra.
Qed.

(** Rounding keeps the order. *)
Lemma RN_mono (x y : Q) : (x <= y)%Q -> (RN x <= RN y)%Q.
Proof.
  intros Hxy. destruct (Qlt_le_dec 0 x) as [Hx|Hx].
  - apply RN_mono_pos; assumption.
  - destruct (Qlt_le_dec y 0) as [Hy|Hy].
    + assert (H : (RN (- y) <= RN (- x))%Q) by (apply RN_mono_pos; Lqa.lra).
      rewrite !RN_opp in H. Lqa.lra.
    + pose proof (RN_nonpos x Hx). pose proof (RN_nonneg y Hy). Lqa.lra.
Qed.

Lemma RN_Qabs (x : Q) : (RN (Qabs x) == Qabs (RN x))%Q.
Proof.
  destruct (Qlt_le_dec x 0) as [Hx|Hx].
  - rewrite (RN_comp (Qabs x) (- x)) by (apply Qabs_neg; Lqa.lra).
    rewrite RN_opp. symmetry. apply Qabs_neg, RN_nonpos. Lqa.lra.
  - rewrite (RN_comp (Qabs x) x) by (apply Qabs_pos; exact Hx).
    symmetry. apply Qabs_pos, RN_nonneg, Hx.
Qed.

(** ** Operations on doubles *)

Lemma fl_Val (x : Q) : (Qabs (RN x) < 2 ^ 1024)%Q -> fl x = Val (RN x).
Proof.
  intros H. unfold fl. destruct (Qle_bool _ _) eqn:E; [|reflexivity].
  apply Qle_bool_iff in E. set (M := (2 ^ 1024)%Q) in *. Lqa.lra.
Qed.

(** What [fl] delivers: the rounded value, or the infinity of its sign. *)
Lemma fl_cases (x : Q) :
  (fl x = Val (RN x) /\ (Qabs (RN x) < 2 ^ 1024)%Q)
  \/ (fl x = PInf /\ (2 ^ 1024 <= RN x)%Q)
  \/ (fl x = NInf /\ (RN x <= - 2 ^ 1024)%Q).
Proof.
  unfold fl. pose proof (pow2_pos 1024) as Hp. set (M := (2 ^ 1024)%Q) in *.
  destruct (Qle_bool M (Qabs (RN x))) eqn:E.
  - apply Qle_bool_iff in E. destruct (Qle_bool 0 (RN x)) eqn:E0.
    + apply Qle_bool_iff in E0. right. left. split; [reflexivity|].
      rewrite Qabs_pos in E by exact E0. exact E.
    + right. right. split; [reflexivity|].
      assert (Hneg : (RN x < 0)%Q).
      { apply Qnot_le_lt. intros H. apply Qle_bool_iff in H. congruence. }
      rewrite Qabs_neg in E by Lqa.lra. Lqa.lra.
  - left. split; [reflexivity|]. apply Qnot_le_lt. intros H.
    apply Qle_bool_iff in H. congruence.
Qed.

(** Rounding keeps the order also where it overflows: [fl y] is never
    below [fl x] when [x <= y]. *)
Lemma fl_mono (x y : Q) : (x <= y)%Q -> dltb (fl y) (fl x) = false.
Proof.
  intros Hxy. pose proof (RN_mono x y Hxy) as Hr.
  pose proof (pow2_pos 1024) as Hp.
  destruct (fl_cases x) as [[-> Hx] | [[-> Hx] | [-> Hx]]];
    destruct (fl_cases y) as [[-> Hy] | [[-> Hy] | [-> Hy]]];
    cbn [dltb]; try reflexivity; set (M := (2 ^ 1024)%Q) in *.
  - apply Qltb_ge. exact Hr.
  - exfalso. apply Qabs_Qlt_condition in Hx. Lqa.lra.
  - exfalso. apply Qabs_Qlt_condition in Hy. Lqa.lra.
  - exfalso. Lqa.lra.
Qed.

(** The same for [fabs]: no [y <= |x|] has [|fl x| < fl y]. *)
Lemma fl_abs_mono (x y : Q) :
  (y <= Qabs x)%Q -> dltb (dabs (fl x)) (fl y) = false.
Proof.
  intros Hxy. pose proof (RN_mono _ _ Hxy) as Hr. rewrite RN_Qabs in Hr.
  pose proof (pow2_pos 1024) as Hp.
  destruct (fl_cases x) as [[-> Hx] | [[-> Hx] | [-> Hx]]];
    destruct (fl_cases y) as [[-> Hy] | [[-> Hy] | [-> Hy]]];
    cbn [dltb dabs]; try reflexivity; set (M := (2 ^ 1024)%Q) in *.
  - apply Qltb_ge. exact Hr.
  - exfalso. Lqa.lra.
Qed.

Lemma fl_nonneg (x : Q) :
  (0 <= x)%Q -> fl x = PInf \/ exists y, fl x = Val y /\ (0 <= y)%Q.
Proof.
  intros Hx. pose proof (RN_nonneg x Hx) as Hr. pose proof (pow2_pos 1024) as Hp.
  destruct (fl_cases x) as [[-> _] | [[-> _] | [_ H]]].
  - right. eexists. split; [reflexivity | exact Hr].
  - left. reflexivity.
  - exfalso. set (M := (2 ^ 1024)%Q) in *. Lqa.lra.
Qed.

Lemma fl_zero (x : Q) : (x == 0)%Q -> fl x = Val 0.
Proof. intros E. unfold fl. rewrite (RN_zero x E). reflexivity. Qed.

(** ** Sub-step count *)

Lemma quot_floor (x : Q) :
  (0 <= x)%Q -> Z.quot (Qnum x) (Zpos (Qden x)) = Qfloor x.
Proof.
  destruct x as [n d]. unfold Qle, Qfloor. simpl.
  intros H. apply Z.quot_div_nonneg; lia.
Qed.

Lemma fits_int_true (z : Z) :
  (-2147483648 <= z <= 2147483647)%Z -> fits_int z = true.
Proof. intros H. unfold fits_int. apply andb_true_intro. split; apply Z.leb_le; lia. Qed.

Lemma fits_int_false (z : Z) : (2147483647 < z)%Z -> fits_int z = false.
Proof.
  intros H. unfold fits_int. apply andb_false_intro2. apply Z.leb_gt. lia.
Qed.

Lemma Qabs_lt_pow53 (q : Q) : (0 <= q)%Q -> (q < 2 ^ 53)%Q -> (Qabs q < 2 ^ 53)%Q.
Proof. intros H0 H1. rewrite Qabs_pos by exact H0. exact H1. Qed.

(** The quotient of two positive steps, rounded, lies between the whole
    numbers around the exact quotient. *)
Lemma rounded_quotient_floor (q : Q) :
  (0 <= q)%Q -> (q < 2 ^ 53)%Q ->
  (0 <= RN q)%Q /\ (Qfloor q <= Qfloor (RN q) <= Qceiling q)%Z.
Proof.
  intros H0 H1. pose proof (Qabs_lt_pow53 q H0 H1) as Hb.
  split; [apply RN_nonneg, H0|]. split.
  - pose proof (RN_ge_int q (Qfloor q) Hb (Qfloor_le q)) as H.
    apply Qfloor_resp_le in H. rewrite Qfloor_Z in H. exact H.
  - pose proof (RN_le_int q (Qceiling q) Hb (Qle_ceiling q)) as H.
    apply Qfloor_resp_le in H. rewrite Qfloor_Z in H. exact H.
Qed.

Lemma nsubsteps_in_range (outerDt dtInner : Q) (minimum : Z) :
  (0 < outerDt)%Q -> (0 < dtInner)%Q ->
  (outerDt <= 2147483646 * dtInner)%Q ->
  nsubsteps outerDt (Val dtInner) minimum =
  Ok (Z.max minimum
        (if Qltb dtInner outerDt
         then Qfloor (RN (outerDt / dtInner)) + 1 else 1)).
Proof.
  intros Ho Hi Hr. unfold nsubsteps. cbn [dltb].
  destruct (Qltb dtInner outerDt); [|reflexivity].
  cbn [ddiv].
  destruct (Qeq_bool dtInner 0) eqn:E0.
  { apply Qeq_bool_iff in E0. Lqa.lra. }
  set (q := (outerDt / dtInner)%Q).
  assert (Hq0 : (0 <= q)%Q).
  { apply Qlt_le_weak, Qlt_shift_div_l; [exact Hi|]. Lqa.lra. }
  assert (Hq1 : (q <= 2147483646)%Q) by (apply Qle_shift_div_r; assumption).
  assert (H53 : (2147483646 < 2 ^ 53)%Q) by reflexivity.
  assert (Hb : (Qabs q < 2 ^ 53)%Q).
  { apply Qabs_lt_pow53; [exact Hq0|]. set (M := (2 ^ 53)%Q) in *. Lqa.lra. }
  pose proof (RN_nonneg q Hq0) as Hr0.
  pose proof (RN_le_int q 2147483646 Hb Hq1) as Hr1.
  assert (Hbig : (inject_Z 2147483646 < 2 ^ 1024)%Q) by (vm_compute; reflexivity).
  rewrite (fl_Val q).
  2:{ rewrite Qabs_pos by exact Hr0. set (M := (2 ^ 1024)%Q) in *. Lqa.lra. }
  cbn [int_cast]. rewrite (quot_floor _ Hr0).
  pose proof (Qfloor_resp_le _ _ Hr0) as Hf0. change (Qfloor 0) with 0%Z in Hf0.
  pose proof (Qfloor_resp_le _ _ Hr1) as Hf1. rewrite Qfloor_Z in Hf1.
  rewrite fits_int_true by lia. cbn [mbind result_bind].
  unfold int_add. rewrite fits_int_true by lia. reflexivity.
Qed.

Lemma nsubsteps_out_of_range (outerDt dtInner : Q) (minimum : Z) :
  (0 < dtInner)%Q ->
  (2147483648 * dtInner <= outerDt)%Q -> (outerDt < 2 ^ 53 * dtInner)%Q ->
  nsubsteps outerDt (Val dtInner) minimum = Undefined.
Proof.
  intros Hi Hlo Hhi. unfold nsubsteps. cbn [dltb].
  assert (Hlt : Qltb dtInner outerDt = true) by (apply Qltb_lt; Lqa.lra).
  rewrite Hlt. cbn [ddiv].
  destruct (Qeq_bool dtInner 0) eqn:E0.
  { apply Qeq_bool_iff in E0. Lqa.lra. }
  set (q := (outerDt / dtInner)%Q).
  assert (Hq0 : (2147483648 <= q)%Q) by (apply Qle_shift_div_l; assumption).
  assert (Hq1 : (q < 2 ^ 53)%Q) by (apply Qlt_shift_div_r; assumption).
  assert (Hb : (Qabs q < 2 ^ 53)%Q) by (apply Qabs_lt_pow53; Lqa.lra).
  pose proof (RN_ge_int q 2147483648 Hb Hq0) as Hr0.
  assert (Hq1' : (q <= inject_Z (2 ^ 53))%Q).
  { change (inject_Z (2 ^ 53)) with (2 ^ 53)%Q. apply Qlt_le_weak, Hq1. }
  pose proof (RN_le_int q (2 ^ 53) Hb Hq1') as Hr1.
  assert (Hbig : (inject_Z (2 ^ 53) < 2 ^ 1024)%Q) by (vm_compute; reflexivity).
  assert (Hpos : (0 <= RN q)%Q) by (apply RN_nonneg; Lqa.lra).
  rewrite (fl_Val q).
  2:{ rewrite Qabs_pos by exact Hpos. set (M := (2 ^ 1024)%Q) in *. Lqa.lra. }
  cbn [int_cast]. rewrite (quot_floor _ Hpos).
  pose proof (Qfloor_resp_le _ _ Hr0) as Hf0. rewrite Qfloor_Z in Hf0.
  rewrite fits_int_false by lia. reflexivity.
Qed.

(** C1, as stated: the count is [ceil(outerDt/dtInner)] whenever
    [outerDt > dtInner].  This fails when the ratio is a whole number: for
    [outerDt = 1], [dtInner = 1/2] and minimum 0 the code takes
    [(int)(2.0) + 1 = 3] sub-steps, the ceiling is 2.  It also fails when
    the quotient of the two doubles rounds up to a whole number: for
    [outerDt = 1] and the double nearest to 0.1 the quotient is the double
    10, the code takes 11 sub-steps, the ceiling of the exact ratio is
    10. *)
Lemma C1_ceiling_counterexample :
  nsubsteps 1 (Val (1 # 2)) 0 = Ok 3%Z /\ nsubsteps_ceil 1 (1 # 2) 0 = 2%Z /\
  nsubsteps 1 (Val (RN (1 # 10))) 0 = Ok 11%Z /\
  nsubsteps_ceil 1 (RN (1 # 10)) 0 = 10%Z /\
  ~ (forall (outerDt dtInner : Q) (minimum : Z),
        (0 < outerDt)%Q -> (0 < dtInner)%Q ->
        nsubsteps outerDt (Val dtInner) minimum =
        Ok (nsubsteps_ceil outerDt dtInner minimum)).
Proof.
  split; [vm_compute; reflexivity|]. split; [reflexivity|].
  split; [vm_compute; reflexivity|]. split; [vm_compute; reflexivity|].
  intros H. specialize (H 1%Q (1 # 2)%Q 0%Z eq_refl eq_refl).
  vm_compute in H. discriminate H.
Qed.

(** C1, amended: for [outerDt > 0] and [dtInner > 0] with a ratio of at
    most [2^31 - 2], the count computed in [SubStepAdvance] is [n] raised
    to the configured minimum, where [n] is 1 when [outerDt <= dtInner]
    and otherwise one more than the whole part of the quotient
    [outerDt/dtInner] rounded to a double.  This [n] is above the exact
    ratio and at most one above its ceiling: it is the ceiling or the
    ceiling plus one.  The count is at least 1, the inner step is
    [outerDt/nsub] and never exceeds [dtInner].  A ratio from [2^31] on
    (below [2^53]) makes the conversion to [int] undefined.  The sample
    configurations give 4, 1 and 5, and [outerDt = 1] with the double
    nearest to 0.1 gives 11. *)
Theorem C1_substep_count (outerDt dtInner : Q) (minimum : Z) :
  (0 < outerDt)%Q -> (0 < dtInner)%Q ->
  let q := (outerDt / dtInner)%Q in
  ((outerDt <= 2147483646 * dtInner)%Q ->
     exists n : Z,
       nsubsteps outerDt (Val dtInner) minimum = Ok (Z.max minimum n)
       /\ n = (if Qltb dtInner outerDt then Qfloor (RN q) + 1 else 1)%Z
       /\ (Qltb dtInner outerDt = true ->
           (Qfloor q + 1 <= n <= Qceiling q + 1)%Z)
       /\ (1 <= Z.max minimum n)%Z
       /\ (dt_sub outerDt (Z.max minimum n) * inject_Z (Z.max minimum n)
           == outerDt)%Q
       /\ (dt_sub outerDt (Z.max minimum n) <= dtInner)%Q)
  /\ ((2147483648 * dtInner <= outerDt)%Q ->
      (outerDt < 2 ^ 53 * dtInner)%Q ->
      nsubsteps outerDt (Val dtInner) minimum = Undefined)
  /\ nsubsteps 1 (fl (3 # 10)) 0 = Ok 4%Z
  /\ nsubsteps 1 (Val 2) 0 = Ok 1%Z
  /\ nsubsteps 1 (Val 2) 5 = Ok 5%Z
  /\ nsubsteps 1 (fl (1 # 10)) 0 = Ok 11%Z.
Proof.
  intros Ho Hi q. split; [|split].
  - intros Hr.
    assert (Hq0 : (0 <= q)%Q).
    { apply Qlt_le_weak, Qlt_shift_div_l; [exact Hi|]. Lqa.lra. }
    assert (Hq1 : (q <= 2147483646)%Q) by (apply Qle_shift_div_r; assumption).
    assert (H53 : (2147483646 < 2 ^ 53)%Q) by reflexivity.
    assert (Hq53 : (q < 2 ^ 53)%Q) by (set (M := (2 ^ 53)%Q) in *; Lqa.lra).
    destruct (rounded_quotient_floor q Hq0 Hq53) as (Hr0 & Hfl & Hce).
    pose proof (Qfloor_resp_le _ _ Hq0) as Hf0. change (Qfloor 0) with 0%Z in Hf0.
    set (n := (if Qltb dtInner outerDt then Qfloor (RN q) + 1 else 1)%Z).
    assert (Hn1 : (1 <= n)%Z) by (unfold n; destruct (Qltb dtInner outerDt); lia).
    exists n. split; [apply nsubsteps_in_range; assumption|].
    split; [reflexivity|]. split.
    { intros E. unfold n. rewrite E. lia. }
    split; [lia|].
    set (N := Z.max minimum n).
    assert (HN : (1 <= N)%Z) by (unfold N; lia).
    assert (HNq : (0 < inject_Z N)%Q).
    { change 0%Q with (inject_Z 0). rewrite <- Zlt_Qlt. lia. }
    split.
    { unfold dt_sub. field. Lqa.lra. }
    unfold dt_sub. apply Qle_shift_div_r; [exact HNq|].
    destruct (Qltb dtInner outerDt) eqn:E.
    + (* q < floor q + 1 <= n <= N *)
      pose proof (Qlt_floor q) as Hlt.
      assert (HqN : (q <= inject_Z N)%Q).
      { apply Qlt_le_weak, (Qlt_le_trans _ _ _ Hlt). rewrite <- Zle_Qle.
        unfold N, n. lia. }
      assert (Hod : (outerDt == q * dtInner)%Q) by (unfold q; field; Lqa.lra).
      rewrite Hod. Lqa.nra.
    + apply Qltb_ge in E.
      assert (H1N : (1 <= inject_Z N)%Q).
      { change 1%Q with (inject_Z 1). rewrite <- Zle_Qle. exact HN. }
      Lqa.nra.
  - apply nsubsteps_out_of_range, Hi.
  - repeat split; vm_compute; reflexivity.
Qed.

Lemma C1_substep_count_witness :
  exists n : Z,
    nsubsteps 1 (Val (3 # 10)) 7 = Ok (Z.max 7 n)
    /\ n = (Qfloor (RN (1 / (3 # 10))) + 1)%Z
    /\ (Qfloor (1 / (3 # 10)) + 1 <= n <= Qceiling (1 / (3 # 10)) + 1)%Z
    /\ (dt_sub 1 (Z.max 7 n) <= 3 # 10)%Q.
Proof.
  destruct (C1_substep_count 1 (3 # 10) 7) as (H & _); [reflexivity .. |].
  destruct H as (n & H1 & H2 & H3 & H4 & H5 & H6); [unfold Qle; simpl; lia|].
  exists n. split; [exact H1|]. split; [exact H2|].
  split; [apply H3; reflexivity | exact H6].
Defined.

(** ** Extrapolation *)

Lemma extrapolate_sum_Ok (npts nvel ord : nat) (l : list Q) (prev : list nat)
    (store : gmap nat (list Q)) (ExtVel : list (list Q))
    (lf : nat -> Q) (X : nat -> nat -> nat -> Q) :
  (forall j, (j <= ord)%nat -> l !! j = Some (lf j)) ->
  (forall i j, (i < nvel)%nat -> (j <= ord)%nat ->
     exists b, history_block prev store (j * nvel + i) = Ok b /\ (npts <= length b)%nat /\
       forall k, (k < npts)%nat -> b !! k = Some (X i j k)) ->
  (nvel <= length ExtVel)%nat ->
  (forall i y, ExtVel !! i = Some y -> (npts <= length y)%nat) ->
  exists out, extrapolate_sum npts nvel ord l prev store ExtVel = Ok out /\
    length out = length ExtVel /\
    forall i, (i < nvel)%nat -> exists y, out !! i = Some y /\
      forall k, (k < npts)%nat -> y !! k = Some (ext lf (fun j => X i j k) ord).
Proof.
  intros Hl Hblk Hlen Hy.
  pose (P := fun (i : nat) (E : list (list Q)) =>
    length E = length ExtVel /\
    (forall i' y, E !! i' = Some y -> (npts <= length y)%nat) /\
    (forall i', (i' < i)%nat -> exists y, E !! i' = Some y /\
       forall k, (k < npts)%nat -> y !! k = Some (ext lf (fun j => X i' j k) ord))).
  destruct (for_each_upto P 0 nvel
    (λ i ExtVel,
      l0 ← rd l 0;
      x ← history_block prev store i;
      y ← rd ExtVel i;
      y ← Smul npts l0 x y;
      ExtVel ← wr ExtVel i y;
      for_each (upto 1 (S ord)) (λ j ExtVel,
        lj ← rd l j;
        x ← history_block prev store (j * nvel + i);
        y ← rd ExtVel i;
        y ← Daxpy npts lj x y;
        wr ExtVel i y) ExtVel) ExtVel) as (out & Hrun & HE & _ & Hout).
  - lia.
  - split; [reflexivity|]. split; [exact Hy|]. intros i' Hi'. lia.
  - intros i E [_ Hi] (HlenE & HyE & Hdone).
    rewrite (proj2 (rd_Ok l 0 (lf 0%nat))) by (apply Hl; lia). simpl.
    destruct (Hblk i 0%nat Hi ltac:(lia)) as (b0 & Hb0 & Hb0len & Hb0k).
    simpl in Hb0. rewrite Hb0. simpl.
    destruct (rd_lt E i ltac:(lia)) as (y0 & Hrd & Hy0). rewrite Hrd. simpl.
    destruct (Smul_Ok npts (lf 0%nat) b0 y0 Hb0len (HyE _ _ Hy0))
      as (y1 & HS & Hy1len & Hy1k).
    rewrite HS. simpl. rewrite wr_lt by lia. simpl.
    pose (R := fun (j : nat) (E' : list (list Q)) =>
      length E' = length ExtVel /\
      (forall i' y, E' !! i' = Some y -> (npts <= length y)%nat) /\
      (forall i', (i' < i)%nat -> exists y, E' !! i' = Some y /\
         forall k, (k < npts)%nat ->
           y !! k = Some (ext lf (fun j => X i' j k) ord)) /\
      exists y, E' !! i = Some y /\
        forall k, (k < npts)%nat ->
          y !! k = Some (ext lf (fun j => X i j k) (pred j))).
    destruct (for_each_upto R 1 (S ord)
      (λ j ExtVel,
        lj ← rd l j;
        x ← history_block prev store (j * nvel + i);
        y ← rd ExtVel i;
        y ← Daxpy npts lj x y;
        wr ExtVel i y) (<[i:=y1]> E)) as (E2 & Hrun2 & HE2 & HyE2 & Hdone2 & Hi2).
    + lia.
    + split; [rewrite length_insert; exact HlenE|]. split.
      { intros i' y Hlk. destruct (decide (i = i')) as [<-|Hne].
        - rewrite list_lookup_insert_eq in Hlk by lia.
          injection Hlk as <-. rewrite Hy1len. eapply HyE; exact Hy0.
        - rewrite list_lookup_insert_ne in Hlk by exact Hne. eapply HyE; exact Hlk. }
      split.
      { intros i' Hi'. rewrite list_lookup_insert_ne by lia. apply Hdone; exact Hi'. }
      exists y1. split; [apply list_lookup_insert_eq; lia|].
      intros k Hk. simpl. apply Hy1k; [exact Hk | apply Hb0k; exact Hk].
    + intros j E' [Hj1 Hj2] (HlenE' & HyE' & Hdone' & y & Hyi & Hyk).
      rewrite (proj2 (rd_Ok l j (lf j))) by (apply Hl; lia). simpl.
      destruct (Hblk i j Hi ltac:(lia)) as (b & Hb & Hblen & Hbk).
      rewrite Hb. simpl.
      rewrite (proj2 (rd_Ok E' i y)) by exact Hyi. simpl.
      destruct (Daxpy_Ok npts (lf j) b y Hblen (HyE' _ _ Hyi))
        as (y' & HD & Hy'len & Hy'k).
      rewrite HD. simpl. rewrite wr_lt by lia.
      eexists. split; [reflexivity|].
      split; [rewrite length_insert; exact HlenE'|]. split.
      { intros i' z Hlk. destruct (decide (i = i')) as [<-|Hne].
        - rewrite list_lookup_insert_eq in Hlk by lia.
          injection Hlk as <-. rewrite Hy'len. eapply HyE'; exact Hyi.
        - rewrite list_lookup_insert_ne in Hlk by exact Hne. eapply HyE'; exact Hlk. }
      split.
      { intros i' Hi'. rewrite list_lookup_insert_ne by lia. apply Hdone'; exact Hi'. }
      exists y'. split; [apply list_lookup_insert_eq; lia|].
      intros k Hk. destruct j as [|m]; [lia|]. simpl.
      apply Hy'k; [exact Hk | apply Hbk; exact Hk | apply Hyk; exact Hk].
    + exists E2. split; [exact Hrun2|]. split; [exact HE2|]. split; [exact HyE2|].
      intros i' Hi'. destruct (decide (i' = i)) as [->|Hne].
      * exact Hi2.
      * apply Hdone2. lia.
  - exists out. split; [exact Hrun|]. split; [exact HE|]. exact Hout.
Qed.

Ltac q_eval :=
  cbv -[Qmult Qdiv Qplus Qminus Qopp Qinv Qeq inject_Z Z.of_nat];
  cbv [inject_Z Z.of_nat Pos.of_succ_nat Pos.succ].

Ltac q_field H :=
  field; repeat match goal with |- _ /\ _ => split end;
  let E := fresh "E" in intros E; apply H; Lqa.lra.

Lemma lagrange_interpolants_Ok (ord : nat) (dt tau : Q) :
  (ord <= 3)%nat -> ~ dt == 0 ->
  exists l, lagrange_interpolants ord dt tau = Ok l /\ length l = 4%nat /\
    forall i, (i <= ord)%nat -> exists li, l !! i = Some li /\
      li == lagrange_weight (upto 0 (S ord)) dt tau i.
Proof.
  intros Hord Hdt.
  destruct ord as [|[|[|[|ord]]]]; [| | | |lia];
    (eexists; split; [q_eval; reflexivity|]; split; [reflexivity|]).
  - intros i Hi. destruct i as [|i]; [|lia].
    eexists; split; [reflexivity|]. q_eval. reflexivity.
  - intros i Hi. destruct i as [|[|i]]; [| |lia];
      (eexists; split; [reflexivity|]; q_eval; q_field Hdt).
  - intros i Hi. destruct i as [|[|[|i]]]; [| | |lia];
      (eexists; split; [reflexivity|]; q_eval; q_field Hdt).
  - intros i Hi. destruct i as [|[|[|[|i]]]]; [| | | |lia];
      (eexists; split; [reflexivity|]; q_eval; q_field Hdt).
Qed.

Lemma lagrange_reproduces (ord : nat) (dt tau : Q) (c : list Q) :
  (ord <= 3)%nat -> ~ dt == 0 -> (length c <= S ord)%nat ->
  ext (lagrange_weight (upto 0 (S ord)) dt tau)
      (fun j => eval_poly c (- (inject_Z (Z.of_nat j) * dt))) ord
  == eval_poly c tau.
Proof.
  intros Hord Hdt Hc.
  destruct ord as [|[|[|[|ord]]]]; [| | | |lia].
  - destruct c as [|c0 [|c1 c]]; [| |simpl in Hc; lia]; q_eval; ring.
  - destruct c as [|c0 [|c1 [|c2 c]]]; [| | |simpl in Hc; lia];
      q_eval; q_field Hdt.
  - destruct c as [|c0 [|c1 [|c2 [|c3 c]]]]; [| | | |simpl in Hc; lia];
      q_eval; q_field Hdt.
  - destruct c as [|c0 [|c1 [|c2 [|c3 [|c4 c]]]]]; [| | | | |simpl in Hc; lia];
      q_eval; q_field Hdt.
Qed.

(** A loop that ran to its end ran each of its iterations, from a state
    satisfying every invariant of the body. *)
Lemma for_each_Ok_inv {S} (I : S -> Prop) (ix : list nat)
    (body : nat -> S -> result S) (s s' : S) :
  (forall i s s', I s -> body i s = Ok s' -> I s') ->
  I s -> for_each ix body s = Ok s' ->
  I s' /\ forall i, i ∈ ix -> exists s1 s2, I s1 /\ body i s1 = Ok s2.
Proof.
  intros Hinv. revert s. induction ix as [|j ix IH]; intros s Hs Hrun.
  - simpl in Hrun. injection Hrun as <-. split; [exact Hs|].
    intros i Hi. apply elem_of_nil in Hi. destruct Hi.
  - simpl in Hrun. apply bind_Ok in Hrun as (s1 & Hj & Hrest).
    destruct (IH s1 (Hinv _ _ _ Hs Hj) Hrest) as [Hs' Hall].
    split; [exact Hs'|]. intros i Hi. apply elem_of_cons in Hi as [->|Hi].
    + exists s, s1. split; assumption.
    + apply Hall, Hi.
Qed.

Lemma elem_of_upto (a b i : nat) : i ∈ upto a b <-> (a <= i < b)%nat.
Proof.
  unfold upto. rewrite list_elem_of_In, in_seq. lia.
Qed.

Lemma lagrange_interpolants_length (ord : nat) (dt tau : Q) (l : list Q) :
  lagrange_interpolants ord dt tau = Ok l -> (ord <= 3)%nat /\ length l = 4%nat.
Proof.
  unfold lagrange_interpolants. intros Hrun.
  assert (Hin : forall (i : nat) (ix : list nat) (l l' : list Q),
    length l = 4%nat ->
    for_each ix (λ j l,
      if decide (i ≠ j) then
        li ← rd l i;
        l ← wr l i (li * (inject_Z (Z.of_nat j) * dt + tau))%Q;
        li ← rd l i;
        wr l i (li / (inject_Z (Z.of_nat j) * dt - inject_Z (Z.of_nat i) * dt))%Q
      else Ok l) l = Ok l' -> length l' = 4%nat).
  { intros i ix l0 l' Hl0 Hr.
    apply (for_each_Ok_inv (fun l => length l = 4%nat)) in Hr as [Hr _];
      [exact Hr | | exact Hl0].
    clear. intros j l l' Hl Hb. destruct (decide (i ≠ j)); [|congruence].
    apply bind_Ok in Hb as (li & _ & Hb). apply bind_Ok in Hb as (l1 & Hw1 & Hb).
    apply bind_Ok in Hb as (li' & _ & Hw2).
    unfold wr in Hw1, Hw2. repeat case_decide; try discriminate.
    injection Hw1 as <-. injection Hw2 as <-. rewrite !length_insert. exact Hl. }
  apply (for_each_Ok_inv (fun l => length l = 4%nat)) in Hrun as [Hlen Hall].
  - split; [|exact Hlen].
    destruct (decide (ord <= 3)%nat) as [Hle|Hgt]; [exact Hle|exfalso].
    destruct (Hall 4%nat) as (l1 & l2 & Hl1 & Hb); [apply elem_of_upto; lia|].
    rewrite upto_cons in Hb by lia. simpl in Hb.
    rewrite rd_ge in Hb by lia. discriminate Hb.
  - intros i l0 l' Hl0 Hb. eapply Hin; eassumption.
  - reflexivity.
Qed.

Lemma lagrange_interpolants_total (ord : nat) (dt tau : Q) :
  (ord <= 3)%nat -> exists l, lagrange_interpolants ord dt tau = Ok l.
Proof.
  intros Hord.
  destruct ord as [|[|[|[|ord]]]]; [| | | |lia]; eexists; q_eval; reflexivity.
Qed.

Lemma history_block_Ok (prev : list nat) (store : gmap nat (list Q)) (k : nat)
    (b : list Q) :
  history_block prev store k = Ok b <->
  exists h, prev !! k = Some h /\ store !! h = Some b.
Proof.
  unfold history_block, deref. split.
  - intros H. apply bind_Ok in H as (h & Hh & Hb). apply rd_Ok in Hh.
    exists h. split; [exact Hh|]. destruct (store !! h); congruence.
  - intros (h & Hh & Hb). apply bind_Ok. exists h. split; [apply rd_Ok, Hh|].
    rewrite Hb. reflexivity.
Qed.

Lemma extrapolate_sum_reads (npts nvel ord : nat) (l : list Q) (prev : list nat)
    (store : gmap nat (list Q)) (ExtVel out : list (list Q)) :
  extrapolate_sum npts nvel ord l prev store ExtVel = Ok out ->
  ((ord + 1) * nvel <= length prev)%nat.
Proof.
  unfold extrapolate_sum. intros Hrun.
  destruct (decide (nvel = 0)%nat) as [->|Hnv]; [lia|].
  apply (for_each_Ok_inv (fun _ => True)) in Hrun as [_ Hall]; [|done|done].
  destruct (Hall (nvel - 1)%nat) as (E1 & E2 & _ & Hb); [apply elem_of_upto; lia|].
  apply bind_Ok in Hb as (l0 & _ & Hb). apply bind_Ok in Hb as (x & Hx & Hb).
  apply bind_Ok in Hb as (y & _ & Hb). apply bind_Ok in Hb as (y' & _ & Hb).
  apply bind_Ok in Hb as (E & _ & Hb).
  destruct (decide (ord = 0)%nat) as [->|Hord].
  - apply history_block_Ok in Hx as (h & Hh & _).
    apply lookup_lt_Some in Hh. lia.
  - apply (for_each_Ok_inv (fun _ => True)) in Hb as [_ Hall']; [|done|done].
    destruct (Hall' ord) as (E3 & E4 & _ & Hb'); [apply elem_of_upto; lia|].
    apply bind_Ok in Hb' as (lj & _ & Hb'). apply bind_Ok in Hb' as (x' & Hx' & _).
    apply history_block_Ok in Hx' as (h & Hh & _).
    apply lookup_lt_Some in Hh. lia.
Qed.

Lemma lagrange_denominators (dt : Q) (i j : nat) :
  (0 < dt)%Q -> i <> j ->
  ~ (inject_Z (Z.of_nat j) * dt - inject_Z (Z.of_nat i) * dt == 0)%Q.
Proof.
  intros Hdt Hij E.
  assert (E' : ((inject_Z (Z.of_nat j) - inject_Z (Z.of_nat i)) * dt == 0)%Q) by Lqa.lra.
  apply Qmult_integral in E' as [E'|E']; [|Lqa.lra].
  assert (E2 : (inject_Z (Z.of_nat j) == inject_Z (Z.of_nat i))%Q) by Lqa.lra.
  apply (proj1 (inject_Z_injective _ _)) in E2. lia.
Qed.

(** C4: for [outerDt > 0] and an offset [0 <= τ < outerDt] the weights that
    [SubStepExtrapoloteField] computes are
    [weight[i] = Π_{j≠i} (j·outerDt + τ) / (j·outerDt − i·outerDt)] over the
    nodes [0, −outerDt, …, −m_intSteps·outerDt], no denominator vanishes,
    and the weighted sum of the history blocks reproduces, at every
    quadrature point of every velocity component, any history that is
    polynomial in time of degree at most [m_intSteps] (so in particular of
    degree below the number of history slots) at time offset [τ].  The
    order is at most 3: the weights live in a 4-entry array. *)
Theorem C4_lagrange_extrapolation `{!Collaborators} (cfg : Config) (s : Solver)
    (tau : Q) (ExtVel : list (list Q)) (f0 : Field) (p : nat -> nat -> list Q) :
  let dt := m_timestep cfg in
  let ord := m_intSteps cfg in
  let nvel := length (m_velocity cfg) in
  let npts := GetTotPoints f0 in
  (0 < dt)%Q -> (0 <= tau)%Q -> (tau < dt)%Q ->
  (ord <= 3)%nat ->
  m_fields s !! 0%nat = Some f0 ->
  (nvel <= length ExtVel)%nat ->
  (forall i y, ExtVel !! i = Some y -> (npts <= length y)%nat) ->
  (forall i k, (length (p i k) <= S ord)%nat) ->
  (forall i j, (i < nvel)%nat -> (j <= ord)%nat ->
     exists b, history_block (m_previousVelFields s) (m_store s) (j * nvel + i) = Ok b
       /\ (npts <= length b)%nat
       /\ forall k, (k < npts)%nat -> exists x, b !! k = Some x /\
            (x == eval_poly (p i k) (- (inject_Z (Z.of_nat j) * dt)))%Q) ->
  (forall i j, i <> j ->
     ~ (inject_Z (Z.of_nat j) * dt - inject_Z (Z.of_nat i) * dt == 0)%Q)
  /\ (exists l, lagrange_interpolants ord dt tau = Ok l /\
        forall i, (i <= ord)%nat -> exists li, l !! i = Some li /\
          (li == lagrange_weight (upto 0 (S ord)) dt tau i)%Q)
  /\ (exists out, SubStepExtrapoloteField cfg s tau ExtVel = Ok out /\
        forall i, (i < nvel)%nat -> exists y, out !! i = Some y /\
          forall k, (k < npts)%nat -> exists v, y !! k = Some v /\
            (v == eval_poly (p i k) tau)%Q).
Proof.
  intros dt ord nvel npts Hdt Htau0 Htau Hord Hf0 HE HEy Hp Hhist.
  assert (Hdt0 : ~ (dt == 0)%Q) by (intros E; Lqa.lra).
  split; [intros i j Hij; apply lagrange_denominators; assumption|].
  destruct (lagrange_interpolants_Ok ord dt tau Hord Hdt0) as (l & Hl & Hlen & Hw).
  split; [exists l; split; assumption|].
  pose (lf := fun j : nat => default 0%Q (l !! j)).
  pose (X := fun i j k : nat =>
    match history_block (m_previousVelFields s) (m_store s) (j * nvel + i) with
    | Ok b => default 0%Q (b !! k)
    | _ => 0%Q
    end).
  destruct (extrapolate_sum_Ok npts nvel ord l (m_previousVelFields s) (m_store s)
              ExtVel lf X) as (out & Hrun & _ & Hout).
  - intros j Hj. destruct (Hw j Hj) as (li & Hli & _). unfold lf. rewrite Hli. reflexivity.
  - intros i j Hi Hj. destruct (Hhist i j Hi Hj) as (b & Hb & Hblen & Hbk).
    exists b. split; [exact Hb|]. split; [exact Hblen|].
    intros k Hk. destruct (Hbk k Hk) as (x & Hx & _).
    unfold X. rewrite Hb, Hx. reflexivity.
  - exact HE.
  - exact HEy.
  - exists out. split.
    + unfold SubStepExtrapoloteField.
      rewrite (proj2 (rd_Ok _ _ _) Hf0). simpl.
      fold dt ord. rewrite Hl. simpl. exact Hrun.
    + intros i Hi. destruct (Hout i Hi) as (y & Hy & Hyk).
      exists y. split; [exact Hy|]. intros k Hk.
      eexists. split; [apply Hyk; exact Hk|].
      rewrite <- (lagrange_reproduces ord dt tau (p i k) Hord Hdt0 (Hp i k)).
      apply ext_proper.
      * intros j Hj. destruct (Hw j Hj) as (li & Hli & Hlw).
        unfold lf. rewrite Hli. exact Hlw.
      * intros j Hj. destruct (Hhist i j Hi Hj) as (b & Hb & _ & Hbk).
        destruct (Hbk k Hk) as (x & Hx & Hxp).
        unfold X. rewrite Hb, Hx. exact Hxp.
Qed.

(** C9: [SubStepExtrapoloteField] indexes the 4-entry weight array at
    every [i <= m_intSteps] and reads the history blocks 0 to [m_intSteps]
    of every velocity component.  With valid block handles and output
    arrays, it runs without an out-of-bounds access exactly when
    [m_intSteps <= 3] and [m_previousVelFields] holds at least
    [(m_intSteps + 1) × nvel] entries; a history of only [m_intSteps × nvel]
    entries is one block short. *)
Theorem C9_extrapolation_bounds `{!Collaborators} (cfg : Config) (s : Solver)
    (toff : Q) (ExtVel : list (list Q)) (f0 : Field) :
  let ord := m_intSteps cfg in
  let nvel := length (m_velocity cfg) in
  let npts := GetTotPoints f0 in
  m_fields s !! 0%nat = Some f0 ->
  (forall h, h ∈ m_previousVelFields s ->
     exists b, m_store s !! h = Some b /\ (npts <= length b)%nat) ->
  (nvel <= length ExtVel)%nat ->
  (forall i y, ExtVel !! i = Some y -> (npts <= length y)%nat) ->
  ((exists out, SubStepExtrapoloteField cfg s toff ExtVel = Ok out) <->
   (ord <= 3 /\ (ord + 1) * nvel <= length (m_previousVelFields s))%nat)
  /\ ((1 <= nvel)%nat ->
      length (m_previousVelFields s) = (ord * nvel)%nat ->
      ~ exists out, SubStepExtrapoloteField cfg s toff ExtVel = Ok out).
Proof.
  intros ord nvel npts Hf0 Hstore HE HEy.
  assert (Hiff : (exists out, SubStepExtrapoloteField cfg s toff ExtVel = Ok out) <->
   (ord <= 3 /\ (ord + 1) * nvel <= length (m_previousVelFields s))%nat).
  { unfold SubStepExtrapoloteField.
    rewrite (proj2 (rd_Ok _ _ _) Hf0). simpl. fold ord nvel npts. split.
    - intros (out & Hrun). apply bind_Ok in Hrun as (l & Hl & Hrun).
      apply lagrange_interpolants_length in Hl as [Hord _].
      apply extrapolate_sum_reads in Hrun. split; assumption.
    - intros [Hord Hprev].
      destruct (lagrange_interpolants_total ord (m_timestep cfg) toff Hord) as (l & Hl).
      pose proof (lagrange_interpolants_length _ _ _ _ Hl) as [_ Hlen].
      rewrite Hl. simpl.
      pose (lf := fun j : nat => default 0%Q (l !! j)).
      pose (X := fun i j k : nat =>
        match history_block (m_previousVelFields s) (m_store s) (j * nvel + i) with
        | Ok b => default 0%Q (b !! k)
        | _ => 0%Q
        end).
      destruct (extrapolate_sum_Ok npts nvel ord l (m_previousVelFields s)
                  (m_store s) ExtVel lf X) as (out & Hrun & _).
      + intros j Hj. destruct (lookup_lt_is_Some_2 l j ltac:(lia)) as [x Hx].
        unfold lf. rewrite Hx. reflexivity.
      + intros i j Hi Hj.
        destruct (lookup_lt_is_Some_2 (m_previousVelFields s) (j * nvel + i)
                    ltac:(nia)) as [h Hh].
        destruct (Hstore h) as (b & Hb & Hblen);
          [apply list_elem_of_lookup; eexists; exact Hh|].
        assert (Hblk : history_block (m_previousVelFields s) (m_store s)
                         (j * nvel + i) = Ok b).
        { apply history_block_Ok. exists h. split; assumption. }
        exists b. split; [exact Hblk|]. split; [exact Hblen|].
        intros k Hk. destruct (lookup_lt_is_Some_2 b k ltac:(lia)) as [x Hx].
        unfold X. rewrite Hblk, Hx. reflexivity.
      + exact HE.
      + exact HEy.
      + exists out. exact Hrun. }
  split; [exact Hiff|].
  intros Hnv Hlen Hex. apply Hiff in Hex as [_ Hex]. nia.
Qed.

(** ** Secondary transported group *)

Lemma SetPhys_Ok (y : list Q) (f : Field) :
  length y = GetTotPoints f ->
  SetPhys y f = Ok (UpdatePhys y f).
Proof.
  intros Hy. unfold SetPhys, GetTotPoints in *.
  rewrite <- Hy, Vcopy_whole by exact Hy. reflexivity.
Qed.

Lemma store_viscoelastic_Ok `{!Collaborators} (cfg : Config)
    (ve : list (list Q)) (fields : list Field) :
  let nve := m_nViscoElasticStressFields cfg in
  let sd := m_spacedim cfg in
  (nve <= length ve)%nat ->
  (nve + sd <= length fields)%nat ->
  (forall i y f, (i < nve)%nat -> ve !! i = Some y -> fields !! (i + sd)%nat = Some f ->
     length y = GetTotPoints f) ->
  exists fields', store_viscoelastic cfg ve fields = Ok fields' /\
    length fields' = length fields /\
    (forall i, (i < nve)%nat -> exists y f,
       ve !! i = Some y /\ fields !! (i + sd)%nat = Some f /\
       fields' !! (i + sd)%nat = Some (stored_stress y f)) /\
    (forall k, (k < sd \/ nve + sd <= k)%nat -> fields' !! k = fields !! k).
Proof.
  intros nve sd Hve Hfields Hlen. unfold store_viscoelastic. fold nve sd.
  pose (P := fun (m : nat) (fs : list Field) =>
    length fs = length fields /\
    (forall i, (i < m)%nat -> exists y f,
       ve !! i = Some y /\ fields !! (i + sd)%nat = Some f /\
       fs !! (i + sd)%nat = Some (stored_stress y f)) /\
    (forall k, (k < sd \/ m + sd <= k)%nat -> fs !! k = fields !! k)).
  apply (for_each_upto P 0 nve); [lia | |].
  - split; [reflexivity|]. split; [intros i Hi; lia|]. reflexivity.
  - intros i fs [_ Hi] (HlenP & Hdone & Hrest).
    destruct (rd_lt ve i ltac:(lia)) as (y & Hrd & Hy). rewrite Hrd. simpl.
    destruct (rd_lt fs (i + sd) ltac:(lia)) as (f & Hrdf & Hf). rewrite Hrdf. simpl.
    assert (Hf0 : fields !! (i + sd)%nat = Some f).
    { rewrite <- Hrest by lia. exact Hf. }
    rewrite SetPhys_Ok by (eapply Hlen; eassumption). simpl.
    rewrite wr_lt by lia. eexists. split; [reflexivity|].
    split; [rewrite length_insert; exact HlenP|]. split.
    + intros i' Hi'. destruct (decide (i' = i)) as [->|Hne].
      * exists y, f. split; [exact Hy|]. split; [exact Hf0|].
        rewrite list_lookup_insert_eq by lia. reflexivity.
      * destruct (Hdone i' ltac:(lia)) as (y' & f' & Hy' & Hf' & Hs').
        exists y', f'. split; [exact Hy'|]. split; [exact Hf'|].
        rewrite list_lookup_insert_ne by lia. exact Hs'.
    + intros k Hk. rewrite list_lookup_insert_ne by lia. apply Hrest. lia.
Qed.

(** C2, amended: on every outer step on which the viscoelastic stress group
    exists, after integrating that group one outer step the engine copies
    each result array into the physical storage of its owning Field,
    forward-transforms it into that Field's coefficient storage, and marks
    the physical-space representation valid ([SetPhysState(true)]). *)
Theorem C2_viscoelastic_copy_back `{!Collaborators} (cfg : Config) (n : nat)
    (s : Solver) (ve : list (list Q)) (soln : Soln) (fields1 : list Field) :
  let nve := m_nViscoElasticStressFields cfg in
  let sd := m_spacedim cfg in
  let k := Nat.min n (m_intSteps cfg - 1) in
  let s1 := advance_aggregatesize cfg k s in
  m_equationType cfg = eUnsteadyViscoElastic ->
  m_intSteps cfg <> 0%nat ->
  TimeIntegrate gViscoElasticStress k (m_timestep cfg)
    (m_integrationSoln_viscoelasticstress s1) (m_fields s1) = (ve, soln, fields1) ->
  (nve <= length ve)%nat ->
  (nve + sd <= length fields1)%nat ->
  (forall i y f, (i < nve)%nat -> ve !! i = Some y ->
     fields1 !! (i + sd)%nat = Some f -> length y = GetTotPoints f) ->
  exists s', advance_viscoelastic cfg n s = Ok s' /\
    forall i, (i < nve)%nat -> exists y f f',
      ve !! i = Some y /\ fields1 !! (i + sd)%nat = Some f /\
      m_fields s' !! (i + sd)%nat = Some f' /\
      m_phys f' = y /\
      m_coeffs f' = FwdTrans_IterPerExp (m_WaveSpace f) y (m_coeffs f) /\
      m_physState f' = true.
Proof.
  intros nve sd k s1 Heq Hint HTI Hve Hfields Hlen.
  destruct (store_viscoelastic_Ok cfg ve fields1 Hve Hfields Hlen)
    as (fields' & Hrun & _ & Hstored & _).
  unfold advance_viscoelastic, scheme_index.
  rewrite decide_True by exact Heq. rewrite decide_False by exact Hint.
  simpl. fold k s1. rewrite HTI, Hrun. simpl.
  eexists. split; [reflexivity|].
  intros i Hi. destruct (Hstored i Hi) as (y & f & Hy & Hf & Hf').
  exists y, f, (stored_stress y f). repeat split; assumption.
Qed.

Section StressExamples.
#[local] Existing Instance nodal_collaborators.

(** C2, as stated: the physical-space representation of the stress Fields
    is marked stale after the copy-back.  On a set-up with one stress
    component the Field that receives the integrated array ends the block
    with [m_physState = true]. *)
Lemma C2_physical_flag_counterexample :
  exists s' f', advance_viscoelastic stress_config 0 stress_solver = Ok s' /\
    m_fields s' !! 2%nat = Some f' /\
    m_phys f' = [7]%Q /\ m_coeffs f' = [7]%Q /\
    m_physState f' = true /\ m_physState f' <> false.
Proof.
  eexists. eexists. split; [reflexivity|]. split; [reflexivity|].
  repeat split. discriminate.
Qed.

Lemma C2_viscoelastic_copy_back_witness :
  exists s', advance_viscoelastic stress_config 0 stress_solver = Ok s' /\
    forall i, (i < 1)%nat -> exists y f f',
      [[7]]%Q !! i = Some y /\ m_fields stress_solver !! (i + 2)%nat = Some f /\
      m_fields s' !! (i + 2)%nat = Some f' /\
      m_phys f' = y /\
      m_coeffs f' = FwdTrans_IterPerExp (m_WaveSpace f) y (m_coeffs f) /\
      m_physState f' = true.
Proof.
  apply (C2_viscoelastic_copy_back stress_config 0 stress_solver
           [[7]]%Q [[7]]%Q (m_fields stress_solver)).
  - reflexivity.
  - simpl. lia.
  - reflexivity.
  - simpl. lia.
  - simpl. lia.
  - intros i y f Hi Hy Hf. destruct i as [|i]; [|simpl in Hi; lia].
    simpl in Hy, Hf. injection Hy as <-. injection Hf as <-. reflexivity.
Defined.
End StressExamples.

(** ** Steady-state monitor *)

Lemma foldl_zip_diag {A B} (f : A -> B * B -> A) (a : A) (l : list B) :
  foldl f a (zip l l) = foldl (fun s x => f s (x, x)) a l.
Proof. revert a. induction l as [|x l IH]; intros a; [reflexivity|]. simpl. apply IH. Qed.

Lemma Dot_self (n : nat) (c : list Q) :
  (n <= length c)%nat -> Dot n c c = Ok (double_dot (take n c)).
Proof.
  intros Hn. unfold Dot, double_dot.
  rewrite (proj2 (fits_true n c)) by lia. simpl.
  rewrite foldl_zip_diag. reflexivity.
Qed.

Lemma Dot_short (n : nat) (c : list Q) :
  (length c < n)%nat -> Dot n c c = Undefined.
Proof.
  intros Hn. unfold Dot. rewrite (proj2 (fits_false n c)) by lia. reflexivity.
Qed.

Lemma L2_sum_spec (fields : list Field) :
  coeffs_in_bounds fields -> L2_sum fields = Ok (double_L2 fields).
Proof.
  intros [Hne Hall]. unfold L2_sum.
  destruct fields as [|f0 rest] eqn:Hfs; [congruence|]. rewrite <- Hfs in *.
  assert (H0 : fields !! 0%nat = Some f0) by (rewrite Hfs; reflexivity).
  assert (Hn0 : numCoefficients fields = GetNcoeffs f0).
  { unfold numCoefficients. rewrite H0. reflexivity. }
  rewrite (proj2 (rd_Ok _ _ _) H0). simpl.
  pose (P := fun (i : nat) (acc : double) =>
    acc = foldl (λ L2 f, dadd L2 (double_dot (take (GetNcoeffs f0) (m_coeffs f))))
            (Val 0) (take i fields)).
  destruct (for_each_upto P 0 (length fields)
    (λ i L2, f ← rd fields i;
             d ← Dot (GetNcoeffs f0) (m_coeffs f) (m_coeffs f);
             Ok (dadd L2 d)) (Val 0)) as (L2 & Hrun & HL2).
  - lia.
  - reflexivity.
  - intros i acc [_ Hi] Hacc.
    destruct (rd_lt fields i Hi) as (f & Hrd & Hf). rewrite Hrd. simpl.
    assert (Hn : (GetNcoeffs f0 <= length (m_coeffs f))%nat).
    { rewrite Forall_forall in Hall. rewrite <- Hn0.
      apply (Hall f). apply list_elem_of_lookup. eauto. }
    rewrite (Dot_self _ _ Hn). simpl. eexists. split; [reflexivity|].
    unfold P. rewrite (take_S_r _ _ _ Hf), foldl_app. simpl.
    rewrite <- Hacc. reflexivity.
  - rewrite Hrun. unfold P in HL2. rewrite take_ge in HL2 by lia.
    rewrite HL2. unfold double_L2. rewrite Hn0. reflexivity.
Qed.

(** A sum that was computed read no coefficient array past its end. *)
Lemma L2_sum_Ok_inv (fields : list Field) (L2 : double) :
  L2_sum fields = Ok L2 -> coeffs_in_bounds fields.
Proof.
  unfold L2_sum. intros H. apply bind_Ok in H as (f0 & E & H). apply rd_Ok in E.
  assert (Hn0 : numCoefficients fields = GetNcoeffs f0).
  { unfold numCoefficients. rewrite E. reflexivity. }
  split; [intros ->; discriminate|].
  apply (for_each_Ok_inv (λ _, True)) in H as [_ Hall]; [|auto|exact I].
  apply Forall_forall. intros f Hf.
  apply list_elem_of_lookup in Hf as [i Hi].
  destruct (Hall i) as (s1 & s2 & _ & Hbody).
  { apply elem_of_upto. apply lookup_lt_Some in Hi. lia. }
  apply bind_Ok in Hbody as (f' & E0 & Hbody).
  apply rd_Ok in E0. rewrite Hi in E0. injection E0 as <-.
  apply bind_Ok in Hbody as (d & E0 & _). unfold Dot in E0.
  destruct (fits (GetNcoeffs f0) (m_coeffs f)) eqn:Hfit; [|discriminate].
  apply fits_true in Hfit. rewrite Hn0. exact Hfit.
Qed.

Lemma CalcSteadyState_Ok_inv (cfg : Config) (fields : list Field)
    (st : Statics) (r : bool * Statics) :
  CalcSteadyState cfg fields st = Ok r -> coeffs_in_bounds fields.
Proof.
  unfold CalcSteadyState. intros H.
  apply bind_Ok in H as (f0 & _ & H). apply bind_Ok in H as (L2 & E & _).
  exact (L2_sum_Ok_inv _ _ E).
Qed.

Lemma CalcSteadyState_spec (cfg : Config) (fields : list Field) (st : Statics) :
  coeffs_in_bounds fields ->
  CalcSteadyState cfg fields st =
  Ok (steady_verdict (numCoefficients fields) (m_steadyStateTol cfg)
        (double_L2 fields) (previousL2 st),
      mkStatics (nchk st) (ncalls st) (double_L2 fields)).
Proof.
  intros Hb. unfold CalcSteadyState. rewrite (L2_sum_spec _ Hb).
  destruct Hb as [Hne _]. unfold numCoefficients.
  destruct fields as [|f0 rest]; [congruence|]. reflexivity.
Qed.

Lemma steady_checks_spec (cfg : Config) (calls : list (list Field)) (st : Statics) :
  Forall coeffs_in_bounds calls ->
  steady_checks cfg calls st =
  Ok (double_checks (m_steadyStateTol cfg) calls (previousL2 st),
      mkStatics (nchk st) (ncalls st)
        (foldl (λ _ fields, double_L2 fields) (previousL2 st) calls)).
Proof.
  intros Hall. revert st. induction Hall as [|fields calls Hf _ IH]; intros st.
  - destruct st. reflexivity.
  - simpl. rewrite (CalcSteadyState_spec _ _ _ Hf). simpl.
    rewrite IH. reflexivity.
Qed.

Lemma dadd_not_negative (a b : double) :
  not_negative a -> not_negative b -> not_negative (dadd a b).
Proof.
  intros [-> | (x & -> & Hx)] [-> | (y & -> & Hy)]; cbn [dadd];
    try (left; reflexivity).
  apply fl_nonneg. Lqa.lra.
Qed.

Lemma double_dot_not_negative (c : list Q) : not_negative (double_dot c).
Proof.
  unfold double_dot.
  assert (H : forall a, not_negative a ->
    not_negative (foldl (λ sum x, dadd sum (dmul (Val x) (Val x))) a c)).
  { induction c as [|x c IH]; intros a Ha; [exact Ha|]. simpl. apply IH.
    apply dadd_not_negative; [exact Ha|]. cbn [dmul]. apply fl_nonneg.
    destruct (Qlt_le_dec x 0); Lqa.nra. }
  apply H. right. exists 0%Q. split; [reflexivity | apply Qle_refl].
Qed.

Lemma double_L2_not_negative (fields : list Field) : not_negative (double_L2 fields).
Proof.
  unfold double_L2. generalize (numCoefficients fields) as n. intros n.
  assert (H : forall a, not_negative a ->
    not_negative (foldl (λ L2 f, dadd L2 (double_dot (take n (m_coeffs f)))) a
                    fields)).
  { induction fields as [|f fields IH]; intros a Ha; [exact Ha|]. simpl. apply IH.
    apply dadd_not_negative; [exact Ha | apply double_dot_not_negative]. }
  apply H. right. exists 0%Q. split; [reflexivity | apply Qle_refl].
Qed.

Lemma numCoefficients_coeffs (fields fields' : list Field) :
  m_coeffs <$> fields = m_coeffs <$> fields' ->
  numCoefficients fields = numCoefficients fields'.
Proof.
  intros E. unfold numCoefficients, GetNcoeffs.
  destruct fields as [|f fields], fields' as [|f' fields']; try discriminate;
    [reflexivity|].
  simpl in *. injection E as -> _. reflexivity.
Qed.

Lemma double_L2_coeffs (fields fields' : list Field) :
  m_coeffs <$> fields = m_coeffs <$> fields' ->
  double_L2 fields = double_L2 fields'.
Proof.
  intros E. unfold double_L2. rewrite (numCoefficients_coeffs _ _ E).
  generalize (numCoefficients fields') as n. intros n.
  generalize (Val 0) as a. revert fields' E.
  induction fields as [|f fields IH]; intros [|f' fields'] E a; try discriminate;
    [reflexivity|].
  simpl in *. injection E as Ef E. rewrite Ef. apply IH, E.
Qed.

(** The check on a sum that has not moved: zero against the limit. *)
Lemma steady_verdict_same (n : nat) (tol l : Q) :
  steady_verdict n tol (Val l) (Val l)
  = dltb (Val 0) (fl (inject_Z (Z.of_nat n) * tol)).
Proof.
  unfold steady_verdict, dsub. cbn [dneg dadd dmul].
  rewrite (fl_zero (l + - l)) by ring. reflexivity.
Qed.

Lemma zero_below_fl (x : Q) : (2 ^ (-1074) <= x)%Q -> dltb (Val 0) (fl x) = true.
Proof.
  intros Hx. pose proof (RN_pos x Hx) as Hr. pose proof (pow2_pos 1024) as Hp.
  destruct (fl_cases x) as [[-> _] | [[-> _] | [_ H]]]; cbn [dltb].
  - apply Qltb_lt, Hr.
  - reflexivity.
  - exfalso. set (M := (2 ^ 1024)%Q) in *. Lqa.lra.
Qed.

Lemma zero_not_below_fl (x : Q) : (x <= 0)%Q -> dltb (Val 0) (fl x) = false.
Proof.
  intros Hx. rewrite <- (fl_zero 0 (Qeq_refl 0)). apply fl_mono, Hx.
Qed.

(** A verdict in doubles holds in exact arithmetic as well. *)
Lemma steady_verdict_exact (n : nat) (tol l p : Q) :
  steady_verdict n tol (Val l) (Val p) = true ->
  (Qabs (l - p) < inject_Z (Z.of_nat n) * tol)%Q.
Proof.
  intros Hv. apply Qnot_le_lt. intros Hle.
  unfold steady_verdict, dsub in Hv. cbn [dneg dadd dmul] in Hv.
  rewrite (fl_abs_mono (l + - p)) in Hv; [discriminate|]. exact Hle.
Qed.

Lemma steady_verdict_limit (n : nat) (tol l p : Q) :
  (inject_Z (Z.of_nat n) * tol <= Qabs (l - p))%Q ->
  steady_verdict n tol (Val l) (Val p) = false.
Proof.
  intros Hle. unfold steady_verdict, dsub. cbn [dneg dadd dmul].
  apply (fl_abs_mono (l + - p)). exact Hle.
Qed.

Lemma steady_verdict_overflow (n : nat) (tol p : Q) :
  steady_verdict n tol PInf (Val p) = false.
Proof.
  unfold steady_verdict, dsub. cbn [dneg dadd dabs dmul].
  destruct (fl _); reflexivity.
Qed.

Lemma double_checks_length (tol : Q) (calls : list (list Field)) (prev : double) :
  length (double_checks tol calls prev) = length calls.
Proof.
  revert prev. induction calls as [|f calls IH]; intros prev; simpl;
    [reflexivity | rewrite IH; reflexivity].
Qed.

Lemma double_checks_lookup_S (tol : Q) (calls : list (list Field)) (prev : double)
    (k : nat) (fields fields' : list Field) :
  calls !! k = Some fields -> calls !! S k = Some fields' ->
  double_checks tol calls prev !! S k =
  Some (steady_verdict (numCoefficients fields') tol (double_L2 fields')
          (double_L2 fields)).
Proof.
  revert calls prev. induction k as [|k IH]; intros [|g calls] prev Hk HSk;
    try discriminate.
  - simpl in Hk. injection Hk as ->.
    destruct calls as [|g' calls]; [discriminate|].
    simpl in HSk. injection HSk as ->. reflexivity.
  - simpl. apply IH; assumption.
Qed.

(** C3, as stated: L2 is the sum over all Fields of the self dot-product
    of the coefficient vector, and two consecutive checks on identical
    coefficient vectors return true.  The first fails on Fields of
    different sizes: the code sums over the coefficient count of the first
    Field for every Field, so for coefficient vectors [1] and [1; 2] its L2
    is 2, not 6, and with tolerance 4 it reports convergence where the
    stated test does not.  The second fails for the tolerance 0, where no
    check returns true. *)
Lemma C3_coefficient_count_counterexample :
  L2_sum uneven_fields = Ok (Val 2) /\ (spec_L2 uneven_fields == 6)%Q /\
  steady_checks (tolerance_config 4) [uneven_fields] statics_init
  = Ok ([true], mkStatics 0 1 (Val 2)) /\
  spec_checks 4 [uneven_fields] 0 = [false] /\
  steady_checks (tolerance_config 0) [steady_fields; steady_fields] statics_init
  = Ok ([false; false], mkStatics 0 1 (Val 14)).
Proof. repeat split; vm_compute; reflexivity. Qed.

(** C3, amended: for every sequence of calls to the steady-state check on
    Fields none of which has fewer coefficients than the first (fewer are
    read out of bounds), each call computes L2 as the sum, over all
    Fields, of the dot product with itself of the first [numCoefficients]
    coefficients of the Field, every product and sum rounded to a double;
    L2 is not negative or it has overflowed.  The call returns true
    exactly when [fabs(L2 - previousL2) < numCoefficients * tolerance]
    holds in double arithmetic, which implies the same in exact
    arithmetic, and overwrites [previousL2] with L2 whatever the verdict;
    [previousL2] is 0 before the first call.  Hence the second of two
    consecutive checks on identical coefficient vectors returns true when
    L2 is finite and [numCoefficients * tolerance] is at least the smallest
    positive double, and false when that product is not positive or L2 has
    overflowed; and a first call returns false as soon as
    [numCoefficients * tolerance <= L2], so for every tolerance close
    enough to 0 when L2 is positive, and for the tolerance 0 always.  No
    call returns on other Fields than these. *)
Theorem C3_steady_state_check (cfg : Config) (calls : list (list Field)) :
  let tol := m_steadyStateTol cfg in
  let limit fields := (inject_Z (Z.of_nat (numCoefficients fields)) * tol)%Q in
  Forall coeffs_in_bounds calls ->
  previousL2 statics_init = Val 0 /\
  (forall fields st, fields ∈ calls ->
     L2_sum fields = Ok (double_L2 fields) /\
     (double_L2 fields = PInf \/
      exists l, double_L2 fields = Val l /\ (0 <= l)%Q) /\
     exists b st', CalcSteadyState cfg fields st = Ok (b, st') /\
       b = steady_verdict (numCoefficients fields) tol (double_L2 fields)
             (previousL2 st) /\
       previousL2 st' = double_L2 fields /\
       (forall l p, double_L2 fields = Val l -> previousL2 st = Val p ->
          b = true -> (Qabs (l - p) < limit fields)%Q)) /\
  (exists verdicts st',
     steady_checks cfg calls statics_init = Ok (verdicts, st') /\
     verdicts = double_checks tol calls (Val 0) /\
     length verdicts = length calls /\
     (forall k fields fields',
        calls !! k = Some fields -> calls !! S k = Some fields' ->
        m_coeffs <$> fields = m_coeffs <$> fields' ->
        (forall l, double_L2 fields = Val l ->
           (2 ^ (-1074) <= limit fields)%Q -> verdicts !! S k = Some true)
        /\ ((limit fields <= 0)%Q -> verdicts !! S k = Some false)
        /\ (double_L2 fields = PInf -> verdicts !! S k = Some false)) /\
     (forall fields,
        calls !! 0%nat = Some fields ->
        (forall l, double_L2 fields = Val l -> (limit fields <= l)%Q ->
           verdicts !! 0%nat = Some false)
        /\ ((limit fields <= 0)%Q -> verdicts !! 0%nat = Some false)
        /\ (double_L2 fields = PInf -> verdicts !! 0%nat = Some false))) /\
  (forall fields st r,
     CalcSteadyState cfg fields st = Ok r -> coeffs_in_bounds fields).
Proof.
  intros tol limit Hall. split; [reflexivity|].
  split; [|split; [|intros fields st r; apply CalcSteadyState_Ok_inv]].
  - intros fields st Hin.
    assert (Hb : coeffs_in_bounds fields).
    { rewrite Forall_forall in Hall. apply Hall, Hin. }
    split; [apply L2_sum_spec, Hb|].
    split; [apply double_L2_not_negative|].
    rewrite (CalcSteadyState_spec _ _ _ Hb).
    eexists. eexists. split; [reflexivity|]. split; [reflexivity|].
    split; [reflexivity|].
    intros l p El Ep Hv. fold tol in Hv. rewrite El, Ep in Hv.
    apply steady_verdict_exact, Hv.
  - rewrite (steady_checks_spec _ _ _ Hall).
    eexists. eexists. split; [reflexivity|]. split; [reflexivity|].
    split; [apply double_checks_length|]. split.
    + intros k fields fields' Hk HSk Hc.
      simpl. rewrite (double_checks_lookup_S _ _ _ _ _ _ Hk HSk).
      rewrite <- (double_L2_coeffs _ _ Hc), <- (numCoefficients_coeffs _ _ Hc).
      fold tol. split; [|split].
      * intros l El Hlim. rewrite El, steady_verdict_same. f_equal.
        apply zero_below_fl, Hlim.
      * intros Hlim. f_equal.
        destruct (double_L2_not_negative fields) as [-> | (l & -> & _)];
          [reflexivity|].
        rewrite steady_verdict_same. apply zero_not_below_fl, Hlim.
      * intros ->. reflexivity.
    + intros fields H0.
      destruct calls as [|g calls]; [discriminate|].
      simpl in H0. injection H0 as ->. simpl. fold tol.
      assert (Hfirst : forall l, double_L2 fields = Val l -> (limit fields <= l)%Q ->
                Some (steady_verdict (numCoefficients fields) tol
                        (double_L2 fields) (Val 0)) = Some false).
      { intros l El Hlim. f_equal. rewrite El.
        destruct (double_L2_not_negative fields) as [E | (l' & E & Hl')];
          rewrite El in E; [discriminate|]. injection E as <-.
        apply steady_verdict_limit.
        rewrite Qabs_pos by Lqa.lra. unfold limit in Hlim. Lqa.lra. }
      split; [exact Hfirst|]. split.
      * intros Hlim.
        destruct (double_L2_not_negative fields) as [E | (l & E & Hl)].
        -- rewrite E, steady_verdict_overflow. reflexivity.
        -- apply (Hfirst l E). Lqa.lra.
      * intros ->. rewrite steady_verdict_overflow. reflexivity.
Qed.

Lemma C3_steady_state_check_witness :
  exists verdicts st',
    steady_checks steady_config steady_calls statics_init = Ok (verdicts, st')
    /\ verdicts
       = double_checks (m_steadyStateTol steady_config) steady_calls (Val 0)
    /\ verdicts !! 0%nat = Some false /\ verdicts !! 1%nat = Some true.
Proof.
  pose proof (C3_steady_state_check steady_config steady_calls) as H.
  cbv zeta in H.
  destruct H as (_ & _ & (v & st' & H1 & H2 & _ & H4 & H5) & _).
  { repeat constructor; simpl; try discriminate; lia. }
  exists v, st'. split; [exact H1|]. split; [exact H2|]. split.
  - destruct (H5 steady_fields eq_refl) as (Hf & _).
    apply (Hf 14%Q); [vm_compute; reflexivity|].
    unfold Qle. vm_compute. discriminate.
  - destruct (H4 0%nat steady_fields steady_fields eq_refl eq_refl eq_refl)
      as (Ht & _).
    apply (Ht 14%Q); [vm_compute; reflexivity|].
    unfold Qle. vm_compute. discriminate.
Defined.

Example steady_calls_verdicts :
  steady_checks steady_config steady_calls statics_init
  = Ok ([false; true], mkStatics 0 1 (Val 14)).
Proof. vm_compute. reflexivity. Qed.

(** *** Extrapolation on a sampled history *)

Section HistoryExamples.
#[local] Existing Instance nodal_collaborators.

Example history_extrapolated :
  exists a b,
    SubStepExtrapoloteField history_config history_solver (1 # 2) [[0; 0]]%Q
    = Ok [[a; b]] /\ (a == 5 # 4)%Q /\ (b == 3 # 2)%Q.
Proof. eexists. eexists. split; [reflexivity|]. split; reflexivity. Qed.

(** With only [m_intSteps] = 2 blocks in the history the third block is
    read past the end of [m_previousVelFields]. *)
Example history_too_short :
  SubStepExtrapoloteField history_config
    (set_previousVelFields [10; 11]%nat history_solver) (1 # 2) [[0; 0]]%Q
  = Undefined.
Proof. reflexivity. Qed.

Lemma C4_lagrange_extrapolation_witness :
  (forall i j, i <> j ->
     ~ (inject_Z (Z.of_nat j) * 1 - inject_Z (Z.of_nat i) * 1 == 0)%Q)
  /\ (exists l, lagrange_interpolants 2 1 (1 # 2) = Ok l /\
        forall i, (i <= 2)%nat -> exists li, l !! i = Some li /\
          (li == lagrange_weight (upto 0 3) 1 (1 # 2) i)%Q)
  /\ (exists out,
        SubStepExtrapoloteField history_config history_solver (1 # 2) [[0; 0]]%Q
        = Ok out /\
        forall i, (i < 1)%nat -> exists y, out !! i = Some y /\
          forall k, (k < 2)%nat -> exists v, y !! k = Some v /\
            (v == eval_poly (history_polynomials i k) (1 # 2))%Q).
Proof.
  apply (C4_lagrange_extrapolation history_config history_solver (1 # 2)
           [[0; 0]]%Q (mkField [0; 0] [0; 0] true false)%Q history_polynomials).
  - reflexivity.
  - discriminate.
  - reflexivity.
  - simpl. lia.
  - reflexivity.
  - simpl. lia.
  - intros i y Hy. destruct i as [|i]; [|discriminate].
    injection Hy as <-. unfold GetTotPoints. simpl. lia.
  - intros i k. destruct k; simpl; lia.
  - intros i j Hi Hj. simpl in Hi, Hj.
    destruct i as [|i]; [|lia].
    destruct j as [|[|[|j]]]; [| | |lia];
      (eexists; split; [reflexivity|]; split; [unfold GetTotPoints; simpl; lia|];
       intros k Hk; unfold GetTotPoints in Hk; simpl in Hk; destruct k as [|[|k]]; [| |lia];
       (eexists; split; [reflexivity|]; reflexivity)).
Defined.

Lemma C9_extrapolation_bounds_witness :
  ((exists out,
      SubStepExtrapoloteField history_config history_solver (1 # 2) [[0; 0]]%Q
      = Ok out) <->
   (2 <= 3 /\ (2 + 1) * 1 <= 3)%nat)
  /\ ((1 <= 1)%nat -> 3%nat = (2 * 1)%nat ->
      ~ exists out,
          SubStepExtrapoloteField history_config history_solver (1 # 2)
            [[0; 0]]%Q = Ok out).
Proof.
  apply (C9_extrapolation_bounds history_config history_solver (1 # 2)
           [[0; 0]]%Q (mkField [0; 0] [0; 0] true false)%Q).
  - reflexivity.
  - intros h Hh. simpl in Hh.
    repeat (apply elem_of_cons in Hh as [->|Hh];
            [eexists; split; [reflexivity | unfold GetTotPoints; simpl; lia]|]).
    apply elem_of_nil in Hh. destruct Hh.
  - simpl. lia.
  - intros i y Hy. destruct i as [|i]; [|discriminate].
    injection Hy as <-. unfold GetTotPoints. simpl. lia.
Defined.
End HistoryExamples.

(** ** Velocity history *)

Lemma downto_nil (a : nat) : downto a a = [].
Proof. unfold downto. rewrite Nat.sub_diag. reflexivity. Qed.

Lemma downto_cons (b a : nat) : (a <= b)%nat -> downto (S b) a = S b :: downto b a.
Proof.
  intros H. unfold downto. replace (S b - a)%nat with (S (b - a)) by lia.
  rewrite seq_S, rev_unit. do 2 f_equal. lia.
Qed.

(** The counting-down rule: [P i s] holds before index [i] is processed. *)
Lemma for_each_downto {St} (P : nat -> St -> Prop) (b a : nat)
    (body : nat -> St -> result St) (s : St) :
  (a <= b)%nat -> P b s ->
  (forall i s, (a < i <= b)%nat -> P i s ->
     exists s', body i s = Ok s' /\ P (i - 1)%nat s') ->
  exists s', for_each (downto b a) body s = Ok s' /\ P a s'.
Proof.
  intros Hab. revert s. induction Hab as [|b Hab IH]; intros s Hs Hbody.
  - exists s. rewrite downto_nil. split; [reflexivity | exact Hs].
  - rewrite downto_cons by exact Hab. simpl.
    destruct (Hbody (S b) s) as (s1 & Hb & Hs1); [lia | exact Hs |].
    rewrite Hb. simpl. replace (S b - 1)%nat with b in Hs1 by lia.
    apply IH; [exact Hs1|]. intros i s0 Hi. apply Hbody. lia.
Qed.

Lemma flat_index_inj (nvel i n i' n' : nat) :
  (n < nvel)%nat -> (n' < nvel)%nat ->
  (i * nvel + n = i' * nvel + n')%nat -> i = i' /\ n = n'.
Proof.
  intros Hn Hn' E.
  assert (i = i') as ->.
  { destruct (Nat.lt_trichotomy i i') as [Hlt|[Heq|Hgt]]; [|exact Heq|].
    - assert ((i + 1) * nvel <= i' * nvel)%nat by (apply Nat.mul_le_mono_r; lia). lia.
    - assert ((i' + 1) * nvel <= i * nvel)%nat by (apply Nat.mul_le_mono_r; lia). lia. }
  split; [reflexivity | lia].
Qed.

Lemma flat_index_lt (nvel nblocks i n : nat) :
  (i < nblocks)%nat -> (n < nvel)%nat -> (i * nvel + n < nblocks * nvel)%nat.
Proof.
  intros Hi Hn.
  assert ((i + 1) * nvel <= nblocks * nvel)%nat by (apply Nat.mul_le_mono_r; lia).
  lia.
Qed.

Lemma flat_index_split (nvel nblocks k : nat) :
  (k < nblocks * nvel)%nat ->
  exists i n, (i < nblocks)%nat /\ (n < nvel)%nat /\ k = (i * nvel + n)%nat.
Proof.
  intros Hk. assert (Hnv : (nvel <> 0)%nat) by nia.
  exists (k / nvel)%nat, (k mod nvel)%nat.
  pose proof (Nat.div_mod k nvel Hnv) as Hdm.
  pose proof (Nat.mod_upper_bound k nvel Hnv) as Hm.
  split; [|split; [exact Hm | lia]].
  apply Nat.Div0.div_lt_upper_bound. lia.
Qed.

Lemma rotate_fields_Ok (nvel nblocks : nat) (prev : list nat) :
  (1 <= nblocks)%nat -> length prev = (nblocks * nvel)%nat ->
  exists prev', rotate_fields nvel nblocks prev = Ok prev' /\
    length prev' = length prev /\
    forall i n, (i < nblocks)%nat -> (n < nvel)%nat ->
      prev' !! (i * nvel + n)%nat = prev !! (rotated nblocks i * nvel + n)%nat.
Proof.
  intros Hnb Hlen. unfold rotate_fields.
  pose (P := fun (m : nat) (cur : list nat) =>
    length cur = length prev /\
    forall i n, (i < nblocks)%nat -> (n < nvel)%nat ->
      cur !! (i * nvel + n)%nat =
      prev !! ((if decide (n < m)%nat then rotated nblocks i else i) * nvel + n)%nat).
  destruct (for_each_upto P 0 nvel
    (λ n prev,
      if decide (nblocks = 0%nat) then Undefined else
      save ← rd prev ((nblocks - 1) * nvel + n);
      prev ← for_each (downto (nblocks - 1) 0) (λ i prev,
                x ← rd prev ((i - 1) * nvel + n);
                wr prev (i * nvel + n) x) prev;
      wr prev n save) prev) as (prev' & Hrun & Hlen' & Hrot).
  - lia.
  - split; [reflexivity|]. intros i n Hi Hn. rewrite decide_False by lia. reflexivity.
  - intros n cur [_ Hn] [Hcl Hcur].
    rewrite decide_False by lia.
    destruct (rd_lt cur ((nblocks - 1) * nvel + n)) as (save & Hrd & Hsave);
      [rewrite Hcl, Hlen; apply flat_index_lt; lia|].
    rewrite Hrd. simpl.
    pose (R := fun (m : nat) (c : list nat) =>
      length c = length prev /\
      forall i n', (i < nblocks)%nat -> (n' < nvel)%nat ->
        c !! (i * nvel + n')%nat =
        if decide (n' = n /\ m < i)%nat then cur !! ((i - 1) * nvel + n)%nat
        else cur !! (i * nvel + n')%nat).
    destruct (for_each_downto R (nblocks - 1) 0
      (λ i prev, x ← rd prev ((i - 1) * nvel + n); wr prev (i * nvel + n) x) cur)
      as (c & Hc & Hcl2 & Hcrot).
    + lia.
    + split; [exact Hcl|]. intros i n' Hi Hn'. rewrite decide_False by lia. reflexivity.
    + intros i c [Hi1 Hi2] [Hcl2 Hc].
      destruct (rd_lt c ((i - 1) * nvel + n)) as (x & Hrdx & Hx);
        [rewrite Hcl2, Hlen; apply flat_index_lt; lia|].
      rewrite Hrdx. simpl.
      rewrite wr_lt by (rewrite Hcl2, Hlen; apply flat_index_lt; lia).
      eexists. split; [reflexivity|]. split; [rewrite length_insert; exact Hcl2|].
      intros i' n' Hi' Hn'.
      destruct (decide (i' * nvel + n' = i * nvel + n)%nat) as [E|NE].
      * apply flat_index_inj in E as [-> ->]; [|assumption..].
        rewrite list_lookup_insert_eq
          by (rewrite Hcl2, Hlen; apply flat_index_lt; lia).
        rewrite decide_True by lia. rewrite <- Hx, Hc by lia.
        rewrite decide_False by lia. reflexivity.
      * rewrite list_lookup_insert_ne by lia. rewrite Hc by assumption.
        destruct (decide (n' = n /\ i < i')%nat) as [[-> Hlt]|Hno].
        -- rewrite decide_True by lia. reflexivity.
        -- rewrite decide_False; [reflexivity|].
           intros [-> Hlt]. apply Hno. split; [reflexivity|].
           destruct (decide (i' = i)) as [->|]; [congruence | lia].
    + rewrite Hc. simpl. rewrite wr_lt by (rewrite Hcl2, Hlen; nia).
      eexists. split; [reflexivity|]. split; [rewrite length_insert; exact Hcl2|].
      intros i n' Hi Hn'.
      destruct (decide (i * nvel + n' = n)%nat) as [E|NE].
      * assert (i = 0%nat /\ n' = n) as [-> ->]
          by (apply (flat_index_inj nvel i n' 0 n); lia).
        simpl. rewrite list_lookup_insert_eq by (rewrite Hcl2, Hlen; nia).
        rewrite decide_True by lia. simpl.
        rewrite <- Hsave, Hcur by lia. rewrite decide_False by lia. reflexivity.
      * rewrite list_lookup_insert_ne by lia. rewrite Hcrot by assumption.
        destruct (decide (n' = n /\ 0 < i)%nat) as [[-> Hlt]|Hno].
        -- rewrite decide_True by lia. rewrite Hcur by lia.
           rewrite decide_False by lia.
           destruct i as [|i]; [lia|]. simpl. rewrite Nat.sub_0_r. reflexivity.
        -- rewrite Hcur by assumption.
           assert (n' <> n) by (intros ->; destruct i; [simpl in NE; lia | lia]).
           destruct (decide (n' < n)%nat), (decide (n' < S n)%nat);
             try reflexivity; lia.
  - exists prev'. split; [exact Hrun|]. split; [exact Hlen'|].
    intros i n Hi Hn. rewrite Hrot by assumption. rewrite decide_True by lia.
    reflexivity.
Qed.

Lemma rotated_lt (nblocks i : nat) :
  (i < nblocks)%nat -> (rotated nblocks i < nblocks)%nat.
Proof. destruct i; simpl; lia. Qed.

Lemma rotated_inj (nblocks i j : nat) :
  (i < nblocks)%nat -> (j < nblocks)%nat ->
  rotated nblocks i = rotated nblocks j -> i = j.
Proof. destruct i, j; simpl; lia. Qed.

Lemma rotate_fields_wf (nvel nblocks npts : nat) (prev : list nat)
    (store : gmap nat (list Q)) :
  (1 <= nblocks)%nat -> history_wf nvel nblocks npts prev store ->
  exists prev', rotate_fields nvel nblocks prev = Ok prev' /\
    history_wf nvel nblocks npts prev' store /\
    forall i n, (i < nblocks)%nat -> (n < nvel)%nat ->
      prev' !! (i * nvel + n)%nat = prev !! (rotated nblocks i * nvel + n)%nat.
Proof.
  intros Hnb (Hlen & Hnd & Hval).
  destruct (rotate_fields_Ok nvel nblocks prev Hnb Hlen) as (prev' & Hrun & Hlen' & Hrot).
  exists prev'. split; [exact Hrun|]. split; [|exact Hrot].
  split; [lia|]. split.
  - apply NoDup_alt. intros k1 k2 h H1 H2.
    destruct (flat_index_split nvel nblocks k1) as (i1 & n1 & Hi1 & Hn1 & ->);
      [apply lookup_lt_Some in H1; lia|].
    destruct (flat_index_split nvel nblocks k2) as (i2 & n2 & Hi2 & Hn2 & ->);
      [apply lookup_lt_Some in H2; lia|].
    rewrite Hrot in H1, H2 by assumption.
    pose proof (proj1 (NoDup_alt prev) Hnd _ _ _ H1 H2) as E.
    apply flat_index_inj in E as [E ->]; [|assumption..].
    apply rotated_inj in E; [|assumption..]. subst. reflexivity.
  - intros h Hh. apply list_elem_of_lookup in Hh as [k Hk].
    destruct (flat_index_split nvel nblocks k) as (i & n & Hi & Hn & ->);
      [apply lookup_lt_Some in Hk; lia|].
    rewrite Hrot in Hk by assumption.
    apply Hval, list_elem_of_lookup. eexists. exact Hk.
Qed.

Lemma copy_to_block_Ok (npts : nat) (phys : list Q) (prev : list nat) (k : nat)
    (store : gmap nat (list Q)) :
  NoDup prev -> (k < length prev)%nat -> blocks_valid npts prev store ->
  length phys = npts ->
  exists store', copy_to_block npts phys prev k store = Ok store' /\
    history_block prev store' k = Ok phys /\
    (forall k', k' <> k -> history_block prev store' k' = history_block prev store k') /\
    blocks_valid npts prev store'.
Proof.
  intros Hnd Hk Hval Hphys. unfold copy_to_block.
  destruct (rd_lt prev k Hk) as (h & Hrd & Hh). rewrite Hrd. simpl.
  destruct (Hval h) as (old & Hold & Holdlen); [apply list_elem_of_lookup; eauto|].
  unfold deref at 1. rewrite Hold. simpl.
  subst npts. rewrite Vcopy_whole by lia. simpl.
  eexists. split; [reflexivity|]. split; [|split].
  - unfold history_block. rewrite Hrd. simpl. unfold deref.
    rewrite lookup_insert_eq. reflexivity.
  - intros k' Hk'. unfold history_block, rd.
    destruct (prev !! k') as [h'|] eqn:Hh'; [|reflexivity]. simpl.
    assert (h' <> h).
    { intros ->. apply Hk'. eapply (proj1 (NoDup_alt prev) Hnd); eassumption. }
    unfold deref. rewrite lookup_insert_ne by congruence. reflexivity.
  - intros h' Hh'. destruct (decide (h' = h)) as [->|Hne].
    + exists phys. rewrite lookup_insert_eq. split; reflexivity.
    + rewrite lookup_insert_ne by congruence. apply Hval, Hh'.
Qed.

Lemma snapshot_eq `{!Collaborators} (cfg : Config) (fields : list Field)
    (n v : nat) (f : Field) :
  m_velocity cfg !! n = Some v -> fields !! v = Some f ->
  snapshot cfg fields n = m_phys (Field_BwdTrans f).
Proof. intros Hv Hf. unfold snapshot. rewrite Hv, Hf. reflexivity. Qed.

Lemma put_previous_field_Ok `{!Collaborators} (cfg : Config) (npts : nat)
    (prev : list nat) (fields : list Field) (store : gmap nat (list Q)) :
  let nvel := length (m_velocity cfg) in
  (forall ws c out, length (BwdTrans ws c out) = length out) ->
  NoDup prev -> (nvel <= length prev)%nat -> blocks_valid npts prev store ->
  velocity_wf cfg npts fields ->
  exists fields' store',
    put_previous_field (m_velocity cfg) npts prev (fields, store)
    = Ok (fields', store') /\
    blocks_valid npts prev store' /\
    (forall n, (n < nvel)%nat ->
       history_block prev store' n = Ok (snapshot cfg fields n)) /\
    (forall k, (nvel <= k)%nat ->
       history_block prev store' k = history_block prev store k) /\
    (forall n v, m_velocity cfg !! n = Some v ->
       exists f, fields' !! v = Some f /\ m_phys f = snapshot cfg fields n).
Proof.
  intros nvel HB Hnd Hlen Hval (_ & Hvnd & Hvel).
  pose (P := fun (m : nat) (x : list Field * gmap nat (list Q)) =>
    length x.1 = length fields /\
    blocks_valid npts prev x.2 /\
    (forall n, (n < m)%nat -> history_block prev x.2 n = Ok (snapshot cfg fields n)) /\
    (forall k, (m <= k)%nat -> history_block prev x.2 k = history_block prev store k) /\
    (forall n v, m_velocity cfg !! n = Some v ->
       x.1 !! v = if decide (n < m)%nat then Field_BwdTrans <$> fields !! v
                  else fields !! v)).
  unfold put_previous_field. fold nvel.
  destruct (for_each_upto P 0 nvel
    (λ i '(fields, store),
      v ← rd (m_velocity cfg) i;
      f ← rd fields v;
      let f := Field_BwdTrans f in
      fields ← wr fields v f;
      store ← copy_to_block npts (m_phys f) prev i store;
      Ok (fields, store)) (fields, store))
    as ([fields' store'] & Hrun & _ & Hval' & Hnew & Hold & Hfs).
  - lia.
  - split; [reflexivity|]. split; [exact Hval|]. split; [intros; lia|].
    split; [reflexivity|]. intros n v Hv. rewrite decide_False by lia. reflexivity.
  - intros m [fs st] [_ Hm] (Hfl & Hv1 & Hn1 & Ho1 & Hf1). cbn [fst snd] in *.
    destruct (rd_lt (m_velocity cfg) m Hm) as (v & Hrd & Hv). rewrite Hrd.
    cbn [mbind result_bind].
    destruct (Hvel v) as (f & Hf & Hfn); [apply list_elem_of_lookup; eauto|].
    assert (Hfsv : fs !! v = Some f).
    { rewrite (Hf1 m v Hv), decide_False by lia. exact Hf. }
    rewrite (proj2 (rd_Ok _ _ _) Hfsv). cbn [mbind result_bind].
    rewrite wr_lt by (apply lookup_lt_Some in Hfsv; exact Hfsv).
    cbn [mbind result_bind].
    destruct (copy_to_block_Ok npts (m_phys (Field_BwdTrans f)) prev m st)
      as (st' & Hcp & Hblk & Hoth & Hval2); [exact Hnd | lia | exact Hv1 | |].
    { unfold Field_BwdTrans. simpl. rewrite HB. exact Hfn. }
    rewrite Hcp. cbn [mbind result_bind]. eexists. split; [reflexivity|].
    unfold P. cbn [fst snd].
    split; [rewrite length_insert; exact Hfl|]. split; [exact Hval2|]. split; [|split].
    + intros n Hn. destruct (decide (n = m)) as [->|Hne].
      * rewrite Hblk. f_equal. symmetry. eapply snapshot_eq; eassumption.
      * rewrite Hoth by exact Hne. apply Hn1. lia.
    + intros k Hk. rewrite Hoth by lia. apply Ho1. lia.
    + intros n v' Hv'. destruct (decide (v' = v)) as [->|Hne].
      * assert (n = m) as -> by (eapply (proj1 (NoDup_alt _) Hvnd); eassumption).
        rewrite list_lookup_insert_eq by (apply lookup_lt_Some in Hfsv; exact Hfsv).
        rewrite decide_True by lia. rewrite Hf. reflexivity.
      * rewrite list_lookup_insert_ne by congruence. rewrite (Hf1 n v' Hv').
        assert (n <> m) by (intros ->; congruence).
        destruct (decide (n < m)%nat), (decide (n < S m)%nat); try reflexivity; lia.
  - exists fields', store'. cbn [fst snd] in *. split; [exact Hrun|].
    split; [exact Hval'|]. split; [exact Hnew|]. split; [exact Hold|].
    intros n v Hv. rewrite (Hfs n v Hv).
    rewrite decide_True by (apply lookup_lt_Some in Hv; exact Hv).
    destruct (Hvel v) as (f & Hf & _); [apply list_elem_of_lookup; eauto|].
    rewrite Hf. simpl. eexists. split; [reflexivity|].
    symmetry. eapply snapshot_eq; eassumption.
Qed.

Lemma initialise_all_levels_Ok (velocity : list nat) (npts nblocks : nat)
    (prev : list nat) (fields : list Field) (store : gmap nat (list Q))
    (snap : nat -> list Q) :
  let nvel := length velocity in
  (1 <= nblocks)%nat ->
  NoDup prev -> length prev = (nblocks * nvel)%nat -> blocks_valid npts prev store ->
  (forall n v, velocity !! n = Some v ->
     exists f, fields !! v = Some f /\ m_phys f = snap n) ->
  (forall n, (n < nvel)%nat -> length (snap n) = npts) ->
  exists store',
    initialise_all_levels velocity npts nblocks prev fields store = Ok store' /\
    blocks_valid npts prev store' /\
    forall i n, (i < nblocks)%nat -> (n < nvel)%nat ->
      history_block prev store' (i * nvel + n) =
      if decide (i = 0%nat) then history_block prev store n else Ok (snap n).
Proof.
  intros nvel Hnb Hnd Hlen Hval Hfs Hsnap.
  pose (P := fun (m : nat) (st : gmap nat (list Q)) =>
    blocks_valid npts prev st /\
    forall i n, (i < nblocks)%nat -> (n < nvel)%nat ->
      history_block prev st (i * nvel + n) =
      if decide (1 <= i /\ n < m)%nat then Ok (snap n)
      else history_block prev store (i * nvel + n)).
  unfold initialise_all_levels. fold nvel.
  destruct (for_each_upto P 0 nvel
    (λ n store,
      for_each (upto 1 nblocks) (λ i store,
        v ← rd velocity n;
        f ← rd fields v;
        copy_to_block npts (m_phys f) prev (i * nvel + n) store) store) store)
    as (store' & Hrun & Hval' & Hblk).
  - lia.
  - split; [exact Hval|]. intros i n Hi Hn. rewrite decide_False by lia. reflexivity.
  - intros n st [_ Hn] [Hv1 Hb1].
    pose (R := fun (j : nat) (st' : gmap nat (list Q)) =>
      blocks_valid npts prev st' /\
      forall i n', (i < nblocks)%nat -> (n' < nvel)%nat ->
        history_block prev st' (i * nvel + n') =
        if decide (1 <= i /\ (n' < n \/ n' = n /\ i < j))%nat then Ok (snap n')
        else history_block prev store (i * nvel + n')).
    destruct (for_each_upto R 1 nblocks
      (λ i store,
        v ← rd velocity n;
        f ← rd fields v;
        copy_to_block npts (m_phys f) prev (i * nvel + n) store) st)
      as (st' & Hrun' & Hv2 & Hb2).
    + lia.
    + split; [exact Hv1|]. intros i n' Hi Hn'. rewrite Hb1 by assumption.
      destruct (decide (1 <= i /\ n' < n)%nat),
               (decide (1 <= i /\ (n' < n \/ n' = n /\ i < 1))%nat);
        try reflexivity; lia.
    + intros j st0 [Hj1 Hj2] [Hv0 Hb0].
      destruct (rd_lt velocity n Hn) as (v & Hrd & Hv). rewrite Hrd. simpl.
      destruct (Hfs n v Hv) as (f & Hf & Hfp).
      rewrite (proj2 (rd_Ok _ _ _) Hf). simpl.
      destruct (copy_to_block_Ok npts (m_phys f) prev (j * nvel + n) st0)
        as (st1 & Hcp & Hblk & Hoth & Hval2);
        [exact Hnd | rewrite Hlen; apply flat_index_lt; lia | exact Hv0
        | rewrite Hfp; apply Hsnap; exact Hn |].
      rewrite Hcp. eexists. split; [reflexivity|]. split; [exact Hval2|].
      intros i n' Hi Hn'.
      destruct (decide (i * nvel + n' = j * nvel + n)%nat) as [E|NE].
      * apply flat_index_inj in E as [-> ->]; [|assumption..].
        rewrite Hblk, Hfp. rewrite decide_True by lia. reflexivity.
      * rewrite Hoth by exact NE. rewrite Hb0 by assumption.
        assert (~ (i = j /\ n' = n)) by (intros [-> ->]; congruence).
        destruct (decide (1 <= i /\ (n' < n \/ n' = n /\ i < j))%nat),
                 (decide (1 <= i /\ (n' < n \/ n' = n /\ i < S j))%nat);
          try reflexivity; lia.
    + exists st'. split; [exact Hrun'|]. split; [exact Hv2|].
      intros i n' Hi Hn'. rewrite Hb2 by assumption.
      destruct (decide (1 <= i /\ (n' < n \/ n' = n /\ i < nblocks))%nat),
               (decide (1 <= i /\ n' < S n)%nat);
        try reflexivity; lia.
  - exists store'. split; [exact Hrun|]. split; [exact Hval'|].
    intros i n Hi Hn. rewrite Hblk by assumption.
    destruct (decide (i = 0%nat)) as [->|Hne].
    + rewrite decide_False by lia. reflexivity.
    + rewrite decide_True by lia. reflexivity.
Qed.

Lemma history_block_ext (prev prev' : list nat) (store : gmap nat (list Q))
    (k k' : nat) :
  prev' !! k = prev !! k' ->
  history_block prev' store k = history_block prev store k'.
Proof. intros E. unfold history_block, rd. rewrite E. reflexivity. Qed.

Lemma snapshot_length `{!Collaborators} (cfg : Config) (npts : nat)
    (fields : list Field) (n : nat) :
  (forall ws c out, length (BwdTrans ws c out) = length out) ->
  velocity_wf cfg npts fields -> (n < length (m_velocity cfg))%nat ->
  length (snapshot cfg fields n) = npts.
Proof.
  intros HB (_ & _ & Hvel) Hn.
  destruct (lookup_lt_is_Some_2 _ _ Hn) as [v Hv].
  destruct (Hvel v) as (f & Hf & Hfn); [apply list_elem_of_lookup; eauto|].
  rewrite (snapshot_eq cfg fields n v f Hv Hf).
  unfold Field_BwdTrans. simpl. rewrite HB. exact Hfn.
Qed.

(** One save: the new snapshot is in slot 0 and the older entries have
    moved one slot up; on step 0 every slot holds the new snapshot. *)
Lemma SubStepSaveFields_spec `{!Collaborators} (cfg : Config) (nstep : nat)
    (s : Solver) (nblocks npts : nat) :
  let nvel := length (m_velocity cfg) in
  (forall ws c out, length (BwdTrans ws c out) = length out) ->
  (1 <= nvel)%nat -> (1 <= nblocks)%nat ->
  history_wf nvel nblocks npts (m_previousVelFields s) (m_store s) ->
  velocity_wf cfg npts (m_fields s) ->
  exists s', SubStepSaveFields cfg nstep s = Ok s' /\
    history_wf nvel nblocks npts (m_previousVelFields s') (m_store s') /\
    forall i n, (i < nblocks)%nat -> (n < nvel)%nat ->
      history_block (m_previousVelFields s') (m_store s') (i * nvel + n) =
      if decide (i = 0 \/ nstep = 0)%nat then Ok (snapshot cfg (m_fields s) n)
      else history_block (m_previousVelFields s) (m_store s) ((i - 1) * nvel + n).
Proof.
  intros nvel HB Hnv Hnb Hwf Hvwf.
  pose proof Hvwf as ((f0 & Hf0 & Hf0n) & _ & _).
  destruct (rotate_fields_wf nvel nblocks npts _ _ Hnb Hwf)
    as (prev' & Hrot & (Hlen' & Hnd' & Hval') & Hlk).
  destruct (put_previous_field_Ok cfg npts prev' (m_fields s) (m_store s) HB Hnd')
    as (fields' & store' & Hput & Hval1 & Hnew & Hold & Hfs);
    [fold nvel; rewrite Hlen'; nia | exact Hval' | exact Hvwf |].
  fold nvel in Hnew, Hold.
  assert (Hdiv : (length (m_previousVelFields s) / nvel = nblocks)%nat).
  { destruct Hwf as (Hlen & _). rewrite Hlen. apply Nat.div_mul. lia. }
  assert (Hshift : forall i n, (i < nblocks)%nat -> (n < nvel)%nat ->
    history_block prev' store' (i * nvel + n) =
    if decide (i = 0%nat) then Ok (snapshot cfg (m_fields s) n)
    else history_block (m_previousVelFields s) (m_store s) ((i - 1) * nvel + n)).
  { intros i n Hi Hn. destruct i as [|i].
    - simpl. apply Hnew, Hn.
    - rewrite decide_False by lia. rewrite Hold by nia.
      apply history_block_ext. rewrite Hlk by assumption. simpl.
      rewrite Nat.sub_0_r. reflexivity. }
  unfold SubStepSaveFields. fold nvel.
  rewrite (proj2 (rd_Ok _ _ _) Hf0). cbn [mbind result_bind].
  rewrite decide_False by lia. rewrite Hdiv, Hrot. cbn [mbind result_bind].
  rewrite Hf0n, Hput. cbn [mbind result_bind].
  destruct (decide (nstep = 0%nat)) as [->|Hns].
  - destruct (initialise_all_levels_Ok (m_velocity cfg) npts nblocks prev' fields'
                store' (snapshot cfg (m_fields s)))
      as (store'' & Hini & Hval2 & Hblk);
      [exact Hnb | exact Hnd' | exact Hlen' | exact Hval1 | exact Hfs
      | intros n Hn; apply snapshot_length; assumption |].
    fold nvel in Hblk. rewrite Hini. cbn [mbind result_bind].
    eexists. split; [reflexivity|]. simpl.
    split; [split; [exact Hlen' | split; assumption]|].
    intros i n Hi Hn. rewrite decide_True by lia. rewrite Hblk by assumption.
    destruct (decide (i = 0%nat)); [apply Hnew, Hn | reflexivity].
  - cbn [mbind result_bind]. eexists. split; [reflexivity|]. simpl.
    split; [split; [exact Hlen' | split; assumption]|].
    intros i n Hi Hn. rewrite Hshift by assumption.
    destruct (decide (i = 0%nat)), (decide (i = 0 \/ nstep = 0)%nat);
      try reflexivity; lia.
Qed.

Lemma save_sequence_shift `{!Collaborators} (cfg : Config) (nstep : nat)
    (states : list (list Field)) (s : Solver) (nblocks npts : nat) :
  let nvel := length (m_velocity cfg) in
  (forall ws c out, length (BwdTrans ws c out) = length out) ->
  (1 <= nvel)%nat -> (1 <= nblocks)%nat -> (1 <= nstep)%nat ->
  history_wf nvel nblocks npts (m_previousVelFields s) (m_store s) ->
  Forall (velocity_wf cfg npts) states ->
  exists s', save_sequence cfg nstep states s = Ok s' /\
    history_wf nvel nblocks npts (m_previousVelFields s') (m_store s') /\
    forall i n, (i < nblocks)%nat -> (n < nvel)%nat ->
      (forall fields, states !! (length states - 1 - i)%nat = Some fields ->
         (i < length states)%nat ->
         history_block (m_previousVelFields s') (m_store s') (i * nvel + n)
         = Ok (snapshot cfg fields n)) /\
      ((length states <= i)%nat ->
         history_block (m_previousVelFields s') (m_store s') (i * nvel + n)
         = history_block (m_previousVelFields s) (m_store s)
             ((i - length states) * nvel + n)).
Proof.
  intros nvel HB Hnv Hnb Hns Hwf Hall. subst nvel. revert nstep s Hns Hwf.
  induction Hall as [|fields rest Hf _ IH]; intros nstep s Hns Hwf.
  - exists s. split; [reflexivity|]. split; [exact Hwf|].
    intros i n Hi Hn. split; [simpl; intros; lia|].
    intros _. simpl. rewrite Nat.sub_0_r. reflexivity.
  - destruct (SubStepSaveFields_spec cfg nstep (set_fields fields s) nblocks npts
                HB Hnv Hnb Hwf Hf) as (s1 & Hrun1 & Hwf1 & Hb1).
    cbv zeta in Hb1.
    destruct (IH (S nstep) s1 ltac:(lia) Hwf1) as (s' & Hrun & Hwf' & Hb').
    exists s'. split; [simpl; rewrite Hrun1; exact Hrun|]. split; [exact Hwf'|].
    intros i n Hi Hn. destruct (Hb' i n Hi Hn) as [Hlt Hge]. simpl length. split.
    + intros fj Hfj Hik.
      destruct (decide (i < length rest)%nat) as [Hir|Hir].
      * apply Hlt; [|exact Hir].
        replace (S (length rest) - 1 - i)%nat with (S (length rest - 1 - i)) in Hfj by lia.
        exact Hfj.
      * assert (i = length rest) as -> by lia.
        replace (S (length rest) - 1 - length rest)%nat with 0%nat in Hfj by lia.
        simpl in Hfj. injection Hfj as <-.
        rewrite Hge by lia. rewrite Nat.sub_diag. simpl.
        specialize (Hb1 0%nat n ltac:(lia) Hn). simpl in Hb1. exact Hb1.
    + intros Hik. rewrite Hge by lia.
      specialize (Hb1 (i - length rest)%nat n ltac:(lia) Hn).
      rewrite Hb1. rewrite decide_False by lia.
      simpl. do 2 f_equal. lia.
Qed.

(** C5: [SubStepSaveFields] rotates the history so that the newest snapshot
    occupies slot 0 and every older entry moves one slot up, and on step
    index 0 it replicates that first snapshot into all [L = nblocks] slots.
    Therefore, for saves numbered 1 to [k] starting at step index 0, slot
    [i] holds the snapshot of save [k − i], the one taken [i] saves before
    the latest (save 1 where [k − i] would drop below 1): after the first
    save all slots equal that snapshot, and after [k >= L] saves slot [i]
    holds the snapshot of save [k − i].  The handles in
    [m_previousVelFields] never share storage. *)
Theorem C5_history_buffer `{!Collaborators} (cfg : Config) (s : Solver)
    (states : list (list Field)) (nblocks npts : nat) :
  let nvel := length (m_velocity cfg) in
  (forall ws c out, length (BwdTrans ws c out) = length out) ->
  (1 <= nvel)%nat -> (1 <= nblocks)%nat ->
  history_wf nvel nblocks npts (m_previousVelFields s) (m_store s) ->
  Forall (velocity_wf cfg npts) states ->
  (forall fields nstep, fields ∈ states ->
     exists s', SubStepSaveFields cfg nstep (set_fields fields s) = Ok s' /\
       forall i n, (i < nblocks)%nat -> (n < nvel)%nat ->
         history_block (m_previousVelFields s') (m_store s') (i * nvel + n) =
         if decide (i = 0 \/ nstep = 0)%nat then Ok (snapshot cfg fields n)
         else history_block (m_previousVelFields s) (m_store s)
                ((i - 1) * nvel + n))
  /\ (states <> [] ->
      exists s', save_sequence cfg 0 states s = Ok s' /\
        forall i n fields, (i < nblocks)%nat -> (n < nvel)%nat ->
          states !! (length states - 1 - i)%nat = Some fields ->
          history_block (m_previousVelFields s') (m_store s') (i * nvel + n)
          = Ok (snapshot cfg fields n)).
Proof.
  intros nvel HB Hnv Hnb Hwf Hall. subst nvel. split.
  - intros fields nstep Hin.
    assert (Hf : velocity_wf cfg npts fields).
    { rewrite Forall_forall in Hall. apply Hall, Hin. }
    destruct (SubStepSaveFields_spec cfg nstep (set_fields fields s) nblocks npts
                HB Hnv Hnb Hwf Hf) as (s' & Hrun & _ & Hb).
    exists s'. split; [exact Hrun | exact Hb].
  - intros Hne. destruct Hall as [|first rest Hf Hrest]; [congruence|].
    destruct (SubStepSaveFields_spec cfg 0 (set_fields first s) nblocks npts
                HB Hnv Hnb Hwf Hf) as (s1 & Hrun1 & Hwf1 & Hb1).
    cbv zeta in Hb1.
    destruct (save_sequence_shift cfg 1 rest s1 nblocks npts HB Hnv Hnb
                ltac:(lia) Hwf1 Hrest) as (s' & Hrun & _ & Hb).
    cbv zeta in Hb.
    exists s'. split; [simpl; rewrite Hrun1; exact Hrun|].
    intros i n fields Hi Hn Hfields. simpl length in Hfields.
    destruct (Hb i n Hi Hn) as [Hlt Hge].
    destruct (decide (i < length rest)%nat) as [Hir|Hir].
    + apply Hlt; [|exact Hir].
      replace (S (length rest) - 1 - i)%nat with (S (length rest - 1 - i))
        in Hfields by lia.
      exact Hfields.
    + replace (S (length rest) - 1 - i)%nat with 0%nat in Hfields by lia.
      simpl in Hfields. injection Hfields as <-.
      rewrite Hge by lia. rewrite Hb1 by (assumption || lia).
      rewrite decide_True by lia. reflexivity.
Qed.

Section SaveExamples.
#[local] Existing Instance nodal_collaborators.

Lemma copy_over_length (x out : list Q) : length (copy_over x out) = length out.
Proof.
  unfold copy_over. rewrite length_app, length_take, length_drop. lia.
Qed.

Example history_after_four_saves :
  exists s', save_sequence history_config 0 history_states history_solver = Ok s' /\
    history_block (m_previousVelFields s') (m_store s') 0 = Ok [4; 4]%Q /\
    history_block (m_previousVelFields s') (m_store s') 1 = Ok [3; 3]%Q /\
    history_block (m_previousVelFields s') (m_store s') 2 = Ok [2; 2]%Q.
Proof. eexists. split; [vm_compute; reflexivity|]. repeat split. Qed.

Example history_after_first_save :
  exists s',
    save_sequence history_config 0 [[constant_field 1]] history_solver = Ok s' /\
    history_block (m_previousVelFields s') (m_store s') 0 = Ok [1; 1]%Q /\
    history_block (m_previousVelFields s') (m_store s') 1 = Ok [1; 1]%Q /\
    history_block (m_previousVelFields s') (m_store s') 2 = Ok [1; 1]%Q.
Proof. eexists. split; [vm_compute; reflexivity|]. repeat split. Qed.

Lemma history_solver_wf :
  history_wf 1 3 2 (m_previousVelFields history_solver) (m_store history_solver).
Proof.
  split; [reflexivity|]. split.
  - apply (bool_decide_unpack _). vm_compute. exact I.
  - intros h Hh. simpl in Hh.
    repeat (apply elem_of_cons in Hh as [->|Hh];
            [eexists; split; reflexivity|]).
    apply elem_of_nil in Hh. destruct Hh.
Qed.

Lemma history_states_wf : Forall (velocity_wf history_config 2) history_states.
Proof.
  unfold history_states.
  assert (Hwf : forall c, velocity_wf history_config 2 [constant_field c]).
  { intros c. split; [eexists; split; reflexivity|].
    split; [apply NoDup_singleton|].
    intros v Hv. apply list_elem_of_singleton in Hv as ->.
    eexists. split; reflexivity. }
  unfold history_states. repeat (constructor; [apply Hwf|]). constructor.
Qed.

Lemma C5_history_buffer_witness :
  (forall fields nstep, fields ∈ history_states ->
     exists s',
       SubStepSaveFields history_config nstep (set_fields fields history_solver)
       = Ok s' /\
       forall i n, (i < 3)%nat -> (n < 1)%nat ->
         history_block (m_previousVelFields s') (m_store s') (i * 1 + n) =
         if decide (i = 0 \/ nstep = 0)%nat
         then Ok (snapshot history_config fields n)
         else history_block (m_previousVelFields history_solver)
                (m_store history_solver) ((i - 1) * 1 + n))
  /\ (history_states <> [] ->
      exists s', save_sequence history_config 0 history_states history_solver
                 = Ok s' /\
        forall i n fields, (i < 3)%nat -> (n < 1)%nat ->
          history_states !! (length history_states - 1 - i)%nat = Some fields ->
          history_block (m_previousVelFields s') (m_store s') (i * 1 + n)
          = Ok (snapshot history_config fields n)).
Proof.
  apply (C5_history_buffer history_config history_solver history_states 3 2).
  - intros ws c out. apply copy_over_length.
  - simpl. lia.
  - lia.
  - exact history_solver_wf.
  - exact history_states_wf.
Defined.
End SaveExamples.

(** ** Stable-step estimator *)

Lemma not_fatal_Ok {A} (a : A) : not_fatal (Ok a).
Proof. intros msg. discriminate. Qed.

Lemma not_fatal_Undefined {A} : not_fatal (@Undefined A).
Proof. intros msg. discriminate. Qed.

Lemma not_fatal_bind {A B} (r : result A) (k : A -> result B) :
  not_fatal r -> (forall a, not_fatal (k a)) -> not_fatal (r ≫= k).
Proof.
  intros Hr Hk msg. destruct r as [a|m|]; simpl.
  - apply Hk.
  - destruct (Hr m). reflexivity.
  - discriminate.
Qed.

Lemma not_fatal_rd {A} (a : list A) (i : nat) : not_fatal (rd a i).
Proof. intros msg. unfold rd. destruct (a !! i); discriminate. Qed.

Lemma not_fatal_wr {A} (a : list A) (i : nat) (x : A) : not_fatal (wr a i x).
Proof. intros msg. unfold wr. case_decide; discriminate. Qed.

Lemma not_fatal_rd2 {A} (a : list (list A)) (i j : nat) : not_fatal (rd2 a i j).
Proof.
  unfold rd2. apply not_fatal_bind; [apply not_fatal_rd|].
  intros row. apply not_fatal_rd.
Qed.

Lemma not_fatal_wr2 {A} (a : list (list A)) (i j : nat) (x : A) :
  not_fatal (wr2 a i j x).
Proof.
  unfold wr2. apply not_fatal_bind; [apply not_fatal_rd|]. intros row.
  apply not_fatal_bind; [apply not_fatal_wr|]. intros row'. apply not_fatal_wr.
Qed.

Lemma not_fatal_for_each {St} (ix : list nat) (body : nat -> St -> result St)
    (s : St) :
  (forall i s, not_fatal (body i s)) -> not_fatal (for_each ix body s).
Proof.
  intros Hbody. revert s. induction ix as [|i ix IH]; intros s; simpl.
  - apply not_fatal_Ok.
  - apply not_fatal_bind; [apply Hbody | exact IH].
Qed.

Ltac no_fatal :=
  repeat first
    [ apply not_fatal_Ok | apply not_fatal_Undefined
    | apply not_fatal_rd | apply not_fatal_wr
    | apply not_fatal_rd2 | apply not_fatal_wr2
    | apply not_fatal_for_each; intros ? ?
    | apply not_fatal_bind; [|intros ?]
    | case_decide
    | match goal with |- not_fatal (if ?b then _ else _) => destruct b end
    | match goal with |- not_fatal (let '(_, _) := ?x in _) => destruct x end ].

Lemma not_fatal_std_velocity_element `{!Collaborators} (nvel : nat)
    (elements : list Element) (inarray : list (list Q)) (el : nat)
    (st : list (list Q) * list Q) :
  not_fatal (std_velocity_element nvel elements inarray el st).
Proof.
  unfold std_velocity_element, std_velocity_2D, std_velocity_3D, keep_max.
  destruct st as [stdVelocity stdV]. no_fatal.
Qed.

Lemma GetStdVelocity_1D `{!Collaborators} (cfg : Config) (fields : list Field)
    (inarray : list (list Q)) :
  (m_expdim cfg < 2)%nat ->
  GetStdVelocity cfg fields inarray = Fatal "Method not implemented for 1D".
Proof.
  intros H1. unfold GetStdVelocity. rewrite bool_decide_eq_false_2 by lia.
  reflexivity.
Qed.

Lemma GetStdVelocity_not_fatal `{!Collaborators} (cfg : Config)
    (fields : list Field) (inarray : list (list Q)) :
  (2 <= m_expdim cfg)%nat -> not_fatal (GetStdVelocity cfg fields inarray).
Proof.
  intros H2. unfold GetStdVelocity. rewrite bool_decide_eq_true_2 by lia.
  apply not_fatal_bind; [apply not_fatal_rd|]. intros f0.
  apply not_fatal_bind.
  - apply not_fatal_for_each. intros el st. apply not_fatal_std_velocity_element.
  - intros [sv stdV]. apply not_fatal_Ok.
Qed.

Lemma rd2_Ok {A} (a : list (list A)) (i j : nat) (row : list A) :
  a !! i = Some row -> (j < length row)%nat -> exists x, rd2 a i j = Ok x.
Proof.
  intros Hrow Hj. unfold rd2. rewrite (proj2 (rd_Ok _ _ _) Hrow). simpl.
  destruct (rd_lt row j Hj) as (x & Hx & _). exists x. exact Hx.
Qed.

Lemma table_shape_lookup {A} (n m : nat) (a : list (list A)) (i : nat) :
  table_shape n m a -> (i < n)%nat ->
  exists row, a !! i = Some row /\ length row = m.
Proof.
  intros [Hn Hm] Hi.
  destruct (lookup_lt_is_Some_2 a i ltac:(lia)) as [row Hrow].
  exists row. split; [exact Hrow|].
  rewrite Forall_forall in Hm. apply Hm, list_elem_of_lookup. eauto.
Qed.

Lemma table_shape_rd2 {A} (n m : nat) (a : list (list A)) (i j : nat) :
  table_shape n m a -> (i < n)%nat -> (j < m)%nat -> exists x, rd2 a i j = Ok x.
Proof.
  intros Hs Hi Hj. destruct (table_shape_lookup n m a i Hs Hi) as (row & Hrow & Hlen).
  apply (rd2_Ok a i j row Hrow). lia.
Qed.

Lemma table_shape_wr2 {A} (n m : nat) (a : list (list A)) (i j : nat) (x : A) :
  table_shape n m a -> (i < n)%nat -> (j < m)%nat ->
  exists a', wr2 a i j x = Ok a' /\ table_shape n m a'.
Proof.
  intros Hs Hi Hj. destruct (table_shape_lookup n m a i Hs Hi) as (row & Hrow & Hlen).
  destruct Hs as [Hn Hm]. unfold wr2.
  rewrite (proj2 (rd_Ok _ _ _) Hrow). simpl.
  rewrite wr_lt by lia. simpl. rewrite wr_lt by lia.
  eexists. split; [reflexivity|]. split; [rewrite length_insert; exact Hn|].
  apply Forall_insert; [exact Hm|]. rewrite length_insert. exact Hlen.
Qed.

Lemma table_shape_replicate {A} (n m : nat) (x : A) :
  table_shape n m (replicate n (replicate m x)).
Proof.
  split; [apply length_replicate|].
  apply Forall_replicate. apply length_replicate.
Qed.

Lemma keep_max_Ok (el : nat) (v : Q) (stdV : list Q) :
  (el < length stdV)%nat ->
  exists stdV', keep_max el v stdV = Ok stdV' /\ length stdV' = length stdV.
Proof.
  intros Hel. unfold keep_max.
  destruct (rd_lt stdV el Hel) as (cur & Hrd & _). rewrite Hrd. simpl.
  destruct (Qltb cur v).
  - rewrite wr_lt by exact Hel. eexists. split; [reflexivity|]. apply length_insert.
  - eexists. split; reflexivity.
Qed.

Lemma std_dim_le (nvel : nat) :
  (nvel = 2 \/ 3 <= nvel)%nat -> (std_dim nvel <= nvel)%nat.
Proof. intros H. unfold std_dim. case_decide; lia. Qed.

Lemma element_wf_gmat (nvel nTot : nat) (inarray : list (list Q)) (e : Element)
    (r i : nat) :
  element_wf nvel nTot inarray e ->
  (r < std_dim nvel * std_dim nvel)%nat -> (i < el_TotPoints e)%nat ->
  exists x, rd2 (el_Gmat e) r
              (if bool_decide (el_Gtype e = eDeformed) then i else 0%nat) = Ok x.
Proof.
  intros (_ & _ & Hg) Hr Hi. destruct (Hg r Hr) as (row & Hrow & H1 & Hdef).
  apply (rd2_Ok _ _ _ row Hrow). case_bool_decide as Hd; [|lia].
  specialize (Hdef Hd). lia.
Qed.

Lemma element_wf_inarray (nvel nTot : nat) (inarray : list (list Q)) (e : Element)
    (c i : nat) :
  nvel = length inarray -> (nvel = 2 \/ 3 <= nvel)%nat ->
  element_wf nvel nTot inarray e ->
  (c < std_dim nvel)%nat -> (i < el_TotPoints e)%nat ->
  exists x, rd2 inarray c i = Ok x.
Proof.
  intros Hnvel Hdim (_ & Hu & _) Hc Hi.
  pose proof (std_dim_le nvel Hdim) as Hle.
  destruct (lookup_lt_is_Some_2 inarray c ltac:(lia)) as [row Hrow].
  apply (rd2_Ok _ _ _ row Hrow). specialize (Hu c row Hc Hrow). lia.
Qed.

Ltac run H := destruct H as [? ->]; cbn [mbind result_bind].

Lemma std_velocity_element_Ok `{!Collaborators} (nvel nTot n_element : nat)
    (elements : list Element) (inarray : list (list Q)) (el : nat) (e : Element)
    (stdVelocity : list (list Q)) (stdV : list Q) :
  nvel = length inarray -> (nvel = 2 \/ 3 <= nvel)%nat ->
  elements !! el = Some e -> element_wf nvel nTot inarray e ->
  table_shape nvel nTot stdVelocity ->
  length stdV = n_element -> (el < n_element)%nat ->
  exists stdVelocity' stdV',
    std_velocity_element nvel elements inarray el (stdVelocity, stdV)
    = Ok (stdVelocity', stdV') /\
    table_shape nvel nTot stdVelocity' /\ length stdV' = n_element.
Proof.
  intros Hnvel Hdim He Hwf Hshape HstdV Hel.
  pose proof Hwf as (HnTot & _ & _).
  pose proof (std_dim_le nvel Hdim) as Hdle.
  unfold std_velocity_element. rewrite (proj2 (rd_Ok _ _ _) He).
  cbn [mbind result_bind].
  cbv zeta.
  match goal with |- context [for_each (upto 0 ?n) ?body stdVelocity] =>
    destruct (for_each_upto (fun _ sv => table_shape nvel nTot sv) 0 n body
                stdVelocity) as (sv & Hrun1 & Hsv)
  end; [lia | exact Hshape | |].
  { intros i sv0 [_ Hi] Hsv0. cbv beta.
    assert (Hg : forall r, (r < std_dim nvel * std_dim nvel)%nat ->
      exists x, rd2 (el_Gmat e) r
        (if bool_decide (el_Gtype e = eDeformed) then i else 0%nat) = Ok x)
      by (intros r Hr; eapply element_wf_gmat; eassumption).
    assert (Hu : forall c, (c < std_dim nvel)%nat -> exists x, rd2 inarray c i = Ok x)
      by (intros c Hc; eapply element_wf_inarray; eassumption).
    assert (Hw : forall c (x : Q) (sv1 : list (list Q)),
      (c < std_dim nvel)%nat -> table_shape nvel nTot sv1 ->
      exists sv2, wr2 sv1 c i x = Ok sv2 /\ table_shape nvel nTot sv2)
      by (intros c x sv1 Hc Hs1; apply table_shape_wr2; [exact Hs1 | lia | lia]).
    unfold std_dim in Hg, Hu, Hw. destruct (decide (nvel = 2%nat)) as [E|E].
    - unfold std_velocity_2D.
      run (Hg 0%nat ltac:(lia)). run (Hu 0%nat ltac:(lia)).
      run (Hg 2%nat ltac:(lia)). run (Hu 1%nat ltac:(lia)).
      match goal with |- context [wr2 sv0 0 i ?v] =>
        destruct (Hw 0%nat v sv0 ltac:(lia) Hsv0) as (sv1 & -> & Hsv1) end.
      cbn [mbind result_bind].
      run (Hg 1%nat ltac:(lia)). run (Hg 3%nat ltac:(lia)).
      apply Hw; [lia | exact Hsv1].
    - unfold std_velocity_3D.
      run (Hg 0%nat ltac:(lia)). run (Hu 0%nat ltac:(lia)).
      run (Hg 3%nat ltac:(lia)). run (Hu 1%nat ltac:(lia)).
      run (Hg 6%nat ltac:(lia)). run (Hu 2%nat ltac:(lia)).
      match goal with |- context [wr2 sv0 0 i ?v] =>
        destruct (Hw 0%nat v sv0 ltac:(lia) Hsv0) as (sv1 & -> & Hsv1) end.
      cbn [mbind result_bind].
      run (Hg 1%nat ltac:(lia)). run (Hg 4%nat ltac:(lia)). run (Hg 7%nat ltac:(lia)).
      match goal with |- context [wr2 sv1 1 i ?v] =>
        destruct (Hw 1%nat v sv1 ltac:(lia) Hsv1) as (sv2 & -> & Hsv2) end.
      cbn [mbind result_bind].
      run (Hg 2%nat ltac:(lia)). run (Hg 5%nat ltac:(lia)). run (Hg 8%nat ltac:(lia)).
      apply Hw; [lia | exact Hsv2]. }
  rewrite Hrun1. cbn [mbind result_bind].
  match goal with |- context [for_each (upto 0 ?n) ?body stdV] =>
    destruct (for_each_upto (fun _ v => length v = n_element) 0 n body stdV)
      as (stdV' & Hrun2 & HstdV')
  end; [lia | exact HstdV | |].
  { intros i v [_ Hi] Hv. cbv beta.
    assert (Hs : forall c, (c < std_dim nvel)%nat -> exists x, rd2 sv c i = Ok x)
      by (intros c Hc; eapply table_shape_rd2; [exact Hsv | lia | lia]).
    unfold std_dim in Hs.
    destruct (decide (nvel = 2%nat)) as [E|E].
    - run (Hs 0%nat ltac:(lia)). run (Hs 1%nat ltac:(lia)).
      match goal with |- context [keep_max el ?w v] =>
        destruct (keep_max_Ok el w v ltac:(lia)) as (v' & -> & Hv') end.
      eexists. split; [reflexivity | lia].
    - run (Hs 0%nat ltac:(lia)). run (Hs 1%nat ltac:(lia)). run (Hs 2%nat ltac:(lia)).
      match goal with |- context [keep_max el ?w v] =>
        destruct (keep_max_Ok el w v ltac:(lia)) as (v' & -> & Hv') end.
      eexists. split; [reflexivity | lia]. }
  rewrite Hrun2. cbn [mbind result_bind].
  exists sv, stdV'. split; [reflexivity|]. split; assumption.
Qed.

Lemma GetStdVelocity_Ok `{!Collaborators} (cfg : Config) (fields : list Field)
    (inarray : list (list Q)) :
  (2 <= m_expdim cfg)%nat -> estimator_wf cfg fields inarray ->
  exists stdV, GetStdVelocity cfg fields inarray = Ok stdV /\
    length stdV = length (m_exp cfg).
Proof.
  intros H2 (f0 & Hf0 & Hdim & Hall). unfold GetStdVelocity.
  rewrite bool_decide_eq_true_2 by lia.
  rewrite (proj2 (rd_Ok _ _ _) Hf0). cbn [mbind result_bind].
  destruct (for_each_upto
    (fun _ (st : list (list Q) * list Q) =>
       table_shape (length inarray) (GetTotPoints f0) st.1 /\
       length st.2 = length (m_exp cfg))
    0 (length (m_exp cfg))
    (std_velocity_element (length inarray) (m_exp cfg) inarray)
    (replicate (length inarray) (replicate (GetTotPoints f0) 0%Q),
     replicate (length (m_exp cfg)) 0%Q))
    as ([sv stdV] & Hrun & _ & HstdV).
  - lia.
  - split; [apply table_shape_replicate | apply length_replicate].
  - intros el [sv stdV] [_ Hel] [Hsv HstdV]. cbn [fst snd] in *.
    destruct (lookup_lt_is_Some_2 (m_exp cfg) el Hel) as [e He].
    destruct (std_velocity_element_Ok (length inarray) (GetTotPoints f0)
                (length (m_exp cfg)) (m_exp cfg) inarray el e sv stdV)
      as (sv' & stdV' & Hrun & Hsv' & HstdV'); try assumption; try reflexivity.
    { rewrite Forall_forall in Hall. apply Hall, list_elem_of_lookup. eauto. }
    eexists. split; [exact Hrun|]. split; assumption.
  - rewrite Hrun. cbn [mbind result_bind fst snd] in *.
    exists stdV. split; [reflexivity | exact HstdV].
Qed.

Lemma velocity_arrays_Ok (velocity : list nat) (fields : list Field) :
  (forall v, v ∈ velocity -> exists f, fields !! v = Some f) ->
  exists velfields,
    for_each (upto 0 (length velocity)) (λ i velfields,
      v ← rd velocity i;
      f ← rd fields v;
      wr velfields i (m_phys f)) (replicate (length velocity) []) = Ok velfields /\
    length velfields = length velocity.
Proof.
  intros Hvel.
  apply (for_each_upto (fun _ (vf : list (list Q)) => length vf = length velocity));
    [lia | apply length_replicate |].
  intros i vf [_ Hi] Hvf.
  destruct (rd_lt velocity i Hi) as (v & -> & Hv). cbn [mbind result_bind].
  destruct (Hvel v) as (f & Hf); [apply list_elem_of_lookup; eauto|].
  rewrite (proj2 (rd_Ok _ _ _) Hf). cbn [mbind result_bind].
  rewrite wr_lt by lia. eexists. split; [reflexivity|].
  rewrite length_insert. exact Hvf.
Qed.

(** C8: the stable-step estimation aborts with the fatal assertion
    "Method not implemented for 1D" whenever the expansion dimension is
    below 2, whatever the velocity ([GetStdVelocity], and through it
    [GetSubstepTimeStep]); with an expansion dimension of at least 2 that
    assertion cannot fail, and on every well-formed input (two or three
    velocity components, elements whose points and geometric factors fit
    the arrays) the per-element computation runs to completion and returns
    one value per element. *)
Theorem C8_stable_step_dimension `{!Collaborators} (cfg : Config)
    (fields : list Field) :
  ((m_expdim cfg < 2)%nat ->
     (forall inarray,
        GetStdVelocity cfg fields inarray = Fatal "Method not implemented for 1D")
     /\ ((forall v, v ∈ m_velocity cfg -> exists f, fields !! v = Some f) ->
         GetSubstepTimeStep cfg fields = Fatal "Method not implemented for 1D"))
  /\ ((2 <= m_expdim cfg)%nat ->
      forall inarray,
        not_fatal (GetStdVelocity cfg fields inarray)
        /\ (estimator_wf cfg fields inarray ->
            exists stdV, GetStdVelocity cfg fields inarray = Ok stdV /\
              length stdV = length (m_exp cfg))).
Proof.
  split.
  - intros H1. split; [intros inarray; apply GetStdVelocity_1D, H1|].
    intros Hvel. unfold GetSubstepTimeStep.
    destruct (velocity_arrays_Ok _ _ Hvel) as (vf & -> & _).
    cbn [mbind result_bind]. rewrite GetStdVelocity_1D by exact H1. reflexivity.
  - intros H2 inarray. split; [apply GetStdVelocity_not_fatal, H2|].
    apply GetStdVelocity_Ok, H2.
Qed.

Lemma element_tstep_order (cfl stdVelocity : Q) (p1 p2 : Z) :
  (1 < p1)%Z -> (1 < p2)%Z -> ~ (stdVelocity == 0)%Q ->
  (element_tstep cfl stdVelocity p2 ==
   element_tstep cfl stdVelocity p1
   * ((inject_Z (p1 - 1) / inject_Z (p2 - 1))
      * (inject_Z (p1 - 1) / inject_Z (p2 - 1))))%Q.
Proof.
  intros H1 H2 Hsv. unfold element_tstep, cLambda.
  assert (Hp1 : ~ (inject_Z (p1 - 1) == 0)%Q).
  { intros E. apply (proj1 (inject_Z_injective _ 0)) in E. lia. }
  assert (Hp2 : ~ (inject_Z (p2 - 1) == 0)%Q).
  { intros E. apply (proj1 (inject_Z_injective _ 0)) in E. lia. }
  field. repeat split; assumption.
Qed.

Section EstimatorExamples.
#[local] Existing Instance nodal_collaborators.

Lemma cfl_velocity_wf : estimator_wf (cfl_config 2) cfl_fields cfl_velocity.
Proof.
  eexists. split; [reflexivity|]. split; [left; reflexivity|].
  assert (Hwf : element_wf 2 2 cfl_velocity unit_element).
  { split; [simpl; lia|]. split.
    - intros c row Hc Hrow. change (std_dim 2) with 2%nat in Hc.
      destruct c as [|[|c]]; [| |lia]; injection Hrow as <-; simpl; lia.
    - intros r Hr. change (std_dim 2 * std_dim 2)%nat with 4%nat in Hr.
      destruct r as [|[|[|[|r]]]]; [| | | |lia];
        (eexists; split; [reflexivity|]; split; [simpl; lia | discriminate]). }
  repeat (constructor; [exact Hwf|]). constructor.
Qed.

Lemma C8_stable_step_dimension_witness :
  GetStdVelocity (cfl_config 1) cfl_fields cfl_velocity
  = Fatal "Method not implemented for 1D"
  /\ GetSubstepTimeStep (cfl_config 1) cfl_fields
     = Fatal "Method not implemented for 1D"
  /\ exists stdV, GetStdVelocity (cfl_config 2) cfl_fields cfl_velocity = Ok stdV /\
       length stdV = 2%nat.
Proof.
  split; [|split].
  - apply (C8_stable_step_dimension (cfl_config 1) cfl_fields). simpl. lia.
  - apply (C8_stable_step_dimension (cfl_config 1) cfl_fields); [simpl; lia|].
    intros v Hv. simpl in Hv.
    repeat (apply elem_of_cons in Hv as [->|Hv]; [eexists; reflexivity|]).
    apply elem_of_nil in Hv. destruct Hv.
  - apply (C8_stable_step_dimension (cfl_config 2) cfl_fields); [simpl; lia|].
    exact cfl_velocity_wf.
Defined.

(** C6, evaluated where it fails: on two one-point elements with velocity
    [(1, 0)] and [(2, 0)] the estimator takes the speed of both elements
    from the first point of the global array, [stdVelocity = [1; 1]] where
    the per-element maxima are [[1; 2]], and returns the stable step 5/4
    where the minimum over the elements is 5/8. *)
Theorem C6_missing_element_offset :
  GetStdVelocity (cfl_config 2) cfl_fields cfl_velocity = Ok [1; 1]%Q
  /\ spec_stdVelocity_2D (m_exp (cfl_config 2)) cfl_velocity 0 = Ok [1; 2]%Q
  /\ exists code spec,
       GetSubstepTimeStep (cfl_config 2) cfl_fields = Ok (Val code) /\
       spec_stable_step_2D (cfl_config 2) cfl_velocity = Ok (Val spec) /\
       (code == 5 # 4)%Q /\ (spec == 5 # 8)%Q /\ ~ (code == spec)%Q.
Proof.
  split; [vm_compute; reflexivity|]. split; [vm_compute; reflexivity|].
  eexists. eexists. split; [vm_compute; reflexivity|].
  split; [vm_compute; reflexivity|]. split; [reflexivity|].
  split; [reflexivity|]. discriminate.
Qed.
End EstimatorExamples.

(** ** The statics through one pass of the time loop *)

Ltac inv_bind H :=
  let a := fresh "a" in let E := fresh "E" in
  apply bind_Ok in H as (a & E & H).

Lemma sub_step_statics {C : Collaborators} (cfg : Config) (n : nat)
    (st st' : Statics) (s s' : Solver) (sub : option (nat * Z)) :
  sub_step cfg n st s = Ok (st', s', sub) ->
  nchk st' = nchk st /\ previousL2 st' = previousL2 st /\
  if m_subSteppingScheme cfg
  then (exists nsub, sub = Some (Nat.min (ncalls st) (m_intSteps cfg), nsub))
       /\ ncalls st' = S (ncalls st)
  else sub = None /\ ncalls st' = ncalls st.
Proof.
  unfold sub_step. intros H. destruct (m_subSteppingScheme cfg).
  - inv_bind H. inv_bind H. destruct a0 as [[st1 s1] info].
    injection H as <- <- <-.
    unfold SubStepAdvance in E0. inv_bind E0. inv_bind E0. inv_bind E0.
    injection E0 as <- <- <-. simpl.
    split; [reflexivity|]. split; [reflexivity|]. split; [eexists|]; reflexivity.
  - injection H as <- <- <-. repeat split.
Qed.

Lemma write_checkpoint_statics {C : Collaborators} (cfg : Config) (n : nat)
    (fields : list (list Q)) (st st' : Statics) (s s' : Solver)
    (chk : option (nat * list Field)) :
  write_checkpoint cfg n fields st s = Ok (st', s', chk) ->
  ncalls st' = ncalls st /\ previousL2 st' = previousL2 st /\
  if checkpoint_due cfg n
  then (exists dumped, chk = Some (S (nchk st), dumped)) /\ nchk st' = S (nchk st)
  else chk = None /\ nchk st' = nchk st.
Proof.
  unfold write_checkpoint. intros H. destruct (checkpoint_due cfg n).
  - destruct (decide (m_HomogeneousType cfg = eHomogeneous1D)).
    + injection H as <- <- <-. simpl. repeat split. eexists. reflexivity.
    + inv_bind H. injection H as <- <- <-. simpl. repeat split. eexists. reflexivity.
  - injection H as <- <- <-. repeat split.
Qed.

Lemma check_steady_statics (cfg : Config) (n : nat) (fields : list Field)
    (st st' : Statics) (steady : option SteadyLog) :
  check_steady cfg n fields st = Ok (st', steady) ->
  nchk st' = nchk st /\ ncalls st' = ncalls st /\
  if steady_due cfg n
  then exists r, steady = Some r /\
         steady_converged r =
           steady_verdict (steady_ncoeffs r) (m_steadyStateTol cfg)
                   (steady_L2 r) (previousL2 st) /\
         previousL2 st' = steady_L2 r
  else steady = None /\ previousL2 st' = previousL2 st.
Proof.
  unfold check_steady. intros H. destruct (steady_due cfg n).
  - inv_bind H. inv_bind H. destruct a0 as [b st1]. injection H as <- <-.
    unfold CalcSteadyState in E0. inv_bind E0. inv_bind E0.
    injection E0 as <- <-. simpl.
    assert (a0 = a) as -> by congruence.
    repeat split. eexists. split; [reflexivity|]. simpl. split; reflexivity.
  - injection H as <- <-. repeat split.
Qed.

(** What one pass of the loop does to the statics, and what it logs. *)
Lemma outer_step_statics {C : Collaborators} (cfg : Config) (n : nat)
    (st st' : Statics) (s s' : Solver) (fields fields' : list (list Q))
    (log : StepLog) (stop : bool) :
  outer_step cfg n (st, s, fields) = Ok (st', s', fields', log, stop) ->
  stop = converged log
  /\ (if checkpoint_due cfg n
      then (exists dumped, log_checkpoint log = Some (S (nchk st), dumped))
           /\ nchk st' = S (nchk st)
      else log_checkpoint log = None /\ nchk st' = nchk st)
  /\ (if m_subSteppingScheme cfg
      then (exists nsub,
              log_substeps log = Some (Nat.min (ncalls st) (m_intSteps cfg), nsub))
           /\ ncalls st' = S (ncalls st)
      else log_substeps log = None /\ ncalls st' = ncalls st)
  /\ (if steady_due cfg n
      then exists r, log_steady log = Some r /\
             steady_converged r =
               steady_verdict (steady_ncoeffs r) (m_steadyStateTol cfg)
                   (steady_L2 r) (previousL2 st) /\
             previousL2 st' = steady_L2 r
      else log_steady log = None /\ previousL2 st' = previousL2 st).
Proof.
  unfold outer_step. intros H.
  inv_bind H. destruct a as [[st1 s1] sub]. apply sub_step_statics in E.
  inv_bind H. inv_bind H.
  destruct (TimeIntegrate _ _ _ _ _) as [[fields1 soln] m_fields1].
  inv_bind H. inv_bind H. destruct a2 as [s2 energy].
  inv_bind H. destruct a2 as [[st2 s3] chk]. apply write_checkpoint_statics in E4.
  inv_bind H. destruct a2 as [st3 steady]. apply check_steady_statics in E5.
  destruct E as (En & Ep & Esub), E4 as (Ec & Ep2 & Echk), E5 as (En3 & Ec3 & Est).
  assert (Hlog : forall filt,
    let log := mkStepLog sub a1 energy chk steady filt in
    (st3, s', fields', log, stop) = (st', s', fields', log, stop) ->
    stop = from_option steady_converged false steady ->
    stop = converged log
    /\ (if checkpoint_due cfg n
        then (exists dumped, log_checkpoint log = Some (S (nchk st), dumped))
             /\ nchk st' = S (nchk st)
        else log_checkpoint log = None /\ nchk st' = nchk st)
    /\ (if m_subSteppingScheme cfg
        then (exists nsub,
                log_substeps log = Some (Nat.min (ncalls st) (m_intSteps cfg), nsub))
             /\ ncalls st' = S (ncalls st)
        else log_substeps log = None /\ ncalls st' = ncalls st)
    /\ (if steady_due cfg n
        then exists r, log_steady log = Some r /\
               steady_converged r =
                 steady_verdict (steady_ncoeffs r) (m_steadyStateTol cfg)
                   (steady_L2 r) (previousL2 st) /\
               previousL2 st' = steady_L2 r
        else log_steady log = None /\ previousL2 st' = previousL2 st)).
  { intros filt lg Heq Hstop. injection Heq as <-. subst lg. simpl.
    split; [unfold converged; simpl; destruct steady; exact Hstop|].
    split; [|split].
    - destruct (checkpoint_due cfg n).
      + destruct Echk as [[d ->] Hn]. split; [exists d; congruence | congruence].
      + destruct Echk as [-> Hn]. split; congruence.
    - destruct (m_subSteppingScheme cfg).
      + destruct Esub as [[ns ->] Hc]. split; [exists ns; reflexivity | congruence].
      + destruct Esub as [-> Hc]. split; congruence.
    - destruct (steady_due cfg n).
      + destruct Est as (r & -> & Hr & Hp). exists r.
        split; [reflexivity|]. split; [|exact Hp]. rewrite Hr, Ep2, Ep. reflexivity.
      + destruct Est as [-> Hp]. split; congruence. }
  destruct (from_option steady_converged false steady) eqn:Hconv.
  - injection H as <- <- <- <- <-. apply (Hlog None); [reflexivity | congruence].
  - inv_bind H. inv_bind H. injection H as <- <- <- <- <-.
    apply (Hlog (Some (m_filters cfg, a3))); [reflexivity | congruence].
Qed.

(** ** The statics through a run of the loop *)

Lemma nints_shift_from (c m a len : nat) :
  (λ j, Nat.min (c + j) m) <$> seq (S a) len
  = (λ j, Nat.min (S c + j) m) <$> seq a len.
Proof.
  revert a. induction len as [|len IH]; intros a; [reflexivity|].
  cbn [seq fmap list_fmap]. rewrite <- (IH (S a)).
  replace (c + S a)%nat with (S c + a)%nat by lia. reflexivity.
Qed.

Lemma nints_shift (c m len : nat) :
  (λ j, Nat.min (c + j) m) <$> seq 1 len
  = (λ j, Nat.min (S c + j) m) <$> seq 0 len.
Proof. apply nints_shift_from. Qed.

(** What a run of the loop does to the statics, and what it logs. *)
Lemma time_loop_statics {C : Collaborators} (cfg : Config) (k n : nat)
    (st st' : Statics) (s s' : Solver) (fields fields' : list (list Q))
    (logs : list StepLog) :
  time_loop cfg k n (st, s, fields) = Ok (st', s', fields', logs) ->
  (length logs <= k)%nat
  /\ (forall j log, logs !! j = Some log ->
        (is_Some (log_checkpoint log) <-> checkpoint_due cfg (n + j) = true)
        /\ (is_Some (log_steady log) <-> steady_due cfg (n + j) = true)
        /\ (converged log = true -> S j = length logs))
  /\ ((length logs < k)%nat -> exists log, last logs = Some log /\ converged log = true)
  /\ checkpoint_numbers logs
     = seq (S (nchk st)) (length (checkpoint_numbers logs))
  /\ nchk st' = (nchk st + length (checkpoint_numbers logs))%nat
  /\ substep_nints logs
     = (λ j, Nat.min (ncalls st + j) (m_intSteps cfg))
       <$> seq 0 (length (substep_nints logs))
  /\ ncalls st' = (ncalls st + length (substep_nints logs))%nat
  /\ steady_chain (m_steadyStateTol cfg) (previousL2 st) (steady_logs logs)
  /\ previousL2 st' = last_L2 (previousL2 st) (steady_logs logs).
Proof.
  revert n st s fields st' s' fields' logs.
  induction k as [|k IH]; intros n st s fields st' s' fields' logs Hrun.
  - simpl in Hrun. injection Hrun as <- <- <- <-. simpl.
    split; [lia|]. split; [intros j log Hj; discriminate|].
    split; [lia|]. repeat split; lia.
  - simpl in Hrun. inv_bind Hrun.
    destruct a as [[[[st1 s1] fields1] log] stop].
    apply (outer_step_statics cfg n st st1 s s1 fields fields1 log stop) in E
      as (Hstop & Hchk & Hsub & Hsteady).
    assert (Hhead :
      (is_Some (log_checkpoint log) <-> checkpoint_due cfg n = true)
      /\ (is_Some (log_steady log) <-> steady_due cfg n = true)).
    { split.
      - destruct (checkpoint_due cfg n).
        + destruct Hchk as [[d ->] _]. split; [reflexivity | eauto].
        + destruct Hchk as [-> _]. split; [intros [? ?]|]; discriminate.
      - destruct (steady_due cfg n).
        + destruct Hsteady as (r & -> & _). split; [reflexivity | eauto].
        + destruct Hsteady as [-> _]. split; [intros [? ?]|]; discriminate. }
    assert (Hnum : forall rest,
      rest = seq (S (nchk st1)) (length rest) ->
      from_option (λ x, x :: rest) rest (fst <$> log_checkpoint log)
      = seq (S (nchk st))
          (length (from_option (λ x, x :: rest) rest (fst <$> log_checkpoint log)))
      /\ (nchk st1 + length rest)%nat =
         (nchk st + length (from_option (λ x, x :: rest) rest
                              (fst <$> log_checkpoint log)))%nat).
    { intros rest Hrest. destruct (checkpoint_due cfg n).
      - destruct Hchk as [[d ->] Hn1]. simpl. rewrite Hn1 in *.
        split; [f_equal; exact Hrest | lia].
      - destruct Hchk as [-> Hn1]. simpl. rewrite Hn1 in *.
        split; [exact Hrest | lia]. }
    assert (Hnint : forall rest,
      rest = (λ j, Nat.min (ncalls st1 + j) (m_intSteps cfg)) <$> seq 0 (length rest) ->
      from_option (λ x, x :: rest) rest (fst <$> log_substeps log)
      = (λ j, Nat.min (ncalls st + j) (m_intSteps cfg))
        <$> seq 0 (length (from_option (λ x, x :: rest) rest
                             (fst <$> log_substeps log)))
      /\ (ncalls st1 + length rest)%nat =
         (ncalls st + length (from_option (λ x, x :: rest) rest
                                (fst <$> log_substeps log)))%nat).
    { intros rest Hrest. destruct (m_subSteppingScheme cfg).
      - destruct Hsub as [[ns ->] Hc1]. simpl. rewrite Hc1 in *.
        split; [|lia]. rewrite Nat.add_0_r. f_equal.
        rewrite nints_shift. exact Hrest.
      - destruct Hsub as [-> Hc1]. simpl. rewrite Hc1 in *.
        split; [exact Hrest | lia]. }
    assert (Hchain : forall rest,
      steady_chain (m_steadyStateTol cfg) (previousL2 st1) rest ->
      steady_chain (m_steadyStateTol cfg) (previousL2 st)
        (from_option (λ r, r :: rest) rest (log_steady log))
      /\ last_L2 (previousL2 st1) rest
         = last_L2 (previousL2 st)
             (from_option (λ r, r :: rest) rest (log_steady log))).
    { intros rest Hrest. destruct (steady_due cfg n).
      - destruct Hsteady as (r & -> & Hr & Hp). simpl. rewrite Hp in *.
        split; [split; assumption | reflexivity].
      - destruct Hsteady as [-> Hp]. simpl. rewrite Hp in *.
        split; [exact Hrest | reflexivity]. }
    assert (Homap : forall {A} (f : StepLog -> option A) (rest : list StepLog),
      omap f (log :: rest) = from_option (λ x, x :: omap f rest) (omap f rest) (f log)).
    { intros A f rest. simpl. destruct (f log); reflexivity. }
    destruct stop.
    + injection Hrun as <- <- <- <-.
      split; [simpl; lia|]. split.
      { intros j lg Hj. destruct j as [|j]; [|discriminate].
        injection Hj as <-. rewrite Nat.add_0_r.
        split; [apply Hhead|]. split; [apply Hhead | reflexivity]. }
      split; [intros _; exists log; split; [reflexivity | congruence]|].
      unfold checkpoint_numbers, substep_nints, steady_logs. rewrite !Homap.
      destruct (Hnum [] eq_refl) as [Hn1 Hn2].
      destruct (Hnint [] eq_refl) as [Hi1 Hi2].
      destruct (Hchain [] I) as [Hc1 Hc2].
      simpl in *. rewrite Nat.add_0_r in Hn2, Hi2.
      repeat split; assumption.
    + inv_bind Hrun. destruct a as [[[st2 s2] fields2] logs'].
      injection Hrun as <- <- <- <-.
      apply (IH (S n) st1 s1 fields1 st2 s2 fields2 logs') in E
        as (Hlen & Hidx & Hlast & Hn1 & Hn2 & Hi1 & Hi2 & Hc1 & Hc2).
      split; [simpl; lia|]. split.
      { intros j lg Hj. destruct j as [|j].
        - injection Hj as <-. rewrite Nat.add_0_r.
          split; [apply Hhead|]. split; [apply Hhead|]. congruence.
        - simpl in Hj. destruct (Hidx j lg Hj) as (H1 & H2 & H3).
          replace (n + S j)%nat with (S n + j)%nat by lia.
          split; [exact H1|]. split; [exact H2|].
          intros Hcv. simpl. f_equal. apply H3, Hcv. }
      split.
      { intros Hlt. destruct Hlast as (lg & Hlg & Hcv); [simpl in Hlt; lia|].
        exists lg. split; [|exact Hcv].
        destruct logs' as [|l0 logs']; [discriminate|]. exact Hlg. }
      unfold checkpoint_numbers, substep_nints, steady_logs in *. rewrite !Homap.
      destruct (Hnum _ Hn1) as [Hn3 Hn4].
      destruct (Hnint _ Hi1) as [Hi3 Hi4].
      destruct (Hchain _ Hc1) as [Hc3 Hc4].
      split; [exact Hn3|]. split; [lia|]. split; [exact Hi3|]. split; [lia|].
      split; [exact Hc3|]. congruence.
Qed.

(** ** The checkpoint trigger and the length of a run *)

Lemma AdvanceInTime_loop {C : Collaborators} (cfg : Config) (nsteps : nat)
    (st st' : Statics) (s s' : Solver) (logs : list StepLog) :
  AdvanceInTime cfg nsteps st s = Ok (st', s', logs) ->
  exists s1 fields1 s2 fields2,
    time_loop cfg nsteps 0 (st, s1, fields1) = Ok (st', s2, fields2, logs).
Proof.
  unfold AdvanceInTime. intros Hrun.
  inv_bind Hrun. inv_bind Hrun. destruct a0 as [s1 fields1].
  inv_bind Hrun. destruct a0 as [[[st2 s2] fields2] logs2].
  inv_bind Hrun. injection Hrun as <- <- <-.
  exists s1, fields1, s2, fields2. exact E1.
Qed.



(** *** The velocity written into its Fields *)





(** *** The checkpoint block *)





Lemma not_converged_without_check (log : StepLog) :
  log_steady log = None -> converged log = false.
Proof. intros E. unfold converged. rewrite E. reflexivity. Qed.

Lemma time_loop_full {C : Collaborators} (cfg : Config) (k n : nat)
    (st st' : Statics) (s s' : Solver) (fields fields' : list (list Q))
    (logs : list StepLog) :
  m_steadyStateSteps cfg = 0%Z ->
  time_loop cfg k n (st, s, fields) = Ok (st', s', fields', logs) ->
  length logs = k.
Proof.
  intros Hss Hrun.
  apply time_loop_statics in Hrun as (Hlen & Hidx & Hlast & _).
  destruct (decide (length logs < k)%nat) as [Hlt|]; [|lia].
  destruct (Hlast Hlt) as (log & Hlog & Hcv).
  rewrite last_lookup in Hlog. destruct (Hidx _ _ Hlog) as (_ & Hst & _).
  rewrite not_converged_without_check in Hcv; [discriminate|].
  destruct (log_steady log) eqn:E; [|reflexivity].
  assert (Hd : steady_due cfg (n + pred (length logs)) = true) by (apply Hst; eauto).
  unfold steady_due, truthy in Hd. rewrite Hss in Hd. discriminate.
Qed.

(** ** What the passes log *)

(** A property of the log of pass [n], for every [n], holds of every log of
    a run of the loop at its index. *)
Lemma time_loop_logs_at `{!Collaborators} (cfg : Config)
    (P : nat -> StepLog -> Prop) :
  (forall n x st s fields log stop,
     outer_step cfg n x = Ok (st, s, fields, log, stop) -> P n log) ->
  forall k n x x' logs,
    time_loop cfg k n x = Ok (x', logs) ->
    forall j log, logs !! j = Some log -> P (n + j)%nat log.
Proof.
  intros Hstep. induction k as [|k IH]; intros n x x' logs Hrun j log Hj.
  - simpl in Hrun. injection Hrun as <- <-. discriminate Hj.
  - cbn [time_loop] in Hrun. apply bind_Ok in Hrun as ([[[[st1 s1] f1] log1] stop] & E & Hrun).
    pose proof (Hstep _ _ _ _ _ _ _ E) as Hlog.
    destruct stop.
    + injection Hrun as <- <-. destruct j as [|j]; [|discriminate Hj].
      injection Hj as <-. rewrite Nat.add_0_r. exact Hlog.
    + apply bind_Ok in Hrun as ([x1 logs1] & E1 & Hrun). injection Hrun as <- <-.
      destruct j as [|j].
      * injection Hj as <-. rewrite Nat.add_0_r. exact Hlog.
      * replace (n + S j)%nat with (S n + j)%nat by lia.
        apply (IH _ _ _ _ E1). exact Hj.
Qed.



(** ** Checkpoints of a run and statics across runs *)



(** C10: the statics outlive the invocation.  For a first invocation of
    [AdvanceInTime] followed by a second one, on whatever state and with
    whatever configuration: the second run numbers its checkpoints on from
    the count the first run reached, its first call of [SubStepAdvance] has
    the [ncalls] that follow those of the first run, and its first
    steady-state check compares against the L2 sum the last check of the
    first run stored (0 only if the first run made no check). *)
Theorem C10_statics_persist {C : Collaborators} (cfg1 cfg2 : Config)
    (n1 n2 : nat) (s0 s1 s1' s2 : Solver) (st1 st2 : Statics)
    (logs1 logs2 : list StepLog) :
  AdvanceInTime cfg1 n1 statics_init s0 = Ok (st1, s1, logs1) ->
  AdvanceInTime cfg2 n2 st1 s1' = Ok (st2, s2, logs2) ->
  (nchk st1 = length (checkpoint_numbers logs1)
   /\ checkpoint_numbers logs1 ++ checkpoint_numbers logs2
      = seq 1 (length (checkpoint_numbers logs1 ++ checkpoint_numbers logs2))
   /\ forall k rest, checkpoint_numbers logs2 = k :: rest ->
        k = S (length (checkpoint_numbers logs1)))
  /\ (ncalls st1 = S (length (substep_nints logs1))
      /\ substep_nints logs2
         = (λ j, Nat.min (S (length (substep_nints logs1)) + j) (m_intSteps cfg2))
           <$> seq 0 (length (substep_nints logs2))
      /\ forall k rest, substep_nints logs2 = k :: rest ->
           k = Nat.min (S (length (substep_nints logs1))) (m_intSteps cfg2))
  /\ (previousL2 st1 = last_L2 (Val 0) (steady_logs logs1)
      /\ steady_chain (m_steadyStateTol cfg2)
           (last_L2 (Val 0) (steady_logs logs1)) (steady_logs logs2)
      /\ forall r rest, steady_logs logs2 = r :: rest ->
           steady_converged r =
           steady_verdict (steady_ncoeffs r) (m_steadyStateTol cfg2)
             (steady_L2 r) (last_L2 (Val 0) (steady_logs logs1)))
  /\ nchk st2 = (nchk st1 + length (checkpoint_numbers logs2))%nat
  /\ ncalls st2 = (ncalls st1 + length (substep_nints logs2))%nat
  /\ previousL2 st2 = last_L2 (previousL2 st1) (steady_logs logs2).
Proof.
  intros Hrun1 Hrun2.
  destruct (AdvanceInTime_loop _ _ _ _ _ _ _ Hrun1)
    as (a1 & b1 & c1 & d1 & Hloop1).
  destruct (AdvanceInTime_loop _ _ _ _ _ _ _ Hrun2)
    as (a2 & b2 & c2 & d2 & Hloop2).
  destruct (time_loop_statics _ _ _ _ _ _ _ _ _ _ Hloop1)
    as (_ & _ & _ & Hnum1 & Hchk1 & Hsub1 & Hcalls1 & Hchain1 & Hprev1).
  destruct (time_loop_statics _ _ _ _ _ _ _ _ _ _ Hloop2)
    as (_ & _ & _ & Hnum2 & Hchk2 & Hsub2 & Hcalls2 & Hchain2 & Hprev2).
  simpl in Hnum1, Hchk1, Hsub1, Hcalls1, Hchain1, Hprev1.
  rewrite Hchk1 in Hnum2. rewrite Hcalls1 in Hsub2. rewrite Hprev1 in Hchain2.
  split; [|split; [|split]].
  - split; [exact Hchk1|]. split.
    + rewrite length_app, seq_app, <- Hnum1. f_equal. exact Hnum2.
    + intros k rest E. rewrite E in Hnum2. simpl in Hnum2. congruence.
  - split; [exact Hcalls1|]. split; [exact Hsub2|].
    intros k rest E. rewrite E in Hsub2.
    cbn [fmap list_fmap seq length] in Hsub2.
    injection Hsub2 as -> _. rewrite Nat.add_0_r. reflexivity.
  - split; [exact Hprev1|]. split; [exact Hchain2|].
    intros r rest E. rewrite E in Hchain2. exact (proj1 Hchain2).
  - split; [exact Hchk2|]. split; [exact Hcalls2|exact Hprev2].
Qed.

Section RunExamples.

#[local] Existing Instance nodal_collaborators.



Lemma C10_statics_persist_witness :
  exists st1 s1 logs1 st2 s2 logs2,
    AdvanceInTime (run_config true 5 3) 10 statics_init run_solver
    = Ok (st1, s1, logs1)
    /\ AdvanceInTime (run_config true 5 6) 10 st1 s1 = Ok (st2, s2, logs2)
    /\ nchk st1 = length (checkpoint_numbers logs1)
    /\ (forall k rest, checkpoint_numbers logs2 = k :: rest ->
          k = S (length (checkpoint_numbers logs1)))
    /\ (forall k rest, substep_nints logs2 = k :: rest ->
          k = Nat.min (S (length (substep_nints logs1))) 2)
    /\ (forall r rest, steady_logs logs2 = r :: rest ->
          steady_converged r =
          steady_verdict (steady_ncoeffs r) (1 # 1000000) (steady_L2 r)
            (last_L2 (Val 0) (steady_logs logs1))).
Proof.
  destruct (AdvanceInTime (run_config true 5 3) 10 statics_init run_solver)
    as [[[st1 s1] logs1] | msg |] eqn:Hrun1;
    [| vm_compute in Hrun1; discriminate Hrun1 ..].
  destruct (AdvanceInTime (run_config true 5 6) 10 st1 s1)
    as [[[st2 s2] logs2] | msg |] eqn:Hrun2.
  2, 3: vm_compute in Hrun1; injection Hrun1 as <- <- <-;
        vm_compute in Hrun2; discriminate Hrun2.
  exists st1, s1, logs1, st2, s2, logs2.
  split; [reflexivity|]. split; [exact Hrun2|].
  destruct (C10_statics_persist (run_config true 5 3) (run_config true 5 6)
              10 10 run_solver s1 s1 s2 st1 st2 logs1 logs2 Hrun1 Hrun2)
    as ((Hn & _ & Hk) & (_ & _ & Hc) & (_ & _ & Hp) & _).
  split; [exact Hn|]. split; [exact Hk|]. split; [exact Hc | exact Hp].
Defined.

(** The two runs of the example: the first checkpoint of the second run is
    number 2, its first [nint] is 2 and its first steady-state check, which
    sees the L2 sum 101 the first run left, finds the state converged. *)
Lemma second_run_continues :
  exists st1 s1 logs1 st2 s2 logs2,
    AdvanceInTime (run_config true 5 3) 10 statics_init run_solver
    = Ok (st1, s1, logs1)
    /\ AdvanceInTime (run_config true 5 6) 10 st1 s1 = Ok (st2, s2, logs2)
    /\ checkpoint_numbers logs1 = [1]%nat
    /\ checkpoint_numbers logs2 = [2]%nat
    /\ substep_nints logs1 = [1; 2; 2; 2; 2; 2]%nat
    /\ substep_nints logs2 = [2; 2; 2; 2; 2; 2]%nat
    /\ previousL2 st1 = Val 101
    /\ steady_converged <$> steady_logs logs2 = [true]
    /\ st2 = mkStatics 2 13 (previousL2 st2).
Proof.
  do 6 eexists. split; [vm_compute; reflexivity|].
  split; [vm_compute; reflexivity|].
  vm_compute. repeat split.
Qed.

End RunExamples.

(** ** Extrapolation at the nodes and after a save *)

(** The extrapolated values are the weighted sums of the history values,
    with the Lagrange weights. *)
Lemma extrapolate_by_weights `{!Collaborators} (cfg : Config)
    (s : Solver) (tau : Q) (ExtVel : list (list Q)) (f0 : Field) :
  let dt := m_timestep cfg in
  let ord := m_intSteps cfg in
  let nvel := length (m_velocity cfg) in
  let npts := GetTotPoints f0 in
  ~ dt == 0 -> (ord <= 3)%nat ->
  m_fields s !! 0%nat = Some f0 ->
  (nvel <= length ExtVel)%nat ->
  (forall i y, ExtVel !! i = Some y -> (npts <= length y)%nat) ->
  (forall i j, (i < nvel)%nat -> (j <= ord)%nat ->
     exists b, history_block (m_previousVelFields s) (m_store s) (j * nvel + i) = Ok b
       /\ (npts <= length b)%nat) ->
  exists out, SubStepExtrapoloteField cfg s tau ExtVel = Ok out /\
    length out = length ExtVel /\
    forall i, (i < nvel)%nat ->
      exists y, out !! i = Some y /\
        forall k, (k < npts)%nat ->
          exists v, y !! k = Some v /\
            v == ext (lagrange_weight (upto 0 (S ord)) dt tau)
                   (fun j => history_value (m_previousVelFields s) (m_store s)
                               nvel i j k) ord.
Proof.
  intros dt ord nvel npts Hdt Hord Hf0 HE HEy Hhist.
  destruct (lagrange_interpolants_Ok ord dt tau Hord Hdt) as (l & Hl & Hlen & Hw).
  pose (lf := fun j : nat => default 0%Q (l !! j)).
  destruct (extrapolate_sum_Ok npts nvel ord l (m_previousVelFields s) (m_store s)
              ExtVel lf (history_value (m_previousVelFields s) (m_store s) nvel))
    as (out & Hrun & Hlo & Hout).
  - intros j Hj. destruct (Hw j Hj) as (li & Hli & _). unfold lf. rewrite Hli. reflexivity.
  - intros i j Hi Hj. destruct (Hhist i j Hi Hj) as (b & Hb & Hblen).
    exists b. split; [exact Hb|]. split; [exact Hblen|].
    intros k Hk. destruct (lookup_lt_is_Some_2 b k ltac:(lia)) as [x Hx].
    unfold history_value. rewrite Hb, Hx. reflexivity.
  - exact HE.
  - exact HEy.
  - exists out. split; [|split; [exact Hlo|]].
    + unfold SubStepExtrapoloteField.
      rewrite (proj2 (rd_Ok _ _ _) Hf0). simpl.
      fold dt ord. rewrite Hl. simpl. exact Hrun.
    + intros i Hi. destruct (Hout i Hi) as (y & Hy & Hyk).
      exists y. split; [exact Hy|].
      intros k Hk. eexists. split; [apply Hyk; exact Hk|].
      apply ext_proper.
      * intros j Hj. destruct (Hw j Hj) as (li & Hli & Hlw).
        unfold lf. rewrite Hli. exact Hlw.
      * intros j Hj. reflexivity.
Qed.

(** At offset 0 the weights are those of the newest node alone. *)
Lemma lagrange_at_newest (ord : nat) (dt : Q) (x : nat -> Q) :
  (ord <= 3)%nat -> ~ dt == 0 ->
  ext (lagrange_weight (upto 0 (S ord)) dt 0) x ord == x 0%nat.
Proof.
  intros Hord Hdt.
  destruct ord as [|[|[|[|ord]]]]; [| | | |lia]; q_eval; try ring; q_field Hdt.
Qed.

(** The weights sum to one: a history whose blocks agree is extrapolated
    to itself. *)
Lemma lagrange_constant (ord : nat) (dt tau c : Q) (x : nat -> Q) :
  (ord <= 3)%nat -> ~ dt == 0 -> (forall j, (j <= ord)%nat -> x j == c) ->
  ext (lagrange_weight (upto 0 (S ord)) dt tau) x ord == c.
Proof.
  intros Hord Hdt Hx.
  rewrite (ext_proper _ (lagrange_weight (upto 0 (S ord)) dt tau) x
             (fun j => eval_poly [c] (- (inject_Z (Z.of_nat j) * dt))) ord).
  - rewrite (lagrange_reproduces ord dt tau [c] Hord Hdt) by (simpl; lia).
    simpl. ring.
  - intros j Hj. reflexivity.
  - intros j Hj. rewrite (Hx j Hj). simpl. ring.
Qed.

(** X1: at offset 0, the time of the latest save, [SubStepExtrapoloteField]
    returns the newest history block of every velocity component, whatever
    the older blocks hold. *)
Theorem X1_extrapolation_at_save_time `{!Collaborators} (cfg : Config)
    (s : Solver) (ExtVel : list (list Q)) (f0 : Field) :
  let dt := m_timestep cfg in
  let ord := m_intSteps cfg in
  let nvel := length (m_velocity cfg) in
  let npts := GetTotPoints f0 in
  ~ dt == 0 -> (ord <= 3)%nat ->
  m_fields s !! 0%nat = Some f0 ->
  (nvel <= length ExtVel)%nat ->
  (forall i y, ExtVel !! i = Some y -> (npts <= length y)%nat) ->
  (forall i j, (i < nvel)%nat -> (j <= ord)%nat ->
     exists b, history_block (m_previousVelFields s) (m_store s) (j * nvel + i) = Ok b
       /\ (npts <= length b)%nat) ->
  exists out, SubStepExtrapoloteField cfg s 0 ExtVel = Ok out /\
    length out = length ExtVel /\
    forall i, (i < nvel)%nat ->
      exists y b, out !! i = Some y /\
        history_block (m_previousVelFields s) (m_store s) i = Ok b /\
        forall k, (k < npts)%nat ->
          exists v x, y !! k = Some v /\ b !! k = Some x /\ v == x.
Proof.
  intros dt ord nvel npts Hdt Hord Hf0 HE HEy Hhist.
  destruct (extrapolate_by_weights cfg s 0 ExtVel f0 Hdt Hord Hf0 HE HEy Hhist)
    as (out & Hrun & Hlo & Hout).
  exists out. split; [exact Hrun|]. split; [exact Hlo|].
  intros i Hi. destruct (Hout i Hi) as (y & Hy & Hyk).
  destruct (Hhist i 0%nat Hi ltac:(lia)) as (b & Hb & Hblen).
  simpl in Hb. exists y, b. split; [exact Hy|]. split; [exact Hb|].
  intros k Hk. destruct (lookup_lt_is_Some_2 b k ltac:(lia)) as [x Hx].
  destruct (Hyk k Hk) as (v & Hv & Hvx).
  exists v, x. split; [exact Hv|]. split; [exact Hx|].
  rewrite Hvx. fold dt ord nvel.
  rewrite (lagrange_at_newest ord dt _ Hord Hdt).
  unfold history_value. simpl. rewrite Hb, Hx. reflexivity.
Qed.

(** A save leaves every Field with the number of points it had. *)
Lemma SubStepSaveFields_points `{!Collaborators} (cfg : Config) (nstep : nat)
    (s s' : Solver) :
  (forall ws c out, length (BwdTrans ws c out) = length out) ->
  SubStepSaveFields cfg nstep s = Ok s' ->
  GetTotPoints <$> m_fields s' = GetTotPoints <$> m_fields s
  /\ m_time s' = m_time s /\ m_numstep s' = m_numstep s
  /\ m_integrationSoln s' = m_integrationSoln s
  /\ m_integrationSoln_viscoelasticstress s'
     = m_integrationSoln_viscoelasticstress s
  /\ m_integrationSoln_aggregatesize s' = m_integrationSoln_aggregatesize s.
Proof.
  intros HB Hrun. unfold SubStepSaveFields in Hrun.
  inv_bind Hrun. destruct (decide (length (m_velocity cfg) = 0%nat)); [discriminate|].
  inv_bind Hrun. inv_bind Hrun. destruct a1 as [fields store].
  inv_bind Hrun. injection Hrun as <-. simpl.
  split; [|repeat split].
  unfold put_previous_field in E1.
  apply (for_each_Ok_inv
    (fun x : list Field * gmap nat (list Q) =>
       GetTotPoints <$> x.1 = GetTotPoints <$> m_fields s)) in E1 as [E1 _];
    [exact E1 | | reflexivity].
  intros i [fs st] [fs' st'] Hfs Hb. simpl in Hfs |- *.
  apply bind_Ok in Hb as (v & _ & Hb). apply bind_Ok in Hb as (f & Hf & Hb).
  apply bind_Ok in Hb as (fs1 & Hw & Hb). apply bind_Ok in Hb as (st1 & _ & Hb).
  injection Hb as <- <-.
  apply rd_Ok in Hf. unfold wr in Hw. case_decide; [|discriminate].
  injection Hw as <-. rewrite list_fmap_insert, <- Hfs.
  apply list_insert_id. rewrite list_lookup_fmap, Hf. simpl.
  unfold Field_BwdTrans, GetTotPoints. simpl. rewrite HB. reflexivity.
Qed.

Lemma history_wf_block (nvel nblocks npts : nat) (prev : list nat)
    (store : gmap nat (list Q)) (i j : nat) :
  history_wf nvel nblocks npts prev store ->
  (i < nvel)%nat -> (j < nblocks)%nat ->
  exists b, history_block prev store (j * nvel + i) = Ok b /\ length b = npts.
Proof.
  intros (Hlen & _ & Hval) Hi Hj.
  destruct (lookup_lt_is_Some_2 prev (j * nvel + i) ltac:(nia)) as [h Hh].
  destruct (Hval h) as (b & Hb & Hbl); [apply list_elem_of_lookup; eauto|].
  exists b. split; [|exact Hbl]. apply history_block_Ok. eauto.
Qed.

(** X2: a save followed by an extrapolation is a round trip.  At offset 0
    the extrapolated velocity is the snapshot just saved; after the save of
    step 0, which fills every block with that snapshot, it is so at every
    offset. *)
Theorem X2_save_then_extrapolate `{!Collaborators} (cfg : Config) (nstep : nat)
    (s : Solver) (nblocks npts : nat) (toff : Q) (ExtVel : list (list Q)) :
  let dt := m_timestep cfg in
  let ord := m_intSteps cfg in
  let nvel := length (m_velocity cfg) in
  (forall ws c out, length (BwdTrans ws c out) = length out) ->
  ~ dt == 0 -> (ord <= 3)%nat -> (ord < nblocks)%nat -> (1 <= nvel)%nat ->
  history_wf nvel nblocks npts (m_previousVelFields s) (m_store s) ->
  velocity_wf cfg npts (m_fields s) ->
  (nvel <= length ExtVel)%nat ->
  (forall i y, ExtVel !! i = Some y -> (npts <= length y)%nat) ->
  toff = 0%Q \/ nstep = 0%nat ->
  exists s' out,
    SubStepSaveFields cfg nstep s = Ok s' /\
    SubStepExtrapoloteField cfg s' toff ExtVel = Ok out /\
    forall n, (n < nvel)%nat ->
      exists y, out !! n = Some y /\
        forall k, (k < npts)%nat ->
          exists v x, y !! k = Some v /\
            snapshot cfg (m_fields s) n !! k = Some x /\ v == x.
Proof.
  intros dt ord nvel HB Hdt Hord Hblocks Hnv Hwf Hvwf HE HEy Hcase.
  destruct (SubStepSaveFields_spec cfg nstep s nblocks npts HB Hnv ltac:(lia)
              Hwf Hvwf) as (s' & Hsave & Hwf' & Hblk).
  fold nvel in Hwf', Hblk.
  destruct (SubStepSaveFields_points cfg nstep s s' HB Hsave) as (Hpts & _).
  pose proof Hvwf as ((f0 & Hf0 & Hf0n) & _ & _).
  assert (Hf0' : exists f0', m_fields s' !! 0%nat = Some f0' /\ GetTotPoints f0' = npts).
  { pose proof (f_equal (fun l => l !! 0%nat) Hpts) as E. simpl in E.
    rewrite !list_lookup_fmap, Hf0 in E. simpl in E.
    destruct (m_fields s' !! 0%nat) as [f0'|]; [|discriminate].
    exists f0'. split; [reflexivity|]. simpl in E. congruence. }
  destruct Hf0' as (f0' & Hf0' & Hf0'n).
  destruct (extrapolate_by_weights cfg s' toff ExtVel f0' Hdt Hord Hf0')
    as (out & Hrun & _ & Hout).
  - exact HE.
  - rewrite Hf0'n. exact HEy.
  - intros i j Hi Hj.
    destruct (history_wf_block _ _ _ _ _ i j Hwf' Hi ltac:(lia)) as (b & Hb & Hbl).
    exists b. split; [exact Hb|]. rewrite Hf0'n. lia.
  - exists s', out. split; [exact Hsave|]. split; [exact Hrun|].
    intros n Hn. destruct (Hout n Hn) as (y & Hy & Hyk).
    exists y. split; [exact Hy|]. rewrite Hf0'n in Hyk.
    intros k Hk. destruct (Hyk k Hk) as (v & Hv & Hvx).
    pose proof (snapshot_length cfg npts (m_fields s) n HB Hvwf Hn) as Hsl.
    destruct (lookup_lt_is_Some_2 (snapshot cfg (m_fields s) n) k ltac:(lia))
      as [x Hx].
    exists v, x. split; [exact Hv|]. split; [exact Hx|].
    rewrite Hvx. fold dt ord nvel.
    assert (Hval : forall j, (j <= ord)%nat -> (j = 0 \/ nstep = 0)%nat ->
      history_value (m_previousVelFields s') (m_store s') nvel n j k = x).
    { intros j Hj Hor. unfold history_value.
      rewrite (Hblk j n ltac:(lia) Hn), decide_True by exact Hor.
      rewrite Hx. reflexivity. }
    destruct Hcase as [-> | ->].
    + rewrite (lagrange_at_newest ord dt _ Hord Hdt).
      rewrite Hval by lia. reflexivity.
    + apply (lagrange_constant ord dt toff x _ Hord Hdt).
      intros j Hj. rewrite Hval by lia. reflexivity.
Qed.

Section NodeExamples.

#[local] Existing Instance nodal_collaborators.

Lemma history_solver_blocks (i j : nat) :
  (i < 1)%nat -> (j <= 2)%nat ->
  exists b, history_block (m_previousVelFields history_solver)
              (m_store history_solver) (j * 1 + i) = Ok b /\ (2 <= length b)%nat.
Proof.
  intros Hi Hj. destruct i as [|i]; [|lia].
  destruct j as [|[|[|j]]]; [| | |lia]; (eexists; split; [reflexivity|simpl; lia]).
Qed.

Lemma X1_extrapolation_at_save_time_witness :
  exists out,
    SubStepExtrapoloteField history_config history_solver 0 [[0; 0]]%Q = Ok out /\
    length out = 1%nat /\
    forall i, (i < 1)%nat ->
      exists y b, out !! i = Some y /\
        history_block (m_previousVelFields history_solver)
          (m_store history_solver) i = Ok b /\
        forall k, (k < 2)%nat ->
          exists v x, y !! k = Some v /\ b !! k = Some x /\ v == x.
Proof.
  apply (X1_extrapolation_at_save_time history_config history_solver [[0; 0]]%Q
           (mkField [0; 0] [0; 0] true false)%Q).
  - unfold history_config; simpl. intros E. discriminate E.
  - unfold history_config; simpl; lia.
  - reflexivity.
  - unfold history_config; simpl; lia.
  - intros i y Hy. destruct i as [|i]; [|discriminate].
    injection Hy as <-. unfold GetTotPoints. simpl. lia.
  - exact history_solver_blocks.
Defined.

Lemma history_solver_velocity_wf :
  velocity_wf history_config 2 (m_fields history_solver).
Proof.
  split; [eexists; split; reflexivity|].
  split; [apply NoDup_singleton|].
  intros v Hv. apply list_elem_of_singleton in Hv as ->.
  eexists. split; reflexivity.
Qed.

Lemma X2_save_then_extrapolate_witness :
  exists s' out,
    SubStepSaveFields history_config 0 history_solver = Ok s' /\
    SubStepExtrapoloteField history_config s' (1 # 2) [[0; 0]]%Q = Ok out /\
    forall n, (n < 1)%nat ->
      exists y, out !! n = Some y /\
        forall k, (k < 2)%nat ->
          exists v x, y !! k = Some v /\
            snapshot history_config (m_fields history_solver) n !! k = Some x /\
            v == x.
Proof.
  apply (X2_save_then_extrapolate history_config 0 history_solver 3 2 (1 # 2)
           [[0; 0]]%Q).
  - intros ws c out. apply copy_over_length.
  - unfold history_config; simpl. intros E. discriminate E.
  - unfold history_config; simpl; lia.
  - unfold history_config; simpl; lia.
  - unfold history_config; simpl; lia.
  - exact history_solver_wf.
  - exact history_solver_velocity_wf.
  - unfold history_config; simpl; lia.
  - intros i y Hy. destruct i as [|i]; [|discriminate].
    injection Hy as <-. unfold GetTotPoints. simpl. lia.
  - right. reflexivity.
Defined.

End NodeExamples.

(** ** What the estimator computes *)

Lemma rd2_wr2 {A} (a a' : list (list A)) (i j : nat) (x : A) (i' j' : nat) :
  wr2 a i j x = Ok a' ->
  rd2 a' i' j' = if decide (i' = i /\ j' = j) then Ok x else rd2 a i' j'.
Proof.
  unfold wr2, rd2. intros H.
  apply bind_Ok in H as (row & Hrow & H). apply bind_Ok in H as (row' & Hw & H).
  apply rd_Ok in Hrow. unfold wr in Hw, H.
  destruct (decide (j < length row)%nat) as [Hj|]; [|discriminate].
  injection Hw as <-.
  destruct (decide (i < length a)%nat) as [Hi|]; [|discriminate].
  injection H as <-.
  destruct (decide (i' = i)) as [->|Hi'].
  - rewrite (proj2 (rd_Ok _ _ _) (list_lookup_insert_eq a i _ Hi)).
    cbn [mbind result_bind].
    destruct (decide (j' = j)) as [->|Hj'].
    + rewrite decide_True by done.
      apply rd_Ok, list_lookup_insert_eq. exact Hj.
    + rewrite decide_False by (intros [_ ?]; done).
      rewrite (proj2 (rd_Ok _ _ _) Hrow). cbn [mbind result_bind].
      unfold rd. rewrite list_lookup_insert_ne by done. reflexivity.
  - rewrite decide_False by (intros [? _]; done).
    match goal with |- rd ?b i' ≫= _ = _ =>
      assert (E : rd b i' = rd a i')
        by (unfold rd; rewrite list_lookup_insert_ne by done; reflexivity)
    end.
    rewrite E. reflexivity.
Qed.

Lemma keep_max_spec (el : nat) (v : Q) (stdV stdV' : list Q) :
  keep_max el v stdV = Ok stdV' ->
  exists cur, stdV !! el = Some cur /\
    stdV' = <[el := if Qltb cur v then v else cur]> stdV.
Proof.
  unfold keep_max. intros H. apply bind_Ok in H as (cur & Hcur & H).
  apply rd_Ok in Hcur. exists cur. split; [exact Hcur|].
  destruct (Qltb cur v).
  - unfold wr in H. case_decide; [|discriminate]. injection H as <-. reflexivity.
  - injection H as <-. symmetry. apply list_insert_id. exact Hcur.
Qed.

(** One pass of the element loop with two velocity components. *)
Lemma std_velocity_element_max `{!Collaborators} (elements : list Element)
    (inarray : list (list Q)) (el : nat) (e : Element)
    (sv sv' : list (list Q)) (stdV stdV' : list Q) :
  elements !! el = Some e -> (el < length stdV)%nat ->
  std_velocity_element 2 elements inarray el (sv, stdV) = Ok (sv', stdV') ->
  exists m0 m, stdV !! el = Some m0 /\ stdV' = <[el := m]> stdV /\
    kept_max e inarray (el_TotPoints e) m0 m.
Proof.
  intros He Hel Hrun. unfold std_velocity_element in Hrun.
  rewrite (proj2 (rd_Ok _ _ _) He) in Hrun. cbn [mbind result_bind] in Hrun.
  apply bind_Ok in Hrun as (sv1 & Hloop1 & Hrun).
  apply bind_Ok in Hrun as (stdV1 & Hloop2 & Hrun).
  injection Hrun as <- <-.
  (* the first loop fills the two scratch rows *)
  assert (Hsv : forall i, (i < el_TotPoints e)%nat ->
    exists s0 s1, rd2 sv1 0 i = Ok s0 /\ rd2 sv1 1 i = Ok s1 /\
      pnt_velocity_2D e inarray i = Ok (sqrt (s0 * s0 + s1 * s1))).
  { refine (for_each_upto_inv
      (fun n (t : list (list Q)) => forall i, (i < n)%nat ->
         exists s0 s1, rd2 t 0 i = Ok s0 /\ rd2 t 1 i = Ok s1 /\
           pnt_velocity_2D e inarray i = Ok (sqrt (s0 * s0 + s1 * s1)))
      0 (el_TotPoints e) _ sv sv1 _ _ _ Hloop1); [lia | intros i Hi; lia |].
    intros n t t' [_ Hn] IH Hb. cbv beta in Hb.
    rewrite decide_True in Hb by reflexivity. unfold std_velocity_2D in Hb.
    apply bind_Ok in Hb as (g0 & Hg0 & Hb). apply bind_Ok in Hb as (u0 & Hu0 & Hb).
    apply bind_Ok in Hb as (g2 & Hg2 & Hb). apply bind_Ok in Hb as (u1 & Hu1 & Hb).
    apply bind_Ok in Hb as (t1 & Hw0 & Hb).
    apply bind_Ok in Hb as (g1 & Hg1 & Hb). apply bind_Ok in Hb as (g3 & Hg3 & Hw1).
    intros i Hi. destruct (decide (i = n)) as [->|Hne].
    - exists (g0 * u0 + g2 * u1)%Q, (g1 * u0 + g3 * u1)%Q.
      rewrite (rd2_wr2 _ _ _ _ _ 0 n Hw1), decide_False by (intros [? _]; lia).
      rewrite (rd2_wr2 _ _ _ _ _ 0 n Hw0), decide_True by done.
      rewrite (rd2_wr2 _ _ _ _ _ 1 n Hw1), decide_True by done.
      split; [reflexivity|]. split; [reflexivity|].
      unfold pnt_velocity_2D. rewrite Hg0, Hu0, Hg2, Hu1, Hg1, Hg3. reflexivity.
    - destruct (IH i ltac:(lia)) as (s0 & s1 & H0 & H1 & Hp).
      exists s0, s1.
      rewrite (rd2_wr2 _ _ _ _ _ 0 i Hw1), decide_False by (intros [? _]; lia).
      rewrite (rd2_wr2 _ _ _ _ _ 0 i Hw0), decide_False by (intros [_ ?]; lia).
      rewrite (rd2_wr2 _ _ _ _ _ 1 i Hw1), decide_False by (intros [_ ?]; lia).
      rewrite (rd2_wr2 _ _ _ _ _ 1 i Hw0), decide_False by (intros [? _]; lia).
      split; [exact H0|]. split; [exact H1 | exact Hp]. }
  (* the second loop keeps the largest speed *)
  destruct (lookup_lt_is_Some_2 stdV el Hel) as [m0 Hm0].
  exists m0.
  assert (Hmax : exists m, stdV1 = <[el := m]> stdV /\
            kept_max e inarray (el_TotPoints e) m0 m).
  { refine (for_each_upto_inv
      (fun n (t : list Q) => exists m, t = <[el := m]> stdV /\
         kept_max e inarray n m0 m)
      0 (el_TotPoints e) _ stdV stdV1 _ _ _ Hloop2); [lia | |].
    - exists m0. split; [symmetry; apply list_insert_id; exact Hm0|].
      split; [apply Qle_refl|]. split; [intros i Hi; lia | left; reflexivity].
    - intros n t t' [_ Hn] (m & -> & Hle & Hub & Hat) Hb. cbv beta in Hb.
      destruct (Hsv n Hn) as (s0 & s1 & H0 & H1 & Hp).
      rewrite H0, H1 in Hb. cbn [mbind result_bind] in Hb.
      rewrite decide_True in Hb by reflexivity.
      apply keep_max_spec in Hb as (cur & Hcur & ->).
      rewrite list_lookup_insert_eq in Hcur by exact Hel. injection Hcur as <-.
      rewrite list_insert_insert_eq.
      eexists. split; [reflexivity|].
      destruct (Qltb m (sqrt (s0 * s0 + s1 * s1))) eqn:Hlt.
      + apply Qltb_lt in Hlt. split; [|split].
        * apply Qle_trans with m; [exact Hle | apply Qlt_le_weak, Hlt].
        * intros i Hi. destruct (decide (i = n)) as [->|Hne].
          -- eexists. split; [exact Hp | apply Qle_refl].
          -- destruct (Hub i ltac:(lia)) as (v & Hv & Hvm).
             exists v. split; [exact Hv|].
             apply Qle_trans with m; [exact Hvm | apply Qlt_le_weak, Hlt].
        * right. exists n. split; [lia | exact Hp].
      + apply Qltb_ge in Hlt. split; [exact Hle|]. split.
        * intros i Hi. destruct (decide (i = n)) as [->|Hne].
          -- eexists. split; [exact Hp | exact Hlt].
          -- apply Hub. lia.
        * destruct Hat as [->|(i & Hi & Hpi)]; [left; reflexivity|].
          right. exists i. split; [lia | exact Hpi]. }
  destruct Hmax as (m & -> & Hk). exists m. split; [exact Hm0|]. split; [reflexivity | exact Hk].
Qed.

(** X3: with two velocity components, what [GetStdVelocity] returns for
    element [el] is the largest speed [pntVelocity] among the points
    [i < n_points] of that element, each computed from [inarray[c][i]] at the
    element-local index [i], and 0 when no such speed is positive. *)
Theorem X3_std_velocity_maximum `{!Collaborators} (cfg : Config)
    (fields : list Field) (inarray : list (list Q)) :
  (2 <= m_expdim cfg)%nat -> length inarray = 2%nat ->
  estimator_wf cfg fields inarray ->
  exists stdV, GetStdVelocity cfg fields inarray = Ok stdV /\
    length stdV = length (m_exp cfg) /\
    forall el e, m_exp cfg !! el = Some e ->
      exists m, stdV !! el = Some m /\
        kept_max e inarray (el_TotPoints e) 0 m.
Proof.
  intros Hdim Hnvel Hwf.
  destruct (GetStdVelocity_Ok cfg fields inarray Hdim Hwf) as (stdV & Hrun & Hlen).
  exists stdV. split; [exact Hrun|]. split; [exact Hlen|].
  unfold GetStdVelocity in Hrun. rewrite bool_decide_eq_true_2 in Hrun by lia.
  apply bind_Ok in Hrun as (f0 & _ & Hrun). cbv zeta in Hrun.
  apply bind_Ok in Hrun as ([sv stdV1] & Hloop & Hrun). injection Hrun as ->.
  rewrite Hnvel in Hloop.
  set (n := length (m_exp cfg)) in *.
  assert (Hinv :
    length stdV = n /\
    (forall el', (n <= el' < n)%nat -> stdV !! el' = Some 0%Q) /\
    (forall el e, (el < n)%nat -> m_exp cfg !! el = Some e ->
       exists m, stdV !! el = Some m /\ kept_max e inarray (el_TotPoints e) 0 m)).
  { refine (for_each_upto_inv
      (fun k (st : list (list Q) * list Q) =>
         length st.2 = n /\
         (forall el', (k <= el' < n)%nat -> st.2 !! el' = Some 0%Q) /\
         (forall el e, (el < k)%nat -> m_exp cfg !! el = Some e ->
            exists m, st.2 !! el = Some m /\
              kept_max e inarray (el_TotPoints e) 0 m))
      0 n _ _ (sv, stdV) _ _ _ Hloop).
    - lia.
    - cbn [snd]. split; [apply length_replicate|]. split.
      + intros el' Hel'. apply lookup_replicate_2. lia.
      + intros el e Hel. lia.
    - intros k [sv0 v0] [sv1 v1] [_ Hk] (Hl & Hzero & Hdone) Hb. cbn [snd] in *.
      destruct (lookup_lt_is_Some_2 (m_exp cfg) k Hk) as [e He].
      destruct (std_velocity_element_max (m_exp cfg) inarray k e sv0 sv1 v0 v1 He
                  ltac:(lia) Hb) as (m0 & m & Hm0 & -> & Hkept).
      rewrite (Hzero k ltac:(lia)) in Hm0. injection Hm0 as <-.
      split; [rewrite length_insert; exact Hl|]. split.
      + intros el' Hel'. rewrite list_lookup_insert_ne by lia. apply Hzero. lia.
      + intros el e' Hel He'. destruct (decide (el = k)) as [->|Hne].
        * assert (e' = e) as -> by congruence.
          exists m. split; [apply list_lookup_insert_eq; lia | exact Hkept].
        * rewrite list_lookup_insert_ne by lia. apply Hdone; [lia | exact He']. }
  destruct Hinv as (_ & _ & Hdone). intros el e He.
  apply Hdone; [apply lookup_lt_Some in He; exact He | exact He].
Qed.





Section EstimatorValues.

#[local] Existing Instance nodal_collaborators.

Lemma X3_std_velocity_maximum_witness :
  exists stdV, GetStdVelocity (cfl_config 2) cfl_fields cfl_velocity = Ok stdV /\
    length stdV = length (m_exp (cfl_config 2)) /\
    forall el e, m_exp (cfl_config 2) !! el = Some e ->
      exists m, stdV !! el = Some m /\
        kept_max e cfl_velocity (el_TotPoints e) 0 m.
Proof.
  apply (X3_std_velocity_maximum (cfl_config 2) cfl_fields cfl_velocity).
  - unfold cfl_config; simpl; lia.
  - reflexivity.
  - exact cfl_velocity_wf.
Defined.


End EstimatorValues.

(** ** Sub-cycling *)

Lemma SubStepAdvance_inv `{!Collaborators} (cfg : Config) (nstep : nat)
    (st st' : Statics) (s s' : Solver) (info : nat * Z) :
  SubStepAdvance cfg nstep st s = Ok (st', s', info) ->
  exists soln, s' = set_integrationSoln soln s.
Proof.
  intros Hrun. unfold SubStepAdvance in Hrun.
  apply bind_Ok in Hrun as (dt & Hdt & Hrun).
  apply bind_Ok in Hrun as (nsub & _ & Hrun).
  apply bind_Ok in Hrun as (soln & _ & Hrun).
  injection Hrun as <- <- <-. exists soln. reflexivity.
Qed.

(** ** The clock and the triggers of a run *)

Lemma sub_step_frame `{!Collaborators} (cfg : Config) (n : nat)
    (st st' : Statics) (s s' : Solver) (sub : option (nat * Z)) :
  sub_step cfg n st s = Ok (st', s', sub) ->
  m_time s' = m_time s
  /\ ((forall ws c out, length (BwdTrans ws c out) = length out) ->
      GetTotPoints <$> m_fields s' = GetTotPoints <$> m_fields s).
Proof.
  unfold sub_step. intros Hrun. destruct (m_subSteppingScheme cfg).
  - apply bind_Ok in Hrun as (s1 & Hsave & Hrun).
    apply bind_Ok in Hrun as ([[st2 s2] info] & Hadv & Hrun).
    injection Hrun as <- <- <-.
    apply SubStepAdvance_inv in Hadv as [soln ->]. simpl. split.
    + unfold SubStepSaveFields in Hsave.
      apply bind_Ok in Hsave as (f0 & _ & Hsave).
      destruct (decide (length (m_velocity cfg) = 0%nat)); [discriminate|].
      apply bind_Ok in Hsave as (prev & _ & Hsave).
      apply bind_Ok in Hsave as ([fs store] & _ & Hsave).
      apply bind_Ok in Hsave as (store' & _ & Hsave).
      injection Hsave as <-. reflexivity.
    + intros HB. apply (SubStepSaveFields_points cfg n s s1 HB Hsave).
  - injection Hrun as <- <- <-. split; [reflexivity | intros _; reflexivity].
Qed.

Lemma SetPhys_points (y : list Q) (f f' : Field) :
  SetPhys y f = Ok f' -> GetTotPoints f' = GetTotPoints f.
Proof.
  unfold SetPhys, Vcopy. intros H. apply bind_Ok in H as (p & Hp & H).
  injection H as <-. unfold GetTotPoints in *. simpl.
  destruct (fits _ y && fits _ (m_phys f)) eqn:E; [|discriminate].
  injection Hp as <-. apply andb_true_iff in E as [E1 E2].
  apply fits_true in E1, E2.
  rewrite length_app, length_take, length_drop. lia.
Qed.

Lemma store_viscoelastic_points `{!Collaborators} (cfg : Config)
    (ve : list (list Q)) (fields fields' : list Field) :
  store_viscoelastic cfg ve fields = Ok fields' ->
  GetTotPoints <$> fields' = GetTotPoints <$> fields.
Proof.
  unfold store_viscoelastic. intros Hrun.
  apply (for_each_Ok_inv
    (fun fs : list Field => GetTotPoints <$> fs = GetTotPoints <$> fields))
    in Hrun as [Hrun _]; [exact Hrun | | reflexivity].
  intros i fs fs' Hfs Hb.
  apply bind_Ok in Hb as (y & _ & Hb). apply bind_Ok in Hb as (f & Hf & Hb).
  apply bind_Ok in Hb as (f1 & Hset & Hw).
  apply rd_Ok in Hf. apply SetPhys_points in Hset.
  unfold wr in Hw. case_decide; [|discriminate]. injection Hw as <-.
  rewrite list_fmap_insert, <- Hfs. apply list_insert_id.
  rewrite list_lookup_fmap, Hf. simpl. f_equal. symmetry. exact Hset.
Qed.

Lemma advance_viscoelastic_frame `{!Collaborators} (cfg : Config) (n : nat)
    (s s' : Solver) :
  advance_viscoelastic cfg n s = Ok s' ->
  m_time s' = m_time s
  /\ ((forall g k dt soln fs,
         GetTotPoints <$> (TimeIntegrate g k dt soln fs).2
         = GetTotPoints <$> fs) ->
      GetTotPoints <$> m_fields s' = GetTotPoints <$> m_fields s).
Proof.
  unfold advance_viscoelastic. intros Hrun.
  destruct (decide (m_equationType cfg = eUnsteadyViscoElastic));
    [|injection Hrun as <-; split; [reflexivity | intros _; reflexivity]].
  apply bind_Ok in Hrun as (k & _ & Hrun).
  assert (Hagg : m_time (advance_aggregatesize cfg k s) = m_time s
    /\ ((forall g k dt soln fs,
           GetTotPoints <$> (TimeIntegrate g k dt soln fs).2
           = GetTotPoints <$> fs) ->
        GetTotPoints <$> m_fields (advance_aggregatesize cfg k s)
        = GetTotPoints <$> m_fields s)).
  { unfold advance_aggregatesize.
    destruct (decide (m_viscoelasticType cfg = eHomogeneousBloodModel));
      [|split; [reflexivity | intros _; reflexivity]].
    pose proof (fun HT : forall g k dt soln fs,
                  GetTotPoints <$> (TimeIntegrate g k dt soln fs).2
                  = GetTotPoints <$> fs =>
      HT gAggregateSize k (m_timestep cfg) (m_integrationSoln_aggregatesize s)
         (m_fields s)) as HT.
    destruct (TimeIntegrate gAggregateSize k (m_timestep cfg)
                (m_integrationSoln_aggregatesize s) (m_fields s))
      as [[y soln] fs]. simpl. split; [reflexivity | exact HT]. }
  destruct Hagg as [Ht Hp]. revert Hrun Ht Hp.
  generalize (advance_aggregatesize cfg k s) as s1. intros s1 Hrun Ht Hp.
  pose proof (fun HT : forall g k dt soln fs,
                GetTotPoints <$> (TimeIntegrate g k dt soln fs).2
                = GetTotPoints <$> fs =>
    HT gViscoElasticStress k (m_timestep cfg)
       (m_integrationSoln_viscoelasticstress s1) (m_fields s1)) as HT.
  destruct (TimeIntegrate gViscoElasticStress k (m_timestep cfg)
              (m_integrationSoln_viscoelasticstress s1) (m_fields s1))
    as [[ve soln] fs].
  apply bind_Ok in Hrun as (fs' & Hstore & Hrun). injection Hrun as <-. simpl.
  split; [exact Ht|]. intros HTI.
  rewrite (store_viscoelastic_points cfg ve fs fs' Hstore).
  simpl in HT. rewrite (HT HTI). apply Hp, HTI.
Qed.

Lemma write_energy_time `{!Collaborators} (cfg : Config) (n : nat)
    (s s' : Solver) (e : option (list Q)) :
  write_energy cfg n s = Ok (s', e) ->
  m_time s' = m_time s /\ (is_Some e <-> energy_due cfg n = true).
Proof.
  unfold write_energy. intros Hrun. destruct (energy_due cfg n).
  - apply bind_Ok in Hrun as ([fs en] & _ & Hrun). injection Hrun as <- <-.
    split; [reflexivity|]. split; [reflexivity | eauto].
  - injection Hrun as <- <-. split; [reflexivity|].
    split; [intros [? ?]; discriminate | discriminate].
Qed.

Lemma write_checkpoint_time `{!Collaborators} (cfg : Config) (n : nat)
    (fields : list (list Q)) (st st' : Statics) (s s' : Solver)
    (chk : option (nat * list Field)) :
  write_checkpoint cfg n fields st s = Ok (st', s', chk) ->
  m_time s' = m_time s.
Proof.
  unfold write_checkpoint. intros Hrun. destruct (checkpoint_due cfg n).
  - destruct (decide (m_HomogeneousType cfg = eHomogeneous1D)).
    + injection Hrun as <- <- <-. reflexivity.
    + apply bind_Ok in Hrun as (d & _ & Hrun). injection Hrun as <- <- <-.
      reflexivity.
  - injection Hrun as <- <- <-. reflexivity.
Qed.

(** What one pass does to the clock, and which of its outputs it emits. *)
Lemma outer_step_clock `{!Collaborators} (cfg : Config) (n : nat)
    (st st' : Statics) (s s' : Solver) (fields fields' : list (list Q))
    (log : StepLog) (stop : bool) :
  outer_step cfg n (st, s, fields) = Ok (st', s', fields', log, stop) ->
  m_time s' = (m_time s + m_timestep cfg)%Q
  /\ (is_Some (log_energy log) <-> energy_due cfg n = true)
  /\ (log_filters log = None <-> converged log = true)
  /\ stop = converged log.
Proof.
  unfold outer_step. intros Hrun.
  apply bind_Ok in Hrun as ([[st1 s1] sub] & Hsub & Hrun).
  apply sub_step_frame in Hsub as [Ht1 _]. simpl in Ht1.
  apply bind_Ok in Hrun as (s2 & Hve & Hrun).
  apply advance_viscoelastic_frame in Hve as [Ht2 _].
  apply bind_Ok in Hrun as (k & _ & Hrun).
  destruct (TimeIntegrate gVelocity k (m_timestep cfg) (m_integrationSoln s2)
              (m_fields s2)) as [[y soln] fs].
  apply bind_Ok in Hrun as (fp7 & _ & Hrun).
  apply bind_Ok in Hrun as ([s3 energy] & Hen & Hrun).
  apply write_energy_time in Hen as [Ht3 Hen]. simpl in Ht3.
  apply bind_Ok in Hrun as ([[st4 s4] chk] & Hchk & Hrun).
  apply write_checkpoint_time in Hchk.
  apply bind_Ok in Hrun as ([st5 steady] & _ & Hrun).
  assert (Ht : m_time s4 = (m_time s + m_timestep cfg)%Q) by congruence.
  destruct (from_option steady_converged false steady) eqn:Hconv.
  - injection Hrun as <- <- <- <- <-. unfold converged. simpl.
    split; [exact Ht|]. split; [exact Hen|]. split; [|symmetry; exact Hconv].
    split; [intros _; exact Hconv | reflexivity].
  - apply bind_Ok in Hrun as (mf & _ & Hrun).
    apply bind_Ok in Hrun as (fp8 & _ & Hrun).
    injection Hrun as <- <- <- <- <-. unfold converged. simpl.
    split; [exact Ht|]. split; [exact Hen|]. split; [|symmetry; exact Hconv].
    split; [discriminate|]. intros E. exfalso.
    destruct steady; simpl in Hconv, E; congruence.
Qed.

Lemma time_loop_clock `{!Collaborators} (cfg : Config) (k n : nat)
    (st st' : Statics) (s s' : Solver) (fields fields' : list (list Q))
    (logs : list StepLog) :
  time_loop cfg k n (st, s, fields) = Ok (st', s', fields', logs) ->
  m_time s' == m_time s + inject_Z (Z.of_nat (length logs)) * m_timestep cfg.
Proof.
  revert n st s fields st' s' fields' logs.
  induction k as [|k IH]; intros n st s fields st' s' fields' logs Hrun.
  - simpl in Hrun. injection Hrun as <- <- <- <-. simpl. ring.
  - cbn [time_loop] in Hrun.
    apply bind_Ok in Hrun as ([[[[st1 s1] f1] log1] stop] & E & Hrun).
    destruct (outer_step_clock _ _ _ _ _ _ _ _ _ _ E) as (Ht & _).
    destruct stop.
    + injection Hrun as <- <- <- <-. rewrite Ht. simpl. ring.
    + apply bind_Ok in Hrun as ([[[st2 s2] f2] logs2] & E2 & Hrun).
      injection Hrun as <- <- <- <-.
      pose proof (IH _ _ _ _ _ _ _ _ E2) as E3. rewrite E3, Ht.
      cbn [length]. rewrite Nat2Z.inj_succ, <- Z.add_1_r, inject_Z_plus. ring.
Qed.

Lemma initialise_schemes_frame `{!Collaborators} (cfg : Config)
    (s s' : Solver) (fields : list (list Q)) :
  initialise_schemes cfg s = Ok (s', fields) ->
  m_time s' = m_time s /\ m_fields s' = m_fields s.
Proof.
  unfold initialise_schemes. intros Hrun.
  apply bind_Ok in Hrun as (y & _ & Hrun). apply bind_Ok in Hrun as (k & _ & Hrun).
  destruct (decide (m_equationType cfg = eUnsteadyViscoElastic)).
  - apply bind_Ok in Hrun as (s1 & Hs1 & Hrun).
    apply bind_Ok in Hrun as (ve & _ & Hrun). injection Hrun as <- <-. simpl.
    destruct (decide (m_viscoelasticType cfg = eHomogeneousBloodModel)).
    + apply bind_Ok in Hs1 as (f & _ & Hs1). injection Hs1 as <-.
      split; reflexivity.
    + injection Hs1 as <-. split; reflexivity.
  - injection Hrun as <- <-. split; reflexivity.
Qed.

(** What [AdvanceInTime] runs before and after the loop. *)
Lemma AdvanceInTime_inv `{!Collaborators} (cfg : Config) (nsteps : nat)
    (st st' : Statics) (s s' : Solver) (logs : list StepLog) :
  AdvanceInTime cfg nsteps st s = Ok (st', s', logs) ->
  exists s1 fields1 s2 fields2,
    m_time s1 = m_timestep cfg
    /\ m_fields s1 = (if decide (m_HomogeneousType cfg = eHomogeneous1D)
                      then initial_wave_space <$> m_fields s else m_fields s)
    /\ time_loop cfg nsteps 0 (st, s1, fields1) = Ok (st', s2, fields2, logs)
    /\ m_time s' = m_time s2.
Proof.
  unfold AdvanceInTime. intros Hrun.
  apply bind_Ok in Hrun as (f0 & _ & Hrun).
  apply bind_Ok in Hrun as ([s1 fields1] & Hini & Hrun).
  apply initialise_schemes_frame in Hini as [Ht Hf].
  apply bind_Ok in Hrun as ([[[st2 s2] fields2] logs2] & Hloop & Hrun).
  apply bind_Ok in Hrun as (mf & _ & Hrun). injection Hrun as <- <- <-.
  exists s1, fields1, s2, fields2.
  split; [rewrite Ht; destruct (decide (m_HomogeneousType cfg = eHomogeneous1D));
          reflexivity|].
  split; [|split; [exact Hloop | reflexivity]].
  rewrite Hf. destruct (decide (m_HomogeneousType cfg = eHomogeneous1D));
    reflexivity.
Qed.

(** X6: [AdvanceInTime] starts its clock at [m_timestep], whatever [m_time]
    held on entry, and advances it by [m_timestep] in every pass: after a
    run of [k] passes the time is [(k + 1) * m_timestep]; [k] is [nsteps]
    when no steady-state check is configured. *)
Theorem X6_clock_of_a_run `{!Collaborators} (cfg : Config) (nsteps : nat)
    (st st' : Statics) (s s' : Solver) (logs : list StepLog) :
  AdvanceInTime cfg nsteps st s = Ok (st', s', logs) ->
  m_time s' == (inject_Z (Z.of_nat (length logs)) + 1) * m_timestep cfg
  /\ (length logs <= nsteps)%nat
  /\ (m_steadyStateSteps cfg = 0%Z -> length logs = nsteps).
Proof.
  intros Hrun.
  destruct (AdvanceInTime_inv _ _ _ _ _ _ _ Hrun)
    as (s1 & fields1 & s2 & fields2 & Ht1 & _ & Hloop & Ht').
  split; [|split].
  - rewrite Ht', (time_loop_clock _ _ _ _ _ _ _ _ _ _ Hloop), Ht1. ring.
  - apply (time_loop_statics _ _ _ _ _ _ _ _ _ _ Hloop).
  - intros Hss. exact (time_loop_full _ _ _ _ _ _ _ _ _ _ Hss Hloop).
Qed.

(** ** The triggers of a run *)

Lemma energy_due_spec (cfg : Config) (n : nat) :
  energy_due cfg n = true <->
  m_energysteps cfg <> 0%Z /\
  Z.rem (Z.of_nat n + 1) (m_energysteps cfg) = 0%Z.
Proof.
  unfold energy_due, truthy, due.
  rewrite andb_true_iff, negb_true_iff, Z.eqb_eq, Z.eqb_neq. tauto.
Qed.

(** X7: pass [n] of a run writes the modal energy exactly when
    [m_energysteps] is not 0 and [(n+1) % m_energysteps] is 0.  Unlike the
    checkpoint and the steady-state check, the test has no [n &&]: with
    [m_energysteps = 1] every pass writes it, the first one included.  With
    [m_energysteps = 0] no pass does. *)
Theorem X7_energy_trigger `{!Collaborators} (cfg : Config) (nsteps : nat)
    (st st' : Statics) (s s' : Solver) (logs : list StepLog) :
  AdvanceInTime cfg nsteps st s = Ok (st', s', logs) ->
  (forall n log, logs !! n = Some log ->
     is_Some (log_energy log) <->
     m_energysteps cfg <> 0%Z /\
     Z.rem (Z.of_nat n + 1) (m_energysteps cfg) = 0%Z)
  /\ (m_energysteps cfg = 0%Z -> Forall (fun log => log_energy log = None) logs)
  /\ (m_energysteps cfg = 1%Z ->
      Forall (fun log => is_Some (log_energy log)) logs).
Proof.
  intros Hrun.
  destruct (AdvanceInTime_inv _ _ _ _ _ _ _ Hrun)
    as (s1 & fields1 & s2 & fields2 & _ & _ & Hloop & _).
  assert (Hall : forall n log, logs !! n = Some log ->
     is_Some (log_energy log) <->
     m_energysteps cfg <> 0%Z /\
     Z.rem (Z.of_nat n + 1) (m_energysteps cfg) = 0%Z).
  { intros n log Hn. rewrite <- energy_due_spec.
    apply (time_loop_logs_at cfg
             (fun n log => is_Some (log_energy log) <-> energy_due cfg n = true)
             (fun n x st0 s0 f0 log0 stop0 Hstep =>
                match x return outer_step cfg n x = _ -> _ with
                | (st1, s1, f1) => fun Hstep =>
                    proj1 (proj2 (outer_step_clock cfg n _ _ _ _ _ _ _ _ Hstep))
                end Hstep)
             _ _ _ _ _ Hloop n log Hn). }
  split; [exact Hall|]. split.
  - intros E0. apply Forall_lookup. intros n log Hn.
    destruct (log_energy log) eqn:El; [|reflexivity]. exfalso.
    assert (Hs : is_Some (log_energy log)) by (rewrite El; eauto).
    apply (Hall n log Hn) in Hs as [Hne _]. contradiction.
  - intros E1. apply Forall_lookup. intros n log Hn.
    apply (Hall n log Hn). rewrite E1. split; [discriminate | apply Z.rem_1_r].
Qed.

(** X8: the steady-state check ends the run.  Every pass but the last has
    not converged and goes on to the filter update and the second track
    point; a pass that converges is the last one of the run and skips both
    (the [break]); a run that stops short of [nsteps] passes has converged
    in its last pass. *)
Theorem X8_steady_state_break `{!Collaborators} (cfg : Config) (nsteps : nat)
    (st st' : Statics) (s s' : Solver) (logs : list StepLog) :
  AdvanceInTime cfg nsteps st s = Ok (st', s', logs) ->
  (length logs <= nsteps)%nat
  /\ (forall j log, logs !! j = Some log ->
        (converged log = true -> S j = length logs /\ log_filters log = None)
        /\ (converged log = false -> is_Some (log_filters log))
        /\ (is_Some (log_steady log) <-> steady_due cfg j = true))
  /\ ((length logs < nsteps)%nat ->
      exists log, last logs = Some log /\ converged log = true).
Proof.
  intros Hrun.
  destruct (AdvanceInTime_inv _ _ _ _ _ _ _ Hrun)
    as (s1 & fields1 & s2 & fields2 & _ & _ & Hloop & _).
  destruct (time_loop_statics _ _ _ _ _ _ _ _ _ _ Hloop)
    as (Hlen & Hidx & Hlast & _).
  split; [exact Hlen|]. split; [|exact Hlast].
  intros j log Hj. destruct (Hidx j log Hj) as (_ & Hsteady & Hend).
  assert (Hf : log_filters log = None <-> converged log = true).
  { apply (time_loop_logs_at cfg
             (fun _ log => log_filters log = None <-> converged log = true)
             (fun n x st0 s0 f0 log0 stop0 Hstep =>
                match x return outer_step cfg n x = _ -> _ with
                | (st1, s1, f1) => fun Hstep =>
                    proj1 (proj2 (proj2
                      (outer_step_clock cfg n _ _ _ _ _ _ _ _ Hstep)))
                end Hstep)
             _ _ _ _ _ Hloop j log Hj). }
  split; [|split].
  - intros Hc. split; [apply Hend, Hc | apply Hf, Hc].
  - intros Hc. destruct (log_filters log) eqn:E; [eauto|].
    rewrite (proj1 Hf eq_refl) in Hc. discriminate.
  - exact Hsteady.
Qed.

(** Each pass reads entry 100 of the physical array of the Field that
    follows the velocity and stress Fields. *)
Lemma outer_step_track `{!Collaborators} (cfg : Config) (n : nat)
    (st : Statics) (s : Solver) (fields : list (list Q))
    (r : Statics * Solver * list (list Q) * StepLog * bool) :
  (forall ws c out, length (BwdTrans ws c out) = length out) ->
  (forall g k dt soln fs,
     GetTotPoints <$> (TimeIntegrate g k dt soln fs).2 = GetTotPoints <$> fs) ->
  outer_step cfg n (st, s, fields) = Ok r ->
  exists npts,
    (GetTotPoints <$> m_fields s)
      !! (m_spacedim cfg + m_nViscoElasticStressFields cfg)%nat = Some npts
    /\ (100 < npts)%nat.
Proof.
  intros HB HT Hrun. unfold outer_step in Hrun.
  apply bind_Ok in Hrun as ([[st1 s1] sub] & Hsub & Hrun).
  apply sub_step_frame in Hsub as [_ Hp1]. specialize (Hp1 HB). simpl in Hp1.
  apply bind_Ok in Hrun as (s2 & Hve & Hrun).
  apply advance_viscoelastic_frame in Hve as [_ Hp2]. specialize (Hp2 HT).
  apply bind_Ok in Hrun as (k & _ & Hrun).
  pose proof (HT gVelocity k (m_timestep cfg) (m_integrationSoln s2) (m_fields s2))
    as Hp3.
  destruct (TimeIntegrate gVelocity k (m_timestep cfg) (m_integrationSoln s2)
              (m_fields s2)) as [[y soln] fs].
  apply bind_Ok in Hrun as (fp7 & Htrack & _). simpl in Htrack, Hp3.
  unfold track_point in Htrack.
  apply bind_Ok in Htrack as (f & Hf & H100).
  apply rd_Ok in Hf. apply rd_Ok in H100. apply lookup_lt_Some in H100.
  exists (GetTotPoints f). split; [|exact H100].
  rewrite <- Hp1, <- Hp2, <- Hp3, list_lookup_fmap, Hf. reflexivity.
Qed.

(** X9: every pass reads entry 100 of the physical array of Field number
    [m_spacedim + m_nViscoElasticStressFields] (the track point written to
    [fp7]).  With transforms and integrators that keep the number of points
    of every Field, no run of at least one pass completes unless that Field
    exists and has more than 100 quadrature points. *)
Theorem X9_track_point_bound `{!Collaborators} (cfg : Config) (nsteps : nat)
    (st : Statics) (s : Solver) :
  (forall ws c out, length (BwdTrans ws c out) = length out) ->
  (forall x out, length (HomogeneousFwdTrans x out) = length out) ->
  (forall g k dt soln fs,
     GetTotPoints <$> (TimeIntegrate g k dt soln fs).2 = GetTotPoints <$> fs) ->
  (1 <= nsteps)%nat ->
  (forall f,
     m_fields s !! (m_spacedim cfg + m_nViscoElasticStressFields cfg)%nat = Some f ->
     (GetTotPoints f <= 100)%nat) ->
  is_ok (AdvanceInTime cfg nsteps st s) = false.
Proof.
  intros HB HH HT Hn Hsmall.
  destruct (AdvanceInTime cfg nsteps st s) as [[[st' s'] logs]| |] eqn:Hrun;
    [exfalso | reflexivity | reflexivity].
  destruct (AdvanceInTime_inv _ _ _ _ _ _ _ Hrun)
    as (s1 & fields1 & s2 & fields2 & _ & Hf1 & Hloop & _).
  destruct nsteps as [|k]; [lia|]. cbn [time_loop] in Hloop.
  apply bind_Ok in Hloop as (r & Hstep & _).
  destruct (outer_step_track cfg 0 st s1 fields1 r HB HT Hstep)
    as (npts & Hnp & H100).
  assert (Hpts : GetTotPoints <$> m_fields s1 = GetTotPoints <$> m_fields s).
  { rewrite Hf1. destruct (decide (m_HomogeneousType cfg = eHomogeneous1D));
      [|reflexivity].
    rewrite <- list_fmap_compose. apply list_fmap_ext. intros i f _.
    unfold compose, initial_wave_space, GetTotPoints. simpl. apply HH. }
  rewrite Hpts, list_lookup_fmap in Hnp.
  destruct (m_fields s !! (m_spacedim cfg + m_nViscoElasticStressFields cfg)%nat)
    as [f|] eqn:Ef; [|discriminate].
  injection Hnp as <-. specialize (Hsmall f eq_refl). lia.
Qed.

Section RunTriggerExamples.

#[local] Existing Instance nodal_collaborators.

Lemma X6_clock_of_a_run_witness :
  exists st' s' logs,
    AdvanceInTime (run_config false 5 0) 10 statics_init run_solver
    = Ok (st', s', logs)
    /\ m_time s' == (inject_Z (Z.of_nat (length logs)) + 1) * 1
    /\ (length logs <= 10)%nat
    /\ length logs = 10%nat.
Proof.
  destruct (AdvanceInTime (run_config false 5 0) 10 statics_init run_solver)
    as [[[st' s'] logs] | msg |] eqn:Hrun;
    [| vm_compute in Hrun; discriminate Hrun ..].
  exists st', s', logs. split; [reflexivity|].
  destruct (X6_clock_of_a_run (run_config false 5 0) 10 statics_init st'
              run_solver s' logs Hrun) as (Ht & Hle & Hfull).
  split; [exact Ht|]. split; [exact Hle | apply Hfull; reflexivity].
Defined.

Lemma X7_energy_trigger_witness :
  exists st' s' logs,
    AdvanceInTime (energy_config 1) 3 statics_init run_solver = Ok (st', s', logs)
    /\ Forall (fun log => is_Some (log_energy log)) logs.
Proof.
  destruct (AdvanceInTime (energy_config 1) 3 statics_init run_solver)
    as [[[st' s'] logs] | msg |] eqn:Hrun;
    [| vm_compute in Hrun; discriminate Hrun ..].
  exists st', s', logs. split; [reflexivity|].
  apply (X7_energy_trigger (energy_config 1) 3 statics_init st' run_solver s'
           logs Hrun). reflexivity.
Defined.

Lemma X8_steady_state_break_witness :
  exists st' s' logs,
    AdvanceInTime (run_config true 5 3) 10 statics_init run_solver
    = Ok (st', s', logs)
    /\ (length logs <= 10)%nat
    /\ ((length logs < 10)%nat ->
        exists log, last logs = Some log /\ converged log = true).
Proof.
  destruct (AdvanceInTime (run_config true 5 3) 10 statics_init run_solver)
    as [[[st' s'] logs] | msg |] eqn:Hrun;
    [| vm_compute in Hrun; discriminate Hrun ..].
  exists st', s', logs. split; [reflexivity|].
  destruct (X8_steady_state_break (run_config true 5 3) 10 statics_init st'
              run_solver s' logs Hrun) as (Hle & _ & Hlast).
  split; [exact Hle | exact Hlast].
Defined.

(** The run of the example stops in its sixth pass. *)
Lemma steady_run_stops_early :
  exists st' s' logs,
    AdvanceInTime (run_config true 5 3) 10 statics_init run_solver
    = Ok (st', s', logs)
    /\ converged <$> logs = [false; false; false; false; false; true].
Proof. do 3 eexists. split; vm_compute; reflexivity. Qed.

Lemma X9_track_point_bound_witness :
  is_ok (AdvanceInTime (run_config false 0 0) 1 statics_init narrow_solver)
  = false.
Proof.
  apply (X9_track_point_bound (run_config false 0 0) 1 statics_init narrow_solver).
  - intros ws c out. apply copy_over_length.
  - intros x out. apply copy_over_length.
  - intros g k dt soln fs. reflexivity.
  - lia.
  - intros f Hf. injection Hf as <-. unfold GetTotPoints. simpl. lia.
Defined.

End RunTriggerExamples.

(** ** The modal energy *)

Lemma set_flags_step (i : nat) (fields : list Field) (f : Field) :
  fields !! i = Some f ->
  <[i := SetPhysState true f]>
    ((SetPhysState true <$> take i fields) ++ drop i fields)
  = (SetPhysState true <$> take (S i) fields) ++ drop (S i) fields.
Proof.
  intros Hf. pose proof (lookup_lt_Some _ _ _ Hf) as Hi.
  assert (Hl : length (SetPhysState true <$> take i fields) = i)
    by (rewrite length_fmap, length_take; lia).
  rewrite <- (Nat.add_0_r i) at 1. rewrite <- Hl at 1.
  rewrite insert_app_r. rewrite (drop_S _ _ _ Hf). cbn [insert list_insert].
  rewrite (take_S_r _ _ _ Hf), fmap_app, <- app_assoc. reflexivity.
Qed.

(** The energies that [modal_energy] adds up: entry by entry the sum of
    the first [locsize] modal energies of the convective Fields. *)
Lemma modal_energy_sum `{!Collaborators} (cfg : Config) (locsize : nat)
    (fields : list Field) :
  (m_nConvectiveFields cfg <= length fields)%nat ->
  (forall i f, (i < m_nConvectiveFields cfg)%nat -> fields !! i = Some f ->
     (locsize <= length (HomogeneousEnergy f))%nat) ->
  let energy :=
    foldl (fun e f => zip_with Qplus (take locsize (HomogeneousEnergy f)) e)
      (replicate locsize 0%Q) (take (m_nConvectiveFields cfg) fields) in
  modal_energy cfg locsize fields = Ok energy /\ length energy = locsize.
Proof.
  intros Hn Hlen energy. unfold modal_energy.
  match goal with |- context [for_each (upto 0 ?n) ?body ?init] =>
    destruct (for_each_upto
      (fun k (e : list Q) =>
         e = foldl (fun e f => zip_with Qplus (take locsize (HomogeneousEnergy f)) e)
               (replicate locsize 0%Q) (take k fields)
         /\ length e = locsize) 0 n body init) as (e & Hrun & He & Hl)
  end.
  - lia.
  - split; [reflexivity | apply length_replicate].
  - intros k e [_ Hk] [He Hl].
    destruct (lookup_lt_is_Some_2 fields k ltac:(lia)) as [f Hf].
    rewrite (proj2 (rd_Ok _ _ _) Hf). cbn [mbind result_bind].
    pose proof (Hlen k f Hk Hf) as HE.
    unfold Vadd.
    rewrite (proj2 (fits_true locsize (HomogeneousEnergy f))) by lia.
    rewrite (proj2 (fits_true locsize e)) by lia. cbn [andb].
    eexists. split; [reflexivity|].
    rewrite (take_ge e) by lia. rewrite (drop_ge e) by lia. rewrite app_nil_r.
    split.
    + rewrite (take_S_r _ _ _ Hf), foldl_app. cbn [foldl]. rewrite <- He.
      reflexivity.
    + rewrite length_zip_with, length_take. lia.
  - rewrite Hrun. split; [f_equal; exact He|]. unfold energy. rewrite <- He.
    exact Hl.
Qed.

Lemma not_fatal_modal_energy `{!Collaborators} (cfg : Config) (locsize : nat)
    (fields : list Field) (ix : list nat) (e : list Q) :
  not_fatal (for_each ix (λ i energy,
    f ← rd fields i;
    let energy_tmp := HomogeneousEnergy f in
    Vadd locsize energy_tmp energy energy) e).
Proof. unfold Vadd. no_fatal. Qed.

(** What rank 0 writes: its own energies first, then one block per other
    rank. *)
Lemma gather_energy_root `{!Collaborators} (nproc : nat) (energy : list Q) :
  ColumnComm_GetRank = 0%nat -> nproc <> 0%nat ->
  (forall i e, (length e <= length (ColumnComm_Recv i e))%nat) ->
  exists written, gather_energy nproc energy = Ok written
    /\ take (length energy) written = energy
    /\ length written = (nproc * length energy)%nat.
Proof.
  intros Hrank Hnp Hrecv. unfold gather_energy.
  rewrite decide_True by exact Hrank.
  set (locsize := length energy).
  match goal with |- context [for_each (upto 1 ?n) ?body ?init] =>
    destruct (for_each_upto
      (fun i (x : list Q * list Q) =>
         length x.1 = locsize /\ take locsize x.2 = energy
         /\ length x.2 = (i * locsize)%nat) 1 n body init)
      as ([buf written] & Hrun & _ & Htake & Hlen)
  end.
  - lia.
  - cbn [fst snd]. split; [reflexivity|].
    split; [apply take_ge; reflexivity | lia].
  - intros i [buf written] [Hi _] (Hb & Htake & Hlen). cbn [fst snd] in *.
    pose proof (Hrecv i buf) as HR.
    set (received := ColumnComm_Recv i buf) in *.
    destruct (for_each_upto
      (fun j (lines : list Q) => lines = take j received) 0 (length buf)
      (λ j lines, e ← rd received j; Ok (lines ++ [e])) [])
      as (lines & Hlines & Hl).
    + lia.
    + reflexivity.
    + intros j lines [_ Hj] ->.
      destruct (lookup_lt_is_Some_2 received j ltac:(lia)) as [e He].
      rewrite (proj2 (rd_Ok _ _ _) He). cbn [mbind result_bind].
      eexists. split; [reflexivity|]. rewrite (take_S_r _ _ _ He). reflexivity.
    + rewrite Hlines. cbn [mbind result_bind]. eexists. split; [reflexivity|].
      cbn [fst snd]. subst lines.
      split; [rewrite length_take; lia|]. split.
      * rewrite take_app_le by nia. exact Htake.
      * rewrite length_app, length_take. lia.
  - rewrite Hrun. cbn [mbind result_bind fst snd] in *.
    exists written. split; [reflexivity|]. split; [exact Htake | exact Hlen].
Qed.

(** X10: without a homogeneous direction [WriteModalEnergy] writes one
    value, half the sum of the squared [L2Error] norms of the convective
    Fields, which is never negative, and leaves each of those Fields flagged
    as holding physical values.  With one homogeneous direction it adds up,
    over the convective Fields, the first [m_npointsZ/nproc/2] modal
    energies of each and leaves the Fields as they are: rank 0 writes these
    sums followed by one block of the same size per other rank, every other
    rank writes nothing.  In both cases fewer Fields than convective ones
    are read out of bounds; a communicator of size 0 is a division by
    zero.  With two or three homogeneous directions the call aborts. *)
Theorem X10_WriteModalEnergy `{!Collaborators} (cfg : Config)
    (fields : list Field) :
  let nproc := ColumnComm_GetSize in
  let locsize := (m_npointsZ cfg / nproc / 2)%nat in
  let energy :=
    foldl (fun e f => zip_with Qplus (take locsize (HomogeneousEnergy f)) e)
      (replicate locsize 0%Q) (take (m_nConvectiveFields cfg) fields) in
  (m_HomogeneousType cfg = eNotHomogeneous ->
   (m_nConvectiveFields cfg <= length fields)%nat ->
   exists e, WriteModalEnergy cfg fields =
     Ok ((SetPhysState true <$> take (m_nConvectiveFields cfg) fields)
           ++ drop (m_nConvectiveFields cfg) fields, [e])
     /\ (0 <= e)%Q)
  /\ (m_HomogeneousType cfg = eNotHomogeneous ->
      (length fields < m_nConvectiveFields cfg)%nat ->
      WriteModalEnergy cfg fields = Undefined)
  /\ (m_HomogeneousType cfg = eHomogeneous1D ->
      (nproc = 0%nat -> WriteModalEnergy cfg fields = Undefined)
      /\ (nproc <> 0%nat -> (length fields < m_nConvectiveFields cfg)%nat ->
          WriteModalEnergy cfg fields = Undefined)
      /\ (nproc <> 0%nat -> (m_nConvectiveFields cfg <= length fields)%nat ->
          (forall i f, (i < m_nConvectiveFields cfg)%nat -> fields !! i = Some f ->
             (locsize <= length (HomogeneousEnergy f))%nat) ->
          length energy = locsize
          /\ (ColumnComm_GetRank <> 0%nat ->
              WriteModalEnergy cfg fields = Ok (fields, []))
          /\ (ColumnComm_GetRank = 0%nat -> nproc = 1%nat ->
              WriteModalEnergy cfg fields = Ok (fields, energy))
          /\ (ColumnComm_GetRank = 0%nat ->
              (forall i e, (length e <= length (ColumnComm_Recv i e))%nat) ->
              exists written,
                WriteModalEnergy cfg fields = Ok (fields, written)
                /\ take locsize written = energy
                /\ length written = (nproc * locsize)%nat)))
  /\ (m_HomogeneousType cfg = eHomogeneous2D \/
      m_HomogeneousType cfg = eHomogeneous3D ->
      WriteModalEnergy cfg fields
      = Fatal "3D Homogeneous 2D energy dumping not implemented yet").
Proof.
  intros nproc locsize energy. split; [|split; [|split]].
  - intros Hh Hn. unfold WriteModalEnergy.
    rewrite decide_False by (rewrite Hh; intros E; apply E; reflexivity).
    match goal with |- context [for_each (upto 0 ?n) ?body (fields, 0%Q)] =>
      destruct (for_each_upto
        (fun k (x : list Field * Q) =>
           x.1 = (SetPhysState true <$> take k fields) ++ drop k fields
           /\ (0 <= x.2)%Q) 0 n body (fields, 0%Q))
        as ([fs en] & Hrun & Hfs & Hen)
    end.
    + lia.
    + cbn [fst snd]. split; [rewrite take_0, drop_0; reflexivity | apply Qle_refl].
    + intros k [fs en] [_ Hk] [Hfs Hen]. cbn [fst snd] in Hfs, Hen. subst fs.
      destruct (lookup_lt_is_Some_2 fields k ltac:(lia)) as [f Hf].
      assert (Hlk : ((SetPhysState true <$> take k fields) ++ drop k fields) !! k
                    = Some f).
      { rewrite lookup_app_r by (rewrite length_fmap, length_take; lia).
        rewrite length_fmap, length_take, lookup_drop.
        replace (k + (k - k `min` length fields))%nat with k by lia. exact Hf. }
      rewrite (proj2 (rd_Ok _ _ _) Hlk). cbn [mbind result_bind].
      rewrite wr_lt by (apply lookup_lt_Some in Hlk; exact Hlk).
      cbn [mbind result_bind]. eexists. split; [reflexivity|]. cbn [fst snd].
      split; [apply set_flags_step, Hf|].
      Lqa.nra.
    + rewrite Hrun. cbn [mbind result_bind fst snd] in *. subst fs.
      eexists. split; [reflexivity|]. Lqa.lra.
  - intros Hh Hn. unfold WriteModalEnergy.
    rewrite decide_False by (rewrite Hh; intros E; apply E; reflexivity).
    assert (Hsplit : upto 0 (m_nConvectiveFields cfg)
              = upto 0 (length fields) ++ length fields
                  :: upto (S (length fields)) (m_nConvectiveFields cfg)).
    { unfold upto.
      replace (m_nConvectiveFields cfg - 0)%nat
        with (length fields + S (m_nConvectiveFields cfg - S (length fields)))%nat
        by lia.
      rewrite seq_app. cbn [seq]. rewrite !Nat.sub_0_r. reflexivity. }
    rewrite Hsplit, for_each_app.
    match goal with |- context [for_each (upto 0 ?n) ?body (fields, 0%Q)] =>
      destruct (for_each_upto
        (fun k (x : list Field * Q) => length x.1 = length fields)
        0 n body (fields, 0%Q))
        as ([fs en] & Hrun & Hfs)
    end.
    + lia.
    + reflexivity.
    + intros k [fs en] [_ Hk] Hfs. cbn [fst] in Hfs.
      destruct (rd_lt fs k ltac:(lia)) as (f & -> & _). cbn [mbind result_bind].
      rewrite wr_lt by lia. cbn [mbind result_bind].
      eexists. split; [reflexivity|]. cbn [fst]. rewrite length_insert. exact Hfs.
    + rewrite Hrun. cbn [mbind result_bind for_each fst] in *.
      rewrite rd_ge by lia. reflexivity.
  - intros Hh.
    assert (Hunfold : WriteModalEnergy cfg fields =
      if decide (nproc = 0%nat) then Undefined else
      energy ← modal_energy cfg locsize fields;
      written ← gather_energy nproc energy;
      Ok (fields, written)).
    { unfold WriteModalEnergy.
      rewrite decide_True by (rewrite Hh; discriminate).
      rewrite decide_True by exact Hh. reflexivity. }
    rewrite Hunfold. clear Hunfold. split; [|split].
    + intros Hnp. rewrite decide_True by exact Hnp. reflexivity.
    + intros Hnp Hn. rewrite decide_False by exact Hnp.
      unfold modal_energy.
      assert (Hsplit : upto 0 (m_nConvectiveFields cfg)
                = upto 0 (length fields) ++ length fields
                    :: upto (S (length fields)) (m_nConvectiveFields cfg)).
      { unfold upto.
        replace (m_nConvectiveFields cfg - 0)%nat
          with (length fields + S (m_nConvectiveFields cfg - S (length fields)))%nat
          by lia.
        rewrite seq_app. cbn [seq]. rewrite !Nat.sub_0_r. reflexivity. }
      rewrite Hsplit, for_each_app.
      match goal with |- context [for_each (upto 0 ?n) ?body ?init] =>
        pose proof (not_fatal_modal_energy cfg locsize fields (upto 0 n) init)
          as Hnf;
        destruct (for_each (upto 0 n) body init) as [e | msg |]
      end.
      * cbn [mbind result_bind for_each]. rewrite rd_ge by lia. reflexivity.
      * destruct (Hnf msg). reflexivity.
      * reflexivity.
    + intros Hnp Hn Hlen. rewrite decide_False by exact Hnp.
      destruct (modal_energy_sum cfg locsize fields Hn Hlen) as [Hen Hl].
      fold energy in Hen, Hl. rewrite Hen. cbn [mbind result_bind].
      split; [exact Hl|]. split; [|split].
      * intros Hrank. unfold gather_energy.
        rewrite decide_False by exact Hrank. reflexivity.
      * intros Hrank H1. unfold gather_energy.
        rewrite decide_True by exact Hrank. rewrite H1. reflexivity.
      * intros Hrank Hrecv.
        destruct (gather_energy_root nproc energy Hrank Hnp Hrecv)
          as (written & -> & Htake & Hlen').
        rewrite Hl in Htake, Hlen'.
        exists written. split; [reflexivity|]. split; assumption.
  - intros Hh. unfold WriteModalEnergy.
    rewrite decide_True by (destruct Hh as [-> | ->]; discriminate).
    rewrite decide_False by (destruct Hh as [-> | ->]; discriminate).
    reflexivity.
Qed.

Section EnergyExamples.

#[local] Existing Instance nodal_collaborators.

Lemma X10_WriteModalEnergy_witness :
  (exists e, WriteModalEnergy (energy_config 1) (m_fields run_solver) =
     Ok ((SetPhysState true <$> take 2 (m_fields run_solver))
           ++ drop 2 (m_fields run_solver), [e])
     /\ (0 <= e)%Q)
  /\ WriteModalEnergy (energy_config 1) [] = Undefined
  /\ WriteModalEnergy (modal_config 4) modal_fields = Ok (modal_fields, [4; 6]%Q)
  /\ WriteModalEnergy (modal_config 4) [] = Undefined.
Proof.
  split; [|split; [|split]].
  - destruct (X10_WriteModalEnergy (energy_config 1) (m_fields run_solver))
      as (HA & _).
    apply HA; [reflexivity | simpl; lia].
  - destruct (X10_WriteModalEnergy (energy_config 1) []) as (_ & HB & _).
    apply HB; [reflexivity | simpl; lia].
  - destruct (X10_WriteModalEnergy (modal_config 4) modal_fields)
      as (_ & _ & HC & _).
    destruct (HC eq_refl) as (_ & _ & H3).
    destruct H3 as (_ & _ & H1 & _).
    + discriminate.
    + simpl. lia.
    + intros i f Hi Hf. simpl in Hi.
      destruct i as [|[|i]]; [| |lia]; injection Hf as <-; simpl; lia.
    + apply H1; reflexivity.
  - destruct (X10_WriteModalEnergy (modal_config 4) []) as (_ & _ & HC & _).
    destruct (HC eq_refl) as (_ & H2 & _).
    apply H2; [discriminate | simpl; lia].
Defined.

End EnergyExamples.

(** ** Callbacks of the sub-step integrator and of the advection operator *)

(** What [SubStepProjection] leaves in an output array: the input array
    over its first entries. *)
Lemma projection_step (inarray outarray : list (list Q)) (k : nat)
    (x y : list Q) :
  inarray !! k = Some x -> outarray !! k = Some y ->
  <[k := x ++ drop (length x) y]>
    (zip_with (fun x y => x ++ drop (length x) y) (take k inarray)
       (take k outarray) ++ drop k outarray)
  = zip_with (fun x y => x ++ drop (length x) y) (take (S k) inarray)
      (take (S k) outarray) ++ drop (S k) outarray.
Proof.
  intros Hx Hy.
  pose proof (lookup_lt_Some _ _ _ Hx) as Hkx.
  pose proof (lookup_lt_Some _ _ _ Hy) as Hky.
  assert (Hl : length (zip_with (fun x y => x ++ drop (length x) y)
                         (take k inarray) (take k outarray)) = k)
    by (rewrite length_zip_with, !length_take; lia).
  rewrite <- (Nat.add_0_r k) at 1. rewrite <- Hl at 1.
  rewrite insert_app_r, (drop_S _ _ _ Hy). cbn [insert list_insert].
  rewrite (take_S_r _ _ _ Hx), (take_S_r _ _ _ Hy).
  rewrite zip_with_app by (rewrite !length_take; lia).
  rewrite <- app_assoc. reflexivity.
Qed.

(** X11: the projection of the sub-step scheme is a copy.  Every output
    array receives its input array over its first entries; on arrays of
    the same shape the result is the input itself.  Too few or too short
    output arrays are an out-of-bounds access (in a debug build a different
    number of arrays is the fatal "Inarray and outarray of different
    sizes "). *)
Theorem X11_SubStepProjection_copy (debug : bool)
    (inarray outarray : list (list Q)) (time : Q) :
  ((debug = false \/ length inarray = length outarray) ->
   (length inarray <= length outarray)%nat ->
   (forall i x y, inarray !! i = Some x -> outarray !! i = Some y ->
      (length x <= length y)%nat) ->
   SubStepProjection debug inarray outarray time
   = Ok (zip_with (fun x y => x ++ drop (length x) y) inarray
           (take (length inarray) outarray)
         ++ drop (length inarray) outarray))
  /\ (Forall2 (fun x y => length x = length y) inarray outarray ->
      SubStepProjection debug inarray outarray time = Ok inarray)
  /\ (debug = true -> length inarray <> length outarray ->
      SubStepProjection debug inarray outarray time
      = Fatal "Inarray and outarray of different sizes ")
  /\ (debug = false -> (length outarray < length inarray)%nat ->
      SubStepProjection debug inarray outarray time = Undefined).
Proof.
  assert (Hassert : debug = false \/ length inarray = length outarray ->
    ASSERTL1 debug (bool_decide (length inarray = length outarray))
      "Inarray and outarray of different sizes " = Ok ()).
  { intros [-> | E]; [reflexivity|]. unfold ASSERTL1.
    rewrite bool_decide_eq_true_2 by exact E. rewrite andb_false_r. reflexivity. }
  assert (Hgen : (debug = false \/ length inarray = length outarray) ->
   (length inarray <= length outarray)%nat ->
   (forall i x y, inarray !! i = Some x -> outarray !! i = Some y ->
      (length x <= length y)%nat) ->
   SubStepProjection debug inarray outarray time
   = Ok (zip_with (fun x y => x ++ drop (length x) y) inarray
           (take (length inarray) outarray)
         ++ drop (length inarray) outarray)).
  { intros Hd Hlen Hfit. unfold SubStepProjection. rewrite (Hassert Hd).
    cbn [mbind result_bind].
    match goal with |- context [for_each (upto 0 ?n) ?body outarray] =>
      destruct (for_each_upto
        (fun k (out : list (list Q)) =>
           out = zip_with (fun x y => x ++ drop (length x) y) (take k inarray)
                   (take k outarray) ++ drop k outarray)
        0 n body outarray) as (out & Hrun & Hout)
    end.
    - lia.
    - rewrite !take_0, drop_0. reflexivity.
    - intros k out [_ Hk] ->.
      destruct (lookup_lt_is_Some_2 inarray k Hk) as [x Hx].
      destruct (lookup_lt_is_Some_2 outarray k ltac:(lia)) as [y Hy].
      rewrite (proj2 (rd_Ok _ _ _) Hx). cbn [mbind result_bind].
      assert (Hlk : (zip_with (fun x y => x ++ drop (length x) y) (take k inarray)
                       (take k outarray) ++ drop k outarray) !! k = Some y).
      { rewrite lookup_app_r by (rewrite length_zip_with, !length_take; lia).
        rewrite length_zip_with, !length_take, lookup_drop.
        replace (k + (k - (k `min` length inarray) `min` (k `min` length outarray)))%nat
          with k by lia.
        exact Hy. }
      rewrite (proj2 (rd_Ok _ _ _) Hlk). cbn [mbind result_bind].
      unfold Vcopy. rewrite (proj2 (fits_true _ _)) by lia.
      rewrite (proj2 (fits_true _ _)) by (eapply Hfit; eassumption).
      cbn [andb mbind result_bind]. rewrite firstn_all.
      rewrite wr_lt by (apply lookup_lt_Some in Hlk; exact Hlk).
      eexists. split; [reflexivity|]. apply projection_step; assumption.
    - rewrite Hrun, Hout. rewrite firstn_all. reflexivity. }
  split; [exact Hgen|]. split; [|split].
  - intros Hshape. pose proof (Forall2_length _ _ _ Hshape) as Hlen.
    rewrite Hgen.
    + f_equal. rewrite Hlen, firstn_all, drop_all, app_nil_r.
      clear -Hshape. induction Hshape as [|x y l l' Hxy _ IH]; [reflexivity|].
      cbn [zip_with]. rewrite IH, Hxy, drop_all, app_nil_r. reflexivity.
    + right. exact Hlen.
    + lia.
    + intros i x y Hx Hy.
      rewrite Forall2_lookup in Hshape. specialize (Hshape i).
      rewrite Hx, Hy in Hshape. inversion Hshape. lia.
  - intros -> Hne. unfold SubStepProjection, ASSERTL1.
    rewrite bool_decide_eq_false_2 by exact Hne. reflexivity.
  - intros -> Hlt. unfold SubStepProjection. cbn [ASSERTL1 andb mbind result_bind].
    assert (Hsplit : upto 0 (length inarray)
              = upto 0 (length outarray) ++ length outarray
                  :: upto (S (length outarray)) (length inarray)).
    { unfold upto.
      replace (length inarray - 0)%nat
        with (length outarray + S (length inarray - S (length outarray)))%nat
        by lia.
      rewrite seq_app. cbn [seq]. rewrite !Nat.sub_0_r. reflexivity. }
    rewrite Hsplit, for_each_app.
    match goal with |- context [for_each (upto 0 ?n) ?body outarray] =>
      destruct (for_each (upto 0 n) body outarray) as [out|msg|] eqn:Hrun;
        [| exfalso; revert Hrun; apply not_fatal_for_each; intros i o;
           unfold Vcopy; no_fatal
         | reflexivity];
      assert (Hout : length out = length outarray)
    end.
    { refine (proj1 (for_each_Ok_inv (fun o : list (list Q) =>
                length o = length outarray) _ _ _ _ _ _ Hrun));
        [|reflexivity].
      intros i o o' Ho Hb.
      apply bind_Ok in Hb as (x & _ & Hb). apply bind_Ok in Hb as (y & _ & Hb).
      apply bind_Ok in Hb as (y' & _ & Hb). unfold wr in Hb.
      case_decide; [|discriminate]. injection Hb as <-.
      rewrite length_insert. exact Ho. }
    cbn [mbind result_bind for_each].
    destruct (rd_lt inarray (length outarray) Hlt) as (x & -> & _).
    cbn [mbind result_bind]. rewrite rd_ge by lia. reflexivity.
Qed.

Lemma X11_SubStepProjection_copy_witness :
  SubStepProjection false [[1; 2]; [3]]%Q [[0; 0]; [0]]%Q 0 = Ok [[1; 2]; [3]]%Q
  /\ SubStepProjection true [[1; 2]; [3]]%Q [[0; 0]]%Q 0
     = Fatal "Inarray and outarray of different sizes "
  /\ SubStepProjection false [[1; 2]; [3]]%Q [[0; 0]]%Q 0 = Undefined.
Proof.
  split; [|split].
  - apply (X11_SubStepProjection_copy false [[1; 2]; [3]]%Q [[0; 0]; [0]]%Q 0).
    repeat constructor.
  - apply (X11_SubStepProjection_copy true [[1; 2]; [3]]%Q [[0; 0]]%Q 0);
      [reflexivity | simpl; lia].
  - apply (X11_SubStepProjection_copy false [[1; 2]; [3]]%Q [[0; 0]]%Q 0);
      [reflexivity | simpl; lia].
Defined.

Lemma Vmul_Ok (n : nat) (x y z : list Q) :
  (n <= length x)%nat -> (n <= length y)%nat -> (n <= length z)%nat ->
  exists z', Vmul n x y z = Ok z' /\ length z' = length z /\
    (forall k, (k < n)%nat ->
       exists xk yk, x !! k = Some xk /\ y !! k = Some yk /\
         z' !! k = Some (xk * yk)%Q) /\
    (forall k, (n <= k)%nat -> z' !! k = z !! k).
Proof.
  intros Hx Hy Hz. unfold Vmul.
  rewrite !(proj2 (fits_true _ _)) by assumption. cbn [andb].
  eexists. split; [reflexivity|].
  assert (Hl : length (zip_with Qmult (take n x) (take n y)) = n)
    by (rewrite length_zip_with, !length_take; lia).
  split; [|split].
  - rewrite length_app, Hl, length_drop. lia.
  - intros k Hk.
    destruct (lookup_lt_is_Some_2 x k ltac:(lia)) as [xk Hxk].
    destruct (lookup_lt_is_Some_2 y k ltac:(lia)) as [yk Hyk].
    exists xk, yk. split; [exact Hxk|]. split; [exact Hyk|].
    rewrite lookup_app_l by lia. rewrite lookup_zip_with.
    rewrite !lookup_take_lt by exact Hk. rewrite Hxk, Hyk. reflexivity.
  - intros k Hk. rewrite lookup_app_r by lia. rewrite Hl, lookup_drop.
    f_equal. lia.
Qed.

(** X12: [v_GetFluxVector] fills flux array [j] with the pointwise product
    of [physfield[i]] and the physical values of velocity component [j],
    over the first [GetNpoints] entries, and leaves the rest of each array
    as it was.  In a debug build a number of flux arrays other than the
    number of velocity components is fatal. *)
Theorem X12_flux_vector (debug : bool) (cfg : Config) (m_fields : list Field)
    (npoints i : nat) (physfield flux : list (list Q)) (p : list Q) :
  ((debug = false \/ length flux = length (m_velocity cfg)) ->
   (length flux <= length (m_velocity cfg))%nat ->
   physfield !! i = Some p -> (npoints <= length p)%nat ->
   (forall v, v ∈ m_velocity cfg ->
      exists f, m_fields !! v = Some f /\ (npoints <= GetTotPoints f)%nat) ->
   Forall (fun y => npoints <= length y)%nat flux ->
   exists flux',
     v_GetFluxVector debug cfg m_fields npoints i physfield flux = Ok flux' /\
     length flux' = length flux /\
     forall j y, flux !! j = Some y ->
       exists v f y', m_velocity cfg !! j = Some v /\ m_fields !! v = Some f /\
         flux' !! j = Some y' /\ length y' = length y /\
         (forall k, (k < npoints)%nat ->
            exists pk uk, p !! k = Some pk /\ m_phys f !! k = Some uk /\
              y' !! k = Some (pk * uk)%Q) /\
         (forall k, (npoints <= k)%nat -> y' !! k = y !! k))
  /\ (debug = true -> length flux <> length (m_velocity cfg) ->
      v_GetFluxVector debug cfg m_fields npoints i physfield flux
      = Fatal "Dimension of flux array and velocity array do not match").
Proof.
  split.
  - intros Hd Hlen Hp Hnp Hvel Hflux. unfold v_GetFluxVector.
    assert (Hassert :
      ASSERTL1 debug (bool_decide (length flux = length (m_velocity cfg)))
        "Dimension of flux array and velocity array do not match" = Ok ()).
    { destruct Hd as [-> | E]; [reflexivity|]. unfold ASSERTL1.
      rewrite bool_decide_eq_true_2 by exact E. rewrite andb_false_r.
      reflexivity. }
    rewrite Hassert. cbn [mbind result_bind].
    pose (done := fun (j : nat) (y y' : list Q) =>
      exists v f, m_velocity cfg !! j = Some v /\ m_fields !! v = Some f /\
        length y' = length y /\
        (forall k, (k < npoints)%nat ->
           exists pk uk, p !! k = Some pk /\ m_phys f !! k = Some uk /\
             y' !! k = Some (pk * uk)%Q) /\
        (forall k, (npoints <= k)%nat -> y' !! k = y !! k)).
    match goal with |- context [for_each (upto 0 ?n) ?body flux] =>
      destruct (for_each_upto
        (fun m (fl : list (list Q)) =>
           length fl = length flux /\
           (forall j, (m <= j)%nat -> fl !! j = flux !! j) /\
           (forall j y, (j < m)%nat -> flux !! j = Some y ->
              exists y', fl !! j = Some y' /\ done j y y'))
        0 n body flux) as (fl & Hrun & Hfl & _ & Hdone)
    end.
    + lia.
    + split; [reflexivity|]. split; [reflexivity | intros j y Hj; lia].
    + intros m fl [_ Hm] (Hfl & Hrest & Hdone).
      rewrite (proj2 (rd_Ok _ _ _) Hp). cbn [mbind result_bind].
      destruct (rd_lt (m_velocity cfg) m ltac:(lia)) as (v & -> & Hv).
      cbn [mbind result_bind].
      destruct (Hvel v) as (f & Hf & Hfn); [apply list_elem_of_lookup; eauto|].
      rewrite (proj2 (rd_Ok _ _ _) Hf). cbn [mbind result_bind].
      destruct (lookup_lt_is_Some_2 flux m Hm) as [y Hy].
      assert (Hy' : fl !! m = Some y) by (rewrite Hrest by lia; exact Hy).
      rewrite (proj2 (rd_Ok _ _ _) Hy'). cbn [mbind result_bind].
      assert (Hyn : (npoints <= length y)%nat).
      { rewrite Forall_forall in Hflux. apply Hflux, list_elem_of_lookup. eauto. }
      destruct (Vmul_Ok npoints p (m_phys f) y Hnp Hfn Hyn)
        as (y1 & -> & Hy1l & Hy1k & Hy1r).
      cbn [mbind result_bind]. rewrite wr_lt by lia.
      eexists. split; [reflexivity|].
      split; [rewrite length_insert; exact Hfl|]. split.
      * intros j Hj. rewrite list_lookup_insert_ne by lia. apply Hrest. lia.
      * intros j y0 Hj Hy0. destruct (decide (j = m)) as [->|Hne].
        -- assert (y0 = y) as -> by congruence.
           exists y1. split; [apply list_lookup_insert_eq; lia|].
           exists v, f. repeat split; assumption.
        -- rewrite list_lookup_insert_ne by lia. apply Hdone; [lia | exact Hy0].
    + exists fl. split; [exact Hrun|]. split; [exact Hfl|].
      intros j y Hy. pose proof (lookup_lt_Some _ _ _ Hy) as Hj.
      destruct (Hdone j y Hj Hy) as (y' & Hy' & v & f & Hv & Hf & Hl & Hk & Hr).
      exists v, f, y'. repeat split; assumption.
  - intros -> Hne. unfold v_GetFluxVector, ASSERTL1.
    rewrite bool_decide_eq_false_2 by exact Hne. reflexivity.
Qed.

Lemma X12_flux_vector_witness :
  (exists flux',
     v_GetFluxVector true (cfl_config 2) cfl_fields 2 0
       [[3; 4]]%Q [[0; 0; 9]; [0; 0; 9]]%Q = Ok flux' /\
     length flux' = 2%nat /\
     forall j y, [[0; 0; 9]; [0; 0; 9]]%Q !! j = Some y ->
       exists v f y', m_velocity (cfl_config 2) !! j = Some v /\
         cfl_fields !! v = Some f /\
         flux' !! j = Some y' /\ length y' = length y /\
         (forall k, (k < 2)%nat ->
            exists pk uk, [3; 4]%Q !! k = Some pk /\ m_phys f !! k = Some uk /\
              y' !! k = Some (pk * uk)%Q) /\
         (forall k, (2 <= k)%nat -> y' !! k = y !! k))
  /\ v_GetFluxVector true (cfl_config 2) cfl_fields 2 0 [[3; 4]]%Q [[0; 0; 9]]%Q
     = Fatal "Dimension of flux array and velocity array do not match".
Proof.
  split.
  - apply (X12_flux_vector true (cfl_config 2) cfl_fields 2 0 [[3; 4]]%Q
             [[0; 0; 9]; [0; 0; 9]]%Q [3; 4]%Q).
    + right. reflexivity.
    + simpl. lia.
    + reflexivity.
    + simpl. lia.
    + intros v Hv. simpl in Hv.
      repeat (apply elem_of_cons in Hv as [->|Hv];
              [eexists; split; [reflexivity | unfold GetTotPoints; simpl; lia]|]).
      apply elem_of_nil in Hv. destruct Hv.
    + repeat constructor; simpl; lia.
  - apply (X12_flux_vector true (cfl_config 2) cfl_fields 2 0 [[3; 4]]%Q
             [[0; 0; 9]]%Q [3; 4]%Q); [reflexivity | simpl; lia].
Defined.

(** X13: [EvaluateAdvectionTerms] accepts an empty workspace, for which it
    allocates [nqtot * VelDim] entries itself, or one of at least that many
    entries, which the advection operator then works in; a shorter
    non-empty workspace is the fatal "Workspace is not sufficient". *)
Theorem X13_advection_workspace
    (DoAdvection : list Field -> nat -> list nat -> list (list Q) ->
                   list (list Q) -> Q -> list Q -> list (list Q) * list Q)
    (alloc : nat -> list Q) (cfg : Config) (m_fields : list Field) (m_time : Q)
    (inarray outarray : list (list Q)) (wk : list Q) (f0 : Field) :
  let need := (GetTotPoints f0 * length (m_velocity cfg))%nat in
  let advect := DoAdvection m_fields (m_nConvectiveFields cfg) (m_velocity cfg)
                  inarray outarray m_time in
  m_fields !! 0%nat = Some f0 ->
  (forall v, v ∈ m_velocity cfg -> (v < length inarray)%nat) ->
  ((0 < length wk < need)%nat ->
     EvaluateAdvectionTerms DoAdvection alloc cfg m_fields m_time inarray
       outarray wk = Fatal "Workspace is not sufficient")
  /\ ((0 < length wk)%nat -> (need <= length wk)%nat ->
      EvaluateAdvectionTerms DoAdvection alloc cfg m_fields m_time inarray
        outarray wk = Ok (advect wk))
  /\ (wk = [] ->
      EvaluateAdvectionTerms DoAdvection alloc cfg m_fields m_time inarray
        outarray wk = Ok ((advect (alloc need)).1, [])).
Proof.
  intros need advect Hf0 Hvel.
  assert (Hpre : forall k : list (list Q) -> result (list (list Q) * list Q),
    (forall a b, k a = k b) ->
    (for_each (upto 0 (length (m_velocity cfg))) (λ i velocity,
        v ← rd (m_velocity cfg) i;
        x ← rd inarray v;
        wr velocity i x) (replicate (length (m_velocity cfg)) []) ≫= k)
    = k []).
  { intros k Hk.
    destruct (for_each_upto
      (fun _ (vs : list (list Q)) => length vs = length (m_velocity cfg))
      0 (length (m_velocity cfg))
      (λ i velocity,
        v ← rd (m_velocity cfg) i;
        x ← rd inarray v;
        wr velocity i x) (replicate (length (m_velocity cfg)) []))
      as (vs & -> & _).
    - lia.
    - apply length_replicate.
    - intros i vs [_ Hi] Hvs.
      destruct (rd_lt (m_velocity cfg) i Hi) as (v & -> & Hv).
      cbn [mbind result_bind].
      destruct (rd_lt inarray v) as (x & -> & _);
        [apply Hvel, list_elem_of_lookup; eauto|].
      cbn [mbind result_bind]. rewrite wr_lt by lia.
      eexists. split; [reflexivity|]. rewrite length_insert. exact Hvs.
    - cbn [mbind result_bind]. apply Hk. }
  unfold EvaluateAdvectionTerms. rewrite (proj2 (rd_Ok _ _ _) Hf0).
  cbn [mbind result_bind]. cbv zeta. fold need.
  split; [|split].
  - intros [H0 Hlt]. rewrite Hpre by reflexivity.
    rewrite bool_decide_eq_true_2 by lia.
    rewrite bool_decide_eq_false_2 by lia. reflexivity.
  - intros H0 Hle. rewrite Hpre by reflexivity.
    rewrite bool_decide_eq_true_2 by lia.
    rewrite bool_decide_eq_true_2 by lia. reflexivity.
  - intros ->. rewrite Hpre by reflexivity.
    rewrite bool_decide_eq_false_2 by (simpl; lia).
    fold advect. destruct (advect (alloc need)) as [out d]. reflexivity.
Qed.

Lemma X13_advection_workspace_witness :
  EvaluateAdvectionTerms (fun _ _ _ _ out _ wk => (out, wk)) (fun n => replicate n 0%Q)
    (cfl_config 2) cfl_fields 0 cfl_velocity cfl_velocity [0; 0; 0]%Q
  = Fatal "Workspace is not sufficient"
  /\ EvaluateAdvectionTerms (fun _ _ _ _ out _ wk => (out, wk))
       (fun n => replicate n 0%Q)
       (cfl_config 2) cfl_fields 0 cfl_velocity cfl_velocity [0; 0; 0; 0]%Q
     = Ok (cfl_velocity, [0; 0; 0; 0]%Q)
  /\ EvaluateAdvectionTerms (fun _ _ _ _ out _ wk => (out, wk))
       (fun n => replicate n 0%Q)
       (cfl_config 2) cfl_fields 0 cfl_velocity cfl_velocity []
     = Ok (cfl_velocity, []).
Proof.
  assert (Hvel : forall v, v ∈ m_velocity (cfl_config 2) ->
                   (v < length cfl_velocity)%nat).
  { intros v Hv. simpl in Hv.
    repeat (apply elem_of_cons in Hv as [->|Hv]; [simpl; lia|]).
    apply elem_of_nil in Hv. destruct Hv. }
  split; [|split].
  - apply (X13_advection_workspace (fun _ _ _ _ out _ wk => (out, wk))
             (fun n => replicate n 0%Q) (cfl_config 2) cfl_fields 0 cfl_velocity
             cfl_velocity [0; 0; 0]%Q (mkField [1; 2] [1; 2] true false)%Q
             eq_refl Hvel).
    unfold GetTotPoints. simpl. lia.
  - apply (X13_advection_workspace (fun _ _ _ _ out _ wk => (out, wk))
             (fun n => replicate n 0%Q) (cfl_config 2) cfl_fields 0 cfl_velocity
             cfl_velocity [0; 0; 0; 0]%Q (mkField [1; 2] [1; 2] true false)%Q
             eq_refl Hvel); unfold GetTotPoints; simpl; lia.
  - apply (X13_advection_workspace (fun _ _ _ _ out _ wk => (out, wk))
             (fun n => replicate n 0%Q) (cfl_config 2) cfl_fields 0 cfl_velocity
             cfl_velocity [] (mkField [1; 2] [1; 2] true false)%Q
             eq_refl Hvel). reflexivity.
Defined.

(** ** Boundary conditions *)

Lemma time_dependent_snoc (conds : list BndUserDefinedType)
    (c : BndUserDefinedType) :
  time_dependent (conds ++ [c])
  = (time_dependent conds + if decide (c = eTimeDependent) then 1 else 0)%nat.
Proof.
  unfold time_dependent. rewrite filter_app, length_app. f_equal.
  rewrite filter_cons, filter_nil. destruct (decide (c = eTimeDependent));
    reflexivity.
Qed.

(** X14: [SetBoundaryConditions] goes through the Fields in order and calls
    [EvaluateBoundaryConditions(time)] on a Field once for each of its
    time-dependent boundary conditions: a Field with [k] of them is
    evaluated [k] times in a row, a Field with none is not evaluated. *)
Theorem X14_boundary_condition_calls (bnd : list (list BndUserDefinedType))
    (time : Q) :
  SetBoundaryConditions bnd time
  = Ok (concat (imap (fun i conds => replicate (time_dependent conds) (i, time))
                  bnd)).
Proof.
  unfold SetBoundaryConditions.
  match goal with |- context [for_each (upto 0 ?n) ?body []] =>
    destruct (for_each_upto
      (fun k (calls : list (nat * Q)) =>
         calls = concat (imap (fun i conds =>
                   replicate (time_dependent conds) (i, time)) (take k bnd)))
      0 n body []) as (calls & Hrun & Hcalls)
  end.
  - lia.
  - rewrite take_0. reflexivity.
  - intros k calls [_ Hk] ->.
    destruct (lookup_lt_is_Some_2 bnd k Hk) as [conds Hconds].
    rewrite (proj2 (rd_Ok _ _ _) Hconds). cbn [mbind result_bind].
    set (base := concat (imap (fun i conds =>
                   replicate (time_dependent conds) (i, time)) (take k bnd))).
    match goal with |- context [for_each (upto 0 ?n) ?body base] =>
      destruct (for_each_upto
        (fun m (calls : list (nat * Q)) =>
           calls = base ++ replicate (time_dependent (take m conds)) (k, time))
        0 n body base) as (calls & Hrun & Hcalls)
    end.
    + lia.
    + rewrite take_0. cbn. rewrite app_nil_r. reflexivity.
    + intros m calls [_ Hm] ->.
      destruct (lookup_lt_is_Some_2 conds m Hm) as [c Hc].
      rewrite (proj2 (rd_Ok _ _ _) Hc). cbn [mbind result_bind].
      eexists. split; [reflexivity|].
      rewrite (take_S_r _ _ _ Hc), time_dependent_snoc.
      destruct (decide (c = eTimeDependent)).
      * rewrite <- app_assoc. f_equal.
        replace (time_dependent (take m conds) + 1)%nat
          with (S (time_dependent (take m conds))) by lia.
        rewrite replicate_S_end. reflexivity.
      * rewrite Nat.add_0_r. reflexivity.
    + exists calls. split; [exact Hrun|]. rewrite Hcalls, firstn_all.
      rewrite (take_S_r _ _ _ Hconds), imap_app, concat_app.
      unfold base. f_equal. cbn. rewrite app_nil_r, length_take.
      rewrite Nat.add_0_r. replace (k `min` length bnd)%nat with k by lia.
      reflexivity.
  - rewrite Hrun, Hcalls, firstn_all. reflexivity.
Qed.

(** ** Set-up *)

Lemma first_index_Some (test : nat -> bool) (n i : nat) :
  first_index test n = Some i <->
  (i < n)%nat /\ test i = true /\ forall j, (j < i)%nat -> test j = false.
Proof.
  unfold first_index. rewrite fmap_Some. split.
  - intros ([k x] & Hfind & ->). simpl.
    apply list_find_Some in Hfind as (Hk & Ht & Hbefore).
    apply lookup_seq in Hk as [-> Hk]. simpl in *.
    split; [exact Hk|]. split; [exact Ht|].
    intros j Hj. specialize (Hbefore j j). 
    destruct (test j); [|reflexivity]. exfalso. apply Hbefore; [|lia|reflexivity].
    apply lookup_seq. split; [reflexivity | lia].
  - intros (Hi & Ht & Hbefore). exists (i, i). split; [|reflexivity].
    apply list_find_Some. split; [apply lookup_seq; split; [reflexivity | lia]|].
    split; [exact Ht|]. intros k j Hj Hk.
    apply lookup_seq in Hj as [-> _]. simpl. rewrite Hbefore by lia. discriminate.
Qed.

Lemma first_index_None (test : nat -> bool) (n : nat) :
  first_index test n = None <-> forall j, (j < n)%nat -> test j = false.
Proof.
  unfold first_index. rewrite fmap_None, list_find_None, Forall_forall. split.
  - intros H j Hj. specialize (H j). destruct (test j); [|reflexivity].
    exfalso. apply H; [|reflexivity]. apply elem_of_seq. lia.
  - intros H j Hj. apply elem_of_seq in Hj. rewrite H by lia. discriminate.
Qed.

Lemma list_find_seq_cons (P : nat -> Prop) `{!forall i, Decision (P i)}
    (a len : nat) :
  snd <$> list_find P (seq a (S len))
  = if decide (P a) then Some a else snd <$> list_find P (seq (S a) len).
Proof.
  cbn [seq list_find]. destruct (decide (P a)); [reflexivity|].
  rewrite <- option_fmap_compose. apply option_fmap_ext. intros [k x]. reflexivity.
Qed.

(** The loop counter that a search with [break] leaves. *)
Lemma first_match_spec (test : nat -> result bool) (t : nat -> bool) (n : nat) :
  (forall i, (i < n)%nat -> test i = Ok (t i)) ->
  first_match test (upto 0 n) n = Ok (default n (first_index t n)).
Proof.
  intros Htest. unfold upto, first_index. rewrite Nat.sub_0_r.
  assert (Hgen : forall len a, (a + len = n)%nat ->
    first_match test (seq a len) n
    = Ok (default n (snd <$> list_find (fun i => t i = true) (seq a len)))).
  { induction len as [|len IH]; intros a Ha; [reflexivity|].
    rewrite list_find_seq_cons. cbn [seq first_match].
    rewrite Htest by lia. cbn [mbind result_bind].
    destruct (t a) eqn:E.
    - destruct (decide (true = true)); [reflexivity | congruence].
    - destruct (decide (false = true)); [discriminate|]. apply IH. lia. }
  apply Hgen. lia.
Qed.

Lemma search_variable_spec (velid : string) (numfields : nat)
    (variables : list string) (entry : option nat) :
  (numfields <= length variables)%nat ->
  search_variable velid numfields variables (upto 0 numfields) entry
  = Ok (match first_index
                (fun j => NoCaseStringCompare_is_0 velid
                            (default ""%string (variables !! j))) numfields with
        | Some j => Some j
        | None => entry
        end).
Proof.
  intros Hn. unfold upto, first_index. rewrite Nat.sub_0_r.
  assert (Hgen : forall len a, (a + len = numfields)%nat ->
    search_variable velid numfields variables (seq a len) entry
    = Ok (match snd <$> list_find
                  (fun j => NoCaseStringCompare_is_0 velid
                              (default ""%string (variables !! j)) = true)
                  (seq a len) with
          | Some j => Some j
          | None => entry
          end)).
  { induction len as [|len IH]; intros a Ha; [reflexivity|].
    rewrite list_find_seq_cons. cbn [seq search_variable].
    destruct (rd_lt variables a ltac:(lia)) as (var & -> & Hvar).
    cbn [mbind result_bind].
    assert (Hdef : default ""%string (variables !! a) = var)
      by (rewrite Hvar; reflexivity).
    rewrite Hdef.
    destruct (NoCaseStringCompare_is_0 velid var) eqn:E.
    - destruct (decide (true = true)); [reflexivity | congruence].
    - destruct (decide (false = true)); [discriminate|].
      destruct (decide (a = numfields)); [lia|]. apply IH. lia. }
  apply Hgen. lia.
Qed.

Lemma not_fatal_search_variable (velid : string) (numfields : nat)
    (variables : list string) (entry : option nat) :
  not_fatal (search_variable velid numfields variables (upto 0 numfields) entry).
Proof.
  unfold upto. rewrite Nat.sub_0_r.
  assert (Hgen : forall len a, (a + len = numfields)%nat ->
    not_fatal (search_variable velid numfields variables (seq a len) entry)).
  { induction len as [|len IH]; intros a Ha; [apply not_fatal_Ok|].
    cbn [seq search_variable]. apply not_fatal_bind; [apply not_fatal_rd|].
    intros var. destruct (NoCaseStringCompare_is_0 velid var);
      [apply not_fatal_Ok|].
    rewrite decide_False by lia. apply IH. lia. }
  apply Hgen. lia.
Qed.

(** X15: the set-up maps velocity component [i] to the first variable of
    the session whose name is "u", "v" or "w" (the [i]-th of them) up to
    case.  The report "Failed to find field" cannot be reached, its test
    sits inside the loop it should follow: a velocity variable that the
    session lacks goes unnoticed and leaves its entry of [m_velocity] as
    allocated.  More than three space dimensions read past the three
    names. *)
Theorem X15_velocity_search (m_spacedim numfields : nat)
    (variables : list string) :
  ((m_spacedim <= 3)%nat -> (numfields <= length variables)%nat ->
   velocity_indices m_spacedim numfields variables
   = Ok ((fun velid =>
            first_index (fun j => NoCaseStringCompare_is_0 velid
                                    (default ""%string (variables !! j)))
              numfields) <$> take m_spacedim velids))
  /\ not_fatal (velocity_indices m_spacedim numfields variables)
  /\ ((3 < m_spacedim)%nat -> (numfields <= length variables)%nat ->
      velocity_indices m_spacedim numfields variables = Undefined).
Proof.
  split; [|split].
  - intros Hsd Hn. unfold velocity_indices.
    set (found := fun velid =>
            first_index (fun j => NoCaseStringCompare_is_0 velid
                                    (default ""%string (variables !! j)))
              numfields).
    match goal with |- context [for_each (upto 0 ?n) ?body ?init] =>
      destruct (for_each_upto
        (fun k (vel : list (option nat)) =>
           vel = (found <$> take k velids) ++ replicate (m_spacedim - k) None)
        0 n body init) as (vel & Hrun & Hvel)
    end.
    + lia.
    + rewrite take_0, Nat.sub_0_r. reflexivity.
    + intros k vel [_ Hk] ->.
      destruct (rd_lt velids k ltac:(simpl; lia)) as (velid & -> & Hvelid).
      cbn [mbind result_bind]. rewrite search_variable_spec by exact Hn.
      cbn [mbind result_bind].
      assert (Hl : length (found <$> take k velids) = k)
        by (rewrite length_fmap, length_take; simpl; lia).
      rewrite wr_lt by (rewrite length_app, Hl, length_replicate; lia).
      eexists. split; [reflexivity|].
      rewrite <- (Nat.add_0_r k) at 1. rewrite <- Hl at 1. rewrite insert_app_r.
      replace (m_spacedim - k)%nat with (S (m_spacedim - S k)) by lia.
      cbn [replicate insert list_insert].
      rewrite (take_S_r _ _ _ Hvelid), fmap_app, <- app_assoc. cbn.
      f_equal. f_equal. unfold found. destruct (first_index _ _); reflexivity.
    + rewrite Hrun, Hvel, Nat.sub_diag. cbn. rewrite app_nil_r. reflexivity.
  - unfold velocity_indices. apply not_fatal_for_each. intros i vel.
    apply not_fatal_bind; [apply not_fatal_rd|]. intros velid.
    apply not_fatal_bind; [apply not_fatal_search_variable|]. intros e.
    apply not_fatal_wr.
  - intros Hsd Hn. unfold velocity_indices.
    assert (Hsplit : upto 0 m_spacedim = upto 0 3 ++ 3%nat :: upto 4 m_spacedim).
    { unfold upto. replace (m_spacedim - 0)%nat with (3 + S (m_spacedim - 4))%nat
        by lia.
      rewrite seq_app. reflexivity. }
    rewrite Hsplit, for_each_app.
    match goal with |- context [for_each (upto 0 3) ?body ?init] =>
      destruct (for_each_upto
        (fun k (vel : list (option nat)) => length vel = m_spacedim)
        0 3 body init) as (vel & -> & Hvel)
    end.
    + lia.
    + apply length_replicate.
    + intros k vel [_ Hk] Hl.
      destruct (rd_lt velids k ltac:(simpl; lia)) as (velid & -> & Hvelid).
      cbn [mbind result_bind]. rewrite search_variable_spec by exact Hn.
      cbn [mbind result_bind]. rewrite wr_lt by lia.
      eexists. split; [reflexivity|]. rewrite length_insert. exact Hl.
    + reflexivity.
Qed.

Lemma X15_velocity_search_witness :
  velocity_indices 3 4 ["V"; "p"; "U"; "u"]%string
  = Ok [Some 2%nat; Some 0%nat; None]
  /\ velocity_indices 4 4 ["V"; "p"; "U"; "u"]%string = Undefined.
Proof.
  split.
  - rewrite (proj1 (X15_velocity_search 3 4 ["V"; "p"; "U"; "u"]%string));
      [reflexivity | lia | simpl; lia].
  - apply (X15_velocity_search 4 4 ["V"; "p"; "U"; "u"]%string);
      [lia | simpl; lia].
Defined.

(** *** The equation type *)

Section InitObject.

Variables (h : Header) (ses : Session) (m_spacedim numfields : nat)
  (bnd : list (list BndUserDefinedType)) (m : Members)
  (velocity : list (option nat)).

Hypothesis Hvelocity :
  velocity_indices m_spacedim numfields (GetVariable ses) = Ok velocity.
Hypothesis Htable : (eEquationTypeSize h <= length (kEquationTypeStr h))%nat.

(** The index of the first name of [kEquationTypeStr] that the session
    gives as EQTYPE. *)
Local Abbreviation found :=
  (first_index (fun i => MatchSolverInfo ses "EQTYPE"
                           (default ""%string (kEquationTypeStr h !! i)))
     (eEquationTypeSize h)).

Lemma v_InitObject_unfold :
  v_InitObject h ses m_spacedim numfields bnd m =
  let i := default (eEquationTypeSize h) found in
  _ ← ASSERTL0 (bool_decide (i ≠ eEquationTypeSize h))
        "EQTYPE not found in SOLVERINFO section";
  let eq := EquationType_of_int h i in
  io ← equation_specific_setup ses bnd eq (mb_io m);
  '(i, ve) ←
    (if decide (eq = eUnsteadyViscoElastic) then
       i ← first_match (λ i,
              name ← rd (kEquationViscoElasticTypeStr h) i;
              Ok (MatchSolverInfo ses "VISELTYPE" name))
            (upto 0 (eEquationViscoElasticTypeSize h))
            (eEquationViscoElasticTypeSize h);
       Ok (i, if decide (i = eEquationViscoElasticTypeSize h)
              then mb_viscoelasticType m else ViscoElasticType_of_int h i)
     else Ok (i, mb_viscoelasticType m));
  _ ← ASSERTL0 (bool_decide (i ≠ eEquationViscoElasticTypeSize h))
        "VISELTYPE not found in SOLVERINFO section";
  kinvis ← required_parameter ses "Kinvis";
  Re ← required_parameter ses "Reynolds";
  Rmu ← required_parameter ses "Rmu";
  We ← required_parameter ses "Weissenberg";
  blood ←
    (if decide (ve = eHomogeneousBloodModel) then
       WeInf ← required_parameter ses "WeissenbergInf";
       etaN ← required_parameter ses "etaN";
       etaInf ← required_parameter ses "etaInf";
       Ok (WeInf, etaN, etaInf)
     else Ok (mb_blood m));
  let coefficients :=
    mkCoefficients kinvis Re Rmu We 1 1 (Rmu / Re) (1 / Re) (1 - Rmu) (1 / Re) in
  Ok (mkMembers velocity eq ve io blood coefficients
        (advection_object ses eq (mb_advObject m))).
Proof using Hvelocity Htable.
  unfold v_InitObject. rewrite Hvelocity. cbn [mbind result_bind].
  rewrite (first_match_spec _
    (fun i => MatchSolverInfo ses "EQTYPE"
                (default ""%string (kEquationTypeStr h !! i)))
    (eEquationTypeSize h)).
  - reflexivity.
  - intros i Hi. destruct (rd_lt (kEquationTypeStr h) i ltac:(lia)) as (s & -> & Hs).
    cbn [mbind result_bind]. rewrite Hs. reflexivity.
Qed.

Lemma found_lt (i : nat) : found = Some i -> (i < eEquationTypeSize h)%nat.
Proof. intros E. apply first_index_Some in E. tauto. Qed.

Lemma v_InitObject_found (i : nat) :
  found = Some i ->
  v_InitObject h ses m_spacedim numfields bnd m =
  let eq := EquationType_of_int h i in
  io ← equation_specific_setup ses bnd eq (mb_io m);
  '(i, ve) ←
    (if decide (eq = eUnsteadyViscoElastic) then
       i ← first_match (λ i,
              name ← rd (kEquationViscoElasticTypeStr h) i;
              Ok (MatchSolverInfo ses "VISELTYPE" name))
            (upto 0 (eEquationViscoElasticTypeSize h))
            (eEquationViscoElasticTypeSize h);
       Ok (i, if decide (i = eEquationViscoElasticTypeSize h)
              then mb_viscoelasticType m else ViscoElasticType_of_int h i)
     else Ok (i, mb_viscoelasticType m));
  _ ← ASSERTL0 (bool_decide (i ≠ eEquationViscoElasticTypeSize h))
        "VISELTYPE not found in SOLVERINFO section";
  kinvis ← required_parameter ses "Kinvis";
  Re ← required_parameter ses "Reynolds";
  Rmu ← required_parameter ses "Rmu";
  We ← required_parameter ses "Weissenberg";
  blood ←
    (if decide (ve = eHomogeneousBloodModel) then
       WeInf ← required_parameter ses "WeissenbergInf";
       etaN ← required_parameter ses "etaN";
       etaInf ← required_parameter ses "etaInf";
       Ok (WeInf, etaN, etaInf)
     else Ok (mb_blood m));
  let coefficients :=
    mkCoefficients kinvis Re Rmu We 1 1 (Rmu / Re) (1 / Re) (1 - Rmu) (1 / Re) in
  Ok (mkMembers velocity eq ve io blood coefficients
        (advection_object ses eq (mb_advObject m))).
Proof using Hvelocity Htable.
  intros E. rewrite v_InitObject_unfold. pose proof (found_lt i E) as Hi.
  rewrite E. cbn [default from_option id]. cbv zeta.
  unfold ASSERTL0 at 1. rewrite bool_decide_eq_true_2 by lia. reflexivity.
Qed.

(** What a successful set-up went through. *)
Lemma v_InitObject_Ok (m' : Members) :
  v_InitObject h ses m_spacedim numfields bnd m = Ok m' ->
  exists i io,
    found = Some i
    /\ equation_specific_setup ses bnd (EquationType_of_int h i) (mb_io m) = Ok io
    /\ mb_velocity m' = velocity
    /\ mb_equationType m' = EquationType_of_int h i
    /\ mb_io m' = io
    /\ mb_advObject m'
       = advection_object ses (EquationType_of_int h i) (mb_advObject m).
Proof using Hvelocity Htable.
  intros Hrun. destruct found as [i|] eqn:E.
  - rewrite (v_InitObject_found i E) in Hrun. cbv zeta in Hrun.
    apply bind_Ok in Hrun as (io & Hio & Hrun).
    apply bind_Ok in Hrun as ([i2 ve] & _ & Hrun).
    apply bind_Ok in Hrun as (u & _ & Hrun).
    apply bind_Ok in Hrun as (kinvis & _ & Hrun).
    apply bind_Ok in Hrun as (Re & _ & Hrun).
    apply bind_Ok in Hrun as (Rmu & _ & Hrun).
    apply bind_Ok in Hrun as (We & _ & Hrun).
    apply bind_Ok in Hrun as (blood & _ & Hrun).
    injection Hrun as <-. exists i, io. simpl. repeat split. exact Hio.
  - rewrite v_InitObject_unfold, E in Hrun. cbn [default from_option id] in Hrun.
    cbv zeta in Hrun. unfold ASSERTL0 at 1 in Hrun.
    rewrite bool_decide_eq_false_2 in Hrun by (intros Hne; apply Hne; reflexivity).
    discriminate Hrun.
Qed.

End InitObject.

(** X16: the set-up takes as equation type the first name of
    [kEquationTypeStr] that the session gives as EQTYPE.  It aborts with
    "EQTYPE not found in SOLVERINFO section" when there is none and with
    "Unknown or undefined equation type" when that type is [eNoEquationType]
    or [eUnsteadyLinearisedNS], which the [switch] does not list.  So after a
    successful set-up the advection operator is "NoAdvection" for the
    unsteady Stokes equations, whatever the AdvectiveType tag says, the
    operator named by the tag, or "Convective", for the Navier-Stokes and
    viscoelastic equations, and the one held before otherwise; the
    "Linearised" operator of lines 260-269 is never created. *)
Theorem X16_equation_type (h : Header) (ses : Session)
    (m_spacedim numfields : nat) (bnd : list (list BndUserDefinedType))
    (m : Members) (velocity : list (option nat)) :
  let found :=
    first_index (fun i => MatchSolverInfo ses "EQTYPE"
                            (default ""%string (kEquationTypeStr h !! i)))
      (eEquationTypeSize h) in
  velocity_indices m_spacedim numfields (GetVariable ses) = Ok velocity ->
  (eEquationTypeSize h <= length (kEquationTypeStr h))%nat ->
  (found = None ->
     v_InitObject h ses m_spacedim numfields bnd m
     = Fatal "EQTYPE not found in SOLVERINFO section")
  /\ (forall i, found = Some i ->
        EquationType_of_int h i = eNoEquationType \/
        EquationType_of_int h i = eUnsteadyLinearisedNS ->
        v_InitObject h ses m_spacedim numfields bnd m
        = Fatal "Unknown or undefined equation type")
  /\ (forall m', v_InitObject h ses m_spacedim numfields bnd m = Ok m' ->
        (exists i, found = Some i /\
           mb_equationType m' = EquationType_of_int h i)
        /\ mb_equationType m' <> eNoEquationType
        /\ mb_equationType m' <> eUnsteadyLinearisedNS
        /\ mb_velocity m' = velocity
        /\ mb_advObject m' =
           match mb_equationType m' with
           | eUnsteadyStokes => Some "NoAdvection"%string
           | eUnsteadyNavierStokes | eSteadyNavierStokes
           | eUnsteadyViscoElastic =>
               Some (default "Convective"%string (GetTag ses "AdvectiveType"))
           | _ => mb_advObject m
           end).
Proof.
  intros found Hvel Htab. split; [|split].
  - intros E. rewrite (v_InitObject_unfold h ses m_spacedim numfields bnd m
                         velocity Hvel Htab).
    fold found. rewrite E. cbn [default from_option id]. cbv zeta.
    unfold ASSERTL0 at 1.
    rewrite bool_decide_eq_false_2 by (intros Hne; apply Hne; reflexivity).
    reflexivity.
  - intros i E Heq.
    rewrite (v_InitObject_found h ses m_spacedim numfields bnd m velocity Hvel
               Htab i E). cbv zeta.
    destruct Heq as [-> | ->]; reflexivity.
  - intros m' Hrun.
    destruct (v_InitObject_Ok h ses m_spacedim numfields bnd m velocity Hvel Htab
                m' Hrun) as (i & io & E & Hio & Hv & Heq & _ & Hadv).
    split; [exists i; split; assumption|].
    rewrite Hadv, Heq.
    destruct (EquationType_of_int h i); try discriminate Hio;
      (split; [discriminate|]); (split; [discriminate|]);
      (split; [exact Hv|]); reflexivity.
Qed.

(** *** The boundary conditions of the first Field *)

Lemma check_user_defined_spec (bnd : list (list BndUserDefinedType))
    (conds : list BndUserDefinedType) :
  bnd !! 0%nat = Some conds ->
  check_user_defined bnd
  = if decide (eOtherUserDefined ∈ conds)
    then Fatal "Unknown USERDEFINEDTYPE boundary condition" else Ok ().
Proof.
  intros Hc. unfold check_user_defined. rewrite (proj2 (rd_Ok _ _ _) Hc).
  cbn [mbind result_bind]. unfold upto. rewrite Nat.sub_0_r.
  assert (Hgen : forall len a, (a + len = length conds)%nat ->
    for_each (seq a len) (λ n _,
      c ← rd conds n;
      if decide (c ≠ eNoUserDefined) then
        if decide (c ≠ eTimeDependent) then
          if decide (c ≠ eI)
          then Fatal "Unknown USERDEFINEDTYPE boundary condition"
          else Ok ()
        else Ok ()
      else Ok ()) ()
    = if decide (eOtherUserDefined ∈ drop a conds)
      then Fatal "Unknown USERDEFINEDTYPE boundary condition" else Ok ()).
  { induction len as [|len IH]; intros a Ha.
    - rewrite drop_ge by lia. rewrite decide_False by apply not_elem_of_nil.
      reflexivity.
    - cbn [seq for_each].
      destruct (lookup_lt_is_Some_2 conds a ltac:(lia)) as [c Hca].
      rewrite (proj2 (rd_Ok _ _ _) Hca). cbn [mbind result_bind].
      rewrite (drop_S _ _ _ Hca).
      destruct c; cbn [mbind result_bind].
      + rewrite decide_False by (intros E; apply E; reflexivity).
        cbn [mbind result_bind]. rewrite IH by lia.
        destruct (decide (eOtherUserDefined ∈ drop (S a) conds)) as [Hin|Hin].
        * rewrite decide_True by (right; exact Hin). reflexivity.
        * rewrite decide_False; [reflexivity|].
          intros Hin'. apply elem_of_cons in Hin' as [?|?]; [discriminate|tauto].
      + rewrite decide_True by discriminate.
        rewrite decide_False by (intros E; apply E; reflexivity).
        cbn [mbind result_bind]. rewrite IH by lia.
        destruct (decide (eOtherUserDefined ∈ drop (S a) conds)) as [Hin|Hin].
        * rewrite decide_True by (right; exact Hin). reflexivity.
        * rewrite decide_False; [reflexivity|].
          intros Hin'. apply elem_of_cons in Hin' as [?|?]; [discriminate|tauto].
      + rewrite !decide_True by discriminate.
        rewrite decide_False by (intros E; apply E; reflexivity).
        cbn [mbind result_bind]. rewrite IH by lia.
        destruct (decide (eOtherUserDefined ∈ drop (S a) conds)) as [Hin|Hin].
        * rewrite decide_True by (right; exact Hin). reflexivity.
        * rewrite decide_False; [reflexivity|].
          intros Hin'. apply elem_of_cons in Hin' as [?|?]; [discriminate|tauto].
      + rewrite !decide_True by discriminate. cbn [mbind result_bind].
        rewrite decide_True by (left; reflexivity). reflexivity. }
  rewrite (Hgen (length conds) 0%nat) by lia. rewrite drop_0. reflexivity.
Qed.

(** X17: for the unsteady equations the set-up checks the user-defined
    boundary conditions of the first Field and of no other: it aborts with
    "Unknown USERDEFINEDTYPE boundary condition" when one of them is neither
    absent, nor time dependent, nor of type I, the check passes otherwise,
    and the conditions of the other Fields do not change the outcome.  For
    the steady equations no boundary condition is looked at. *)
Theorem X17_boundary_condition_check (h : Header) (ses : Session)
    (m_spacedim numfields : nat) (bnd : list (list BndUserDefinedType))
    (m : Members) (velocity : list (option nat)) (i : nat)
    (conds : list BndUserDefinedType) :
  let eq := EquationType_of_int h i in
  velocity_indices m_spacedim numfields (GetVariable ses) = Ok velocity ->
  (eEquationTypeSize h <= length (kEquationTypeStr h))%nat ->
  first_index (fun i => MatchSolverInfo ses "EQTYPE"
                          (default ""%string (kEquationTypeStr h !! i)))
    (eEquationTypeSize h) = Some i ->
  bnd !! 0%nat = Some conds ->
  (eq = eUnsteadyNavierStokes \/ eq = eUnsteadyStokes \/
   eq = eUnsteadyViscoElastic ->
     (eOtherUserDefined ∈ conds ->
        v_InitObject h ses m_spacedim numfields bnd m
        = Fatal "Unknown USERDEFINEDTYPE boundary condition")
     /\ (eOtherUserDefined ∉ conds -> check_user_defined bnd = Ok ())
     /\ (forall bnd', bnd' !! 0%nat = Some conds ->
           v_InitObject h ses m_spacedim numfields bnd' m
           = v_InitObject h ses m_spacedim numfields bnd m))
  /\ (eq = eSteadyStokes \/ eq = eSteadyOseen \/ eq = eSteadyNavierStokes \/
      eq = eSteadyLinearisedNS ->
      forall bnd', v_InitObject h ses m_spacedim numfields bnd' m
                   = v_InitObject h ses m_spacedim numfields bnd m).
Proof.
  intros eq Hvel Htab E Hc.
  pose proof (v_InitObject_found h ses m_spacedim numfields bnd m velocity Hvel
                Htab i E) as Hrun.
  cbv zeta in Hrun. fold eq in Hrun.
  assert (Hsetup : eq = eUnsteadyNavierStokes \/ eq = eUnsteadyStokes \/
                   eq = eUnsteadyViscoElastic ->
    forall b, b !! 0%nat = Some conds ->
    equation_specific_setup ses b eq (mb_io m)
    = equation_specific_setup ses [conds] eq (mb_io m)).
  { intros Heq b Hb. unfold equation_specific_setup.
    rewrite (check_user_defined_spec b conds Hb).
    rewrite (check_user_defined_spec [conds] conds eq_refl).
    reflexivity. }
  split.
  - intros Heq. split; [|split].
    + intros Hin. rewrite Hrun.
      assert (Hs : equation_specific_setup ses bnd eq (mb_io m)
                   = Fatal "Unknown USERDEFINEDTYPE boundary condition").
      { unfold equation_specific_setup.
        rewrite (check_user_defined_spec bnd conds Hc).
        destruct (decide (eOtherUserDefined ∈ conds)); [|contradiction].
        destruct Heq as [-> | [-> | ->]]; reflexivity. }
      rewrite Hs. reflexivity.
    + intros Hnin. rewrite (check_user_defined_spec bnd conds Hc).
      destruct (decide (eOtherUserDefined ∈ conds)); [contradiction|reflexivity].
    + intros bnd' Hc'. rewrite Hrun.
      rewrite (v_InitObject_found h ses m_spacedim numfields bnd' m velocity Hvel
                 Htab i E). cbv zeta. fold eq.
      rewrite (Hsetup Heq bnd Hc), (Hsetup Heq bnd' Hc'). reflexivity.
  - intros Heq bnd'. rewrite Hrun.
    rewrite (v_InitObject_found h ses m_spacedim numfields bnd' m velocity Hvel
               Htab i E). cbv zeta. fold eq.
    destruct Heq as [-> | [-> | [-> | ->]]]; reflexivity.
Qed.

(** *** The constitutive model *)

(** X18: the test that a constitutive model was found reads the counter of
    the loop over the equation types when the equations are not the
    viscoelastic ones.  A set-up whose equation type has the index
    [eEquationViscoElasticTypeSize] then aborts with "VISELTYPE not found in
    SOLVERINFO section"; with any other index the test passes, VISELTYPE is
    not read, the constitutive model stays the one held before, and the
    coefficients are 1, 1, Rmu/Re, 1/Re, 1 - Rmu and 1/Re. *)
Theorem X18_viscoelastic_type_check (h : Header) (ses : Session)
    (m_spacedim numfields : nat) (bnd : list (list BndUserDefinedType))
    (m : Members) (velocity : list (option nat)) (i : nat) (io : IOSetup) :
  let eq := EquationType_of_int h i in
  velocity_indices m_spacedim numfields (GetVariable ses) = Ok velocity ->
  (eEquationTypeSize h <= length (kEquationTypeStr h))%nat ->
  first_index (fun i => MatchSolverInfo ses "EQTYPE"
                          (default ""%string (kEquationTypeStr h !! i)))
    (eEquationTypeSize h) = Some i ->
  eq <> eUnsteadyViscoElastic ->
  equation_specific_setup ses bnd eq (mb_io m) = Ok io ->
  (i = eEquationViscoElasticTypeSize h ->
     v_InitObject h ses m_spacedim numfields bnd m
     = Fatal "VISELTYPE not found in SOLVERINFO section")
  /\ (i <> eEquationViscoElasticTypeSize h ->
      forall kinvis Re Rmu We : Q,
        required_parameter ses "Kinvis" = Ok kinvis ->
        required_parameter ses "Reynolds" = Ok Re ->
        required_parameter ses "Rmu" = Ok Rmu ->
        required_parameter ses "Weissenberg" = Ok We ->
        mb_viscoelasticType m <> eHomogeneousBloodModel ->
        v_InitObject h ses m_spacedim numfields bnd m
        = Ok (mkMembers velocity eq (mb_viscoelasticType m) io (mb_blood m)
                (mkCoefficients kinvis Re Rmu We 1 1 (Rmu / Re) (1 / Re)
                   (1 - Rmu) (1 / Re))
                (advection_object ses eq (mb_advObject m)))).
Proof.
  intros eq Hvel Htab E Hne Hio.
  pose proof (v_InitObject_found h ses m_spacedim numfields bnd m velocity Hvel
                Htab i E) as Hrun.
  cbv zeta in Hrun. fold eq in Hrun. rewrite Hio in Hrun.
  cbn [mbind result_bind] in Hrun.
  destruct (decide (eq = eUnsteadyViscoElastic)) as [Heq|_]; [contradiction|].
  cbn [mbind result_bind] in Hrun. split.
  - intros Hi. rewrite Hrun. unfold ASSERTL0.
    rewrite bool_decide_eq_false_2 by (intros Hn; apply Hn; exact Hi).
    reflexivity.
  - intros Hi kinvis Re Rmu We Hk HRe HRmu HWe Hve. rewrite Hrun.
    unfold ASSERTL0. rewrite bool_decide_eq_true_2 by exact Hi.
    cbn [mbind result_bind]. rewrite Hk, HRe, HRmu, HWe.
    cbn [mbind result_bind].
    destruct (decide (mb_viscoelasticType m = eHomogeneousBloodModel));
      [contradiction|].
    reflexivity.
Qed.

Section InitObjectExamples.

(** An unsteady Navier-Stokes session whose EQTYPE is written in lower
    case: the set-up succeeds and takes the operator of the tag. *)
Lemma X16_equation_type_witness :
  velocity_indices 2 3 (GetVariable (example_session "unsteadynavierstokes"))
  = Ok [Some 0%nat; Some 1%nat]
  /\ (eEquationTypeSize example_header
      <= length (kEquationTypeStr example_header))%nat
  /\ exists m',
       v_InitObject example_header (example_session "unsteadynavierstokes")
         2 3 [[eTimeDependent; eNoUserDefined]; []; []] example_members = Ok m'
       /\ mb_equationType m' = eUnsteadyNavierStokes
       /\ mb_advObject m' = Some "WeakDG"%string.
Proof.
  assert (Hvel : velocity_indices 2 3
                   (GetVariable (example_session "unsteadynavierstokes"))
                 = Ok [Some 0%nat; Some 1%nat]) by reflexivity.
  assert (Htab : (eEquationTypeSize example_header
                  <= length (kEquationTypeStr example_header))%nat)
    by (simpl; lia).
  split; [exact Hvel|]. split; [exact Htab|].
  destruct (v_InitObject example_header (example_session "unsteadynavierstokes")
              2 3 [[eTimeDependent; eNoUserDefined]; []; []] example_members)
    as [m'|msg|] eqn:Hrun; [| vm_compute in Hrun; discriminate Hrun ..].
  exists m'. split; [reflexivity|].
  destruct (X16_equation_type example_header
              (example_session "unsteadynavierstokes") 2 3
              [[eTimeDependent; eNoUserDefined]; []; []] example_members
              [Some 0%nat; Some 1%nat] Hvel Htab) as (_ & _ & Hok).
  destruct (Hok m' Hrun) as ((i & Hi & Heq) & _ & _ & _ & Hadv).
  vm_compute in Hi. injection Hi as <-.
  assert (Heq' : mb_equationType m' = eUnsteadyNavierStokes) by exact Heq.
  split; [exact Heq'|]. rewrite Hadv, Heq'. reflexivity.
Defined.

(** The same session with a boundary condition of an unknown kind on the
    first Field. *)
Lemma X17_boundary_condition_check_witness :
  v_InitObject example_header (example_session "UnsteadyNavierStokes") 2 3
    [[eTimeDependent; eOtherUserDefined; eI]; []; []] example_members
  = Fatal "Unknown USERDEFINEDTYPE boundary condition".
Proof.
  refine (proj1 (proj1 (X17_boundary_condition_check example_header
    (example_session "UnsteadyNavierStokes") 2 3
    [[eTimeDependent; eOtherUserDefined; eI]; []; []] example_members
    [Some 0%nat; Some 1%nat] 6 [eTimeDependent; eOtherUserDefined; eI]
    _ _ _ _) _) _).
  - reflexivity.
  - simpl. lia.
  - reflexivity.
  - reflexivity.
  - left. reflexivity.
  - apply elem_of_cons. right. apply elem_of_cons. left. reflexivity.
Defined.

(** A steady Oseen session: the equation type has the index 2, the number
    of constitutive models of [example_header]. *)
Lemma X18_viscoelastic_type_check_witness :
  v_InitObject example_header (example_session "SteadyOseen") 2 3
    [[]; []; []] example_members
  = Fatal "VISELTYPE not found in SOLVERINFO section".
Proof.
  refine (proj1 (X18_viscoelastic_type_check example_header
    (example_session "SteadyOseen") 2 3 [[]; []; []] example_members
    [Some 0%nat; Some 1%nat] 2 (mb_io example_members) _ _ _ _ _) _).
  - reflexivity.
  - simpl. lia.
  - reflexivity.
  - discriminate.
  - reflexivity.
  - reflexivity.
Defined.

End InitObjectExamples.
